(* ===== verification/_CoqProject ===== *)
-Q . S2P
Prelude.v
BitWriter.v
Format.v
Suffixes.v
MatchFinder.v
Tables.v
Huffman.v
HuffmanBuild.v
CodeLengths.v
Block.v
Parser.v
Lz77.v
Deflate.v
Split.v
Stream.v
Driver.v
Compress.v
