(* ===== verification/Prelude.v ===== *)
(** * A verification development for zultra, an optimal DEFLATE compressor

    zultra ([src/]) compresses a byte stream into DEFLATE blocks (RFC 1951),
    optionally wrapped as zlib or gzip.  Its parts, bottom up:
    - the bit writer ([src/huffman/bitwriter.c]) packs bit fields LSB first
      into an output buffer with a hard limit;
    - the Huffman encoder ([src/huffman/huffencoder.c]) turns symbol
      frequencies into code lengths (Moffat-Katajainen, then a length
      limiter), issues canonical codewords, writes codewords, and sends
      the code-length tables of a dynamic block run-length coded;
    - the block encoder ([src/blockdeflate.c]) maps lengths and offsets to
      DEFLATE symbols through static tables, parses each block optimally
      against the current code lengths, splits blocks and writes them;
    - the stream layer ([src/libzultra.c]) buffers the input in chunks,
      drives blocks over each chunk, falls back to stored blocks, and
      wraps the stream in the frame of [frame.c]; the match finder ([src/matchfinder.c])
      supplies candidate matches from a suffix array.

    Files of this library, in dependency order:
    - [Prelude] (this file): C arrays as [list Z] ([aget], [aset], notation
      [a.[i]] and [a.[i := v]] in [zultra_scope]), w-bit wrap-around
      ([wrap]), bit lists LSB first ([bits_of], [bytes_bits], [bits_to_Z]),
      sums over lists ([zsum], invariant under permutation), the executable
      bounded quantifier [forallZ], the tactics [zlia], [bool_to_prop],
      [decide_by_eval], and the hint databases [zultra] / [zultra_rw].
    - [BitWriter] (Module [BitWriter]): [zultra_bitwriter_t] as a record and
      every function of [bitwriter.c]/[bitwriter.h]; the abstraction
      [bw_stream] (bytes written, then pending bits) and the invariant
      [bw_inv].  Theorems: [put_bits] appends exactly its bits or fails
      with -1 on overflow, [flush_bits] pads to a byte, the offset never
      passes its limit, and [put_bits] does not mask its value: bits of the
      value above [nBits] stay in the accumulator and land in the stream
      as the low bits of the next field.
    - [Format] (Module [Format]): the constants of [format.h] and
      [private.h] and [zultra_match_t].
    - [Suffixes] (Module [Suffixes]): the contract of the external suffix
      sorter as the class [SuffixSorter] (spec, section 6: a permutation
      of the positions sorted by their suffixes), the lexicographic order
      [lex_lt], the common prefix [lcp], Kasai's lemma [kasai], and a
      reference sorter (merge sort) as an instance.
    - [MatchFinder] (Module [MatchFinder]): every function of
      [matchfinder.c]: [zultra_build_suffix_array] (the Phi/PLCP loop with
      both arrays in [pos_data], the rotation into packed 32-bit words,
      the in-place LCP-interval tree with the [open_intervals] stack),
      [zultra_find_matches_at], [zultra_skip_matches] and
      [zultra_find_all_matches] with the per-slot clamping.  Theorems: the
      PLCP loop computes the LCP with the previous suffix in the array;
      the packed words decode; the packed array is the clamped LCP array
      but for the last rank, whose LCP is dropped (which loses matches);
      the stack keeps its root and stays within its allocation; every
      stored slot is empty or ends [LAST_LITERALS] before the block end.
    - [Tables] (Module [Tables]): the static symbol/base/extra-bit tables of
      [blockdeflate.c] copied entry for entry, with the index computations
      of [zultra_get_offset_symbol] and [zultra_get_varlen_symbol]; checked
      against RFC 1951, 3.2.5, for every offset in [1, 32768] and every
      length in [3, 258] by evaluating a boolean checker ([vm_compute]).
    - [Huffman] (Module [Huffman]): [zultra_huffman_encoder_t] and its
      operations (init, the index quicksort, the static and dynamic
      builders with the Moffat-Katajainen phases and the length limiter,
      write_codeword).  Theorems: the codeword loop computes, in closed
      form, the canonical code of RFC 1951, 3.2.2 (as the RFC's own
      algorithm [rfc_codes] computes it), the code is prefix-free as
      emitted, and [write_codeword] emits the RFC code MSB first; when a
      single symbol other than 0 is used, the estimate gives the one bit
      to symbol 0 and none to the used symbol.
    - [HuffmanBuild] (Module [HuffmanBuild]): the Kraft sum [kraft] scaled
      by [2^nMaxCodeLength] as the C code keeps it, and the specification
      of each loop of the length limiter ([limit_cap], [limit_lengthen],
      [limit_propagate], [limit_shorten], [limit_reduce]).  Theorem: the
      limiter turns lengths of at least one bit into a complete code
      within the maximum length, and its off-by-one loop bound is never
      used (the result equals [limit_lengths_in_bounds]).  The quicksort
      [zultra_huffman_encoder_qsort] is proved (Section [Sort]: its
      partition and recursion keep a permutation, touch only their range
      and sort it) to compute exactly stdpp's [merge_sort] under the
      comparator of the C code.
    - [CodeLengths] (Module [CodeLengths]): the run-length loop the three
      code-length functions share, modelled once over a [sink] record of
      effects and instantiated per C function; the trace sink records the
      effects as events.  Theorems: the events decode by RFC 1951, 3.2.7,
      to the original lengths for every mask; the writer emits exactly
      them; the size function counts exactly those bits; the entropy
      function counts exactly those symbols; even masks above 7 are
      redundant; the table-trimming functions.
    - [Block] (Module [Block]): the fields of [zultra_compressor_t] the
      block functions use, and the functions that cost and write one
      literal, one match length and one distance.  Theorems: each writer
      emits the RFC 1951 code of its value, exactly as many bits as the
      matching cost function says.
    - [Parser] (Module [Parser]): [zultra_optimize_matches_lwd], the
      backwards dynamic programme over positions, candidate matches and
      shortened lengths.  Theorems: the recorded cost of every position is
      the least cost of any parse of the rest of the block into literals
      and candidate matches (an inductive [parse] relation), and the
      recorded choices attain it; ties go to the longer length.
    - [Lz77] (Module [Lz77]): the four loops that walk a parse (initial and
      final entropy, post-optimisation, block writer) and the RFC 1951
      copy semantics [lz_decode].  Theorems: the parse decodes to the
      block, the writer emits the RFC code of every token and the
      end-of-block code, the entropy builders count the RFC symbols, and
      the post-optimisation keeps the block and never raises its cost.
    - [Deflate] (Module [Deflate]): the cost evaluations and
      [zultra_block_deflate] whole (static path; dynamic path with the
      convergence passes, RLE-smoothed tables, the run-length mask search,
      the table header).  Theorems: the data part of the dynamic estimate
      is exactly what the writer emits, the mask search returns the
      cheapest mask it tries, at least two distance codes are sent, and a
      cut long match at the block end is mispriced.
    - [Split] (Module [Split]): [zultra_compressor_split_subblock_recursive]
      and [zultra_block_split].  Theorems: the recursion and the scan
      terminate within their fuel, the splits partition the block and fit
      the caller's array, the counters stay consistent, and the 32-bit
      drift sum never wraps for blocks of at most 2 MiB.
    - [Stream] (Module [Stream]): the status codes of [libzultra.h], the
      size of [out_buffer], the stored-block fallback of
      [zultra_stream_compress] (its sub-block body and its loop, writing
      into the buffer the bit writer shares), the copy of [out_buffer] to
      the caller, and, as the specification, a decoder of RFC 1951 stored
      blocks.  Theorems: the fallback writes stored blocks that decode to
      the block's bytes, and it fails exactly when the buffer lacks room;
      the copy-out hands over the pending bytes in order; its size check
      tests a counter that is always 0 there.
    - [Driver] (Module [Driver]): the per-chunk part of
      [zultra_stream_compress]: [zultra_block_split], then one turn per
      split of the cost evaluation, the static/dynamic choice, the header
      bits, [zultra_block_deflate] and the rewind to the fallback.  It
      composes [Split], [Deflate] and [Stream].  Theorems: every writer
      function only appends (no committed byte is rewritten, which the
      rewind over the shared buffer needs), a block step with room for
      the stored form never fails and never writes more than that, and a
      split chunk is written to its end.
    - [Compress] (Module [Compress]): [zultra_stream_t] and the stream
      fields of [zultra_compressor_t] as records; [zultra_stream_init]
      (when its allocations succeed), [zultra_stream_set_dictionary],
      [zultra_memory_bound], and [zultra_stream_compress] whole, as one
      turn of its [do] loop composed of the header, the frame-byte copy,
      the dictionary, the input buffering, the chunk (checksum, suffix
      array and match search from [MatchFinder], blocks from [Driver],
      history copy, final padding), the copy-out from [Stream] and the
      footer, repeated with fuel by [compress_loop]; [zultra_memory_compress]
      on top.  The functions of [frame.c] and [LAST_MATCH_OFFSET] are
      variables of section [Stream].  Theorems: the caller's output only
      grows, so every buffer [zultra_memory_compress] fills starts with
      the frame header; an empty input gives the header alone, with no
      DEFLATE block and no footer.

    Loops are [Fixpoint]s with a fuel argument; each caller passes one
    more unit than the loop's iteration bound (the loop counter moves by
    at least one per iteration towards a bound the caller knows), so the
    fuel never runs out on the paths the theorems cover, and the theorems
    about whole loops prove that the loop reaches its exit.  The two
    exceptions are stated as theorems: the splitter's recursion, bounded
    by its depth limit 6 (fuel 7), and its scan, bounded by the block
    size (one byte per turn at least).  The loops of
    [zultra_find_matches_at] follow links between intervals and positions;
    their fuel is one step per entry of [intervals] (one per window
    position), which bounds the intervals on a path to the root, and the
    theorems about the queries hold whatever the fuel.  [zultra_memory_compress]
    gives its single call [2 * (input + output room) + 1] turns
    ([memory_fuel]); the theorems about it hold for any fuel of at least
    one turn.  C [int]s are [Z]; where the C code
    relies on unsigned 32-bit wrap-around ([wrap 32]) it is written out.
    Status returns are the first component of a pair with the new state,
    as the C functions return a status and mutate their context.

    Not modelled: [libdivsufsort] (a library the sources only call,
    present through its contract [Suffixes.SuffixSorter]), the
    frame wrappers and checksums ([frame.c] is not part of [src/]), the
    dictionary loader (file I/O), the command-line tool, and
    [zultra_huffman_encoder_optimize_for_rle] (declared in [huffutils.h],
    its source is not part of [src/]; [zultra_block_deflate] and the
    driver are defined for any implementation of it).  In
    [libzultra.c], the allocation failures of [zultra_stream_init]
    ([ZULTRA_ERROR_MEMORY]) and [zultra_stream_end], which only releases
    memory, are not modelled; the arrays [zalloc] returns uninitialised
    ([intervals], [pos_data], [match], [best_match]) start as zeros in
    the model.  Of the match finder, what
    is not proved is that a reported match copies equal bytes from an
    earlier position: that rests on the invariant of the visited links of
    the wimlib algorithm, which the development does not state.
    [LAST_MATCH_OFFSET], used by [zultra_find_all_matches], is defined in
    no header of the repository and is a parameter of the model. *)

From Stdlib Require Export ZArith Lia Sorted.
From stdpp Require Export base list sets sorting.

Open Scope Z_scope.

Declare Scope zultra_scope.
Delimit Scope zultra_scope with zu.

Create HintDb zultra.
Create Rewrite HintDb zultra_rw.

(** [lia] does not reason about [Z.div] and [Z.modulo] by itself: [zlia]
    first replaces each quotient and remainder by its defining equations. *)
Ltac zlia := Z.div_mod_to_equations; lia.


(** ** C arrays

    An [int] or [unsigned int] array of the C code is a [list Z]; the index
    is a C [int], hence a [Z].  [aget] reads element [i] and [aset] writes
    it.  Reads outside the array are undefined behaviour in C; the model
    returns 0 there so that it stays total, and every theorem that depends
    on a read states the bound it needs.  Writes outside the array leave it
    unchanged (stdpp's list insert). *)

Definition aget (a : list Z) (i : Z) : Z :=
  match a !! Z.to_nat i with Some v => v | None => 0 end.

Definition aset (a : list Z) (i v : Z) : list Z := <[Z.to_nat i := v]> a.

(** [a[i]++] *)
Definition aincr (a : list Z) (i : Z) : list Z := aset a i (aget a i + 1).

(** [tmp = a[i]; a[i] = a[j]; a[j] = tmp;] *)
Definition aswap (a : list Z) (i j : Z) : list Z := aset (aset a i (aget a j)) j (aget a i).

(** [0, 1, ..., n - 1] as C ints. *)
Definition zseq (lo : Z) (n : nat) : list Z := map (fun k => lo + Z.of_nat k) (seq 0 n).

Notation "a .[ i ]" := (aget a i) (at level 1, left associativity, format "a .[ i ]") : zultra_scope.
Notation "a .[ i := v ]" := (aset a i v) (at level 1, left associativity, format "a .[ i  :=  v ]") : zultra_scope.

Open Scope zultra_scope.

(** ** Machine integers

    [wrap w x] is [x] reduced to an unsigned [w]-bit integer, the value a C
    [unsigned] variable of that width holds after an assignment. *)

Definition wrap (w x : Z) : Z := Z.land x (Z.ones w).

Lemma shiftr_small c l : 0 <= l -> 0 <= c < 2 ^ l -> Z.shiftr c l = 0.
Proof. intros Hl Hc. rewrite Z.shiftr_div_pow2 by done. by apply Z.div_small. Qed.

(** ** Bits, least significant first

    [bits_of v n] is the list of the [n] low bits of [v], least
    significant first: the order in which the DEFLATE bit writer transmits
    them. *)

Definition bits_of (v : Z) (n : nat) : list bool :=
  map (fun k => Z.testbit v (Z.of_nat k)) (seq 0 n).

(** The bits of a list of bytes, in transmission order. *)
Definition bytes_bits (l : list Z) : list bool := mjoin (map (fun b => bits_of b 8) l).

(** The integer whose bits, least significant first, are [bs]. *)
Fixpoint bits_to_Z (bs : list bool) : Z :=
  match bs with
  | [] => 0
  | b :: r => Z.b2z b + 2 * bits_to_Z r
  end.

(** ** Sums over lists *)

(** [zsum f l] is the sum of [f x] over the members [x] of [l]. *)
Definition zsum {A} (f : A -> Z) (l : list A) : Z := foldr (fun x acc => f x + acc) 0 l.

(** ** Exhaustive checks *)

(** [forallZ f lo n] checks [f] on the [n] integers from [lo]: an
    executable bounded quantifier, evaluated by [vm_compute]. *)
(** The number of occurrences of [x] in [l]. *)
Definition zcount (x : Z) (l : list Z) : Z := Z.of_nat (length (filter (fun y => y = x) l)).

Fixpoint forallZ (f : Z -> bool) (lo : Z) (n : nat) : bool :=
  match n with
  | O => true
  | S n' => f lo && forallZ f (lo + 1) n'
  end.

(** ** Lemmas on arrays *)

Lemma length_aset a i v : length (a.[i := v]) = length a.
Proof. unfold aset. apply length_insert. Qed.

Lemma aget_aset_eq a i v : 0 <= i < Z.of_nat (length a) -> (a.[i := v]).[i] = v.
Proof.
  intros Hi. unfold aget, aset. rewrite list_lookup_insert_eq; [done | lia].
Qed.

Lemma aget_aset_ne a i j v : 0 <= i -> 0 <= j -> i <> j -> (a.[i := v]).[j] = a.[j].
Proof.
  intros Hi Hj Hne. unfold aget, aset. rewrite list_lookup_insert_ne; [done | lia].
Qed.

Lemma aget_out a i : Z.of_nat (length a) <= i -> a.[i] = 0.
Proof. intros Hi. unfold aget. rewrite lookup_ge_None_2; [done | lia]. Qed.

Lemma aget_replicate (n : nat) (v i : Z) : 0 <= i < Z.of_nat n -> (replicate n v).[i] = v.
Proof. intros Hi. unfold aget. rewrite lookup_replicate_2; [done | lia]. Qed.

Lemma length_aincr a i : length (aincr a i) = length a.
Proof. apply length_aset. Qed.

#[export] Hint Rewrite length_aset length_aincr : zultra_rw.

Lemma zcount_nil x : zcount x [] = 0.
Proof. done. Qed.

Lemma zcount_cons x y l : zcount x (y :: l) = (if decide (y = x) then 1 else 0) + zcount x l.
Proof. unfold zcount. rewrite filter_cons. destruct (decide (y = x)); simpl; lia. Qed.

Lemma zcount_app x l1 l2 : zcount x (l1 ++ l2) = zcount x l1 + zcount x l2.
Proof. unfold zcount. rewrite filter_app, length_app. lia. Qed.

(** Counting by increments: [a[x]++] for each [x] of [l]. *)
Lemma aget_foldl_aincr a l k :
  Forall (fun x => 0 <= x) l -> 0 <= k < Z.of_nat (length a) ->
  (foldl aincr a l).[k] = a.[k] + zcount k l.
Proof.
  revert a. induction l as [|x l IH]; intros a Hl Hk; simpl; [unfold zcount; simpl; lia |].
  apply Forall_cons in Hl as [Hx Hl]. rewrite IH by (try done; unfold aincr; rewrite length_aset; lia).
  rewrite zcount_cons. unfold aincr. destruct (decide (x = k)) as [-> | Hne].
  - rewrite aget_aset_eq by lia. lia.
  - rewrite aget_aset_ne by lia. lia.
Qed.

(** ** Lemmas on bit lists *)

Lemma length_bits_of v n : length (bits_of v n) = n.
Proof. unfold bits_of. by rewrite length_map, length_seq. Qed.

#[export] Hint Rewrite length_bits_of : zultra_rw.

Lemma bits_of_ext a b n :
  (forall k, 0 <= k < Z.of_nat n -> Z.testbit a k = Z.testbit b k) ->
  bits_of a n = bits_of b n.
Proof.
  intros H. unfold bits_of. apply map_ext_in. intros k Hk.
  apply in_seq in Hk. apply H. lia.
Qed.

Lemma map_seq_shift {A} (f : nat -> A) (a b : nat) :
  map f (seq a b) = map (fun k => f (a + k)%nat) (seq 0 b).
Proof.
  induction b as [|b IH]; [done |].
  rewrite !seq_S, !map_app, IH. simpl. done.
Qed.

Lemma bits_of_add v (a b : nat) :
  0 <= v -> bits_of v (a + b) = bits_of v a ++ bits_of (Z.shiftr v (Z.of_nat a)) b.
Proof.
  intros Hv. unfold bits_of. rewrite seq_app, map_app. f_equal.
  rewrite map_seq_shift. apply map_ext. intros k.
  rewrite Z.shiftr_spec by lia. f_equal. lia.
Qed.

Lemma bits_of_mod v n : bits_of (v mod 2 ^ Z.of_nat n) n = bits_of v n.
Proof.
  apply bits_of_ext. intros k Hk. rewrite Z.mod_pow2_bits_low; [done | lia].
Qed.

Lemma bits_of_zero n : bits_of 0 n = replicate n false.
Proof.
  unfold bits_of. apply list_eq. intros i. rewrite list_lookup_fmap.
  destruct (decide (i < n)%nat).
  - rewrite lookup_seq_lt, lookup_replicate_2 by lia. simpl. by rewrite Z.testbit_0_l.
  - rewrite lookup_seq_ge, (proj1 (lookup_replicate_None _ _ _)) by lia. done.
Qed.

(** Or-ing a value shifted past the [a] low bits of [x] is an addition. *)
Lemma lor_shiftl_add x y a :
  0 <= a -> 0 <= x < 2 ^ a -> Z.lor x (Z.shiftl y a) = x + y * 2 ^ a.
Proof.
  intros Ha Hx. rewrite <- Z.shiftl_mul_pow2 by lia.
  rewrite Z.add_nocarry_lor; [done |].
  apply Z.bits_inj'. intros n Hn. rewrite Z.land_spec, Z.bits_0.
  destruct (Z.lt_ge_cases n a).
  - rewrite Z.shiftl_spec_low by lia. apply andb_false_r.
  - rewrite (proj1 (Z.bounded_iff_bits_nonneg a x ltac:(lia) ltac:(lia)) (proj2 Hx) n) by lia. done.
Qed.

Lemma lor_shiftl_bound x y a b :
  0 <= a -> 0 <= b -> 0 <= x < 2 ^ a -> 0 <= y < 2 ^ b ->
  0 <= Z.lor x (Z.shiftl y a) < 2 ^ (a + b).
Proof.
  intros Ha Hb Hx Hy. rewrite lor_shiftl_add by lia. rewrite Z.pow_add_r by lia. nia.
Qed.

(** Appending [b] bits of [y] after the [a] bits of [x]. *)
Lemma bits_of_lor_shiftl x y (a b : nat) :
  0 <= x < 2 ^ Z.of_nat a -> 0 <= y ->
  bits_of (Z.lor x (Z.shiftl y (Z.of_nat a))) (a + b) = bits_of x a ++ bits_of y b.
Proof.
  intros Hx Hy. rewrite lor_shiftl_add by lia.
  assert (0 < 2 ^ Z.of_nat a) by lia.
  rewrite bits_of_add by nia. f_equal.
  - assert (Hm : (x + y * 2 ^ Z.of_nat a) mod 2 ^ Z.of_nat a = x)
      by (rewrite Z_mod_plus_full; apply Z.mod_small; lia).
    rewrite <- (bits_of_mod (x + y * 2 ^ Z.of_nat a) a), Hm. done.
  - f_equal. rewrite Z.shiftr_div_pow2 by lia.
    rewrite Z.div_add by lia. rewrite Z.div_small by lia. lia.
Qed.

Lemma bytes_bits_app l1 l2 : bytes_bits (l1 ++ l2) = bytes_bits l1 ++ bytes_bits l2.
Proof. unfold bytes_bits. by rewrite map_app, join_app. Qed.

Lemma bytes_bits_one b : bytes_bits [b] = bits_of b 8.
Proof. unfold bytes_bits. cbn -[bits_of]. apply app_nil_r. Qed.

Lemma length_bytes_bits l : length (bytes_bits l) = (8 * length l)%nat.
Proof.
  induction l as [|b l IH]; [done |].
  change (b :: l) with ([b] ++ l).
  rewrite bytes_bits_app, length_app, bytes_bits_one, length_bits_of, IH. simpl. lia.
Qed.

#[export] Hint Rewrite bytes_bits_app bytes_bits_one length_bytes_bits : zultra_rw.

Lemma wrap_small w x : 0 <= w -> 0 <= x < 2 ^ w -> wrap w x = x.
Proof. intros Hw Hx. unfold wrap. rewrite Z.land_ones by lia. by apply Z.mod_small. Qed.

Lemma wrap_mod w x : 0 <= w -> wrap w x = x mod 2 ^ w.
Proof. intros Hw. unfold wrap. by rewrite Z.land_ones. Qed.

Lemma wrap_bound w x : 0 <= w -> 0 <= wrap w x < 2 ^ w.
Proof. intros Hw. rewrite wrap_mod by done. apply Z.mod_pos_bound. lia. Qed.

Lemma bits_to_Z_bound bs : 0 <= bits_to_Z bs < 2 ^ Z.of_nat (length bs).
Proof.
  induction bs as [|b r IH]; simpl; [lia |].
  rewrite Nat2Z.inj_succ, Z.pow_succ_r by lia. destruct b; simpl; lia.
Qed.

Lemma bits_to_Z_app bs1 bs2 :
  bits_to_Z (bs1 ++ bs2) = bits_to_Z bs1 + 2 ^ Z.of_nat (length bs1) * bits_to_Z bs2.
Proof.
  induction bs1 as [|b r IH]; simpl; [lia |].
  rewrite IH, Nat2Z.inj_succ, Z.pow_succ_r by lia. lia.
Qed.

Lemma bits_to_Z_replicate_false n : bits_to_Z (replicate n false) = 0.
Proof. induction n as [|n IH]; simpl; lia. Qed.

Lemma bits_of_bits_to_Z bs : bits_of (bits_to_Z bs) (length bs) = bs.
Proof.
  induction bs as [|b r IH]; [done |]. simpl length.
  replace (S (length r)) with (1 + length r)%nat by lia.
  pose proof (bits_to_Z_bound r).
  rewrite bits_of_add by (destruct b; simpl; lia).
  replace (Z.shiftr (bits_to_Z (b :: r)) (Z.of_nat 1)) with (bits_to_Z r).
  - rewrite IH. unfold bits_of at 1. simpl. f_equal. rewrite Z.odd_add_mul_2. by destruct b.
  - simpl. rewrite Z.shiftr_div_pow2 by lia. change (2 ^ Z.of_nat 1) with 2.
    destruct b; simpl; zlia.
Qed.

Lemma bits_to_Z_bits_of v n : 0 <= v < 2 ^ Z.of_nat n -> bits_to_Z (bits_of v n) = v.
Proof.
  revert v. induction n as [|n IH]; intros v Hv.
  - simpl in Hv. unfold bits_of. simpl. lia.
  - replace (S n) with (1 + n)%nat by lia. rewrite bits_of_add by lia.
    unfold bits_of at 1. simpl. rewrite IH.
    + rewrite Z.shiftr_div_pow2 by lia. change (2 ^ Z.of_nat 1) with 2.
      pose proof (Z.div2_odd v) as Hv2. rewrite Z.div2_div in Hv2. lia.
    + rewrite Z.shiftr_div_pow2 by lia. change (2 ^ Z.of_nat 1) with 2.
      rewrite Nat2Z.inj_succ, Z.pow_succ_r in Hv by lia. zlia.
Qed.

(** Two [n]-bit values with the same [n] bits are equal. *)
Lemma bits_of_inj a b n :
  0 <= a < 2 ^ Z.of_nat n -> 0 <= b < 2 ^ Z.of_nat n -> bits_of a n = bits_of b n -> a = b.
Proof.
  intros Ha Hb H. rewrite <- (bits_to_Z_bits_of a n), <- (bits_to_Z_bits_of b n) by done.
  by rewrite H.
Qed.

(** Most-significant-bit-first codes: the [la]-bit code [ca] is a prefix of
    the [lb]-bit code [cb] only if [la <= lb] and the [la] high bits of
    [cb] are [ca]. *)
Lemma msb_prefix ca cb (la lb : nat) :
  0 <= ca < 2 ^ Z.of_nat la -> 0 <= cb < 2 ^ Z.of_nat lb ->
  reverse (bits_of ca la) `prefix_of` reverse (bits_of cb lb) ->
  (la <= lb)%nat /\ Z.shiftr cb (Z.of_nat (lb - la)) = ca.
Proof.
  intros Ha Hb [l3 H].
  assert (Hle : (la <= lb)%nat).
  { apply (f_equal length) in H. rewrite length_app, !length_reverse, !length_bits_of in H. lia. }
  split; [done |].
  replace lb with ((lb - la) + la)%nat in H by lia.
  rewrite bits_of_add, reverse_app in H by lia.
  apply app_inj_1 in H as [H _]; [| by rewrite !length_reverse, !length_bits_of].
  apply (inj reverse) in H. symmetry. apply (bits_of_inj _ _ la); [done | | done].
  rewrite Z.shiftr_div_pow2 by lia. split; [apply Z.div_pos; lia |].
  apply Z.div_lt_upper_bound; [lia |]. rewrite <- Z.pow_add_r by lia.
  replace (Z.of_nat (lb - la) + Z.of_nat la) with (Z.of_nat lb) by lia. lia.
Qed.

(** ** Lists *)

(** Two distinct members of a list: one comes before the other. *)
Lemma list_two_positions {A} (q : list A) a b :
  a ∈ q -> b ∈ q -> a <> b ->
  (exists l1 l2 l3, q = l1 ++ a :: l2 ++ b :: l3) \/
  (exists l1 l2 l3, q = l1 ++ b :: l2 ++ a :: l3).
Proof.
  intros Ha Hb Hne. apply list_elem_of_split in Ha as (l1 & l2 & ->).
  apply elem_of_app in Hb as [Hb | Hb].
  - apply list_elem_of_split in Hb as (k1 & k2 & ->). right.
    exists k1, k2, l2. by rewrite <- app_assoc.
  - apply elem_of_cons in Hb as [-> | Hb]; [done |].
    apply list_elem_of_split in Hb as (k1 & k2 & ->). left. by exists l1, k1, k2.
Qed.

Lemma Sorted_weaken {A} (R1 R2 : A -> A -> Prop) l :
  (forall x y, R1 x y -> R2 x y) -> Sorted R1 l -> Sorted R2 l.
Proof.
  intros HR Hs. induction Hs as [|x l Hs IH Hd]; constructor; [done |].
  destruct Hd; constructor; auto.
Qed.

(** In a strongly sorted list, [x] is related to every element after it. *)
Lemma StronglySorted_after {A} (R : A -> A -> Prop) l1 x l2 :
  StronglySorted R (l1 ++ x :: l2) -> Forall (R x) l2.
Proof.
  induction l1 as [|y l1 IH]; intros H.
  - by apply StronglySorted_inv in H as [_ H].
  - apply StronglySorted_inv in H as [H _]. by apply IH.
Qed.

Lemma zseq_S lo n : zseq lo (S n) = lo :: zseq (lo + 1) n.
Proof.
  unfold zseq. simpl. rewrite <- seq_shift, map_map. f_equal; [lia |].
  apply map_ext. lia.
Qed.

Lemma zseq_app lo (a b : nat) : zseq lo (a + b) = zseq lo a ++ zseq (lo + Z.of_nat a) b.
Proof.
  revert lo. induction a as [|a IH]; intros lo; [simpl; by rewrite Z.add_0_r |].
  rewrite Nat.add_succ_l, !zseq_S, IH. simpl. do 3 f_equal. lia.
Qed.

Lemma elem_of_zseq lo n x : x ∈ zseq lo n <-> lo <= x < lo + Z.of_nat n.
Proof.
  revert lo. induction n as [|n IH]; intros lo.
  - simpl. split; [intros Hx; inversion Hx | lia].
  - rewrite zseq_S, elem_of_cons, IH. lia.
Qed.

Lemma NoDup_zseq lo n : NoDup (zseq lo n).
Proof.
  revert lo. induction n as [|n IH]; intros lo; [constructor |].
  rewrite zseq_S. constructor; [| apply IH]. rewrite elem_of_zseq. lia.
Qed.

(** [a.[i]] is an element of [a] when [i] is in range. *)
Lemma aget_lookup a i : 0 <= i < Z.of_nat (length a) -> a !! Z.to_nat i = Some a.[i].
Proof.
  intros Hi. unfold aget. destruct (a !! Z.to_nat i) eqn:E; [done |].
  apply lookup_ge_None in E. lia.
Qed.

(** A prefix of [a] grows by a run of equal elements. *)
Lemma take_extend a i m v :
  0 <= i -> 0 <= m -> i + m <= Z.of_nat (length a) ->
  (forall k, i <= k < i + m -> a.[k] = v) ->
  take (Z.to_nat (i + m)) a = take (Z.to_nat i) a ++ replicate (Z.to_nat m) v.
Proof.
  intros Hi Hm Hl Hv.
  assert (H : forall k : nat, (k <= Z.to_nat m)%nat ->
            take (Z.to_nat (i + Z.of_nat k)) a = take (Z.to_nat i) a ++ replicate k v).
  { induction k as [|k IH]; intros Hk; [by rewrite Z.add_0_r, app_nil_r |].
    replace (Z.to_nat (i + Z.of_nat (S k))) with (S (Z.to_nat (i + Z.of_nat k))) by lia.
    rewrite (take_S_r _ _ v).
    - rewrite IH by lia. by rewrite replicate_S_end, app_assoc.
    - rewrite <- (Hv (i + Z.of_nat k)) by lia. apply aget_lookup. lia. }
  rewrite <- H by lia. f_equal. lia.
Qed.


Lemma aget_cons x l i : 0 < i -> (x :: l).[i] = l.[i - 1].
Proof.
  intros Hi. unfold aget. replace (Z.to_nat i) with (S (Z.to_nat (i - 1))) by lia. done.
Qed.

Lemma aget_map_zseq (f : Z -> Z) lo (n : nat) i :
  0 <= i < Z.of_nat n -> (map f (zseq lo n)).[i] = f (lo + i).
Proof.
  revert lo i. induction n as [|n IH]; intros lo i Hi; [lia |].
  rewrite zseq_S. simpl map. destruct (Z.eq_dec i 0) as [-> | Hne].
  - by rewrite Z.add_0_r.
  - rewrite aget_cons, IH by lia. f_equal. lia.
Qed.

(** In a strongly sorted list, every element before [x] is related to [x]. *)
Lemma StronglySorted_before {A} (R : A -> A -> Prop) l1 x l2 :
  StronglySorted R (l1 ++ x :: l2) -> Forall (fun y => R y x) l1.
Proof.
  induction l1 as [|y l1 IH]; intros H; [constructor |].
  apply StronglySorted_inv in H as [H Hy]. constructor; [| by apply IH].
  rewrite Forall_forall in Hy. apply Hy. set_solver.
Qed.

(** ** Lemmas on sums *)

Section Sums.
Context {A : Type}.
Implicit Types (f g : A -> Z) (l : list A).

Lemma zsum_cons f x l : zsum f (x :: l) = f x + zsum f l.
Proof. done. Qed.

Lemma zsum_app f l1 l2 : zsum f (l1 ++ l2) = zsum f l1 + zsum f l2.
Proof. induction l1 as [|x l1 IH]; simpl; lia. Qed.

Lemma zsum_ext f g l : (forall x, x ∈ l -> f x = g x) -> zsum f l = zsum g l.
Proof.
  induction l as [|x l IH]; intros H; simpl; [done |].
  rewrite (H x), IH; [done | | set_solver]. intros y Hy. apply H. set_solver.
Qed.

Lemma zsum_plus f g l : zsum (fun x => f x + g x) l = zsum f l + zsum g l.
Proof. induction l as [|x l IH]; simpl; lia. Qed.

Lemma zsum_scale c f l : zsum (fun x => c * f x) l = c * zsum f l.
Proof. induction l as [|x l IH]; simpl; lia. Qed.

Lemma zsum_nonneg f l : (forall x, x ∈ l -> 0 <= f x) -> 0 <= zsum f l.
Proof.
  induction l as [|x l IH]; intros H; simpl; [lia |].
  pose proof (H x ltac:(set_solver)). pose proof (IH ltac:(intros y Hy; apply H; set_solver)). lia.
Qed.

Lemma zsum_filter (P : A -> Prop) `{!forall x, Decision (P x)} f l :
  zsum f (filter P l) = zsum (fun x => if decide (P x) then f x else 0) l.
Proof.
  induction l as [|x l IH]; [done |]. rewrite filter_cons.
  rewrite zsum_cons; cbv beta. destruct (decide (P x)); rewrite ?zsum_cons; lia.
Qed.

Lemma zsum_length_filter (P : A -> Prop) `{!forall x, Decision (P x)} l :
  Z.of_nat (length (filter P l)) = zsum (fun x => if decide (P x) then 1 else 0) l.
Proof.
  induction l as [|x l IH]; [done |]. rewrite filter_cons.
  rewrite zsum_cons; cbv beta. destruct (decide (P x)); cbn [length]; lia.
Qed.

(** A sum of multiples of [d] divided by [d]. *)
Lemma zsum_div d f l :
  0 < d -> (forall x, x ∈ l -> (d | f x)) -> zsum f l / d = zsum (fun x => f x / d) l.
Proof.
  intros Hd. induction l as [|x l IH]; intros H; [done |]. rewrite !zsum_cons; cbv beta.
  destruct (H x ltac:(set_solver)) as [k Hk]. rewrite Hk, Z.div_mul by lia.
  rewrite <- IH by (intros y Hy; apply H; set_solver).
  by rewrite Z.div_add_l by lia.
Qed.

Lemma zsum_zero f l : (forall x, x ∈ l -> f x = 0) -> zsum f l = 0.
Proof. intros H. rewrite (zsum_ext f (fun x => 0 * 0) l H), zsum_scale. lia. Qed.

#[export] Instance zsum_perm f : Proper ((≡ₚ) ==> (=)) (zsum f).
Proof. intros l1 l2 Hp. induction Hp; simpl; lia. Qed.

Lemma zsum_mjoin {B} f (g : B -> list A) (l : list B) :
  zsum f (mjoin (map g l)) = zsum (fun y => zsum f (g y)) l.
Proof. induction l as [|y l IH]; [done |]. simpl. rewrite zsum_app, IH. done. Qed.

End Sums.

#[export] Hint Rewrite @zsum_app @zsum_plus @zsum_scale : zultra_rw.

(** ** Counting with a histogram *)

Lemma zsum_single (f : Z -> Z) x r :
  NoDup r -> x ∈ r -> zsum (fun i => (if decide (x = i) then 1 else 0) * f i) r = f x.
Proof.
  induction r as [|y r IH]; intros Hnd Hx; [set_solver |]. apply NoDup_cons in Hnd as [Hy Hnd].
  rewrite zsum_cons; cbv beta. destruct (decide (x = y)) as [-> | Hne].
  - rewrite zsum_zero; [lia |]. intros i Hi. rewrite decide_False; [lia | set_solver].
  - rewrite IH; [lia | done | set_solver].
Qed.

(** Double counting: weighing each index of [r] by the number of times it
    occurs in [l] adds up the weights of the elements of [l]. *)
Lemma zsum_zcount (f : Z -> Z) l r :
  NoDup r -> (forall x, x ∈ l -> x ∈ r) -> zsum (fun i => zcount i l * f i) r = zsum f l.
Proof.
  intros Hnd. induction l as [|x l IH]; intros Hl.
  - apply zsum_zero. intros i _. rewrite zcount_nil. lia.
  - rewrite (zsum_ext _ (fun i => (if decide (x = i) then 1 else 0) * f i + zcount i l * f i));
      [| intros i _; rewrite zcount_cons; lia].
    rewrite zsum_plus, zsum_single, IH by (try done; set_solver). done.
Qed.

(** ** Exhaustive checks and boolean tests *)

Lemma forallZ_spec f lo n :
  forallZ f lo n = true -> forall z, lo <= z < lo + Z.of_nat n -> f z = true.
Proof.
  revert lo. induction n as [|n IH]; intros lo H z Hz; simpl in *; [lia |].
  apply andb_prop in H as [H1 H2].
  destruct (Z.eq_dec z lo) as [->|]; [done |]. apply (IH (lo + 1)); [done | lia].
Qed.

Lemma forallZ_prop (P : Z -> Prop) `{!forall z, Decision (P z)} lo n :
  forallZ (fun z => bool_decide (P z)) lo n = true -> forall z, lo <= z < lo + Z.of_nat n -> P z.
Proof. intros Hf z Hz. pose proof (forallZ_spec _ lo n Hf z Hz) as Hb. by apply bool_decide_eq_true in Hb. Qed.

(** Prove a decidable proposition on concrete data by evaluation. *)
Ltac decide_by_eval := match goal with |- ?P => apply (bool_decide_unpack P); vm_compute; exact I end.

(** Turn the boolean tests of a checker into propositions. *)
Ltac bool_to_prop :=
  repeat match goal with
  | H : _ && _ = true |- _ => apply andb_prop in H as [? ?]
  | H : (_ <=? _) = true |- _ => apply Z.leb_le in H
  | H : (_ <? _) = true |- _ => apply Z.ltb_lt in H
  | H : (_ =? _) = true |- _ => apply Z.eqb_eq in H
  | H : (_ <=? _) = false |- _ => apply Z.leb_gt in H
  | H : (_ <? _) = false |- _ => apply Z.ltb_ge in H
  end.

(** ** Arrays equal at every index *)

Lemma aget_ext a b :
  length a = length b -> (forall i, 0 <= i < Z.of_nat (length a) -> a.[i] = b.[i]) -> a = b.
Proof.
  intros Hl H. apply list_eq. intros k. destruct (decide (k < length a)%nat).
  - rewrite <- (Nat2Z.id k), !aget_lookup by lia. f_equal. apply H. lia.
  - rewrite !lookup_ge_None_2 by lia. done.
Qed.

(** [for (i = lo; i < lo + n; i++) a[i] = v;] *)
Lemma aget_fill a lo n v k :
  0 <= lo -> 0 <= k < Z.of_nat (length a) ->
  (foldl (fun a i => a.[i := v]) a (zseq lo n)).[k] =
    if (lo <=? k) && (k <? lo + Z.of_nat n) then v else a.[k].
Proof.
  revert lo a. induction n as [|n IH]; intros lo a Hlo Hk.
  - simpl. destruct (lo <=? k) eqn:E1; [| done]. destruct (k <? _) eqn:E2; [bool_to_prop; lia | done].
  - rewrite zseq_S. cbn [foldl]. rewrite IH by (rewrite ?length_aset; lia).
    destruct (Z.eq_dec k lo) as [-> | Hne].
    + rewrite aget_aset_eq by lia.
      destruct (lo + 1 <=? lo) eqn:E1, (lo <=? lo) eqn:E2, (lo <? lo + Z.of_nat (S n)) eqn:E3;
        bool_to_prop; simpl; try done; lia.
    + rewrite aget_aset_ne by lia.
      destruct (lo + 1 <=? k) eqn:E1, (k <? lo + 1 + Z.of_nat n) eqn:E2, (lo <=? k) eqn:E3,
        (k <? lo + Z.of_nat (S n)) eqn:E4; bool_to_prop; simpl; try done; lia.
Qed.

Lemma length_fill a l v : length (foldl (fun a i => a.[i := v]) a l) = length a.
Proof. revert a. induction l as [|x l IH]; intros a; simpl; [done |]. by rewrite IH, length_aset. Qed.

(** [a[k]++] seen at every index. *)
Lemma aget_aincr a k i :
  0 <= k < Z.of_nat (length a) -> 0 <= i -> (aincr a k).[i] = a.[i] + (if decide (k = i) then 1 else 0).
Proof.
  intros Hk Hi. unfold aincr. destruct (decide (k = i)) as [<- | Hne].
  - rewrite aget_aset_eq by lia. lia.
  - rewrite aget_aset_ne by lia. lia.
Qed.

Lemma zsum_aincr a k r :
  NoDup r -> k ∈ r -> (forall i, i ∈ r -> 0 <= i) -> 0 <= k < Z.of_nat (length a) ->
  zsum (aget (aincr a k)) r = zsum (aget a) r + 1.
Proof.
  intros Hnd Hk Hr Hka.
  rewrite (zsum_ext _ (fun i => a.[i] + (if decide (k = i) then 1 else 0) * (fun _ => 1) i))
    by (intros i Hi; rewrite aget_aincr by (try done; by apply Hr); lia).
  rewrite zsum_plus, zsum_single by done. done.
Qed.


(** ** [memcpy] into an array and the prefixes it fixes *)

Lemma zseq_one lo : zseq lo 1 = [lo].
Proof. unfold zseq. simpl. f_equal. lia. Qed.

(** [memcpy(dst + d, src + s, n)] *)
Definition memcpy (dst : list Z) (d : Z) (src : list Z) (s n : Z) : list Z :=
  foldl (fun a k => a.[d + k := src.[s + k]]) dst (zseq 0 (Z.to_nat n)).

Lemma length_foldl_aset (f g : Z -> Z) l a : length (foldl (fun a k => a.[f k := g k]) a l) = length a.
Proof. revert a. induction l as [|k l IH]; intros a; simpl; [done |]. by rewrite IH, length_aset. Qed.

Lemma length_memcpy dst d src s n : length (memcpy dst d src s n) = length dst.
Proof. apply length_foldl_aset. Qed.

#[export] Hint Rewrite length_memcpy : zultra_rw.

(** Writing [a[i]] extends the prefix that ends at [i] by [v]. *)
Lemma take_aset_end a i v :
  0 <= i < Z.of_nat (length a) -> take (Z.to_nat (i + 1)) (a.[i := v]) = take (Z.to_nat i) a ++ [v].
Proof.
  intros Hi. replace (Z.to_nat (i + 1)) with (S (Z.to_nat i)) by lia. unfold aset.
  rewrite (take_S_r _ _ v) by (apply list_lookup_insert_eq; lia).
  by rewrite take_insert_ge by lia.
Qed.

(** A write at or beyond the end of a prefix leaves it alone. *)
Lemma take_aset_le a i j v : 0 <= j <= i -> take (Z.to_nat j) (a.[i := v]) = take (Z.to_nat j) a.
Proof. intros Hj. unfold aset. apply take_insert_ge. lia. Qed.

(** [memcpy] extends the prefix that ends at [d] by the bytes it copies. *)
Lemma take_memcpy dst d src s n :
  0 <= d -> 0 <= n -> d + n <= Z.of_nat (length dst) ->
  take (Z.to_nat (d + n)) (memcpy dst d src s n) = take (Z.to_nat d) dst ++ map (aget src) (zseq s (Z.to_nat n)).
Proof.
  intros Hd Hn Hl. unfold memcpy. rewrite <- (Z2Nat.id n) in Hl |- * by lia. rewrite !Nat2Z.id.
  induction (Z.to_nat n) as [|m IH].
  - simpl. by rewrite Z.add_0_r, app_nil_r.
  - replace (S m) with (m + 1)%nat by lia.
    rewrite (zseq_app 0 m 1), (zseq_app s m 1), foldl_app, map_app, !zseq_one. cbn [foldl map].
    replace (d + Z.of_nat (m + 1)) with ((d + (0 + Z.of_nat m)) + 1) by lia.
    rewrite take_aset_end.
    + replace (d + (0 + Z.of_nat m)) with (d + Z.of_nat m) by lia.
      rewrite IH by lia. rewrite <- app_assoc. do 3 f_equal.
    + rewrite (length_foldl_aset (fun k => d + k) (fun k => src.[s + k])). lia.
Qed.
