(* ===== verification/BitWriter.v ===== *)
(** * The bit writer ([src/huffman/bitwriter.c], [bitwriter.h])

    The writer packs bit fields least significant bit first into a byte
    buffer.  Its state is the C struct [zultra_bitwriter_t]: a pending
    accumulator ([nEncBitsData], an [unsigned int], with [nEncBitCount]
    valid bits), the output buffer and the write offset with its limit.

    The abstraction [bw_stream] reads a writer as the list of bits it has
    produced: the bits of the bytes before the offset followed by the
    pending accumulator bits.  The theorems show that [put_bits] appends
    exactly the [nBits] low bits of its value to that stream, that it fails
    exactly when the buffer is too small, that [flush_bits] pads the stream
    to a byte boundary, and that the write offset never passes its limit,
    so that [get_offset] never reports an error, and that [put_bits] does
    not mask its value (the bits above [nBits] become the low bits of the
    next field; [bw_stream_ext] reads the accumulator past its count to
    state this).  [bw_extends] relates a
    writer to its later states (no committed byte rewritten), with the
    tactic [ext_walk] that proves it for a writer function from its body. *)

From S2P Require Import Prelude.

Module BitWriter.

(** [zultra_bitwriter_t] ([bitwriter.h]).  The pointer [pOutData] is the
    buffer itself; the C code writes it in place. *)
Record bitwriter := mk_bitwriter {
  nEncBitCount : Z;
  nEncBitsData : Z;
  pOutData : list Z;
  nOutOffset : Z;
  nMaxOutDataOffset : Z
}.

(** [zultra_bitwriter_init] *)
Definition bitwriter_init (out : list Z) (off max : Z) : bitwriter :=
  mk_bitwriter 0 0 out off max.

(** [zultra_bitwriter_copy]: a field-by-field copy, used to save the
    writer before a compressed block and to rewind to it. *)
Definition bitwriter_copy (src : bitwriter) : bitwriter :=
  mk_bitwriter (nEncBitCount src) (nEncBitsData src) (pOutData src)
    (nOutOffset src) (nMaxOutDataOffset src).

(** [zultra_bitwriter_get_offset] *)
Definition get_offset (bw : bitwriter) : Z :=
  if nOutOffset bw <=? nMaxOutDataOffset bw then nOutOffset bw else -1.

(** [zultra_bitwriter_set_offset] *)
Definition set_offset (bw : bitwriter) (off : Z) : bitwriter :=
  mk_bitwriter (nEncBitCount bw) (nEncBitsData bw) (pOutData bw) off (nMaxOutDataOffset bw).

(** The flushing loop of [zultra_bitwriter_put_bits]:
    [while (nEncBitCount >= 8) { ... }].  Each iteration moves one byte out
    of the accumulator; [fuel] bounds the number of iterations. *)
Fixpoint put_bits_flush (fuel : nat) (bw : bitwriter) : Z * bitwriter :=
  match fuel with
  | O => (0, bw)
  | S fuel' =>
      if 8 <=? nEncBitCount bw then
        if nMaxOutDataOffset bw <=? nOutOffset bw then (-1, bw)
        else put_bits_flush fuel'
               (mk_bitwriter (nEncBitCount bw - 8) (Z.shiftr (nEncBitsData bw) 8)
                  ((pOutData bw).[nOutOffset bw := wrap 8 (nEncBitsData bw)])
                  (nOutOffset bw + 1) (nMaxOutDataOffset bw))
      else (0, bw)
  end.

(** [zultra_bitwriter_put_bits]: returns the C status (0 or -1) with the
    new state.  On failure the state has still changed (the accumulator
    took the value, some bytes may have been written), as in C.  The loop
    gets one more iteration than the number of bytes in the accumulator. *)
Definition put_bits (bw : bitwriter) (nValue nBits : Z) : Z * bitwriter :=
  if 16 <? nBits then (-1, bw)
  else
    let data := wrap 32 (Z.lor (nEncBitsData bw) (wrap 32 (Z.shiftl nValue (nEncBitCount bw)))) in
    let count := nEncBitCount bw + nBits in
    put_bits_flush (S (Z.to_nat (count / 8)))
      (mk_bitwriter count data (pOutData bw) (nOutOffset bw) (nMaxOutDataOffset bw)).

(** [zultra_bitwriter_flush_bits] *)
Definition flush_bits (bw : bitwriter) : Z * bitwriter :=
  if 8 <? nEncBitCount bw then (-1, bw)
  else if 0 <? nEncBitCount bw then
    if nMaxOutDataOffset bw <=? nOutOffset bw then (-1, bw)
    else (0, mk_bitwriter 0 0
              ((pOutData bw).[nOutOffset bw :=
                 wrap 8 (Z.land (nEncBitsData bw) (Z.shiftl 1 (nEncBitCount bw) - 1))])
              (nOutOffset bw + 1) (nMaxOutDataOffset bw))
  else (0, bw).

(** ** Abstraction: the stream of bits written so far *)

Definition bw_stream (bw : bitwriter) : list bool :=
  bytes_bits (take (Z.to_nat (nOutOffset bw)) (pOutData bw))
  ++ bits_of (nEncBitsData bw) (Z.to_nat (nEncBitCount bw)).

(** The writer invariant between calls: fewer than 8 pending bits, no
    stray bit above them in the accumulator, the offset within its limit
    and the limit within the buffer. *)
Definition bw_inv (bw : bitwriter) : Prop :=
  0 <= nEncBitCount bw < 8 /\
  0 <= nEncBitsData bw < 2 ^ nEncBitCount bw /\
  0 <= nOutOffset bw <= nMaxOutDataOffset bw /\
  nMaxOutDataOffset bw <= Z.of_nat (length (pOutData bw)).

(** Room in the output buffer for [k] more bits: the pending bits and
    [k] more complete bytes end at or before the limit. *)
Definition room (bw : bitwriter) (k : Z) : Prop :=
  8 * nOutOffset bw + nEncBitCount bw + k < 8 * (nMaxOutDataOffset bw + 1).

(** ** The flushing loop *)

Lemma stream_flush_step bw :
  8 <= nEncBitCount bw -> 0 <= nEncBitsData bw ->
  0 <= nOutOffset bw < Z.of_nat (length (pOutData bw)) ->
  bw_stream (mk_bitwriter (nEncBitCount bw - 8) (Z.shiftr (nEncBitsData bw) 8)
               ((pOutData bw).[nOutOffset bw := wrap 8 (nEncBitsData bw)])
               (nOutOffset bw + 1) (nMaxOutDataOffset bw)) = bw_stream bw.
Proof.
  destruct bw as [c d out off mx]; simpl. intros Hc Hd Hoff.
  unfold bw_stream; simpl.
  replace (Z.to_nat (off + 1)) with (S (Z.to_nat off)) by lia.
  unfold aset. rewrite (take_S_r _ _ (wrap 8 d)) by (apply list_lookup_insert_eq; lia).
  rewrite take_insert_ge by lia.
  replace (Z.to_nat c) with (8 + Z.to_nat (c - 8))%nat by lia.
  rewrite bits_of_add by done. autorewrite with zultra_rw.
  rewrite wrap_mod by lia. rewrite <- (bits_of_mod d 8). rewrite <- app_assoc. done.
Qed.

Lemma put_bits_flush_ok fuel bw :
  0 <= nEncBitCount bw -> 0 <= nEncBitsData bw < 2 ^ nEncBitCount bw ->
  0 <= nOutOffset bw -> nOutOffset bw + nEncBitCount bw / 8 <= nMaxOutDataOffset bw ->
  nMaxOutDataOffset bw <= Z.of_nat (length (pOutData bw)) ->
  (Z.to_nat (nEncBitCount bw / 8) < fuel)%nat ->
  exists bw', put_bits_flush fuel bw = (0, bw') /\ bw_inv bw' /\
    bw_stream bw' = bw_stream bw /\
    nMaxOutDataOffset bw' = nMaxOutDataOffset bw /\
    length (pOutData bw') = length (pOutData bw).
Proof.
  revert bw. induction fuel as [|fuel IH]; intros bw Hc Hd Hoff Hroom Hlen Hfuel; [lia |].
  simpl. destruct (8 <=? nEncBitCount bw) eqn:E8.
  - apply Z.leb_le in E8.
    assert (Hq : nEncBitCount bw / 8 = 1 + (nEncBitCount bw - 8) / 8).
    { replace (nEncBitCount bw) with ((nEncBitCount bw - 8) + 1 * 8) at 1 by lia.
      rewrite Z.div_add by lia. lia. }
    assert (0 <= (nEncBitCount bw - 8) / 8) by (apply Z.div_pos; lia).
    destruct (nMaxOutDataOffset bw <=? nOutOffset bw) eqn:Em; [apply Z.leb_le in Em; lia |].
    apply Z.leb_gt in Em.
    destruct (IH (mk_bitwriter (nEncBitCount bw - 8) (Z.shiftr (nEncBitsData bw) 8)
               ((pOutData bw).[nOutOffset bw := wrap 8 (nEncBitsData bw)])
               (nOutOffset bw + 1) (nMaxOutDataOffset bw)))
      as (bw' & Hrun & Hinv & Hs & Hm & Hl); simpl; autorewrite with zultra_rw; try lia.
    + rewrite Z.shiftr_div_pow2 by lia. split; [apply Z.div_pos; lia |].
      apply Z.div_lt_upper_bound; [lia |].
      rewrite <- Z.pow_add_r by lia.
      replace (8 + (nEncBitCount bw - 8)) with (nEncBitCount bw) by lia. lia.
    + exists bw'. rewrite Hrun, Hs, stream_flush_step by lia. simpl in *.
      autorewrite with zultra_rw in Hl. auto.
  - apply Z.leb_gt in E8. exists bw. unfold bw_inv.
    repeat split; try lia.
    assert (nEncBitCount bw / 8 = 0) by (apply Z.div_small; lia). lia.
Qed.

Lemma put_bits_flush_fail fuel bw :
  0 <= nEncBitCount bw -> nOutOffset bw <= nMaxOutDataOffset bw ->
  nMaxOutDataOffset bw < nOutOffset bw + nEncBitCount bw / 8 ->
  (Z.to_nat (nEncBitCount bw / 8) < fuel)%nat ->
  fst (put_bits_flush fuel bw) = -1.
Proof.
  revert bw. induction fuel as [|fuel IH]; intros bw Hc Hoff Hover Hfuel; [lia |].
  simpl. destruct (8 <=? nEncBitCount bw) eqn:E8.
  - apply Z.leb_le in E8.
    assert (Hq : nEncBitCount bw / 8 = 1 + (nEncBitCount bw - 8) / 8).
    { replace (nEncBitCount bw) with ((nEncBitCount bw - 8) + 1 * 8) at 1 by lia.
      rewrite Z.div_add by lia. lia. }
    assert (0 <= (nEncBitCount bw - 8) / 8) by (apply Z.div_pos; lia).
    destruct (nMaxOutDataOffset bw <=? nOutOffset bw) eqn:Em; [done |].
    apply Z.leb_gt in Em. apply IH; simpl; lia.
  - apply Z.leb_gt in E8. assert (nEncBitCount bw / 8 = 0) by (apply Z.div_small; lia). lia.
Qed.

Lemma put_bits_flush_offset fuel bw :
  nOutOffset bw <= nMaxOutDataOffset bw ->
  nOutOffset bw <= nOutOffset (snd (put_bits_flush fuel bw)) <= nMaxOutDataOffset bw /\
  nMaxOutDataOffset (snd (put_bits_flush fuel bw)) = nMaxOutDataOffset bw.
Proof.
  revert bw. induction fuel as [|fuel IH]; intros bw Hoff; simpl; [lia |].
  destruct (8 <=? nEncBitCount bw); [| simpl; lia].
  destruct (nMaxOutDataOffset bw <=? nOutOffset bw) eqn:Em; [simpl; lia |].
  apply Z.leb_gt in Em. destruct (IH (mk_bitwriter (nEncBitCount bw - 8) (Z.shiftr (nEncBitsData bw) 8)
    ((pOutData bw).[nOutOffset bw := wrap 8 (nEncBitsData bw)])
    (nOutOffset bw + 1) (nMaxOutDataOffset bw))); simpl in *; lia.
Qed.

(** ** [put_bits] *)

(** With fewer than 8 pending bits and at most 16 new ones, the 32-bit
    accumulator never wraps. *)
Lemma put_bits_data bw v n :
  bw_inv bw -> 0 <= n <= 16 -> 0 <= v < 2 ^ n ->
  wrap 32 (Z.lor (nEncBitsData bw) (wrap 32 (Z.shiftl v (nEncBitCount bw)))) =
    Z.lor (nEncBitsData bw) (Z.shiftl v (nEncBitCount bw)) /\
  0 <= Z.lor (nEncBitsData bw) (Z.shiftl v (nEncBitCount bw)) < 2 ^ (nEncBitCount bw + n).
Proof.
  intros (Hc & Hd & _) Hn Hv.
  assert (Hb : 0 <= Z.lor (nEncBitsData bw) (Z.shiftl v (nEncBitCount bw)) < 2 ^ (nEncBitCount bw + n))
    by (apply lor_shiftl_bound; lia).
  assert (H32 : 2 ^ (nEncBitCount bw + n) <= 2 ^ 32) by (apply Z.pow_le_mono_r; lia).
  assert (Hs : 0 <= Z.shiftl v (nEncBitCount bw) < 2 ^ 32).
  { rewrite Z.shiftl_mul_pow2 by lia. rewrite Z.pow_add_r in H32 by lia. nia. }
  rewrite (wrap_small 32 (Z.shiftl _ _)), wrap_small by lia. split; [done | lia].
Qed.

(** The writer's stream after or-ing [n] more pending bits. *)
Lemma stream_add_pending out off mx d v c n :
  0 <= c -> 0 <= n -> 0 <= d < 2 ^ c -> 0 <= v ->
  bw_stream (mk_bitwriter (c + n) (Z.lor d (Z.shiftl v c)) out off mx) =
  bw_stream (mk_bitwriter c d out off mx) ++ bits_of v (Z.to_nat n).
Proof.
  intros Hc Hn Hd Hv. unfold bw_stream; simpl.
  replace (Z.to_nat (c + n)) with (Z.to_nat c + Z.to_nat n)%nat by lia.
  pose proof (bits_of_lor_shiftl d v (Z.to_nat c) (Z.to_nat n)) as H.
  rewrite Z2Nat.id in H by lia. rewrite H by lia. by rewrite app_assoc.
Qed.

(** The stream holds the completed bytes and the pending bits. *)
Lemma length_bw_stream bw :
  bw_inv bw -> Z.of_nat (length (bw_stream bw)) = 8 * nOutOffset bw + nEncBitCount bw.
Proof.
  intros (Hc & Hd & Ho & Hl). unfold bw_stream.
  rewrite length_app, length_bytes_bits, length_take, length_bits_of. lia.
Qed.

Lemma get_offset_inv bw : bw_inv bw -> get_offset bw = nOutOffset bw.
Proof. intros (_ & _ & Ho & _). unfold get_offset. destruct (Z.leb_spec (nOutOffset bw) (nMaxOutDataOffset bw)); lia. Qed.

(** The functional behaviour of [put_bits] on its success path. *)
Lemma put_bits_ok bw v n :
  bw_inv bw -> 0 <= n <= 16 -> 0 <= v < 2 ^ n ->
  nOutOffset bw + (nEncBitCount bw + n) / 8 <= nMaxOutDataOffset bw ->
  exists bw', put_bits bw v n = (0, bw') /\ bw_inv bw' /\
    bw_stream bw' = bw_stream bw ++ bits_of v (Z.to_nat n) /\
    nMaxOutDataOffset bw' = nMaxOutDataOffset bw /\
    length (pOutData bw') = length (pOutData bw).
Proof.
  intros Hinv Hn Hv Hroom. pose proof Hinv as (Hc & Hd & Ho & Hl).
  destruct (put_bits_data bw v n) as [Hw Hb]; try done.
  unfold put_bits. destruct (16 <? n) eqn:E; [apply Z.ltb_lt in E; lia |].
  cbv zeta. rewrite Hw.
  destruct (put_bits_flush_ok (S (Z.to_nat ((nEncBitCount bw + n) / 8)))
    (mk_bitwriter (nEncBitCount bw + n) (Z.lor (nEncBitsData bw) (Z.shiftl v (nEncBitCount bw)))
       (pOutData bw) (nOutOffset bw) (nMaxOutDataOffset bw)))
    as (bw' & Hrun & Hinv' & Hs & Hm & Hlen); [simpl; lia .. |].
  exists bw'. rewrite Hrun, Hs. split; [done |]. split; [done |]. split; [| split; done].
  destruct bw as [c d out off mx]; simpl in *. apply stream_add_pending; lia.
Qed.

Lemma room_le bw k k' : k' <= k -> room bw k -> room bw k'.
Proof. unfold room. lia. Qed.

(** Room left after appending [bits]. *)
Lemma room_after bw bw' bits k :
  bw_inv bw -> bw_inv bw' -> bw_stream bw' = bw_stream bw ++ bits ->
  nMaxOutDataOffset bw' = nMaxOutDataOffset bw ->
  room bw (Z.of_nat (length bits) + k) -> room bw' k.
Proof.
  intros H1 H2 Hs Hm Hr. unfold room in *.
  pose proof (length_bw_stream bw H1). pose proof (length_bw_stream bw' H2).
  rewrite Hs, length_app in *. lia.
Qed.

(** [put_bits_ok] with the room stated in bits. *)
Lemma put_bits_room bw v b :
  bw_inv bw -> 0 <= b <= 16 -> 0 <= v < 2 ^ b -> room bw b ->
  exists bw', put_bits bw v b = (0, bw') /\ bw_inv bw' /\
    bw_stream bw' = bw_stream bw ++ bits_of v (Z.to_nat b) /\
    nMaxOutDataOffset bw' = nMaxOutDataOffset bw.
Proof.
  intros Hinv Hb Hv Hr. unfold room in Hr. pose proof Hinv as (Hc & _ & Ho & _).
  destruct (put_bits_ok bw v b) as (bw' & H1 & H2 & H3 & H4 & _); [done | lia | done | zlia |].
  by exists bw'.
Qed.

(** C13. [zultra_bitwriter_put_bits] appends exactly the [nBits] low bits of
    its value, least significant first, to the written stream, and returns
    0, when [nBits <= 16], the value fits in [nBits] bits and the buffer
    has room for the completed bytes.  The writer invariant is kept. *)
Theorem put_bits_appends bw v n :
  bw_inv bw -> 0 <= n <= 16 -> 0 <= v < 2 ^ n ->
  nOutOffset bw + (nEncBitCount bw + n) / 8 <= nMaxOutDataOffset bw ->
  exists bw', put_bits bw v n = (0, bw') /\ bw_inv bw' /\
    bw_stream bw' = bw_stream bw ++ bits_of v (Z.to_nat n) /\
    nMaxOutDataOffset bw' = nMaxOutDataOffset bw /\
    length (pOutData bw') = length (pOutData bw).
Proof. apply put_bits_ok. Qed.


(** [put_bits] fails when the bytes it must flush pass the limit. *)
Lemma put_bits_fail bw v n :
  bw_inv bw -> 0 <= n ->
  nMaxOutDataOffset bw < nOutOffset bw + (nEncBitCount bw + n) / 8 ->
  fst (put_bits bw v n) = -1.
Proof.
  intros (Hc & Hd & Ho & Hl) Hn Hover. unfold put_bits.
  destruct (16 <? n); [done |].
  apply put_bits_flush_fail; simpl; lia.
Qed.

(** [zultra_bitwriter_put_bits] reports an error (-1) when the
    completed bytes do not fit below [nMaxOutDataOffset]. *)
Theorem put_bits_overflow bw v n :
  bw_inv bw -> 0 <= n ->
  nMaxOutDataOffset bw < nOutOffset bw + (nEncBitCount bw + n) / 8 ->
  fst (put_bits bw v n) = -1.
Proof. apply put_bits_fail. Qed.

(** The write offset never passes its limit: a writer whose offset is
    within range stays within range after [put_bits], whatever its
    arguments, so [get_offset] never returns -1 afterwards.  The callers
    that detect an overflow through [get_offset] alone
    ([zultra_huffman_encoder_write_raw_table],
    [zultra_huffman_encoder_write_var_lengths]) therefore never see one. *)
Theorem put_bits_get_offset_nonneg bw v n :
  0 <= nOutOffset bw <= nMaxOutDataOffset bw ->
  get_offset (snd (put_bits bw v n)) = nOutOffset (snd (put_bits bw v n)) /\
  0 <= get_offset (snd (put_bits bw v n)).
Proof.
  intros Ho. unfold put_bits. destruct (16 <? n).
  - simpl. unfold get_offset. destruct (Z.leb_spec (nOutOffset bw) (nMaxOutDataOffset bw)); lia.
  - cbv zeta. match goal with |- context [put_bits_flush ?f ?b] =>
      destruct (put_bits_flush_offset f b) as [Hr Hm]; [simpl; lia |];
      set (r := snd (put_bits_flush f b)) in * end.
    simpl in Hr, Hm. unfold get_offset. rewrite Hm.
    destruct (Z.leb_spec (nOutOffset r) (nMaxOutDataOffset bw)); lia.
Qed.

(** ** [flush_bits] *)

(** The functional behaviour of [flush_bits] when the last partial byte
    fits. *)
Lemma flush_bits_ok bw :
  bw_inv bw -> (nEncBitCount bw = 0 \/ nOutOffset bw < nMaxOutDataOffset bw) ->
  exists bw', flush_bits bw = (0, bw') /\ bw_inv bw' /\ nEncBitCount bw' = 0 /\
    bw_stream bw' = bw_stream bw ++ replicate (Z.to_nat ((8 - nEncBitCount bw) mod 8)) false.
Proof.
  intros Hinv Hroom. pose proof Hinv as (Hc & Hd & Ho & Hl). unfold flush_bits.
  destruct (8 <? nEncBitCount bw) eqn:E8; [apply Z.ltb_lt in E8; lia |].
  destruct (0 <? nEncBitCount bw) eqn:E0.
  - apply Z.ltb_lt in E0.
    destruct (nMaxOutDataOffset bw <=? nOutOffset bw) eqn:Em; [apply Z.leb_le in Em; lia |].
    apply Z.leb_gt in Em. eexists. split; [done |].
    destruct bw as [c d out off mx]; simpl in *.
    assert (Hbyte : wrap 8 (Z.land d (Z.shiftl 1 c - 1)) = d).
    { rewrite Z.shiftl_1_l, Z.sub_1_r, <- Z.ones_equiv, Z.land_ones, Z.mod_small by lia.
      apply wrap_small; [lia |]. split; [lia |].
      apply (Z.lt_le_trans _ (2 ^ c)); [lia | apply Z.pow_le_mono_r; lia]. }
    rewrite Hbyte. unfold bw_inv, bw_stream; simpl. autorewrite with zultra_rw.
    split; [lia |]. split; [done |].
    replace (Z.to_nat (off + 1)) with (S (Z.to_nat off)) by lia.
    unfold aset. rewrite (take_S_r _ _ d) by (apply list_lookup_insert_eq; lia).
    rewrite take_insert_ge by lia. autorewrite with zultra_rw.
    rewrite Z.mod_small by lia.
    replace 8%nat with (Z.to_nat c + Z.to_nat (8 - c))%nat by lia.
    rewrite bits_of_add by lia. rewrite Z2Nat.id by lia.
    rewrite Z.shiftr_eq_0, bits_of_zero.
    + unfold bits_of at 3. simpl. rewrite !app_nil_r, app_assoc. done.
    + lia.
    + destruct (Z.eq_dec d 0) as [->|]; [simpl; lia |].
      apply Z.log2_lt_pow2; lia.
  - apply Z.ltb_ge in E0. exists bw. repeat split; try lia.
    replace (nEncBitCount bw) with 0 by lia. simpl. by rewrite app_nil_r.
Qed.

(** [zultra_bitwriter_flush_bits] pads the stream with zero bits up to
    the next byte boundary and empties the accumulator, when the buffer has
    room for the last partial byte. *)
Theorem flush_bits_pads bw :
  bw_inv bw -> (nEncBitCount bw = 0 \/ nOutOffset bw < nMaxOutDataOffset bw) ->
  exists bw', flush_bits bw = (0, bw') /\ bw_inv bw' /\ nEncBitCount bw' = 0 /\
    bw_stream bw' = bw_stream bw ++ replicate (Z.to_nat ((8 - nEncBitCount bw) mod 8)) false.
Proof. apply flush_bits_ok. Qed.

(** ** An unmasked value

    The accumulator read with [k] bits beyond its count: where the stray
    high bits of an unmasked value sit. *)
Definition bw_stream_ext (bw : bitwriter) (k : nat) : list bool :=
  bytes_bits (take (Z.to_nat (nOutOffset bw)) (pOutData bw))
  ++ bits_of (nEncBitsData bw) (Z.to_nat (nEncBitCount bw) + k).

Lemma bw_stream_ext_0 bw : bw_stream bw = bw_stream_ext bw 0.
Proof. unfold bw_stream, bw_stream_ext. by rewrite Nat.add_0_r. Qed.

Lemma stream_ext_flush_step bw k :
  8 <= nEncBitCount bw -> 0 <= nEncBitsData bw ->
  0 <= nOutOffset bw < Z.of_nat (length (pOutData bw)) ->
  bw_stream_ext (mk_bitwriter (nEncBitCount bw - 8) (Z.shiftr (nEncBitsData bw) 8)
               ((pOutData bw).[nOutOffset bw := wrap 8 (nEncBitsData bw)])
               (nOutOffset bw + 1) (nMaxOutDataOffset bw)) k = bw_stream_ext bw k.
Proof.
  destruct bw as [c d out off mx]; simpl. intros Hc Hd Hoff.
  unfold bw_stream_ext; simpl.
  replace (Z.to_nat (off + 1)) with (S (Z.to_nat off)) by lia.
  unfold aset. rewrite (take_S_r _ _ (wrap 8 d)) by (apply list_lookup_insert_eq; lia).
  rewrite take_insert_ge by lia.
  replace (Z.to_nat c + k)%nat with (8 + (Z.to_nat (c - 8) + k))%nat by lia.
  rewrite (bits_of_add d 8) by done. autorewrite with zultra_rw.
  rewrite wrap_mod by lia. rewrite <- (bits_of_mod d 8). rewrite <- app_assoc. done.
Qed.

(** The flushing loop with any accumulator: it moves out the complete
    bytes and keeps every bit of the accumulator, counted or not, in
    place in the extended stream. *)
Lemma put_bits_flush_ext_ok fuel bw :
  0 <= nEncBitCount bw -> 0 <= nEncBitsData bw ->
  0 <= nOutOffset bw -> nOutOffset bw + nEncBitCount bw / 8 <= nMaxOutDataOffset bw ->
  nMaxOutDataOffset bw <= Z.of_nat (length (pOutData bw)) ->
  (Z.to_nat (nEncBitCount bw / 8) < fuel)%nat ->
  exists bw', put_bits_flush fuel bw = (0, bw') /\
    (forall k, bw_stream_ext bw' k = bw_stream_ext bw k) /\
    nEncBitCount bw' = nEncBitCount bw - 8 * (nEncBitCount bw / 8) /\
    0 <= nEncBitsData bw' <= nEncBitsData bw /\
    nOutOffset bw' = nOutOffset bw + nEncBitCount bw / 8 /\
    nMaxOutDataOffset bw' = nMaxOutDataOffset bw /\
    length (pOutData bw') = length (pOutData bw).
Proof.
  revert bw. induction fuel as [|fuel IH]; intros bw Hc Hd Hoff Hroom Hlen Hfuel; [lia |].
  simpl. destruct (Z.leb_spec 8 (nEncBitCount bw)) as [E8|E8].
  - assert (Hq : nEncBitCount bw / 8 = 1 + (nEncBitCount bw - 8) / 8).
    { replace (nEncBitCount bw) with ((nEncBitCount bw - 8) + 1 * 8) at 1 by lia.
      rewrite Z.div_add by lia. lia. }
    assert (0 <= (nEncBitCount bw - 8) / 8) by (apply Z.div_pos; lia).
    destruct (Z.leb_spec (nMaxOutDataOffset bw) (nOutOffset bw)); [lia|].
    assert (Hsh : 0 <= Z.shiftr (nEncBitsData bw) 8 <= nEncBitsData bw).
    { rewrite Z.shiftr_div_pow2 by lia. split; [apply Z.div_pos; lia|]. apply Z.div_le_upper_bound; lia. }
    destruct (IH (mk_bitwriter (nEncBitCount bw - 8) (Z.shiftr (nEncBitsData bw) 8)
               ((pOutData bw).[nOutOffset bw := wrap 8 (nEncBitsData bw)])
               (nOutOffset bw + 1) (nMaxOutDataOffset bw)))
      as (bw' & Hrun & Hs & Hc' & Hd' & Ho' & Hm & Hl); simpl; autorewrite with zultra_rw; try lia.
    exists bw'. rewrite Hrun. cbn in *. autorewrite with zultra_rw in Hl.
    split_and!; try done; try lia. intros k. rewrite Hs, stream_ext_flush_step by lia. done.
  - exists bw. assert (nEncBitCount bw / 8 = 0) by (apply Z.div_small; lia).
    split_and!; try done; lia.
Qed.

(** C38. [zultra_bitwriter_put_bits] does not mask its value to [nBits]
    bits (line 66 ORs [nValue << nEncBitCount] whole): the bits of the
    value above [nBits] stay in the accumulator and come out in the
    place of the bits written next.  For every writer and every value
    below [2^16], writing [v] in [n] bits and then [0] in [m] bits
    produces the bits of [v] in [n + m] bits: the field meant to be [m]
    zero bits carries [v >> n], which differs from 0 whenever [v] has a
    set bit among bits [n .. n + m - 1]. *)
Theorem put_bits_unmasked_value bw v n m :
  bw_inv bw -> 0 <= n <= 16 -> 0 <= m <= 16 -> 0 <= v < 2 ^ 16 ->
  nOutOffset bw + (nEncBitCount bw + n + m) / 8 <= nMaxOutDataOffset bw ->
  exists bw1 bw2, put_bits bw v n = (0, bw1) /\ put_bits bw1 0 m = (0, bw2) /\
    bw_stream bw2 = bw_stream bw ++ bits_of v (Z.to_nat n) ++ bits_of (Z.shiftr v n) (Z.to_nat m).
Proof.
  intros Hinv Hn Hm Hv Hroom. pose proof Hinv as (Hc & Hd & Ho & Hl).
  destruct bw as [c d out off mx]; cbn in *.
  set (X := Z.lor d (Z.shiftl v c)).
  assert (HX : 0 <= X < 2 ^ (c + 16)) by (apply lor_shiftl_bound; lia).
  assert (H32 : 2 ^ (c + 16) <= 2 ^ 32) by (apply Z.pow_le_mono_r; lia).
  assert (Hsv : 0 <= Z.shiftl v c < 2 ^ 32).
  { rewrite Z.shiftl_mul_pow2 by lia. rewrite Z.pow_add_r in H32 by lia. nia. }
  unfold put_bits at 1. rewrite (proj2 (Z.ltb_ge 16 n)) by lia. cbn [nEncBitsData nEncBitCount pOutData nOutOffset nMaxOutDataOffset].
  rewrite (wrap_small 32 (Z.shiftl v c)) by lia.
  rewrite (wrap_small 32 (Z.lor d (Z.shiftl v c))) by (fold X; lia). fold X.
  assert (Hq1 : (c + n) / 8 <= (c + n + m) / 8) by (apply Z.div_le_mono; lia).
  destruct (put_bits_flush_ext_ok (S (Z.to_nat ((c + n) / 8))) (mk_bitwriter (c + n) X out off mx)
    ltac:(cbn; lia) ltac:(cbn; lia) ltac:(cbn; lia) ltac:(cbn; lia) ltac:(cbn; lia) ltac:(cbn; lia))
    as (bw1 & Hrun1 & Hs1 & Hc1 & Hd1 & Ho1 & Hm1 & Hl1).
  rewrite Hrun1. cbn [nEncBitCount nEncBitsData nOutOffset nMaxOutDataOffset pOutData] in Hc1, Hd1, Ho1, Hm1, Hl1. exists bw1.
  unfold put_bits. rewrite (proj2 (Z.ltb_ge 16 m)) by lia.
  rewrite Z.shiftl_0_l, (wrap_small 32 0), Z.lor_0_r, wrap_small by lia.
  destruct (put_bits_flush_ext_ok (S (Z.to_nat ((nEncBitCount bw1 + m) / 8)))
    (mk_bitwriter (nEncBitCount bw1 + m) (nEncBitsData bw1) (pOutData bw1) (nOutOffset bw1) (nMaxOutDataOffset bw1))
    ltac:(cbn; zlia) ltac:(cbn; lia) ltac:(cbn; zlia) ltac:(cbn; rewrite Ho1, Hm1, Hc1; zlia) ltac:(cbn; lia) ltac:(cbn; lia))
    as (bw2 & Hrun2 & Hs2 & _).
  exists bw2. split_and!; [reflexivity|exact Hrun2|].
  rewrite bw_stream_ext_0, Hs2.
  unfold bw_stream_ext. cbn [nEncBitCount nEncBitsData pOutData nOutOffset].
  replace (Z.to_nat (nEncBitCount bw1 + m) + 0)%nat with (Z.to_nat (nEncBitCount bw1) + Z.to_nat m)%nat by zlia.
  change (bytes_bits (take (Z.to_nat (nOutOffset bw1)) (pOutData bw1)) ++
    bits_of (nEncBitsData bw1) (Z.to_nat (nEncBitCount bw1) + Z.to_nat m)) with (bw_stream_ext bw1 (Z.to_nat m)).
  rewrite Hs1. unfold bw_stream_ext, bw_stream. cbn [nEncBitCount nEncBitsData pOutData nOutOffset].
  replace (Z.to_nat (c + n) + Z.to_nat m)%nat with (Z.to_nat c + (Z.to_nat n + Z.to_nat m))%nat by lia.
  unfold X. replace (Z.shiftl v c) with (Z.shiftl v (Z.of_nat (Z.to_nat c))) by (rewrite Z2Nat.id; lia).
  rewrite bits_of_lor_shiftl by (rewrite ?Z2Nat.id; lia).
  rewrite (bits_of_add v (Z.to_nat n)), Z2Nat.id by lia. by rewrite app_assoc.
Qed.

(** The finding's case: 3 written in one bit, then 0 in one bit, gives
    the stream 1, 1. *)
Lemma put_bits_unmasked_value_witness :
  exists bw1 bw2, put_bits (bitwriter_init [0; 0] 0 2) 3 1 = (0, bw1) /\ put_bits bw1 0 1 = (0, bw2) /\
    bw_stream bw2 = bw_stream (bitwriter_init [0; 0] 0 2) ++ bits_of 3 (Z.to_nat 1) ++ bits_of (Z.shiftr 3 1) (Z.to_nat 1).
Proof.
  apply (put_bits_unmasked_value (bitwriter_init [0; 0] 0 2) 3 1 1); [|lia|lia|decide_by_eval|decide_by_eval].
  unfold bw_inv. cbn. lia.
Defined.


(** ** Committed bytes are never rewritten

    [bw_extends bw bw'] holds when [bw'] is [bw] after more writes: the
    offset has not moved back, the limit and the buffer's size are the
    same, and every byte before [bw]'s offset is unchanged.  The stream
    layer relies on it when it rewinds the writer: the writer and
    [out_buffer] share one buffer, and a rewound writer sees the bytes
    the abandoned block left behind. *)
Definition bw_extends (bw bw' : bitwriter) : Prop :=
  nOutOffset bw <= nOutOffset bw' /\ nMaxOutDataOffset bw' = nMaxOutDataOffset bw /\
  length (pOutData bw') = length (pOutData bw) /\
  take (Z.to_nat (nOutOffset bw)) (pOutData bw') = take (Z.to_nat (nOutOffset bw)) (pOutData bw).

#[export] Instance bw_extends_preorder : PreOrder bw_extends.
Proof.
  split; [done |]. intros b1 b2 b3 (O1 & M1 & L1 & T1) (O2 & M2 & L2 & T2).
  split; [lia |]. split; [congruence |]. split; [congruence |].
  transitivity (take (Z.to_nat (nOutOffset b1)) (take (Z.to_nat (nOutOffset b2)) (pOutData b3))).
  { rewrite take_take. f_equal. lia. }
  rewrite T2, take_take. replace (Nat.min _ _) with (Z.to_nat (nOutOffset b1)) by lia. exact T1.
Qed.

Lemma bw_extends_trans b1 b2 b3 : bw_extends b1 b2 -> bw_extends b2 b3 -> bw_extends b1 b3.
Proof. apply (@PreOrder_Transitive _ _ bw_extends_preorder). Qed.

(** One byte written at the offset, which then moves on. *)
Lemma bw_extends_push bw c d v :
  bw_extends bw (mk_bitwriter c d ((pOutData bw).[nOutOffset bw := v]) (nOutOffset bw + 1) (nMaxOutDataOffset bw)).
Proof.
  unfold bw_extends; simpl. rewrite length_aset. split; [lia |]. do 2 (split; [done |]).
  destruct (Z.le_gt_cases 0 (nOutOffset bw)); [by apply take_aset_le; lia |].
  replace (Z.to_nat (nOutOffset bw)) with 0%nat by lia. done.
Qed.

Lemma put_bits_flush_ext fuel bw : bw_extends bw (snd (put_bits_flush fuel bw)).
Proof.
  revert bw. induction fuel as [|f IH]; intros bw; simpl; [done |].
  destruct (8 <=? nEncBitCount bw); [| done]. destruct (nMaxOutDataOffset bw <=? nOutOffset bw); [done |].
  etransitivity; [apply bw_extends_push | apply IH].
Qed.

Lemma put_bits_ext bw v n r bw' : put_bits bw v n = (r, bw') -> bw_extends bw bw'.
Proof.
  unfold put_bits. destruct (16 <? n); [by intros [= _ <-] |]. intros E.
  change bw' with (snd (r, bw')). rewrite <- E.
  etransitivity; [| apply put_bits_flush_ext]. unfold bw_extends; simpl. done.
Qed.

Lemma flush_bits_ext bw r bw' : flush_bits bw = (r, bw') -> bw_extends bw bw'.
Proof.
  unfold flush_bits. intros E. repeat case_match; simplify_eq; [done | done | | done].
  apply (bw_extends_push bw 0 0).
Qed.

#[export] Hint Resolve put_bits_ext flush_bits_ext : zultra.

(** Walk a writer function: every [let '(r, b) := F .. in] is split with
    its equation, and the running hypothesis [Hcur : bw_extends bw0 b]
    moves on to the new writer through the [zultra] lemma for [F]. *)
Ltac ext_split X :=
  match goal with
  | Hcur : bw_extends ?b0 ?bc |- _ =>
      let r := fresh "r" in let b := fresh "b" in let E := fresh "E" in
      destruct X as [r b] eqn:E;
      let H := fresh "Hcur" in
      assert (H : bw_extends b0 b) by (apply (bw_extends_trans _ bc); [exact Hcur | eauto with zultra]);
      clear Hcur
  end.

Ltac ext_let :=
  match goal with
  | |- bw_extends _ (snd (let '(_, _) := ?X in _)) => ext_split X
  | |- bw_extends _ (snd (if ?b then _ else _)) => destruct b
  | |- bw_extends _ (snd ?X) =>
      lazymatch X with
      | pair _ _ => fail
      | _ => ext_split X
      end
  end.

Ltac ext_walk :=
  repeat first [ext_let | case_match]; simplify_eq; cbn [snd] in *;
  first [assumption | reflexivity | eauto with zultra].

(** ** Witnesses *)

Lemma put_bits_appends_witness :
  exists bw', put_bits (bitwriter_init [0; 0] 0 2) 5 3 = (0, bw') /\ bw_inv bw' /\
    bw_stream bw' = bw_stream (bitwriter_init [0; 0] 0 2) ++ bits_of 5 (Z.to_nat 3) /\
    nMaxOutDataOffset bw' = nMaxOutDataOffset (bitwriter_init [0; 0] 0 2) /\
    length (pOutData bw') = length (pOutData (bitwriter_init [0; 0] 0 2)).
Proof. apply put_bits_appends; unfold bw_inv; simpl; zlia. Defined.

Lemma put_bits_overflow_witness : fst (put_bits (bitwriter_init [] 0 0) 255 8) = -1.
Proof. apply put_bits_overflow; unfold bw_inv; simpl; zlia. Defined.

Lemma put_bits_get_offset_nonneg_witness :
  get_offset (snd (put_bits (bitwriter_init [0] 0 1) 1 3)) =
    nOutOffset (snd (put_bits (bitwriter_init [0] 0 1) 1 3)) /\
  0 <= get_offset (snd (put_bits (bitwriter_init [0] 0 1) 1 3)).
Proof. apply put_bits_get_offset_nonneg. simpl. lia. Defined.

Lemma flush_bits_pads_witness :
  exists bw', flush_bits (mk_bitwriter 3 5 [0; 0] 0 2) = (0, bw') /\ bw_inv bw' /\
    nEncBitCount bw' = 0 /\
    bw_stream bw' = bw_stream (mk_bitwriter 3 5 [0; 0] 0 2) ++ replicate (Z.to_nat ((8 - 3) mod 8)) false.
Proof. apply flush_bits_pads; unfold bw_inv; simpl; lia. Defined.

End BitWriter.
