(* ===== verification/Format.v ===== *)
(** * Format constants ([src/format.h], [src/private.h])

    The DEFLATE constants of [format.h], the compressor constants of
    [private.h] (packed suffix-array word layout, matches per position,
    parser limits) and the match record [zultra_match_t]. *)

From S2P Require Import Prelude.

Module Format.

(** [format.h] *)
Definition MIN_MATCH_SIZE : Z := 3.
Definition MAX_MATCH_SIZE : Z := 258.
Definition MIN_OFFSET : Z := 1.
Definition MAX_OFFSET : Z := 32768.
Definition HISTORY_SIZE : Z := 32768.
Definition NCODELENBITS : Z := 3.
Definition NCODELENSYMS : Z := 19.
Definition NLITERALSYMS : Z := 288.
Definition NVALIDLITERALSYMS : Z := 286.
Definition NEODMARKERSYM : Z := 256.
Definition NMATCHLENSYMSTART : Z := 257.
Definition NMATCHLENSYMS : Z := 29.
Definition NOFFSETSYMS : Z := 32.
Definition NVALIDOFFSETSYMS : Z := 30.

(** [private.h] *)
Definition LCP_BITS : Z := 9.
Definition LCP_MAX : Z := 2 ^ LCP_BITS - 1.
Definition LCP_SHIFT : Z := 31 - LCP_BITS.
Definition LCP_MASK : Z := Z.shiftl LCP_MAX LCP_SHIFT.
Definition POS_MASK : Z := 2 ^ LCP_SHIFT - 1.
Definition VISITED_FLAG : Z := 2147483648.
Definition EXCL_VISITED_MASK : Z := 2147483647.
Definition NMATCHES_PER_OFFSET : Z := 8.
Definition MATCHES_PER_OFFSET_SHIFT : Z := 3.
Definition LEAVE_ALONE_MATCH_SIZE : Z := 40.
Definition LAST_LITERALS : Z := 1.
Definition MAX_SPLITS : Z := 64.

(** [zultra_match_t]: two [unsigned short] fields, [length] and [offset]
    (renamed [m_length] and [m_offset] here, as [length] is the list
    length of the library).  A record of length 0 is a literal. *)
Record zultra_match := mk_match { m_length : Z; m_offset : Z }.

Definition no_match : zultra_match := mk_match 0 0.

(** Arrays of matches ([zultra_match_t *]), read and written by index. *)
Definition mget (l : list zultra_match) (i : Z) : zultra_match := default no_match (l !! Z.to_nat i).
Definition mset (l : list zultra_match) (i : Z) (v : zultra_match) : list zultra_match :=
  <[Z.to_nat i := v]> l.

Lemma length_mset l i v : length (mset l i v) = length l.
Proof. apply length_insert. Qed.

Lemma mget_mset_eq l i v : 0 <= i < Z.of_nat (length l) -> mget (mset l i v) i = v.
Proof. intros H. unfold mget, mset. rewrite list_lookup_insert_eq by lia. done. Qed.

Lemma mget_mset_ne l i j v : 0 <= i -> 0 <= j -> i <> j -> mget (mset l i v) j = mget l j.
Proof. intros ? ? ?. unfold mget, mset. rewrite list_lookup_insert_ne by lia. done. Qed.

End Format.
