(* ===== verification/Suffixes.v ===== *)
(** * Suffixes of the window, their order and their common prefixes

    The match finder ([src/matchfinder.c]) starts from the suffix array
    that [divsufsort_build_array] ([src/libdivsufsort/]) builds for the
    input window.  The suffix sorter is not modelled: it enters the
    development through its contract, the one the spec states for the
    pluggable primitive (section 6): the result is a permutation
    [SA[0..n)] of the positions with [window[SA[r]..n) < window[SA[r+1]..n)]
    lexicographically.  This file holds that contract as the class
    [SuffixSorter], the strict lexicographic order [lex_lt] on byte
    strings, the longest common prefix [lcp] of two strings, and the facts
    about them that Kasai's argument for the permuted LCP uses: the order
    descends to the tails of two strings with the same first byte, and the
    common prefix with a string can only grow towards it in sorted order
    ([lcp_between]).  A reference sorter (a merge sort of the positions by
    their suffixes) is an instance of the class, so the contract is
    satisfiable and the development can run the match finder on concrete
    windows. *)

From S2P Require Import Prelude.

Module Suffixes.

(** ** Lexicographic order on byte strings *)

(** The order of [memcmp] extended by length: a proper prefix comes first. *)
Inductive lex_lt : list Z -> list Z -> Prop :=
| lex_nil y b : lex_lt [] (y :: b)
| lex_head x y a b : x < y -> lex_lt (x :: a) (y :: b)
| lex_tail x a b : lex_lt a b -> lex_lt (x :: a) (x :: b).

#[export] Hint Constructors lex_lt : zultra.

Fixpoint lexb (a b : list Z) : bool :=
  match a, b with
  | [], _ :: _ => true
  | x :: a', y :: b' => (x <? y) || ((x =? y) && lexb a' b')
  | _, _ => false
  end.

(** The length of the longest common prefix of two strings. *)
Fixpoint lcp (a b : list Z) : nat :=
  match a, b with
  | x :: a', y :: b' => if x =? y then S (lcp a' b') else 0%nat
  | _, _ => 0%nat
  end.

(** The suffix of the window [w] that starts at position [i]. *)
Definition suffix (w : list Z) (i : Z) : list Z := drop (Z.to_nat i) w.

(** The contract of the suffix sorter (spec, section 6): [sa] lists every
    position of [w] once, in strictly increasing order of their suffixes. *)
Definition is_suffix_array (w sa : list Z) : Prop :=
  sa ≡ₚ zseq 0 (length w) /\ Sorted lex_lt (map (suffix w) sa).

Lemma lexb_spec a b : lexb a b = true <-> lex_lt a b.
Proof.
  revert b; induction a as [|x a IH]; intros [|y b]; cbn.
  - split; [discriminate | inversion 1].
  - split; auto with zultra.
  - split; [discriminate | inversion 1].
  - rewrite orb_true_iff, andb_true_iff, Z.ltb_lt, Z.eqb_eq, IH. split.
    + intros [?|[-> ?]]; auto with zultra.
    + inversion 1; subst; auto.
Qed.

#[export] Instance lex_lt_dec : RelDecision lex_lt.
Proof.
  intros a b. destruct (lexb a b) eqn:E.
  - left. by apply lexb_spec.
  - right. intros H%lexb_spec. congruence.
Defined.

#[export] Instance is_suffix_array_dec w sa : Decision (is_suffix_array w sa).
Proof. unfold is_suffix_array. apply _. Defined.

Lemma lex_lt_irrefl a : ~ lex_lt a a.
Proof. induction a as [|x a IH]; inversion 1; subst; [lia | auto]. Qed.

Lemma lex_lt_trans a b c : lex_lt a b -> lex_lt b c -> lex_lt a c.
Proof.
  intros H; revert c; induction H as [y b|x y a b Hxy|x a b Hab IH];
    intros c Hc; inversion Hc; subst; eauto with zultra lia.
Qed.

#[export] Instance lex_lt_strict : StrictOrder lex_lt.
Proof. split; [exact lex_lt_irrefl | exact lex_lt_trans]. Qed.

Lemma lex_lt_total a b : a <> b -> lex_lt a b \/ lex_lt b a.
Proof.
  revert b; induction a as [|x a IH]; intros [|y b] Hne; try congruence;
    auto with zultra.
  destruct (Z.lt_trichotomy x y) as [?|[<-|?]]; auto with zultra.
  destruct (IH b) as [?|?]; [congruence | auto with zultra ..].
Qed.

(** Nothing comes before the empty string. *)
Lemma lex_lt_nil_r a : ~ lex_lt a [].
Proof. inversion 1. Qed.

(** Two strings with the same first byte are ordered as their tails. *)
Lemma lex_lt_cons_inv x a b : lex_lt (x :: a) (x :: b) -> lex_lt a b.
Proof. inversion 1; subst; [lia | done]. Qed.

Lemma lex_lt_head_le x y a b : lex_lt (x :: a) (y :: b) -> x <= y.
Proof. inversion 1; subst; lia. Qed.

(** ** Common prefixes *)

Lemma lcp_le_length_l a b : (lcp a b <= length a)%nat.
Proof.
  revert b; induction a as [|x a IH]; intros [|y b]; cbn; [lia ..|].
  destruct (x =? y); [specialize (IH b)|]; lia.
Qed.

Lemma lcp_le_length_r a b : (lcp a b <= length b)%nat.
Proof.
  revert b; induction a as [|x a IH]; intros [|y b]; cbn; [lia ..|].
  destruct (x =? y); [specialize (IH b)|]; lia.
Qed.

Lemma lcp_comm a b : lcp a b = lcp b a.
Proof.
  revert b; induction a as [|x a IH]; intros [|y b]; cbn; try done.
  rewrite (Z.eqb_sym y x). destruct (x =? y); auto.
Qed.

(** Below the common prefix the strings agree ... *)
Lemma lcp_lookup a b k : (k < lcp a b)%nat -> a !! k = b !! k /\ is_Some (a !! k).
Proof.
  revert b k; induction a as [|x a IH]; intros [|y b] k; cbn; try lia.
  destruct (x =? y) eqn:E; [|lia]. apply Z.eqb_eq in E as ->.
  destruct k as [|k]; cbn; [eauto | intros; apply IH; lia].
Qed.

(** ... and at its end one string stops or they differ. *)
Lemma lcp_stop a b :
  a !! lcp a b = None \/ b !! lcp a b = None \/ a !! lcp a b <> b !! lcp a b.
Proof.
  revert b; induction a as [|x a IH]; intros [|y b]; cbn; auto.
  destruct (x =? y) eqn:E; cbn; [apply IH|].
  apply Z.eqb_neq in E. right; right. congruence.
Qed.

(** The common prefix is the first index where the strings stop agreeing. *)
Lemma lcp_unique a b (k : nat) :
  (forall m, (m < k)%nat -> a !! m = b !! m /\ is_Some (a !! m)) ->
  (a !! k = None \/ b !! k = None \/ a !! k <> b !! k) ->
  lcp a b = k.
Proof.
  revert b k; induction a as [|x a IH]; intros [|y b] k Hlt Hstop.
  - destruct k; [done|]. destruct (Hlt 0%nat) as [_ []]; [lia | done].
  - destruct k; [done|]. destruct (Hlt 0%nat) as [_ []]; [lia | done].
  - destruct k; [done|]. destruct (Hlt 0%nat) as [H _]; [lia | done].
  - destruct k as [|k]; cbn in Hstop.
    + destruct Hstop as [?|[?|?]]; try done. cbn. by rewrite (proj2 (Z.eqb_neq x y)) by congruence.
    + destruct (Hlt 0%nat) as [[= ->] _]; [lia|]. cbn. rewrite Z.eqb_refl. f_equal.
      apply IH; [|done]. intros m Hm. apply (Hlt (S m)). lia.
Qed.

(** Between two strings in order, the common prefix with the greater one
    only grows: if [a <= b < c] then [lcp a c <= lcp b c].  This is what
    makes the suffix just before [c] in sorted order the one that shares
    the longest prefix with [c]. *)
Lemma lcp_between a b c :
  (a = b \/ lex_lt a b) -> lex_lt b c -> (lcp a c <= lcp b c)%nat.
Proof.
  intros [<-|Hab]; [lia|]. revert b c Hab.
  induction a as [|x a IH]; intros b c Hab Hbc; [cbn; lia|].
  destruct b as [|y b]; [inversion Hab|]. destruct c as [|z c]; [inversion Hbc|].
  cbn. destruct (x =? z) eqn:Exz; [|lia]. apply Z.eqb_eq in Exz as ->.
  pose proof (lex_lt_head_le _ _ _ _ Hab). pose proof (lex_lt_head_le _ _ _ _ Hbc).
  assert (y = z) as -> by lia. rewrite Z.eqb_refl.
  apply lex_lt_cons_inv in Hbc.
  destruct (decide (a = b)) as [->|Hne]; [lia|].
  apply lex_lt_cons_inv in Hab. specialize (IH b c Hab Hbc). lia.
Qed.

(** ** Suffixes of a window *)

Lemma StronglySorted_lookup {A} (R : A -> A -> Prop) l i j x y :
  StronglySorted R l -> l !! i = Some x -> l !! j = Some y -> (i < j)%nat -> R x y.
Proof.
  intros Hs; revert i j; induction Hs as [|z l Hs IH Hz]; intros i j Hi Hj Hij; [done|].
  destruct i as [|i], j as [|j]; cbn in *; [lia| |lia|].
  - simplify_eq. rewrite Forall_forall in Hz. apply Hz. by eapply list_elem_of_lookup_2.
  - apply (IH i j); auto with lia.
Qed.

Lemma length_suffix w i : 0 <= i -> length (suffix w i) = (length w - Z.to_nat i)%nat.
Proof. intros. apply length_drop. Qed.

Lemma lookup_suffix w i k : 0 <= i -> suffix w i !! k = w !! (Z.to_nat i + k)%nat.
Proof. intros. apply lookup_drop. Qed.

(** A non-empty suffix is its first byte followed by the next suffix. *)
Lemma suffix_cons w i : 0 <= i < Z.of_nat (length w) -> suffix w i = w.[i] :: suffix w (i + 1).
Proof.
  intros Hi. unfold suffix. rewrite Z2Nat.inj_add, Nat.add_1_r by lia.
  unfold aget. destruct (lookup_lt_is_Some_2 w (Z.to_nat i)) as [v Hv]; [lia|].
  rewrite Hv. by apply drop_S.
Qed.

Section SuffixArray.
Context (w sa : list Z) (Hsa : is_suffix_array w sa).

Lemma sa_length : length sa = length w.
Proof. destruct Hsa as [Hp _]. rewrite Hp. unfold zseq. by rewrite length_map, length_seq. Qed.

Lemma sa_NoDup : NoDup sa.
Proof. destruct Hsa as [Hp _]. rewrite Hp. apply NoDup_zseq. Qed.

Lemma sa_elem k : k ∈ sa <-> 0 <= k < Z.of_nat (length w).
Proof. destruct Hsa as [Hp _]. rewrite Hp, elem_of_zseq. lia. Qed.

Lemma sa_lookup_range r k : sa !! r = Some k -> 0 <= k < Z.of_nat (length w).
Proof. intros H. apply sa_elem. by eapply list_elem_of_lookup_2. Qed.

(** Every position has a rank. *)
Lemma sa_rank k : 0 <= k < Z.of_nat (length w) -> exists r, sa !! r = Some k.
Proof. intros H. apply list_elem_of_lookup, sa_elem, H. Qed.

(** Rank order is suffix order, both ways. *)
Lemma sa_order r1 r2 k1 k2 :
  sa !! r1 = Some k1 -> sa !! r2 = Some k2 -> (r1 < r2)%nat ->
  lex_lt (suffix w k1) (suffix w k2).
Proof.
  destruct Hsa as [_ Hs]. apply Sorted_StronglySorted in Hs; [|intros ???; apply lex_lt_trans].
  intros H1 H2 Hr. apply (StronglySorted_lookup _ _ r1 r2 _ _ Hs); [| |done];
    rewrite list_lookup_fmap; [rewrite H1 | rewrite H2]; done.
Qed.

Lemma sa_rank_lt r1 r2 k1 k2 :
  sa !! r1 = Some k1 -> sa !! r2 = Some k2 ->
  lex_lt (suffix w k1) (suffix w k2) -> (r1 < r2)%nat.
Proof.
  intros H1 H2 Hlt. destruct (Nat.lt_trichotomy r1 r2) as [?|[<-|?]]; [done| |].
  - simplify_eq. by apply lex_lt_irrefl in Hlt.
  - pose proof (sa_order _ _ _ _ H2 H1 H). destruct (lex_lt_irrefl (suffix w k1)).
    eapply lex_lt_trans; eauto.
Qed.

(** Kasai's lemma.  If the suffix at [i] shares [h >= 2] bytes with the
    suffix just before it in the array, then the suffix at [i + 1] is not
    the first of the array and shares at least [h - 1] bytes with the
    suffix just before it. *)
Lemma kasai r i j :
  sa !! S r = Some i -> sa !! r = Some j ->
  (2 <= lcp (suffix w i) (suffix w j))%nat ->
  exists r' j', sa !! S r' = Some (i + 1) /\ sa !! r' = Some j' /\
    (lcp (suffix w i) (suffix w j) - 1 <= lcp (suffix w (i + 1)) (suffix w j'))%nat.
Proof.
  intros Hi Hj Hh. pose proof (sa_lookup_range _ _ Hi). pose proof (sa_lookup_range _ _ Hj).
  pose proof (sa_order _ _ _ _ Hj Hi ltac:(lia)) as Hji.
  pose proof (lcp_le_length_l (suffix w i) (suffix w j)).
  pose proof (lcp_le_length_r (suffix w i) (suffix w j)).
  rewrite !length_suffix in * by lia.
  assert (i + 2 <= Z.of_nat (length w) /\ j + 2 <= Z.of_nat (length w)) as [? ?] by lia.
  rewrite (suffix_cons w i), (suffix_cons w j) in Hh, Hji by lia.
  cbn [lcp] in Hh. destruct (w.[i] =? w.[j]) eqn:E; [|lia]. apply Z.eqb_eq in E.
  rewrite E in Hji. apply lex_lt_cons_inv in Hji.
  rewrite (suffix_cons w i), (suffix_cons w j) by lia. cbn [lcp]. rewrite E, Z.eqb_refl.
  destruct (sa_rank (i + 1)) as [ri Hri]; [lia|].
  destruct (sa_rank (j + 1)) as [rj Hrj]; [lia|].
  pose proof (sa_rank_lt _ _ _ _ Hrj Hri Hji) as Hlt.
  destruct ri as [|r']; [lia|].
  destruct (lookup_lt_is_Some_2 sa r') as [j' Hj']; [apply lookup_lt_Some in Hri; lia|].
  exists r', j'. split; [done|]. split; [done|].
  rewrite (lcp_comm (suffix w (i + 1))), (lcp_comm (suffix w (i + 1)) (suffix w j')).
  enough (lcp (suffix w (j + 1)) (suffix w (i + 1)) <= lcp (suffix w j') (suffix w (i + 1)))%nat by lia.
  apply lcp_between; [|exact (sa_order _ _ _ _ Hj' Hri ltac:(lia))].
  destruct (decide (rj = r')) as [->|]; [left; congruence|].
  right. apply (sa_order _ _ _ _ Hrj Hj'). lia.
Qed.

End SuffixArray.

(** ** The suffix sorter

    [divsufsort_build_array] fills the array with the suffix array of the
    window, or fails (it returns non-zero when its work space cannot be
    allocated).  [sa_build] returns [None] for a failure; a result it
    returns meets the contract. *)
Class SuffixSorter := {
  sa_build : list Z -> option (list Z);
  sa_build_ok w sa : sa_build w = Some sa -> is_suffix_array w sa
}.

(** The reference sorter: a merge sort of the positions by their suffixes. *)
Definition suffix_le (w : list Z) (i j : Z) : Prop :=
  suffix w i = suffix w j \/ lex_lt (suffix w i) (suffix w j).

#[export] Instance suffix_le_dec w : RelDecision (suffix_le w).
Proof. intros i j. unfold suffix_le. apply _. Defined.

#[export] Instance suffix_le_total w : Total (suffix_le w).
Proof.
  intros i j. unfold suffix_le.
  destruct (decide (suffix w i = suffix w j)) as [E|Hne]; [auto|].
  destruct (lex_lt_total _ _ Hne); auto.
Qed.

Definition reference_suffix_array (w : list Z) : list Z :=
  merge_sort (suffix_le w) (zseq 0 (length w)).

(** Distinct positions have distinct suffixes (they differ in length). *)
Lemma suffix_inj w i j :
  0 <= i < Z.of_nat (length w) -> 0 <= j < Z.of_nat (length w) ->
  suffix w i = suffix w j -> i = j.
Proof.
  intros Hi Hj E. apply (f_equal length) in E. rewrite !length_suffix in E by lia. lia.
Qed.

Lemma reference_suffix_array_ok w : is_suffix_array w (reference_suffix_array w).
Proof.
  unfold reference_suffix_array. pose proof (merge_sort_Permutation (suffix_le w) (zseq 0 (length w))) as Hp.
  split; [done|].
  assert (Hin : forall k, k ∈ merge_sort (suffix_le w) (zseq 0 (length w)) -> 0 <= k < Z.of_nat (length w)).
  { intros k. rewrite Hp, elem_of_zseq. lia. }
  assert (Hnd : NoDup (merge_sort (suffix_le w) (zseq 0 (length w)))) by (rewrite Hp; apply NoDup_zseq).
  pose proof (Sorted_merge_sort (suffix_le w) (zseq 0 (length w))) as Hs.
  revert Hin Hnd Hs. generalize (merge_sort (suffix_le w) (zseq 0 (length w))) as l.
  intros l Hin Hnd Hs. induction Hs as [|x l Hs IH Hhd]; cbn; constructor.
  - apply IH; [set_solver | by apply NoDup_cons in Hnd as []].
  - destruct Hhd as [|y l Hxy]; cbn; constructor.
    destruct Hxy as [E|]; [|done]. apply NoDup_cons in Hnd as [Hnd _].
    apply suffix_inj in E; [|apply Hin; set_solver ..]. subst. set_solver.
Qed.

#[export] Instance reference_sorter : SuffixSorter := {|
  sa_build w := Some (reference_suffix_array w);
  sa_build_ok w sa H := ltac:(injection H as <-; apply reference_suffix_array_ok)
|}.

End Suffixes.
