(* ===== verification/MatchFinder.v ===== *)
(** * The match finder ([src/matchfinder.c])

    [zultra_build_suffix_array] (lines 49-161) sorts the suffixes of the
    window with the external suffix sorter, computes the permuted LCP array
    with Kärkkäinen's method in [pos_data] (lines 57-76), rotates it into
    rank order and packs each suffix-array entry with its clamped LCP into
    one 32-bit word of [intervals] (lines 78-92), then builds the
    LCP-interval tree in place (lines 94-157).  [zultra_find_matches_at]
    (lines 173-236) walks the tree from a position's deepest interval
    towards the root, [zultra_skip_matches] (lines 245-254) primes it over
    the history, and [zultra_find_all_matches] (lines 264-288) stores up
    to [NMATCHES_PER_OFFSET] matches per position.

    The arrays are [list Z] read with [aget] and written with [aset], with
    [PLCP] and [Phi] the same array as in the C code.

    Theorems: the permuted-LCP loop computes, for every suffix, the length
    of its common prefix with the suffix before it in the suffix array
    ([plcp_correct]), by Kasai's argument ([Suffixes.kasai]); a packed
    word decodes to its fields and a visited marker has no LCP
    ([pack_entry_fields]); the packed array holds the clamped LCP array,
    except at the last rank, whose LCP is dropped ([lcp_array_packed]),
    which loses matches ([last_suffix_match_lost]); the [open_intervals]
    stack keeps its root and never outgrows its allocation
    ([interval_stack_bounded]); [zultra_find_all_matches] leaves every
    slot empty or ending [LAST_LITERALS] bytes before the block end
    ([find_all_matches_slots]). *)

From S2P Require Import Prelude Format Suffixes.
Import Format Suffixes.

Module MatchFinder.

(** ** The permuted LCP (lines 57-76) *)

(** Lines 63-65: [Phi[SA[0]] = -1] and [Phi[SA[r]] = SA[r - 1]], written
    into [pos_data] ([pd]).  [iv] is [intervals], which holds the suffix
    array at this point. *)
Definition build_phi (iv pd : list Z) (nInWindowSize : Z) : list Z :=
  foldl (fun phi i => phi.[iv.[i] := iv.[i - 1]]) (pd.[iv.[0] := -1])
    (zseq 1 (Z.to_nat (nInWindowSize - 1))).

(** Line 72: [while (nCurLen < nMaxLen && w[i + nCurLen] == w[Phi[i] + nCurLen]) nCurLen++;]
    The loop runs at most [nMaxLen] times from a non-negative [nCurLen]. *)
Fixpoint plcp_extend (w : list Z) (i phi nMaxLen nCurLen : Z) (fuel : nat) : Z :=
  match fuel with
  | O => nCurLen
  | S f =>
      if (nCurLen <? nMaxLen) && (w.[i + nCurLen] =? w.[phi + nCurLen])
      then plcp_extend w i phi nMaxLen (nCurLen + 1) f
      else nCurLen
  end.

(** Lines 67-75: one turn of the loop over the text positions [i]; the
    array holds [PLCP] below [i] and [Phi] from [i] on. *)
Definition plcp_step (w : list Z) (nInWindowSize : Z) (st : list Z * Z) (i : Z) : list Z * Z :=
  let '(pd, nCurLen) := st in
  let phi := pd.[i] in
  if phi =? -1 then (pd.[i := 0], nCurLen)
  else
    let nMaxLen := if i >? phi then nInWindowSize - i else nInWindowSize - phi in
    let l := plcp_extend w i phi nMaxLen nCurLen (Z.to_nat nMaxLen) in
    (pd.[i := l], if l >? 0 then l - 1 else l).

(** Lines 57-76: the permuted LCP array, left in [pos_data]. *)
Definition compute_plcp (w iv pd : list Z) (nInWindowSize : Z) : list Z :=
  fst (foldl (plcp_step w nInWindowSize) (build_phi iv pd nInWindowSize, 0)
         (zseq 0 (Z.to_nat nInWindowSize))).

(** ** Rotation into the packed LCP array (lines 78-92) *)

(** Lines 85-88: an LCP below [MIN_MATCH_SIZE] is dropped to 0, one above
    [MAX_MATCH_SIZE] is cut to it. *)
Definition clamp_lcp (nLen : Z) : Z :=
  let nLen := if nLen <? MIN_MATCH_SIZE then 0 else nLen in
  if nLen >? MAX_MATCH_SIZE then MAX_MATCH_SIZE else nLen.

(** Line 89: [((unsigned int)nIndex) | (((unsigned int)nLen) << LCP_SHIFT)],
    a 32-bit [unsigned int]. *)
Definition pack_entry (nIndex nLen : Z) : Z :=
  Z.lor nIndex (wrap 32 (Z.shiftl nLen LCP_SHIFT)).

(** Lines 83-89 for one rank [i]: the suffix-array entry read back from
    [intervals[i]], packed with its clamped permuted LCP. *)
Definition rotate_entry (plcp : list Z) (e : Z) : Z :=
  let nIndex := Z.land e POS_MASK in
  pack_entry nIndex (clamp_lcp plcp.[nIndex]).

(** Lines 81-92.  The loop leaves [i = max 1 (n - 1)]; the entry there, if
    any, keeps LCP 0. *)
Definition rotate_lcp (plcp iv : list Z) (nInWindowSize : Z) : list Z :=
  let iv := iv.[0 := Z.land iv.[0] POS_MASK] in
  let iv := foldl (fun iv i => iv.[i := rotate_entry plcp iv.[i]]) iv
              (zseq 1 (Z.to_nat (nInWindowSize - 2))) in
  let i := Z.max 1 (nInWindowSize - 1) in
  if i <? nInWindowSize then iv.[i := Z.land iv.[i] POS_MASK] else iv.

(** Lines 57-92: the permuted LCP in [pos_data], then the packed LCP
    array in [intervals]; [pos_data] keeps the permuted LCP. *)
Definition lcp_array (w iv pd : list Z) (nInWindowSize : Z) : list Z * list Z :=
  let plcp := compute_plcp w iv pd nInWindowSize in
  (rotate_lcp plcp iv nInWindowSize, plcp).

(** ** The LCP-interval tree (lines 94-157)

    [open_intervals] is a stack: [top] below is the list of its entries
    from [*top] down to [open_intervals[0]].  An entry is an interval, an
    LCP field or'ed with an interval index. *)

(** Lines 127-149: close the deepest open intervals until [next_lcp] can
    continue or open one; each closed interval gets its parent in
    [intervals]. *)
Fixpoint close_intervals (fuel : nat) (iv top : list Z) (next_lcp nid : Z) : list Z * list Z * Z :=
  match fuel, top with
  | S f, t :: rest =>
      let closed_interval_idx := Z.land t POS_MASK in
      let superinterval := hd 0 rest in
      let superinterval_lcp := Z.land superinterval LCP_MASK in
      if next_lcp =? superinterval_lcp then (iv.[closed_interval_idx := superinterval], rest, nid)
      else if next_lcp >? superinterval_lcp then
        let t' := Z.lor next_lcp nid in
        (iv.[closed_interval_idx := t'], t' :: rest, nid + 1)
      else close_intervals f (iv.[closed_interval_idx := superinterval]) rest next_lcp nid
  | _, _ => (iv, top, nid)
  end.

(** The variables of the loop of lines 110-152. *)
Record tree_state := mk_tree_state {
  ts_intervals : list Z;
  ts_pos_data : list Z;
  ts_top : list Z;              (** [open_intervals[0..top]], [*top] first *)
  ts_next_interval_idx : Z;
  ts_prev_pos : Z
}.

(** Lines 111-151: one rank [r] of the packed array. *)
Definition interval_step (st : tree_state) (r : Z) : tree_state :=
  let '(mk_tree_state iv pd top nid prev_pos) := st in
  let next_pos := Z.land iv.[r] POS_MASK in
  let next_lcp := Z.land iv.[r] LCP_MASK in
  let t := hd 0 top in
  let top_lcp := Z.land t LCP_MASK in
  if next_lcp =? top_lcp then mk_tree_state iv (pd.[prev_pos := t]) top nid next_pos
  else if next_lcp >? top_lcp then
    let t' := Z.lor next_lcp nid in
    mk_tree_state iv (pd.[prev_pos := t']) (t' :: top) (nid + 1) next_pos
  else
    let '(iv', top', nid') := close_intervals (length top) iv top next_lcp nid in
    mk_tree_state iv' (pd.[prev_pos := t]) top' nid' next_pos.

(** Lines 156-157: every interval still open gets the one below it. *)
Fixpoint close_remaining (iv top : list Z) : list Z :=
  match top with
  | t :: ((t' :: _) as rest) => close_remaining (iv.[Z.land t POS_MASK := t']) rest
  | _ => iv
  end.

(** Lines 100-152: the first [m] ranks of the loop, from the state of
    lines 104-108. *)
Definition interval_loop (iv pd : list Z) (m : nat) : tree_state :=
  let prev_pos := Z.land iv.[0] POS_MASK in
  foldl interval_step (mk_tree_state (iv.[0 := 0]) pd [0] 1 prev_pos) (zseq 1 m).

(** Lines 100-157: the tree built in place over the packed array. *)
Definition build_intervals (iv pd : list Z) (nInWindowSize : Z) : list Z * list Z :=
  let st := interval_loop iv pd (Z.to_nat (nInWindowSize - 1)) in
  (close_remaining (ts_intervals st) (ts_top st),
   (ts_pos_data st).[ts_prev_pos st := hd 0 (ts_top st)]).

(** Lines 49-161: sort the suffixes of the window ([divsufsort_build_array]
    writes the suffix array into [intervals[0..n)]; on its failure the
    function returns 100), then lines 57-157.  Returns the status and the
    new [intervals] and [pos_data]. *)
Definition zultra_build_suffix_array `{SuffixSorter} (pInWindow iv pd : list Z) (nInWindowSize : Z)
    : Z * list Z * list Z :=
  match sa_build pInWindow with
  | None => (100, iv, pd)
  | Some sa =>
      let iv := sa ++ drop (length sa) iv in
      let '(iv, pd) := lcp_array pInWindow iv pd nInWindowSize in
      let '(iv, pd) := build_intervals iv pd nInWindowSize in
      (0, iv, pd)
  end.

(** ** Match queries (lines 163-288)

    The loops of [zultra_find_matches_at] follow links between intervals
    and positions; each runs on a fuel of one step per entry of
    [intervals], which has one entry per window position. *)

(** Lines 195-198: ascend while the parent has an LCP, linking each
    interval passed to the current position [nOffset]. *)
Fixpoint ascend_unvisited (fuel : nat) (iv : list Z) (nOffset ref : Z) : list Z * Z * Z :=
  let super_ref := iv.[Z.land ref POS_MASK] in
  match fuel with
  | O => (iv, ref, super_ref)
  | S f =>
      if Z.land super_ref LCP_MASK =? 0 then (iv, ref, super_ref)
      else ascend_unvisited f (iv.[Z.land ref POS_MASK := Z.lor nOffset VISITED_FLAG]) nOffset super_ref
  end.

(** Lines 214-215: skip the suffix links that lead to a deeper interval. *)
Fixpoint skip_deeper (fuel : nat) (iv pd : list Z) (ref match_pos : Z) : Z * Z :=
  let super_ref := pd.[match_pos] in
  match fuel with
  | O => (match_pos, super_ref)
  | S f =>
      if super_ref >? ref
      then skip_deeper f iv pd ref (Z.land iv.[Z.land super_ref POS_MASK] EXCL_VISITED_MASK)
      else (match_pos, super_ref)
  end.

(** Lines 219-227: record a match if there is room and the offset is in
    range; the fields are [unsigned short]. *)
Definition record_match (found : list zultra_match) (nMaxMatches nOffset ref match_pos : Z) : list zultra_match :=
  if Z.of_nat (length found) <? nMaxMatches then
    let nMatchOffset := nOffset - match_pos in
    if nMatchOffset <=? MAX_OFFSET
    then found ++ [mk_match (wrap 16 (Z.shiftr ref LCP_SHIFT)) (wrap 16 nMatchOffset)]
    else found
  else found.

(** Lines 213-233: ascend through the suffix links. *)
Fixpoint link_matches (fuel inner : nat) (iv pd : list Z) (nOffset nMaxMatches ref match_pos : Z)
    (found : list zultra_match) : list Z * list Z * list zultra_match :=
  match fuel with
  | O => (iv, pd, found)
  | S f =>
      let '(match_pos, super_ref) := skip_deeper inner iv pd ref match_pos in
      let iv := iv.[Z.land ref POS_MASK := Z.lor nOffset VISITED_FLAG] in
      let pd := pd.[match_pos := ref] in
      let found := record_match found nMaxMatches nOffset ref match_pos in
      if super_ref =? 0 then (iv, pd, found)
      else link_matches f inner iv pd nOffset nMaxMatches super_ref
             (Z.land iv.[Z.land super_ref POS_MASK] EXCL_VISITED_MASK) found
  end.

(** [pMatches[k] = found[k]] for the matches found. *)
Fixpoint write_matches (mt : list zultra_match) (base : Z) (found : list zultra_match) : list zultra_match :=
  match found with
  | [] => mt
  | x :: rest => write_matches (mset mt base x) (base + 1) rest
  end.

(** Lines 173-236: the matches of position [nOffset], written from
    [pMatches = match + base]; returns the arrays and the match count. *)
Definition zultra_find_matches_at (iv pd : list Z) (mt : list zultra_match) (nOffset base nMaxMatches : Z)
    : list Z * list Z * list zultra_match * Z :=
  let fuel := length iv in
  let ref := pd.[nOffset] in
  let pd := pd.[nOffset := 0] in
  let '(iv, ref, super_ref) := ascend_unvisited fuel iv nOffset ref in
  if super_ref =? 0 then
    ((if ref =? 0 then iv else iv.[Z.land ref POS_MASK := Z.lor nOffset VISITED_FLAG]), pd, mt, 0)
  else
    let '(iv, pd, found) := link_matches fuel fuel iv pd nOffset nMaxMatches ref
                              (Z.land super_ref EXCL_VISITED_MASK) [] in
    (iv, pd, write_matches mt base found, Z.of_nat (length found)).

(** Lines 245-254: query the history positions, keeping no match. *)
Definition zultra_skip_matches (iv pd : list Z) (nStartOffset nEndOffset : Z) : list Z * list Z :=
  foldl (fun st i =>
           let '(iv, pd, _, _) := zultra_find_matches_at st.1 st.2 [no_match] i 0 0 in (iv, pd))
    (iv, pd) (zseq nStartOffset (Z.to_nat (nEndOffset - nStartOffset))).

Section FindAll.
(** [LAST_MATCH_OFFSET] (line 273) is defined in no header of the
    repository; the model takes its value as a parameter. *)
Variable LAST_MATCH_OFFSET : Z.

(** Lines 272-286: the [NMATCHES_PER_OFFSET] slots of position [i] from
    [base], after [nMatches] matches were written. *)
Definition clamp_slots (mt : list zultra_match) (base i nEndOffset nMatches : Z) : list zultra_match :=
  foldl (fun mt m =>
           if (nMatches <=? m) || (i >? nEndOffset - LAST_MATCH_OFFSET) then mset mt (base + m) no_match
           else
             let nMaxLen := Z.max 0 ((nEndOffset - LAST_LITERALS) - i) in
             let x := mget mt (base + m) in
             if m_length x >? nMaxLen then mset mt (base + m) (mk_match nMaxLen (m_offset x)) else mt)
    mt (zseq 0 (Z.to_nat NMATCHES_PER_OFFSET)).

(** Lines 268-287 for one position. *)
Definition find_all_step (nEndOffset : Z) (st : list Z * list Z * list zultra_match) (i : Z)
    : list Z * list Z * list zultra_match :=
  let '(iv, pd, mt) := st in
  let base := Z.shiftl i MATCHES_PER_OFFSET_SHIFT in
  let '(iv, pd, mt, nMatches) := zultra_find_matches_at iv pd mt i base NMATCHES_PER_OFFSET in
  (iv, pd, clamp_slots mt base i nEndOffset nMatches).

(** Lines 264-288. *)
Definition zultra_find_all_matches (iv pd : list Z) (mt : list zultra_match) (nStartOffset nEndOffset : Z)
    : list Z * list Z * list zultra_match :=
  foldl (find_all_step nEndOffset) (iv, pd, mt)
    (zseq nStartOffset (Z.to_nat (nEndOffset - nStartOffset))).

End FindAll.

(** ** Writes at distinct indices *)

Lemma aget_foldl_aset_other (f g : Z -> Z) l a k :
  0 <= k -> Forall (fun r => 0 <= f r /\ f r <> k) l ->
  (foldl (fun a r => a.[f r := g r]) a l).[k] = a.[k].
Proof.
  revert a; induction l as [|r l IH]; intros a Hk Hl; [done|].
  apply Forall_cons in Hl as [[??] Hl]. cbn. rewrite IH by done. apply aget_aset_ne; lia.
Qed.

Lemma aget_foldl_aset_hit (f g : Z -> Z) l1 r l2 a k :
  f r = k -> 0 <= k < Z.of_nat (length a) -> Forall (fun r => 0 <= f r /\ f r <> k) l2 ->
  (foldl (fun a r => a.[f r := g r]) a (l1 ++ r :: l2)).[k] = g r.
Proof.
  intros <- ? ?. rewrite foldl_app. cbn. rewrite aget_foldl_aset_other by (done || lia).
  apply aget_aset_eq. by rewrite length_foldl_aset.
Qed.

(** [nMaxLen] of line 71 is the length of the shorter suffix. *)
Lemma nMaxLen_max n i phi : (if i >? phi then n - i else n - phi) = n - Z.max i phi.
Proof. destruct (Z.gtb_spec i phi); lia. Qed.

(** Line 72 extends a common prefix of the two suffixes to the longest one. *)
Lemma plcp_extend_lcp w i j cur fuel :
  let n := Z.of_nat (length w) in
  0 <= i < n -> 0 <= j < n ->
  0 <= cur <= Z.of_nat (lcp (suffix w i) (suffix w j)) ->
  (n - Z.max i j) - cur <= Z.of_nat fuel ->
  plcp_extend w i j (n - Z.max i j) cur fuel = Z.of_nat (lcp (suffix w i) (suffix w j)).
Proof.
  intros n Hi Hj. set (L := lcp (suffix w i) (suffix w j)).
  pose proof (lcp_le_length_l (suffix w i) (suffix w j)).
  pose proof (lcp_le_length_r (suffix w i) (suffix w j)).
  rewrite !length_suffix in * by lia. fold L in H, H0.
  revert cur; induction fuel as [|f IH]; intros cur Hcur Hf; cbn [plcp_extend]; [lia|].
  assert (Hget : forall k, 0 <= k -> (k < n - Z.max i j) ->
            w.[i + k] = w.[j + k] <-> suffix w i !! Z.to_nat k = suffix w j !! Z.to_nat k).
  { intros k Hk Hkn. rewrite !lookup_suffix by lia.
    rewrite <- !Z2Nat.inj_add, (aget_lookup w (i + k)), (aget_lookup w (j + k)) by lia.
    split; congruence. }
  destruct (decide (cur < Z.of_nat L)) as [Hlt|Hge].
  - destruct (lcp_lookup (suffix w i) (suffix w j) (Z.to_nat cur)) as [E _]; [lia|].
    assert (w.[i + cur] = w.[j + cur]) as -> by (apply Hget; [lia | lia | exact E]).
    rewrite Z.eqb_refl, (proj2 (Z.ltb_lt cur _)) by lia. apply IH; lia.
  - assert (cur = Z.of_nat L) as -> by lia.
    destruct (Z.ltb_spec (Z.of_nat L) (n - Z.max i j)); [|done].
    destruct (w.[i + Z.of_nat L] =? w.[j + Z.of_nat L]) eqn:E; [|done]. exfalso.
    apply Z.eqb_eq, Hget in E; [|lia ..]. rewrite Nat2Z.id in E.
    destruct (lcp_stop (suffix w i) (suffix w j)) as [N|[N|N]]; fold L in N; [..|done].
    all: apply lookup_ge_None in N; rewrite length_suffix in N; lia.
Qed.

(** ** The permuted LCP is the LCP with the previous suffix *)

Section Plcp.
Context (w sa iv pd : list Z).
Hypothesis Hsa : is_suffix_array w sa.
(** [divsufsort_build_array] left the suffix array in [intervals[0..n)]. *)
Hypothesis Hiv : take (length w) iv = sa.
(** [pos_data] has room for the window ([zultra_stream_init]). *)
Hypothesis Hpd : (length w <= length pd)%nat.

Let n := Z.of_nat (length w).

Lemma iv_lookup r : 0 <= r < n -> sa !! Z.to_nat r = Some iv.[r].
Proof.
  intros Hr. rewrite <- Hiv, lookup_take_lt by lia. apply aget_lookup.
  pose proof (sa_length _ _ Hsa). rewrite <- Hiv, length_take in *. lia.
Qed.

Lemma sa_aget r : 0 <= r < n -> sa.[r] = iv.[r].
Proof. intros Hr. unfold aget at 1. by rewrite iv_lookup. Qed.

Lemma iv_range r : 0 <= r < n -> 0 <= iv.[r] < n.
Proof. intros. eapply sa_lookup_range; [done|]. by apply iv_lookup. Qed.

Lemma iv_inj r1 r2 : 0 <= r1 < n -> 0 <= r2 < n -> iv.[r1] = iv.[r2] -> r1 = r2.
Proof.
  intros H1 H2 E. pose proof (iv_lookup _ H1) as L1. pose proof (iv_lookup _ H2) as L2.
  rewrite E in L1. pose proof (NoDup_lookup _ _ _ _ (sa_NoDup _ _ Hsa) L1 L2). lia.
Qed.

Lemma iv_rank k : 0 <= k < n -> exists r, 0 <= r < n /\ iv.[r] = k.
Proof.
  intros Hk. destruct (sa_rank _ _ Hsa k Hk) as [r Hr].
  pose proof (lookup_lt_Some _ _ _ Hr). rewrite (sa_length _ _ Hsa) in *.
  exists (Z.of_nat r). split; [lia|].
  pose proof (iv_lookup (Z.of_nat r)) as E. rewrite Nat2Z.id, Hr in E. injection E; [done | lia].
Qed.

Let phi := build_phi iv pd n.

Lemma length_phi : length phi = length pd.
Proof. unfold phi, build_phi. by rewrite length_foldl_aset, length_aset. Qed.

(** Lines 63-65 give [Phi[SA[0]] = -1] ... *)
Lemma phi_first : 0 < n -> phi.[iv.[0]] = -1.
Proof.
  intros Hn. pose proof (iv_range 0). unfold phi, build_phi.
  rewrite (aget_foldl_aset_other (fun i => iv.[i])), aget_aset_eq; [done|lia|lia|].
  apply Forall_forall. intros i Hi%elem_of_zseq. pose proof (iv_range i).
  split; [lia|]. intros E. apply iv_inj in E; lia.
Qed.

(** ... and [Phi[SA[r]] = SA[r - 1]]. *)
Lemma phi_rank r : 1 <= r < n -> phi.[iv.[r]] = iv.[r - 1].
Proof.
  intros Hr. pose proof (iv_range r). unfold phi, build_phi.
  replace (Z.to_nat (n - 1)) with (Z.to_nat (r - 1) + S (Z.to_nat (n - 1 - r)))%nat by lia.
  rewrite zseq_app, zseq_S. replace (1 + Z.of_nat (Z.to_nat (r - 1))) with r by lia.
  apply (aget_foldl_aset_hit (fun i => iv.[i]) (fun i => iv.[i - 1])); [done | rewrite length_aset; lia |].
  apply Forall_forall. intros i Hi%elem_of_zseq. pose proof (iv_range i).
  split; [lia|]. intros E. apply iv_inj in E; lia.
Qed.

(** Every position is the first suffix or has a predecessor in the array. *)
Lemma phi_cases k : 0 <= k < n ->
  phi.[k] = -1 \/ exists r, 1 <= r < n /\ iv.[r] = k /\ phi.[k] = iv.[r - 1].
Proof.
  intros Hk. destruct (iv_rank k Hk) as (r & Hr & <-).
  destruct (decide (r = 0)) as [->|]; [left; apply phi_first; lia|].
  right. exists r. split; [lia|]. split; [done|]. apply phi_rank. lia.
Qed.

(** The value line 73 stores for position [k]. *)
Definition plcp_expected (k : Z) : Z :=
  if phi.[k] =? -1 then 0 else Z.of_nat (lcp (suffix w k) (suffix w phi.[k])).

Lemma plcp_expected_nonneg k : 0 <= plcp_expected k.
Proof. unfold plcp_expected. case_match; lia. Qed.

(** Kasai's lemma on [Phi]: the counter, decremented, still fits below
    the next position's common prefix. *)
Lemma plcp_expected_next k :
  0 <= k -> k + 1 < n -> phi.[k] <> -1 -> plcp_expected k - 1 <= plcp_expected (k + 1).
Proof.
  intros Hk Hk1 Hphi. pose proof (plcp_expected_nonneg (k + 1)).
  destruct (phi_cases k) as [|(r & Hr & Hrk & Hpk)]; [lia|done|].
  unfold plcp_expected at 1. rewrite (proj2 (Z.eqb_neq _ _) Hphi), Hpk.
  destruct (decide (2 <= lcp (suffix w k) (suffix w iv.[r - 1]))%nat) as [H2|]; [|lia].
  assert (Hs1 : sa !! S (Z.to_nat (r - 1)) = Some k)
    by (rewrite <- Hrk, <- (iv_lookup r) by lia; f_equal; lia).
  assert (Hs0 : sa !! Z.to_nat (r - 1) = Some iv.[r - 1]) by (apply iv_lookup; lia).
  destruct (kasai w sa Hsa _ _ _ Hs1 Hs0 H2) as (r' & j' & Hr' & Hj' & Hle).
  pose proof (lookup_lt_Some _ _ _ Hr'). rewrite (sa_length _ _ Hsa) in *.
  assert (iv.[Z.of_nat (S r')] = k + 1) as Hk'.
  { pose proof (iv_lookup (Z.of_nat (S r'))) as E. rewrite Nat2Z.id, Hr' in E.
    injection E; [done | lia]. }
  assert (iv.[Z.of_nat r'] = j') as Hj''.
  { pose proof (iv_lookup (Z.of_nat r')) as E. rewrite Nat2Z.id, Hj' in E.
    injection E; [done | lia]. }
  pose proof (phi_rank (Z.of_nat (S r'))) as Hp. rewrite Hk' in Hp.
  replace (Z.of_nat (S r') - 1) with (Z.of_nat r') in Hp by lia. rewrite Hj'' in Hp.
  pose proof (sa_lookup_range _ _ Hsa _ _ Hj').
  unfold plcp_expected. rewrite Hp by lia. rewrite (proj2 (Z.eqb_neq _ _)) by lia. lia.
Qed.

(** The state of the loop of lines 66-76 before position [m]: [PLCP]
    below [m], [Phi] from [m] on, and a counter that does not exceed the
    common prefix at [m]. *)
Definition plcp_inv (m : Z) (st : list Z * Z) : Prop :=
  length st.1 = length pd /\
  (forall k, 0 <= k < m -> st.1.[k] = plcp_expected k) /\
  (forall k, m <= k -> st.1.[k] = phi.[k]) /\
  0 <= st.2 /\ (m < n -> st.2 <= plcp_expected m).

(** Line 68 or line 73 stores the expected value at [m]. *)
Lemma plcp_inv_store m a cur cur' :
  0 <= m < n -> plcp_inv m (a, cur) -> 0 <= cur' ->
  (m + 1 < n -> cur' <= plcp_expected (m + 1)) ->
  plcp_inv (m + 1) (a.[m := plcp_expected m], cur').
Proof.
  intros Hm (Hlen & Hlo & Hhi & _) Hc Hc'. unfold plcp_inv. cbn [fst snd] in *.
  split; [by rewrite length_aset|]. split; [|split; [|done]].
  - intros k Hk. destruct (decide (k = m)) as [->|].
    + apply aget_aset_eq. lia.
    + rewrite aget_aset_ne by lia. apply Hlo. lia.
  - intros k Hk. rewrite aget_aset_ne by lia. apply Hhi. lia.
Qed.

Lemma plcp_step_inv m st :
  0 <= m < n -> plcp_inv m st -> plcp_inv (m + 1) (plcp_step w n st m).
Proof.
  intros Hm Hinv. destruct st as [a cur].
  pose proof Hinv as (Hlen & Hlo & Hhi & Hc0 & Hc). cbn [fst snd] in *.
  unfold plcp_step. rewrite (Hhi m) by lia.
  destruct (Z.eqb_spec phi.[m] (-1)) as [Hp|Hp].
  - assert (plcp_expected m = 0) as E by (unfold plcp_expected; by rewrite Hp).
    rewrite <- E. apply (plcp_inv_store m a cur); [done|done|lia|].
    intros. pose proof (plcp_expected_nonneg (m + 1)). specialize (Hc ltac:(lia)). lia.
  - destruct (phi_cases m) as [|(r & Hr & Hrm & Hpm)]; [lia|done|].
    pose proof (iv_range (r - 1) ltac:(lia)).
    rewrite nMaxLen_max, plcp_extend_lcp; [|lia|lia| |lia].
    2:{ specialize (Hc ltac:(lia)). unfold plcp_expected in Hc.
        rewrite (proj2 (Z.eqb_neq _ _) Hp) in Hc. lia. }
    assert (Z.of_nat (lcp (suffix w m) (suffix w phi.[m])) = plcp_expected m) as ->
      by (unfold plcp_expected; by rewrite (proj2 (Z.eqb_neq _ _) Hp)).
    apply (plcp_inv_store m a cur); [done|done| |].
    + pose proof (plcp_expected_nonneg m). case_match; lia.
    + intros. pose proof (plcp_expected_next m ltac:(lia) ltac:(done) Hp).
      pose proof (plcp_expected_nonneg (m + 1)). case_match; lia.
Qed.

Lemma plcp_loop_inv (m : nat) :
  (Z.of_nat m <= n) ->
  plcp_inv (Z.of_nat m) (foldl (plcp_step w n) (phi, 0) (zseq 0 m)).
Proof.
  induction m as [|m IH]; intros Hm.
  - unfold plcp_inv. cbn [foldl zseq seq map fst snd].
    split; [apply length_phi|]. split; [lia|]. split; [done|].
    split; [lia|]. intros. apply plcp_expected_nonneg.
  - rewrite Nat2Z.inj_succ, <- Z.add_1_r.
    replace (S m) with (m + 1)%nat by lia. rewrite zseq_app, foldl_app, zseq_one.
    cbn [foldl]. replace (0 + Z.of_nat m) with (Z.of_nat m) by lia.
    apply plcp_step_inv; [lia|]. apply IH. lia.
Qed.

(** After the loop, [PLCP] holds the expected value at every position. *)
Lemma compute_plcp_expected k :
  0 <= k < n -> (compute_plcp w iv pd n).[k] = plcp_expected k.
Proof.
  intros Hk. pose proof (plcp_loop_inv (Z.to_nat n) ltac:(lia)) as (_ & Hlo & _).
  unfold compute_plcp. fold phi. apply Hlo. lia.
Qed.

(** The permuted LCP, read in rank order. *)
Lemma compute_plcp_rank r :
  1 <= r < n -> (compute_plcp w iv pd n).[sa.[r]] = Z.of_nat (lcp (suffix w sa.[r]) (suffix w sa.[r - 1])).
Proof.
  intros Hr. pose proof (iv_range r ltac:(lia)). pose proof (iv_range (r - 1) ltac:(lia)).
  rewrite !sa_aget, compute_plcp_expected by lia. unfold plcp_expected.
  rewrite phi_rank by lia. rewrite (proj2 (Z.eqb_neq _ _)) by lia. done.
Qed.

Lemma compute_plcp_first : 0 < n -> (compute_plcp w iv pd n).[sa.[0]] = 0.
Proof.
  intros Hn. pose proof (iv_range 0 ltac:(lia)).
  rewrite sa_aget, compute_plcp_expected by lia. unfold plcp_expected. by rewrite phi_first.
Qed.

End Plcp.

(** C4. The permuted-LCP loop of [zultra_build_suffix_array] (lines 57-76),
    run on the suffix array of the window, leaves in [pos_data] for every
    suffix the length of its longest common prefix with the suffix just
    before it in the suffix array, and 0 for the first suffix: it computes
    the LCP array of the spec (section 4.3, step 2), permuted into text
    order. *)
Theorem plcp_correct w sa iv pd :
  is_suffix_array w sa -> take (length w) iv = sa -> (length w <= length pd)%nat ->
  (0 < length w)%nat ->
  (compute_plcp w iv pd (Z.of_nat (length w))).[sa.[0]] = 0 /\
  forall r, 1 <= r < Z.of_nat (length w) ->
    (compute_plcp w iv pd (Z.of_nat (length w))).[sa.[r]] =
      Z.of_nat (lcp (suffix w sa.[r]) (suffix w sa.[r - 1])).
Proof.
  intros Hsa Hiv Hpd Hn. split.
  - apply compute_plcp_first; [done..|lia].
  - apply compute_plcp_rank; done.
Qed.

(** ** The packed word *)

(** Side conditions on the packed-word constants: unfold them to numerals. *)
Ltac mf_arith :=
  cbv [LCP_SHIFT LCP_BITS POS_MASK LCP_MAX VISITED_FLAG EXCL_VISITED_MASK
       MIN_MATCH_SIZE MAX_MATCH_SIZE MAX_OFFSET] in *; cbn -[Z.land Z.lor Z.shiftl Z.shiftr] in *; zlia.

Lemma POS_MASK_ones : POS_MASK = Z.ones LCP_SHIFT.
Proof. reflexivity. Qed.

Lemma LCP_MASK_ones : LCP_MASK = Z.shiftl (Z.ones LCP_BITS) LCP_SHIFT.
Proof. reflexivity. Qed.

Lemma land_POS_MASK x : Z.land x POS_MASK = x mod 2 ^ LCP_SHIFT.
Proof. rewrite POS_MASK_ones. apply Z.land_ones. cbv; discriminate. Qed.

(** Masking with a shifted mask is shifting, masking and shifting back. *)
Lemma land_shiftl_mask x m a :
  0 <= a -> Z.land x (Z.shiftl m a) = Z.shiftl (Z.land (Z.shiftr x a) m) a.
Proof.
  intros Ha. apply Z.bits_inj'. intros k Hk. rewrite Z.land_spec.
  destruct (Z.lt_ge_cases k a).
  - rewrite !Z.shiftl_spec_low by lia. apply andb_false_r.
  - rewrite !Z.shiftl_spec_high, Z.land_spec, Z.shiftr_spec by lia.
    by replace (k - a + a) with k by lia.
Qed.

(** The LCP field of a 31-bit word. *)
Lemma land_LCP_MASK x :
  0 <= x < 2 ^ 31 -> Z.land x LCP_MASK = x / 2 ^ LCP_SHIFT * 2 ^ LCP_SHIFT.
Proof.
  intros Hx. rewrite LCP_MASK_ones, land_shiftl_mask by (cbv; discriminate).
  rewrite Z.land_ones, Z.shiftr_div_pow2, Z.shiftl_mul_pow2 by (cbv; discriminate).
  rewrite Z.mod_small; [done|]. cbv [LCP_SHIFT LCP_BITS] in *. split; [apply Z.div_pos; lia|].
  apply Z.div_lt_upper_bound; lia.
Qed.

Lemma pack_entry_eq p l :
  0 <= p <= POS_MASK -> 0 <= l <= LCP_MAX -> pack_entry p l = p + l * 2 ^ LCP_SHIFT.
Proof.
  intros Hp Hl. change POS_MASK with 4194303 in Hp. change LCP_MAX with 511 in Hl.
  unfold pack_entry. change LCP_SHIFT with 22.
  rewrite wrap_small by (try rewrite Z.shiftl_mul_pow2 by lia; cbn; lia).
  rewrite lor_shiftl_add by (cbn; lia). reflexivity.
Qed.

Lemma clamp_lcp_range l : 0 <= clamp_lcp l <= MAX_MATCH_SIZE.
Proof. unfold clamp_lcp, MIN_MATCH_SIZE, MAX_MATCH_SIZE. repeat case_match; lia. Qed.

Lemma pack_decode p l :
  0 <= p <= POS_MASK -> 0 <= l <= LCP_MAX ->
  Z.land (pack_entry p l) POS_MASK = p /\
  Z.land (pack_entry p l) LCP_MASK = Z.shiftl l LCP_SHIFT /\
  Z.shiftr (pack_entry p l) LCP_SHIFT = l /\
  0 <= pack_entry p l < VISITED_FLAG.
Proof.
  intros Hp Hl. rewrite pack_entry_eq by done.
  rewrite land_POS_MASK, land_LCP_MASK, Z.shiftr_div_pow2, Z.shiftl_mul_pow2 by mf_arith.
  split_and!; mf_arith.
Qed.

(** A visited marker [pos | VISITED_FLAG] has LCP field 0. *)
Lemma visited_no_lcp p : 0 <= p <= POS_MASK -> Z.land (Z.lor p VISITED_FLAG) LCP_MASK = 0.
Proof.
  intros Hp. rewrite Z.land_lor_distr_l, land_LCP_MASK by mf_arith.
  replace (p / 2 ^ LCP_SHIFT) with 0 by mf_arith. reflexivity.
Qed.

(** A bare entry is a packed word with LCP 0. *)
Lemma pack_entry_0 p : 0 <= p <= POS_MASK -> pack_entry p 0 = p.
Proof. intros. rewrite pack_entry_eq by mf_arith. lia. Qed.

(** C37. A packed word of line 89 is a well-formed 31-bit value: for a
    position that fits [POS_MASK] (22 bits) and an LCP that fits [LCP_MAX]
    (9 bits) the two fields do not overlap, each mask reads back its field,
    [>> LCP_SHIFT] reads back the LCP, bit 31 ([VISITED_FLAG]) stays clear,
    and a visited marker [pos | VISITED_FLAG] has LCP field 0, so the
    query of line 195 cannot take it for an interval. *)
Theorem pack_entry_fields p l :
  0 <= p <= POS_MASK -> 0 <= l <= LCP_MAX ->
  Z.land (pack_entry p l) POS_MASK = p /\
  Z.land (pack_entry p l) LCP_MASK = Z.shiftl l LCP_SHIFT /\
  Z.shiftr (pack_entry p l) LCP_SHIFT = l /\
  0 <= pack_entry p l < VISITED_FLAG /\
  Z.land (Z.lor p VISITED_FLAG) LCP_MASK = 0.
Proof.
  intros Hp Hl. pose proof (pack_decode p l Hp Hl) as (? & ? & ? & ?).
  split_and!; try done; [lia | lia | by apply visited_no_lcp].
Qed.

(** ** Writes of one index from its own old value *)

Lemma aget_foldl_pointwise (F : Z -> Z -> Z) a lo m k :
  0 <= lo -> 0 <= k ->
  (foldl (fun a i => a.[i := F i a.[i]]) a (zseq lo m)).[k] =
    if decide (lo <= k < lo + Z.of_nat m /\ k < Z.of_nat (length a)) then F k a.[k] else a.[k].
Proof.
  revert a lo; induction m as [|m IH]; intros a lo Hlo Hk.
  - cbn. case_decide; [lia|done].
  - rewrite zseq_S. cbn [foldl]. rewrite IH, length_aset by lia.
    destruct (decide (k = lo)) as [->|Hne].
    + rewrite decide_False by lia. destruct (decide (lo < Z.of_nat (length a))).
      * rewrite aget_aset_eq, decide_True by lia. done.
      * rewrite aget_out by (rewrite length_aset; lia). rewrite decide_False by lia.
        by rewrite aget_out by lia.
    + rewrite aget_aset_ne by lia. repeat case_decide; lia || done.
Qed.

Lemma length_foldl_pointwise (F : Z -> Z -> Z) a l :
  length (foldl (fun a i => a.[i := F i a.[i]]) a l) = length a.
Proof. revert a; induction l as [|i l IH]; intros a; cbn; [done|]. by rewrite IH, length_aset. Qed.

(** ** The packed LCP array *)

(** What lines 81-92 store at rank [r]: the entry packed with its clamped
    permuted LCP for the ranks strictly between the first and the last,
    and the bare entry (LCP 0) at both ends. *)
Definition rotated_at (plcp iv : list Z) (n r : Z) : Z :=
  if decide (1 <= r < n - 1) then rotate_entry plcp iv.[r] else Z.land iv.[r] POS_MASK.

Lemma rotate_lcp_at plcp iv n r :
  (Z.to_nat n <= length iv)%nat -> 0 <= r < n ->
  (rotate_lcp plcp iv n).[r] = rotated_at plcp iv n r.
Proof.
  intros Hlen Hr. unfold rotate_lcp, rotated_at.
  set (iv0 := iv.[0 := Z.land iv.[0] POS_MASK]).
  assert (H0 : forall k, 0 <= k -> iv0.[k] = if decide (k = 0) then Z.land iv.[k] POS_MASK else iv.[k]).
  { intros k Hk. unfold iv0. case_decide; [subst; apply aget_aset_eq; lia|].
    apply aget_aset_ne; lia. }
  assert (Hl0 : length iv0 = length iv) by apply length_aset.
  set (iv1 := foldl _ iv0 _).
  assert (H1 : forall k, 0 <= k -> iv1.[k] =
            if decide (1 <= k < n - 1 /\ k < Z.of_nat (length iv)) then rotate_entry plcp iv0.[k] else iv0.[k]).
  { intros k Hk. unfold iv1. rewrite (aget_foldl_pointwise (fun _ x => rotate_entry plcp x)), Hl0 by lia.
    repeat case_decide; lia || done. }
  assert (Hl1 : length iv1 = length iv)
    by (unfold iv1; by rewrite (length_foldl_pointwise (fun _ x => rotate_entry plcp x))).
  destruct (Z.ltb_spec (Z.max 1 (n - 1)) n) as [Hl|Hl].
  - destruct (decide (r = Z.max 1 (n - 1))) as [->|Hne].
    + rewrite aget_aset_eq by lia. rewrite H1, H0 by lia. repeat case_decide; lia || done.
    + rewrite aget_aset_ne, H1, H0 by lia. repeat case_decide; subst; lia || done.
  - rewrite H1, H0 by lia. repeat case_decide; subst; lia || done.
Qed.

Section LcpArray.
Context (w sa iv pd : list Z).
Hypothesis Hsa : is_suffix_array w sa.
Hypothesis Hiv : take (length w) iv = sa.
Hypothesis Hpd : (length w <= length pd)%nat.
(** Every position fits the 22-bit position field. *)
Hypothesis Hfit : Z.of_nat (length w) <= POS_MASK + 1.

Let n := Z.of_nat (length w).

Lemma iv_length : (length w <= length iv)%nat.
Proof.
  pose proof (sa_length _ _ Hsa) as E. rewrite <- Hiv, length_take in E. lia.
Qed.

Lemma iv_pos r : 0 <= r < n -> Z.land iv.[r] POS_MASK = iv.[r].
Proof.
  intros Hr. pose proof (iv_range w sa iv pd Hsa Hiv Hpd r Hr).
  rewrite land_POS_MASK. apply Z.mod_small. revert Hfit. mf_arith.
Qed.

(** The packed array of lines 78-92, rank by rank: position field and
    LCP field. *)
Lemma lcp_array_at r :
  0 <= r < n ->
  let e := (rotate_lcp (compute_plcp w iv pd n) iv n).[r] in
  Z.land e POS_MASK = sa.[r] /\
  Z.shiftr e LCP_SHIFT =
    (if decide (1 <= r < n - 1)
     then clamp_lcp (Z.of_nat (lcp (suffix w sa.[r]) (suffix w sa.[r - 1]))) else 0).
Proof.
  intros Hr e. pose proof (iv_range w sa iv pd Hsa Hiv Hpd r Hr).
  unfold e. rewrite rotate_lcp_at by (pose proof iv_length; lia).
  rewrite (sa_aget w sa iv pd Hsa Hiv Hpd r Hr). unfold rotated_at.
  assert (Hp : 0 <= iv.[r] <= POS_MASK) by (revert Hfit; mf_arith).
  case_decide.
  - unfold rotate_entry. rewrite iv_pos by done.
    pose proof (compute_plcp_rank w sa iv pd Hsa Hiv Hpd r ltac:(lia)) as E.
    rewrite (sa_aget w sa iv pd Hsa Hiv Hpd r Hr) in E. fold n in E. rewrite E.
    pose proof (clamp_lcp_range (Z.of_nat (lcp (suffix w iv.[r]) (suffix w sa.[r - 1])))).
    destruct (pack_decode iv.[r] (clamp_lcp (Z.of_nat (lcp (suffix w iv.[r]) (suffix w sa.[r - 1])))))
      as (? & _ & ? & _); [done | revert H1; mf_arith |]. done.
  - rewrite !iv_pos by done. split; [done|].
    destruct (pack_decode iv.[r] 0) as (_ & _ & E & _); [done | mf_arith |].
    by rewrite pack_entry_0 in E.
Qed.

End LcpArray.

(** C6. Lines 57-92 turn the suffix array of the window into the packed
    LCP array: for a window that fits the 22-bit position field, the word
    at rank [r] holds the suffix-array entry [SA[r]] in its position field
    and, for [1 <= r < n - 1], the LCP of that suffix with the previous one
    clamped as lines 85-88 do; the first rank and the last rank [n - 1]
    get LCP 0 (the last one because the loop of line 82 stops at [n - 2]
    and line 92 masks the LCP away). *)
Theorem lcp_array_packed w sa iv pd r :
  is_suffix_array w sa -> take (length w) iv = sa -> (length w <= length pd)%nat ->
  Z.of_nat (length w) <= POS_MASK + 1 -> 0 <= r < Z.of_nat (length w) ->
  Z.land (fst (lcp_array w iv pd (Z.of_nat (length w)))).[r] POS_MASK = sa.[r] /\
  Z.shiftr (fst (lcp_array w iv pd (Z.of_nat (length w)))).[r] LCP_SHIFT =
    (if decide (1 <= r < Z.of_nat (length w) - 1)
     then clamp_lcp (Z.of_nat (lcp (suffix w sa.[r]) (suffix w sa.[r - 1]))) else 0).
Proof. intros. apply lcp_array_at; done. Qed.

(** The window [zzzzzz]: the last suffix in the array ([zzzzzz] itself)
    shares 5 bytes with the one before it, yet its packed LCP is 0. *)
Definition ex_run_window : list Z := replicate 6 122.

Lemma lcp_array_packed_witness :
  let sa := reference_suffix_array ex_run_window in
  Z.shiftr (fst (lcp_array ex_run_window sa (replicate 6 0) 6)).[5] LCP_SHIFT = 0 /\
  lcp (suffix ex_run_window sa.[5]) (suffix ex_run_window sa.[4]) = 5%nat.
Proof.
  intros sa. split; [|vm_compute; reflexivity].
  change 6 with (Z.of_nat (length ex_run_window)).
  destruct (lcp_array_packed ex_run_window sa sa (replicate 6 0) 5) as [_ ->];
    [apply reference_suffix_array_ok | decide_by_eval .. | vm_compute; reflexivity].
Defined.

Lemma plcp_correct_witness :
  (compute_plcp ex_run_window (reference_suffix_array ex_run_window) (replicate 6 0) 6).[
     (reference_suffix_array ex_run_window).[0]] = 0 /\
  forall r, 1 <= r < 6 ->
    (compute_plcp ex_run_window (reference_suffix_array ex_run_window) (replicate 6 0) 6).[
       (reference_suffix_array ex_run_window).[r]] =
    Z.of_nat (lcp (suffix ex_run_window (reference_suffix_array ex_run_window).[r])
                  (suffix ex_run_window (reference_suffix_array ex_run_window).[r - 1])).
Proof.
  exact (plcp_correct ex_run_window _ (reference_suffix_array ex_run_window) (replicate 6 0)
           (reference_suffix_array_ok ex_run_window)
           ltac:(decide_by_eval) ltac:(decide_by_eval) ltac:(decide_by_eval)).
Defined.

Lemma pack_entry_fields_witness :
  Z.land (pack_entry 5 258) POS_MASK = 5 /\
  Z.land (pack_entry 5 258) LCP_MASK = Z.shiftl 258 LCP_SHIFT /\
  Z.shiftr (pack_entry 5 258) LCP_SHIFT = 258 /\
  0 <= pack_entry 5 258 < VISITED_FLAG /\
  Z.land (Z.lor 5 VISITED_FLAG) LCP_MASK = 0.
Proof. exact (pack_entry_fields 5 258 ltac:(decide_by_eval) ltac:(decide_by_eval)). Defined.


(** ** The open-interval stack *)

(** The LCP field of a packed word. *)
Definition entry_lcp (e : Z) : Z := Z.shiftr e LCP_SHIFT.

(** A well-formed [open_intervals] stack: the root entry 0 at the bottom,
    above it intervals with indices below [nid] and LCPs that strictly
    increase towards [*top], none above [MAX_MATCH_SIZE]. *)
Inductive stack_wf (nid : Z) : list Z -> Prop :=
| stack_root : stack_wf nid [0]
| stack_push i L top :
    stack_wf nid top -> 1 <= i < nid -> 0 < L -> entry_lcp (hd 0 top) < L <= MAX_MATCH_SIZE ->
    stack_wf nid (pack_entry i L :: top).

Lemma stack_wf_mono nid nid' top : stack_wf nid top -> nid <= nid' -> stack_wf nid' top.
Proof. induction 1; intros; constructor; auto with lia. Qed.

Lemma entry_lcp_pack i L : 0 <= i <= POS_MASK -> 0 <= L <= LCP_MAX -> entry_lcp (pack_entry i L) = L.
Proof. intros. unfold entry_lcp. by destruct (pack_decode i L) as (_ & _ & -> & _). Qed.

Lemma stack_wf_hd_lcp nid top : stack_wf nid top -> nid <= POS_MASK + 1 -> 0 <= entry_lcp (hd 0 top) <= MAX_MATCH_SIZE.
Proof.
  destruct 1 as [|i L top _ Hi HL0 HL]; intros; [cbn [hd]; unfold entry_lcp; rewrite Z.shiftr_0_l; mf_arith|].
  cbn [hd]. rewrite entry_lcp_pack by mf_arith. mf_arith.
Qed.

Lemma stack_wf_depth nid top :
  stack_wf nid top -> nid <= POS_MASK + 1 -> Z.of_nat (length top) <= entry_lcp (hd 0 top) + 1.
Proof.
  induction 1 as [|i L top Hwf IH Hi HL0 HL]; intros Hn; [cbn [length hd]; unfold entry_lcp; rewrite Z.shiftr_0_l; lia|].
  pose proof (stack_wf_hd_lcp _ _ Hwf Hn). cbn [length hd].
  rewrite entry_lcp_pack by mf_arith. specialize (IH Hn). lia.
Qed.

Lemma stack_wf_hd_field nid top :
  stack_wf nid top -> nid <= POS_MASK + 1 ->
  Z.land (hd 0 top) LCP_MASK = Z.shiftl (entry_lcp (hd 0 top)) LCP_SHIFT.
Proof.
  destruct 1 as [|i L top _ Hi HL0 HL]; intros; [reflexivity|].
  cbn [hd]. rewrite entry_lcp_pack by mf_arith.
  by destruct (pack_decode i L) as (_ & -> & _); [mf_arith | mf_arith |].
Qed.

(** Line 121 and line 141: [next_lcp | next_interval_idx] is a packed word. *)
Lemma lor_shiftl_pack L i :
  0 <= i <= POS_MASK -> 0 <= L <= LCP_MAX -> Z.lor (Z.shiftl L LCP_SHIFT) i = pack_entry i L.
Proof.
  intros Hi HL. unfold pack_entry. rewrite Z.lor_comm, wrap_small; [done | lia |].
  rewrite Z.shiftl_mul_pow2 by mf_arith. mf_arith.
Qed.

Lemma shiftl_eqb a b : (Z.shiftl a LCP_SHIFT =? Z.shiftl b LCP_SHIFT) = (a =? b).
Proof.
  rewrite !Z.shiftl_mul_pow2 by mf_arith. change (2 ^ LCP_SHIFT) with 4194304.
  destruct (Z.eqb_spec a b), (Z.eqb_spec (a * 4194304) (b * 4194304)); lia.
Qed.

Lemma shiftl_gtb a b : (Z.shiftl a LCP_SHIFT >? Z.shiftl b LCP_SHIFT) = (a >? b).
Proof.
  rewrite !Z.shiftl_mul_pow2 by mf_arith. change (2 ^ LCP_SHIFT) with 4194304.
  destruct (Z.gtb_spec a b), (Z.gtb_spec (a * 4194304) (b * 4194304)); lia.
Qed.

(** Lines 127-149 close at least one interval and stop on an interval of
    LCP [Ln], which they open if needed; they never pop the root and only
    write [intervals] at indices of intervals already opened. *)
Lemma close_intervals_ok fuel iv top Ln nid :
  stack_wf nid top -> 1 <= nid <= POS_MASK -> 0 <= Ln < entry_lcp (hd 0 top) ->
  (length top <= fuel)%nat ->
  let '(iv', top', nid') := close_intervals fuel iv top (Z.shiftl Ln LCP_SHIFT) nid in
  stack_wf nid' top' /\ nid <= nid' <= nid + 1 /\ entry_lcp (hd 0 top') = Ln /\
  length iv' = length iv /\ (forall k, nid <= k -> iv'.[k] = iv.[k]).
Proof.
  revert iv top; induction fuel as [|f IH]; intros iv top Hwf Hnid HLn Hfuel.
  { destruct Hwf; cbn in Hfuel; lia. }
  destruct Hwf as [|i L rest Hrest Hi HL0 HL].
  { cbn [hd] in HLn. unfold entry_lcp in HLn. rewrite Z.shiftr_0_l in HLn. lia. }
  cbn [hd] in HLn. rewrite entry_lcp_pack in HLn by mf_arith.
  cbn [close_intervals]. destruct (pack_decode i L) as (-> & _); [mf_arith | mf_arith |].
  rewrite (stack_wf_hd_field _ _ Hrest) by lia. rewrite shiftl_eqb, shiftl_gtb.
  pose proof (stack_wf_hd_lcp _ _ Hrest ltac:(lia)).
  destruct (Z.eqb_spec Ln (entry_lcp (hd 0 rest))) as [E|].
  { split_and!; try (done || lia || congruence); [apply length_aset|].
    intros k Hk. apply aget_aset_ne; lia. }
  destruct (Z.gtb_spec Ln (entry_lcp (hd 0 rest))).
  { rewrite lor_shiftl_pack by mf_arith.
    split_and!; try lia; [| | apply length_aset |].
    - constructor; [apply (stack_wf_mono nid); [done | lia] | lia | lia | mf_arith].
    - cbn [hd]. apply entry_lcp_pack; mf_arith.
    - intros k Hk. apply aget_aset_ne; lia. }
  specialize (IH (iv.[i := hd 0 rest]) rest Hrest ltac:(lia) ltac:(lia) ltac:(cbn in Hfuel; lia)).
  destruct (close_intervals f _ rest _ nid) as [[iv' top'] nid'].
  destruct IH as (? & ? & ? & Hl & Hk). split_and!; try (done || lia).
  - by rewrite Hl, length_aset.
  - intros k Hk'. rewrite Hk by done. apply aget_aset_ne; lia.
Qed.

Lemma stack_wf_last nid top : stack_wf nid top -> last top = Some 0.
Proof.
  induction 1 as [|i L top Hwf IH]; [done|].
  destruct top; [inversion Hwf | done].
Qed.

Lemma land_POS_MASK_range x : 0 <= Z.land x POS_MASK <= POS_MASK.
Proof. rewrite land_POS_MASK. pose proof (Z.mod_pos_bound x (2 ^ LCP_SHIFT)). mf_arith. Qed.

(** Lines 78-92 leave packed words at every rank. *)
Lemma rotate_lcp_packed plcp iv n r :
  (Z.to_nat n <= length iv)%nat -> 0 <= r < n ->
  exists p L, 0 <= p <= POS_MASK /\ 0 <= L <= MAX_MATCH_SIZE /\
    (rotate_lcp plcp iv n).[r] = pack_entry p L.
Proof.
  intros Hl Hr. rewrite rotate_lcp_at by done. unfold rotated_at.
  pose proof (land_POS_MASK_range iv.[r]). case_decide.
  - unfold rotate_entry. eexists _, _. split; [done|]. split; [apply clamp_lcp_range | done].
  - exists (Z.land iv.[r] POS_MASK), 0. split; [done|]. split; [mf_arith|].
    by rewrite pack_entry_0.
Qed.

(** ** The loop of lines 110-152 *)

Section Tree.
Context (iv0 pd0 : list Z) (n : Z).
(** Every index fits the position field ([zultra_stream_init] bounds the window). *)
Hypothesis Hn : n <= POS_MASK + 1.
(** Lines 78-92 left packed words with LCPs up to [MAX_MATCH_SIZE]. *)
Hypothesis Hpacked : forall r, 1 <= r < n ->
  exists p L, 0 <= p <= POS_MASK /\ 0 <= L <= MAX_MATCH_SIZE /\ iv0.[r] = pack_entry p L.

(** Before rank [r]: a well-formed stack, interval indices below [r], and
    the packed words from rank [r] on not yet overwritten. *)
Definition tree_inv (r : Z) (st : tree_state) : Prop :=
  stack_wf (ts_next_interval_idx st) (ts_top st) /\
  1 <= ts_next_interval_idx st <= r /\
  length (ts_intervals st) = length iv0 /\
  (forall k, r <= k -> (ts_intervals st).[k] = iv0.[k]).

Lemma interval_step_inv r st : 1 <= r < n -> tree_inv r st -> tree_inv (r + 1) (interval_step st r).
Proof.
  intros Hr (Hwf & Hnid & Hl & Hk). destruct st as [iv pd top nid prev]; cbn [ts_intervals ts_top ts_next_interval_idx] in *.
  unfold interval_step. rewrite (Hk r) by lia. destruct (Hpacked r Hr) as (p & L & Hp & HL & ->).
  destruct (pack_decode p L) as (-> & -> & _); [done | mf_arith |].
  rewrite (stack_wf_hd_field _ _ Hwf) by lia. rewrite shiftl_eqb, shiftl_gtb.
  pose proof (stack_wf_hd_lcp _ _ Hwf ltac:(lia)).
  destruct (Z.eqb_spec L (entry_lcp (hd 0 top))).
  { unfold tree_inv; cbn. split_and!; try (done || lia). intros k Hk'. apply Hk. lia. }
  destruct (Z.gtb_spec L (entry_lcp (hd 0 top))).
  { rewrite lor_shiftl_pack by mf_arith. unfold tree_inv; cbn. split_and!; try (done || lia).
    - constructor; [apply (stack_wf_mono nid); [done | lia] | lia | lia | lia].
    - intros k Hk'. apply Hk. lia. }
  pose proof (close_intervals_ok (length top) iv top L nid Hwf ltac:(lia) ltac:(lia) ltac:(lia)) as Hc.
  destruct (close_intervals _ _ _ _ _) as [[iv' top'] nid'].
  destruct Hc as (? & ? & _ & Hl' & Hk'). unfold tree_inv; cbn.
  split_and!; try (done || lia || congruence).
  intros k ?. rewrite Hk' by lia. apply Hk. lia.
Qed.

Lemma interval_loop_inv (m : nat) : 1 + Z.of_nat m <= n -> tree_inv (1 + Z.of_nat m) (interval_loop iv0 pd0 m).
Proof.
  induction m as [|m IH]; intros Hm.
  - unfold tree_inv, interval_loop; cbn. split_and!; try (constructor || lia).
    + apply length_aset.
    + intros k Hk. apply aget_aset_ne; lia.
  - unfold interval_loop in *. replace (S m) with (m + 1)%nat by lia.
    rewrite zseq_app, foldl_app, zseq_one. cbn [foldl].
    replace (1 + Z.of_nat (m + 1)) with (1 + Z.of_nat m + 1) by lia.
    apply interval_step_inv; [lia|]. apply IH. lia.
Qed.

End Tree.

(** C7. While the loop of lines 110-152 runs over the packed LCP array of a
    window that fits the 22-bit position field, the [open_intervals] stack
    keeps the root entry 0 at its bottom (line 128 never pops it) and never
    holds more than [MAX_MATCH_SIZE + 1 = 259] entries, within the
    [LCP_MAX + 1 = 512] entries [zultra_stream_init] allocates for it
    ([src/libzultra.c], line 140); the interval indices it hands out stay
    below the rank being read. *)
Theorem interval_stack_bounded w iv pd m :
  let n := Z.of_nat (length w) in
  n <= POS_MASK + 1 -> (length w <= length iv)%nat -> 1 + Z.of_nat m <= n ->
  let '(iv1, pd1) := lcp_array w iv pd n in
  let st := interval_loop iv1 pd1 m in
  last (ts_top st) = Some 0 /\
  Z.of_nat (length (ts_top st)) <= MAX_MATCH_SIZE + 1 <= LCP_MAX + 1 /\
  ts_next_interval_idx st <= 1 + Z.of_nat m.
Proof.
  intros n Hn Hl Hm. unfold lcp_array.
  set (iv1 := rotate_lcp _ iv n).
  assert (Hp : forall r, 1 <= r < n -> exists p L, 0 <= p <= POS_MASK /\ 0 <= L <= MAX_MATCH_SIZE /\
                 iv1.[r] = pack_entry p L).
  { intros r Hr. apply rotate_lcp_packed; [unfold n; lia | lia]. }
  destruct (interval_loop_inv iv1 (compute_plcp w iv pd n) n Hn Hp m Hm) as (Hwf & Hnid & _).
  split; [by eapply stack_wf_last|]. split; [|lia].
  pose proof (stack_wf_depth _ _ Hwf ltac:(lia)). pose proof (stack_wf_hd_lcp _ _ Hwf ltac:(lia)).
  split; [lia | mf_arith].
Qed.

(** ** The match slots *)

Lemma record_match_le found k o ref mp :
  (length found <= Z.to_nat k)%nat -> (length (record_match found k o ref mp) <= Z.to_nat k)%nat.
Proof.
  unfold record_match. intros H. destruct (Z.ltb_spec (Z.of_nat (length found)) k); [|done].
  case_match; [rewrite length_app; cbn; lia | done].
Qed.

Lemma link_matches_le fuel inner iv pd o k ref mp found :
  (length found <= Z.to_nat k)%nat -> (length (link_matches fuel inner iv pd o k ref mp found).2 <= Z.to_nat k)%nat.
Proof.
  revert iv pd ref mp found; induction fuel as [|f IH]; intros iv pd ref mp found H; [done|].
  cbn [link_matches]. destruct (skip_deeper _ _ _ _ _) as [mp' sr].
  pose proof (record_match_le found k o ref mp' H). case_match; [done|]. by apply IH.
Qed.

Lemma length_write_matches mt base found : length (write_matches mt base found) = length mt.
Proof. revert mt base; induction found as [|x found IH]; intros; cbn; [done|]. by rewrite IH, length_mset. Qed.

Lemma mget_write_matches_other mt base found j :
  0 <= base -> 0 <= j -> j < base \/ base + Z.of_nat (length found) <= j ->
  mget (write_matches mt base found) j = mget mt j.
Proof.
  revert mt base; induction found as [|x found IH]; intros mt base Hb Hj Hout; cbn; [done|].
  cbn [length] in Hout. rewrite IH by lia. apply mget_mset_ne; lia.
Qed.

(** [zultra_find_matches_at] writes at most [nMaxMatches] matches, from
    [base] on, and nothing else of the match array. *)
Lemma find_matches_at_writes iv pd mt o base k :
  0 <= base -> 0 <= k ->
  let '(_, _, mt', cnt) := zultra_find_matches_at iv pd mt o base k in
  0 <= cnt <= k /\ length mt' = length mt /\
  (forall j, 0 <= j -> j < base \/ base + cnt <= j -> mget mt' j = mget mt j).
Proof.
  intros Hb Hk. unfold zultra_find_matches_at.
  destruct (ascend_unvisited _ _ _ _) as [[iv1 ref] sr].
  destruct (Z.eqb_spec sr 0); [split_and!; done || lia|].
  pose proof (link_matches_le (length iv) (length iv) iv1 (pd.[o := 0]) o k ref (Z.land sr EXCL_VISITED_MASK) [])
    as Hle.
  destruct (link_matches _ _ _ _ _ _ _ _ _) as [[iv2 pd2] found]. cbn in Hle. specialize (Hle ltac:(lia)).
  split_and!; [lia | lia | apply length_write_matches |].
  intros j Hj Hout. apply mget_write_matches_other; lia.
Qed.

Section Slots.
Variable LAST_MATCH_OFFSET : Z.

(** What the optimiser may read in a slot of position [i] of a block that
    ends at [nEndOffset]: no match, or a match that ends at least
    [LAST_LITERALS] bytes before the end, at a position that is not in the
    last [LAST_MATCH_OFFSET] of the block. *)
Definition slot_contract (nEndOffset i : Z) (x : zultra_match) : Prop :=
  x = no_match \/
  (m_length x <= Z.max 0 (nEndOffset - LAST_LITERALS - i) /\ i <= nEndOffset - LAST_MATCH_OFFSET).

Lemma clamp_slots_spec mt base i e cnt :
  0 <= base -> base + NMATCHES_PER_OFFSET <= Z.of_nat (length mt) ->
  let mt' := clamp_slots LAST_MATCH_OFFSET mt base i e cnt in
  length mt' = length mt /\
  (forall m, 0 <= m < NMATCHES_PER_OFFSET -> slot_contract e i (mget mt' (base + m))) /\
  (forall j, 0 <= j -> j < base \/ base + NMATCHES_PER_OFFSET <= j -> mget mt' j = mget mt j).
Proof.
  intros Hb Hl. unfold clamp_slots.
  enough (forall (k : nat), (k <= 8)%nat ->
    let mt' := foldl _ mt (zseq 0 k) in
    length mt' = length mt /\
    (forall m, 0 <= m < Z.of_nat k -> slot_contract e i (mget mt' (base + m))) /\
    (forall j, 0 <= j -> j < base \/ base + Z.of_nat k <= j -> mget mt' j = mget mt j)) as H
    by exact (H 8%nat ltac:(lia)).
  change NMATCHES_PER_OFFSET with 8 in Hl.
  intros k; induction k as [|k IH]; intros Hk mt'.
  { split_and!; [done | lia | done]. }
  subst mt'. replace (S k) with (k + 1)%nat by lia.
  rewrite zseq_app, foldl_app, zseq_one. cbn [foldl]. replace (0 + Z.of_nat k) with (Z.of_nat k) by lia.
  destruct (IH ltac:(lia)) as (Hl' & Hok & Hsame).
  set (mt1 := foldl _ mt (zseq 0 k)) in *.
  assert (Hnew : forall v, slot_contract e i v ->
    length (mset mt1 (base + Z.of_nat k) v) = length mt /\
    (forall m, 0 <= m < Z.of_nat (k + 1) -> slot_contract e i (mget (mset mt1 (base + Z.of_nat k) v) (base + m))) /\
    (forall j, 0 <= j -> j < base \/ base + Z.of_nat (k + 1) <= j ->
       mget (mset mt1 (base + Z.of_nat k) v) j = mget mt j)).
  { intros v Hv. split_and!; [by rewrite length_mset|..].
    - intros m Hm. destruct (decide (m = Z.of_nat k)) as [->|].
      + rewrite mget_mset_eq by lia. done.
      + rewrite mget_mset_ne by lia. apply Hok. lia.
    - intros j Hj Hout. rewrite mget_mset_ne by lia. apply Hsame; lia. }
  case_match; [apply Hnew; by left|].
  apply orb_false_iff in H as [H1 H2]. apply Z.leb_gt in H1.
  destruct (Z.gtb_spec (m_length (mget mt1 (base + Z.of_nat k))) (Z.max 0 (e - LAST_LITERALS - i))).
  - apply Hnew. right. cbn. split; [lia|]. destruct (Z.gtb_spec i (e - LAST_MATCH_OFFSET)); [discriminate | lia].
  - split_and!; [done | | ].
    + intros m Hm. destruct (decide (m = Z.of_nat k)) as [->|]; [|apply Hok; lia].
      right. split; [lia|]. destruct (Z.gtb_spec i (e - LAST_MATCH_OFFSET)); [discriminate | lia].
    + intros j Hj Hout. apply Hsame; lia.
Qed.

Lemma shiftl_3 i : 0 <= i -> Z.shiftl i MATCHES_PER_OFFSET_SHIFT = NMATCHES_PER_OFFSET * i.
Proof.
  intros. change MATCHES_PER_OFFSET_SHIFT with 3. change NMATCHES_PER_OFFSET with 8.
  rewrite Z.shiftl_mul_pow2 by lia. cbn. lia.
Qed.

(** The first [k] positions of [zultra_find_all_matches]. *)
Lemma find_all_prefix iv pd mt s e (k : nat) :
  0 <= s -> s + Z.of_nat k <= e -> NMATCHES_PER_OFFSET * e <= Z.of_nat (length mt) ->
  let mt' := (foldl (find_all_step LAST_MATCH_OFFSET e) (iv, pd, mt) (zseq s k)).2 in
  length mt' = length mt /\
  (forall i m, s <= i < s + Z.of_nat k -> 0 <= m < NMATCHES_PER_OFFSET ->
     slot_contract e i (mget mt' (NMATCHES_PER_OFFSET * i + m))) /\
  (forall j, 0 <= j -> j < NMATCHES_PER_OFFSET * s \/ NMATCHES_PER_OFFSET * (s + Z.of_nat k) <= j ->
     mget mt' j = mget mt j).
Proof.
  intros Hs Hk Hl. change NMATCHES_PER_OFFSET with 8 in *. induction k as [|k IH]; intros mt'.
  { split_and!; [done | lia | done]. }
  subst mt'. replace (S k) with (k + 1)%nat by lia.
  rewrite zseq_app, foldl_app, zseq_one. cbn [foldl].
  destruct (IH ltac:(lia)) as (Hl1 & Hok & Hsame).
  destruct (foldl _ _ (zseq s k)) as [[iv1 pd1] mt1]. cbn [snd] in *.
  set (p := s + Z.of_nat k). unfold find_all_step. rewrite shiftl_3 by lia.
  pose proof (find_matches_at_writes iv1 pd1 mt1 p (8 * p) 8 ltac:(lia) ltac:(lia)) as Hw.
  destruct (zultra_find_matches_at _ _ _ _ _ _) as [[[iv2 pd2] mt2] cnt]. cbn [snd].
  destruct Hw as (Hcnt & Hl2 & Hsame2).
  destruct (clamp_slots_spec mt2 (8 * p) p e cnt ltac:(lia) ltac:(change NMATCHES_PER_OFFSET with 8; lia))
    as (Hl3 & Hok3 & Hsame3).
  change NMATCHES_PER_OFFSET with 8 in *.
  split_and!; [lia | |].
  - intros i m Hi Hm. destruct (decide (i = p)) as [->|Hne]; [by apply Hok3|].
    rewrite Hsame3, Hsame2 by lia. apply Hok; lia.
  - intros j Hj Hout. rewrite Hsame3, Hsame2 by lia. apply Hsame; lia.
Qed.

End Slots.

Lemma interval_stack_bounded_witness :
  let '(iv1, pd1) := lcp_array ex_run_window (replicate 6 0) (replicate 6 0) 6 in
  let st := interval_loop iv1 pd1 5 in
  last (ts_top st) = Some 0 /\
  Z.of_nat (length (ts_top st)) <= MAX_MATCH_SIZE + 1 <= LCP_MAX + 1 /\
  ts_next_interval_idx st <= 1 + Z.of_nat 5.
Proof.
  exact (interval_stack_bounded ex_run_window (replicate 6 0) (replicate 6 0) 5
           ltac:(decide_by_eval) ltac:(decide_by_eval) ltac:(decide_by_eval)).
Defined.

(** C5. [zultra_find_all_matches] (lines 264-288) leaves, for every
    position [i] of [[nStartOffset, nEndOffset)] and each of its
    [NMATCHES_PER_OFFSET] slots, either no match or a match that ends at
    least [LAST_LITERALS] bytes before [nEndOffset] ([i + length <=
    nEndOffset - 1] when the length is not 0), at a position not in the
    last [LAST_MATCH_OFFSET] of the block, whatever value that undefined
    macro is given; the slots of the other positions are left as they
    were. *)
Theorem find_all_matches_slots LAST_MATCH_OFFSET iv pd mt s e :
  0 <= s <= e -> NMATCHES_PER_OFFSET * e <= Z.of_nat (length mt) ->
  (forall i m, s <= i < e -> 0 <= m < NMATCHES_PER_OFFSET ->
     slot_contract LAST_MATCH_OFFSET e i
       (mget (zultra_find_all_matches LAST_MATCH_OFFSET iv pd mt s e).2 (NMATCHES_PER_OFFSET * i + m))) /\
  (forall j, 0 <= j -> j < NMATCHES_PER_OFFSET * s \/ NMATCHES_PER_OFFSET * e <= j ->
     mget (zultra_find_all_matches LAST_MATCH_OFFSET iv pd mt s e).2 j = mget mt j).
Proof.
  intros Hse Hl. unfold zultra_find_all_matches.
  destruct (find_all_prefix LAST_MATCH_OFFSET iv pd mt s e (Z.to_nat (e - s))) as (_ & Hok & Hsame); [lia ..|].
  rewrite Z2Nat.id in Hok, Hsame by lia. replace (s + (e - s)) with e in * by lia. auto.
Qed.

Lemma find_all_matches_slots_witness :
  let mt' := (zultra_find_all_matches 4 (replicate 6 0) (replicate 6 0) (replicate 48 no_match) 0 6).2 in
  (forall i m, 0 <= i < 6 -> 0 <= m < NMATCHES_PER_OFFSET ->
     slot_contract 4 6 i (mget mt' (NMATCHES_PER_OFFSET * i + m))) /\
  (forall j, 0 <= j -> j < NMATCHES_PER_OFFSET * 0 \/ NMATCHES_PER_OFFSET * 6 <= j ->
     mget mt' j = mget (replicate 48 no_match) j).
Proof.
  exact (find_all_matches_slots 4 (replicate 6 0) (replicate 6 0) (replicate 48 no_match) 0 6
           ltac:(decide_by_eval) ltac:(decide_by_eval)).
Defined.

(** The LCP that lines 82-92 drop at the last rank loses matches: in
    the window of eight bytes [z] the last suffix in the array is the
    whole window, so position 0 is cut from the interval of the suffixes
    [zzz...], and the query at position 1 (after position 0 was primed)
    finds no match, though position 1 repeats position 0 for 7 bytes. *)
Example last_suffix_match_lost :
  let w := replicate 8 122 in
  let '(st, iv, pd) := zultra_build_suffix_array w (replicate 8 0) (replicate 8 0) 8 in
  let '(iv1, pd1) := zultra_skip_matches iv pd 0 1 in
  st = 0 /\
  (zultra_find_matches_at iv1 pd1 (replicate 64 no_match) 1 8 NMATCHES_PER_OFFSET).2 = 0 /\
  lcp (suffix w 1) (suffix w 0) = 7%nat.
Proof. vm_compute. auto. Qed.

End MatchFinder.
