(* ===== verification/Tables.v ===== *)
(** * Length and distance code tables ([src/blockdeflate.c], lines 42-85)

    The static tables that map a match offset or a match length to its
    DEFLATE symbol, base value and number of extra bits, copied entry for
    entry from the C source, with the index computations of the
    functions that read them ([zultra_get_offset_symbol],
    [zultra_get_varlen_symbol] and the index step of
    [zultra_write_offset] / [zultra_write_varlen]).

    Offsets 1..256 index the first half of the offset tables directly;
    offsets 257..32768 index the second half by [(offset - 257) >> 7].
    The theorems check these tables against the code tables of RFC 1951,
    section 3.2.5, for every offset in [1, 32768] and every length in
    [3, 258]: the symbol is the one the RFC assigns, the base and the
    extra-bit count are the RFC's, and the extra value fits in the extra
    bits.  The proofs evaluate a boolean checker over the whole range with
    [vm_compute]. *)

From S2P Require Import Prelude Format.
Import Format.

Module Tables.

(** [g_nOffsetSymbol] (line 45): symbol of row [r]. *)
Definition g_nOffsetSymbol : list Z := [
  0; 1; 2; 3; 4; 4; 5; 5; 6; 6; 6; 6; 7; 7; 7; 7;
  8; 8; 8; 8; 8; 8; 8; 8; 9; 9; 9; 9; 9; 9; 9; 9;
  10; 10; 10; 10; 10; 10; 10; 10; 10; 10; 10; 10; 10; 10; 10; 10;
  11; 11; 11; 11; 11; 11; 11; 11; 11; 11; 11; 11; 11; 11; 11; 11;
  12; 12; 12; 12; 12; 12; 12; 12; 12; 12; 12; 12; 12; 12; 12; 12;
  12; 12; 12; 12; 12; 12; 12; 12; 12; 12; 12; 12; 12; 12; 12; 12;
  13; 13; 13; 13; 13; 13; 13; 13; 13; 13; 13; 13; 13; 13; 13; 13;
  13; 13; 13; 13; 13; 13; 13; 13; 13; 13; 13; 13; 13; 13; 13; 13;
  14; 14; 14; 14; 14; 14; 14; 14; 14; 14; 14; 14; 14; 14; 14; 14;
  14; 14; 14; 14; 14; 14; 14; 14; 14; 14; 14; 14; 14; 14; 14; 14;
  14; 14; 14; 14; 14; 14; 14; 14; 14; 14; 14; 14; 14; 14; 14; 14;
  14; 14; 14; 14; 14; 14; 14; 14; 14; 14; 14; 14; 14; 14; 14; 14;
  15; 15; 15; 15; 15; 15; 15; 15; 15; 15; 15; 15; 15; 15; 15; 15;
  15; 15; 15; 15; 15; 15; 15; 15; 15; 15; 15; 15; 15; 15; 15; 15;
  15; 15; 15; 15; 15; 15; 15; 15; 15; 15; 15; 15; 15; 15; 15; 15;
  15; 15; 15; 15; 15; 15; 15; 15; 15; 15; 15; 15; 15; 15; 15; 15;
  16; 17; 18; 18; 19; 19; 20; 20; 20; 20; 21; 21; 21; 21; 22; 22;
  22; 22; 22; 22; 22; 22; 23; 23; 23; 23; 23; 23; 23; 23; 24; 24;
  24; 24; 24; 24; 24; 24; 24; 24; 24; 24; 24; 24; 24; 24; 25; 25;
  25; 25; 25; 25; 25; 25; 25; 25; 25; 25; 25; 25; 25; 25; 26; 26;
  26; 26; 26; 26; 26; 26; 26; 26; 26; 26; 26; 26; 26; 26; 26; 26;
  26; 26; 26; 26; 26; 26; 26; 26; 26; 26; 26; 26; 26; 26; 27; 27;
  27; 27; 27; 27; 27; 27; 27; 27; 27; 27; 27; 27; 27; 27; 27; 27;
  27; 27; 27; 27; 27; 27; 27; 27; 27; 27; 27; 27; 27; 27; 28; 28;
  28; 28; 28; 28; 28; 28; 28; 28; 28; 28; 28; 28; 28; 28; 28; 28;
  28; 28; 28; 28; 28; 28; 28; 28; 28; 28; 28; 28; 28; 28; 28; 28;
  28; 28; 28; 28; 28; 28; 28; 28; 28; 28; 28; 28; 28; 28; 28; 28;
  28; 28; 28; 28; 28; 28; 28; 28; 28; 28; 28; 28; 28; 28; 29; 29;
  29; 29; 29; 29; 29; 29; 29; 29; 29; 29; 29; 29; 29; 29; 29; 29;
  29; 29; 29; 29; 29; 29; 29; 29; 29; 29; 29; 29; 29; 29; 29; 29;
  29; 29; 29; 29; 29; 29; 29; 29; 29; 29; 29; 29; 29; 29; 29; 29;
  29; 29; 29; 29; 29; 29; 29; 29; 29; 29; 29; 29; 29; 29; 0; 0
].

(** [g_nOffsetExtraBits] (line 50) *)
Definition g_nOffsetExtraBits : list Z := [
  0; 0; 0; 0; 1; 1; 1; 1; 2; 2; 2; 2; 2; 2; 2; 2;
  3; 3; 3; 3; 3; 3; 3; 3; 3; 3; 3; 3; 3; 3; 3; 3;
  4; 4; 4; 4; 4; 4; 4; 4; 4; 4; 4; 4; 4; 4; 4; 4;
  4; 4; 4; 4; 4; 4; 4; 4; 4; 4; 4; 4; 4; 4; 4; 4;
  5; 5; 5; 5; 5; 5; 5; 5; 5; 5; 5; 5; 5; 5; 5; 5;
  5; 5; 5; 5; 5; 5; 5; 5; 5; 5; 5; 5; 5; 5; 5; 5;
  5; 5; 5; 5; 5; 5; 5; 5; 5; 5; 5; 5; 5; 5; 5; 5;
  5; 5; 5; 5; 5; 5; 5; 5; 5; 5; 5; 5; 5; 5; 5; 5;
  6; 6; 6; 6; 6; 6; 6; 6; 6; 6; 6; 6; 6; 6; 6; 6;
  6; 6; 6; 6; 6; 6; 6; 6; 6; 6; 6; 6; 6; 6; 6; 6;
  6; 6; 6; 6; 6; 6; 6; 6; 6; 6; 6; 6; 6; 6; 6; 6;
  6; 6; 6; 6; 6; 6; 6; 6; 6; 6; 6; 6; 6; 6; 6; 6;
  6; 6; 6; 6; 6; 6; 6; 6; 6; 6; 6; 6; 6; 6; 6; 6;
  6; 6; 6; 6; 6; 6; 6; 6; 6; 6; 6; 6; 6; 6; 6; 6;
  6; 6; 6; 6; 6; 6; 6; 6; 6; 6; 6; 6; 6; 6; 6; 6;
  6; 6; 6; 6; 6; 6; 6; 6; 6; 6; 6; 6; 6; 6; 6; 6;
  7; 7; 8; 8; 8; 8; 9; 9; 9; 9; 9; 9; 9; 9; 10; 10;
  10; 10; 10; 10; 10; 10; 10; 10; 10; 10; 10; 10; 10; 10; 11; 11;
  11; 11; 11; 11; 11; 11; 11; 11; 11; 11; 11; 11; 11; 11; 11; 11;
  11; 11; 11; 11; 11; 11; 11; 11; 11; 11; 11; 11; 11; 11; 12; 12;
  12; 12; 12; 12; 12; 12; 12; 12; 12; 12; 12; 12; 12; 12; 12; 12;
  12; 12; 12; 12; 12; 12; 12; 12; 12; 12; 12; 12; 12; 12; 12; 12;
  12; 12; 12; 12; 12; 12; 12; 12; 12; 12; 12; 12; 12; 12; 12; 12;
  12; 12; 12; 12; 12; 12; 12; 12; 12; 12; 12; 12; 12; 12; 13; 13;
  13; 13; 13; 13; 13; 13; 13; 13; 13; 13; 13; 13; 13; 13; 13; 13;
  13; 13; 13; 13; 13; 13; 13; 13; 13; 13; 13; 13; 13; 13; 13; 13;
  13; 13; 13; 13; 13; 13; 13; 13; 13; 13; 13; 13; 13; 13; 13; 13;
  13; 13; 13; 13; 13; 13; 13; 13; 13; 13; 13; 13; 13; 13; 13; 13;
  13; 13; 13; 13; 13; 13; 13; 13; 13; 13; 13; 13; 13; 13; 13; 13;
  13; 13; 13; 13; 13; 13; 13; 13; 13; 13; 13; 13; 13; 13; 13; 13;
  13; 13; 13; 13; 13; 13; 13; 13; 13; 13; 13; 13; 13; 13; 13; 13;
  13; 13; 13; 13; 13; 13; 13; 13; 13; 13; 13; 13; 13; 13; 0; 0
].

(** [g_nOffsetBase] (line 55) *)
Definition g_nOffsetBase : list Z := [
  1; 2; 3; 4; 5; 5; 7; 7; 9; 9; 9; 9; 13; 13; 13; 13;
  17; 17; 17; 17; 17; 17; 17; 17; 25; 25; 25; 25; 25; 25; 25; 25;
  33; 33; 33; 33; 33; 33; 33; 33; 33; 33; 33; 33; 33; 33; 33; 33;
  49; 49; 49; 49; 49; 49; 49; 49; 49; 49; 49; 49; 49; 49; 49; 49;
  65; 65; 65; 65; 65; 65; 65; 65; 65; 65; 65; 65; 65; 65; 65; 65;
  65; 65; 65; 65; 65; 65; 65; 65; 65; 65; 65; 65; 65; 65; 65; 65;
  97; 97; 97; 97; 97; 97; 97; 97; 97; 97; 97; 97; 97; 97; 97; 97;
  97; 97; 97; 97; 97; 97; 97; 97; 97; 97; 97; 97; 97; 97; 97; 97;
  129; 129; 129; 129; 129; 129; 129; 129; 129; 129; 129; 129; 129; 129; 129; 129;
  129; 129; 129; 129; 129; 129; 129; 129; 129; 129; 129; 129; 129; 129; 129; 129;
  129; 129; 129; 129; 129; 129; 129; 129; 129; 129; 129; 129; 129; 129; 129; 129;
  129; 129; 129; 129; 129; 129; 129; 129; 129; 129; 129; 129; 129; 129; 129; 129;
  193; 193; 193; 193; 193; 193; 193; 193; 193; 193; 193; 193; 193; 193; 193; 193;
  193; 193; 193; 193; 193; 193; 193; 193; 193; 193; 193; 193; 193; 193; 193; 193;
  193; 193; 193; 193; 193; 193; 193; 193; 193; 193; 193; 193; 193; 193; 193; 193;
  193; 193; 193; 193; 193; 193; 193; 193; 193; 193; 193; 193; 193; 193; 193; 193;
  257; 385; 513; 513; 769; 769; 1025; 1025; 1025; 1025; 1537; 1537; 1537; 1537; 2049; 2049;
  2049; 2049; 2049; 2049; 2049; 2049; 3073; 3073; 3073; 3073; 3073; 3073; 3073; 3073; 4097; 4097;
  4097; 4097; 4097; 4097; 4097; 4097; 4097; 4097; 4097; 4097; 4097; 4097; 4097; 4097; 6145; 6145;
  6145; 6145; 6145; 6145; 6145; 6145; 6145; 6145; 6145; 6145; 6145; 6145; 6145; 6145; 8193; 8193;
  8193; 8193; 8193; 8193; 8193; 8193; 8193; 8193; 8193; 8193; 8193; 8193; 8193; 8193; 8193; 8193;
  8193; 8193; 8193; 8193; 8193; 8193; 8193; 8193; 8193; 8193; 8193; 8193; 8193; 8193; 12289; 12289;
  12289; 12289; 12289; 12289; 12289; 12289; 12289; 12289; 12289; 12289; 12289; 12289; 12289; 12289; 12289; 12289;
  12289; 12289; 12289; 12289; 12289; 12289; 12289; 12289; 12289; 12289; 12289; 12289; 12289; 12289; 16385; 16385;
  16385; 16385; 16385; 16385; 16385; 16385; 16385; 16385; 16385; 16385; 16385; 16385; 16385; 16385; 16385; 16385;
  16385; 16385; 16385; 16385; 16385; 16385; 16385; 16385; 16385; 16385; 16385; 16385; 16385; 16385; 16385; 16385;
  16385; 16385; 16385; 16385; 16385; 16385; 16385; 16385; 16385; 16385; 16385; 16385; 16385; 16385; 16385; 16385;
  16385; 16385; 16385; 16385; 16385; 16385; 16385; 16385; 16385; 16385; 16385; 16385; 16385; 16385; 24577; 24577;
  24577; 24577; 24577; 24577; 24577; 24577; 24577; 24577; 24577; 24577; 24577; 24577; 24577; 24577; 24577; 24577;
  24577; 24577; 24577; 24577; 24577; 24577; 24577; 24577; 24577; 24577; 24577; 24577; 24577; 24577; 24577; 24577;
  24577; 24577; 24577; 24577; 24577; 24577; 24577; 24577; 24577; 24577; 24577; 24577; 24577; 24577; 24577; 24577;
  24577; 24577; 24577; 24577; 24577; 24577; 24577; 24577; 24577; 24577; 24577; 24577; 24577; 24577; 0; 0
].

(** [g_nMatchLenSymbol] (line 62), indexed by [length - 3]. *)
Definition g_nMatchLenSymbol : list Z := [
  257; 258; 259; 260; 261; 262; 263; 264; 265; 265; 266; 266; 267; 267; 268; 268;
  269; 269; 269; 269; 270; 270; 270; 270; 271; 271; 271; 271; 272; 272; 272; 272;
  273; 273; 273; 273; 273; 273; 273; 273; 274; 274; 274; 274; 274; 274; 274; 274;
  275; 275; 275; 275; 275; 275; 275; 275; 276; 276; 276; 276; 276; 276; 276; 276;
  277; 277; 277; 277; 277; 277; 277; 277; 277; 277; 277; 277; 277; 277; 277; 277;
  278; 278; 278; 278; 278; 278; 278; 278; 278; 278; 278; 278; 278; 278; 278; 278;
  279; 279; 279; 279; 279; 279; 279; 279; 279; 279; 279; 279; 279; 279; 279; 279;
  280; 280; 280; 280; 280; 280; 280; 280; 280; 280; 280; 280; 280; 280; 280; 280;
  281; 281; 281; 281; 281; 281; 281; 281; 281; 281; 281; 281; 281; 281; 281; 281;
  281; 281; 281; 281; 281; 281; 281; 281; 281; 281; 281; 281; 281; 281; 281; 281;
  282; 282; 282; 282; 282; 282; 282; 282; 282; 282; 282; 282; 282; 282; 282; 282;
  282; 282; 282; 282; 282; 282; 282; 282; 282; 282; 282; 282; 282; 282; 282; 282;
  283; 283; 283; 283; 283; 283; 283; 283; 283; 283; 283; 283; 283; 283; 283; 283;
  283; 283; 283; 283; 283; 283; 283; 283; 283; 283; 283; 283; 283; 283; 283; 283;
  284; 284; 284; 284; 284; 284; 284; 284; 284; 284; 284; 284; 284; 284; 284; 284;
  284; 284; 284; 284; 284; 284; 284; 284; 284; 284; 284; 284; 284; 284; 284; 285
].

(** [g_nMatchLenExtraBits] (line 66) *)
Definition g_nMatchLenExtraBits : list Z := [
  0; 0; 0; 0; 0; 0; 0; 0; 1; 1; 1; 1; 1; 1; 1; 1;
  2; 2; 2; 2; 2; 2; 2; 2; 2; 2; 2; 2; 2; 2; 2; 2;
  3; 3; 3; 3; 3; 3; 3; 3; 3; 3; 3; 3; 3; 3; 3; 3;
  3; 3; 3; 3; 3; 3; 3; 3; 3; 3; 3; 3; 3; 3; 3; 3;
  4; 4; 4; 4; 4; 4; 4; 4; 4; 4; 4; 4; 4; 4; 4; 4;
  4; 4; 4; 4; 4; 4; 4; 4; 4; 4; 4; 4; 4; 4; 4; 4;
  4; 4; 4; 4; 4; 4; 4; 4; 4; 4; 4; 4; 4; 4; 4; 4;
  4; 4; 4; 4; 4; 4; 4; 4; 4; 4; 4; 4; 4; 4; 4; 4;
  5; 5; 5; 5; 5; 5; 5; 5; 5; 5; 5; 5; 5; 5; 5; 5;
  5; 5; 5; 5; 5; 5; 5; 5; 5; 5; 5; 5; 5; 5; 5; 5;
  5; 5; 5; 5; 5; 5; 5; 5; 5; 5; 5; 5; 5; 5; 5; 5;
  5; 5; 5; 5; 5; 5; 5; 5; 5; 5; 5; 5; 5; 5; 5; 5;
  5; 5; 5; 5; 5; 5; 5; 5; 5; 5; 5; 5; 5; 5; 5; 5;
  5; 5; 5; 5; 5; 5; 5; 5; 5; 5; 5; 5; 5; 5; 5; 5;
  5; 5; 5; 5; 5; 5; 5; 5; 5; 5; 5; 5; 5; 5; 5; 5;
  5; 5; 5; 5; 5; 5; 5; 5; 5; 5; 5; 5; 5; 5; 5; 0
].

(** [g_nMatchLenBase] (line 70): the base length minus 3. *)
Definition g_nMatchLenBase : list Z := [
  0; 1; 2; 3; 4; 5; 6; 7; 8; 8; 10; 10; 12; 12; 14; 14;
  16; 16; 16; 16; 20; 20; 20; 20; 24; 24; 24; 24; 28; 28; 28; 28;
  32; 32; 32; 32; 32; 32; 32; 32; 40; 40; 40; 40; 40; 40; 40; 40;
  48; 48; 48; 48; 48; 48; 48; 48; 56; 56; 56; 56; 56; 56; 56; 56;
  64; 64; 64; 64; 64; 64; 64; 64; 64; 64; 64; 64; 64; 64; 64; 64;
  80; 80; 80; 80; 80; 80; 80; 80; 80; 80; 80; 80; 80; 80; 80; 80;
  96; 96; 96; 96; 96; 96; 96; 96; 96; 96; 96; 96; 96; 96; 96; 96;
  112; 112; 112; 112; 112; 112; 112; 112; 112; 112; 112; 112; 112; 112; 112; 112;
  128; 128; 128; 128; 128; 128; 128; 128; 128; 128; 128; 128; 128; 128; 128; 128;
  128; 128; 128; 128; 128; 128; 128; 128; 128; 128; 128; 128; 128; 128; 128; 128;
  160; 160; 160; 160; 160; 160; 160; 160; 160; 160; 160; 160; 160; 160; 160; 160;
  160; 160; 160; 160; 160; 160; 160; 160; 160; 160; 160; 160; 160; 160; 160; 160;
  192; 192; 192; 192; 192; 192; 192; 192; 192; 192; 192; 192; 192; 192; 192; 192;
  192; 192; 192; 192; 192; 192; 192; 192; 192; 192; 192; 192; 192; 192; 192; 192;
  224; 224; 224; 224; 224; 224; 224; 224; 224; 224; 224; 224; 224; 224; 224; 224;
  224; 224; 224; 224; 224; 224; 224; 224; 224; 224; 224; 224; 224; 224; 224; 255
].

(** [g_nRevMatchSymbolBits] (line 75): extra bits of length symbol [257 + i]. *)
Definition g_nRevMatchSymbolBits : list Z := [
  0; 0; 0; 0; 0; 0; 0; 0; 1; 1; 1; 1; 2; 2; 2; 2;
  3; 3; 3; 3; 4; 4; 4; 4; 5; 5; 5; 5; 0
].

(** [g_nRevOffsetSymbolBits] (line 82): extra bits of offset symbol [i]. *)
Definition g_nRevOffsetSymbolBits : list Z := [
  0; 0; 0; 0; 1; 1; 2; 2; 3; 3; 4; 4; 5; 5; 6; 6;
  7; 7; 8; 8; 9; 9; 10; 10; 11; 11; 12; 12; 13; 13; 0; 0
].

(** [zultra_huffman_encoder_codelen_sym_idx] ([src/huffman/huffencoder.c], line 30):
    the transmission order of the code-length code lengths. *)
Definition zultra_huffman_encoder_codelen_sym_idx : list Z := [
  16; 17; 18; 0; 8; 7; 9; 6; 10; 5; 11; 4; 12; 3; 13; 2; 14; 1; 15
].

(** ** Index computations *)

(** The table row of a match offset: the index step shared by
    [zultra_get_offset_size], [zultra_get_offset_symbol] and
    [zultra_write_offset] (lines 170-184).  The offset is an
    [unsigned int], so [nMatchOffset - 1] wraps to a huge value for 0;
    [None] is the out-of-range branch. *)
Definition offset_row (nMatchOffset : Z) : option Z :=
  let nMatchOffsetIdx := wrap 32 (nMatchOffset - 1) in
  if nMatchOffsetIdx <? 256 then Some nMatchOffsetIdx
  else if nMatchOffsetIdx <? 32768 then Some (256 + Z.shiftr (nMatchOffsetIdx - 256) 7)
  else None.

(** [zultra_get_offset_symbol] (lines 146-153) *)
Definition zultra_get_offset_symbol (nMatchOffset : Z) : Z :=
  let nMatchOffset' := wrap 32 (nMatchOffset - 1) in
  if nMatchOffset' <? 256 then g_nOffsetSymbol.[nMatchOffset']
  else if nMatchOffset' <? 32768 then g_nOffsetSymbol.[256 + Z.shiftr (nMatchOffset' - 256) 7]
  else NOFFSETSYMS.

(** The table row of an encoded match length ([length - 3]), as in
    [zultra_get_varlen_symbol], [zultra_get_varlen_size] and
    [zultra_write_varlen]: lengths past the table share its last row.
    The length is an [unsigned int], so a negative one wraps and is
    clamped to the last row too. *)
Definition varlen_row (nLength : Z) : Z :=
  let nLength' := wrap 32 nLength in if 255 <? nLength' then 255 else nLength'.

(** [zultra_get_varlen_symbol] (lines 203-206) *)
Definition zultra_get_varlen_symbol (nLength : Z) : Z := g_nMatchLenSymbol.[varlen_row nLength].

(** ** RFC 1951, section 3.2.5 (the abstract specification)

    Base distance of each distance symbol 0..29, and base length of each
    length symbol 257..285, each list followed by the end of the last range
    as a sentinel; the symbol of a value is the one whose range
    [base s, base (s+1)) contains it. *)

Definition rfc_dist_base : list Z :=
  [1; 2; 3; 4; 5; 7; 9; 13; 17; 25; 33; 49; 65; 97; 129; 193; 257; 385; 513; 769;
   1025; 1537; 2049; 3073; 4097; 6145; 8193; 12289; 16385; 24577; 32769].
Definition rfc_dist_extra : list Z :=
  [0; 0; 0; 0; 1; 1; 2; 2; 3; 3; 4; 4; 5; 5; 6; 6; 7; 7; 8; 8; 9; 9; 10; 10; 11; 11; 12; 12; 13; 13].
Definition rfc_len_base : list Z :=
  [3; 4; 5; 6; 7; 8; 9; 10; 11; 13; 15; 17; 19; 23; 27; 31; 35; 43; 51; 59; 67; 83; 99;
   115; 131; 163; 195; 227; 258; 259].
Definition rfc_len_extra : list Z :=
  [0; 0; 0; 0; 0; 0; 0; 0; 1; 1; 1; 1; 2; 2; 2; 2; 3; 3; 3; 3; 4; 4; 4; 4; 5; 5; 5; 5; 0].

(** The checker for one offset [d]: its row exists, the row's symbol is
    the RFC symbol of [d], the row's base and extra-bit count are the
    symbol's, and the extra value fits. *)
Definition offset_row_ok (d : Z) : bool :=
  match offset_row d with
  | Some r =>
      let s := g_nOffsetSymbol.[r] in
      (zultra_get_offset_symbol d =? s) && (0 <=? s) && (s <? NVALIDOFFSETSYMS) &&
      (rfc_dist_base.[s] <=? d) && (d <? rfc_dist_base.[s + 1]) &&
      (g_nOffsetBase.[r] =? rfc_dist_base.[s]) &&
      (g_nOffsetExtraBits.[r] =? rfc_dist_extra.[s]) &&
      (g_nRevOffsetSymbolBits.[s] =? rfc_dist_extra.[s]) &&
      (0 <=? d - g_nOffsetBase.[r]) && (d - g_nOffsetBase.[r] <? 2 ^ g_nOffsetExtraBits.[r])
  | None => false
  end.

(** The checker for one match length [l]. *)
Definition length_row_ok (l : Z) : bool :=
  let r := l - MIN_MATCH_SIZE in
  let s := g_nMatchLenSymbol.[r] in
  (varlen_row r =? r) && (zultra_get_varlen_symbol r =? s) &&
  (NMATCHLENSYMSTART <=? s) && (s <? NMATCHLENSYMSTART + NMATCHLENSYMS) &&
  (rfc_len_base.[s - 257] <=? l) && (l <? rfc_len_base.[s - 256]) &&
  (g_nMatchLenBase.[r] + MIN_MATCH_SIZE =? rfc_len_base.[s - 257]) &&
  (g_nMatchLenExtraBits.[r] =? rfc_len_extra.[s - 257]) &&
  (g_nRevMatchSymbolBits.[s - 257] =? rfc_len_extra.[s - 257]) &&
  (0 <=? r - g_nMatchLenBase.[r]) && (r - g_nMatchLenBase.[r] <? 2 ^ g_nMatchLenExtraBits.[r]).

(** The RFC code of a distance: [s] is a valid distance symbol whose range
    contains [d], with base [base] and [extra] extra bits. *)
Definition rfc_dist_code (d s base extra : Z) : Prop :=
  0 <= s < NVALIDOFFSETSYMS /\ rfc_dist_base.[s] <= d < rfc_dist_base.[s + 1] /\
  base = rfc_dist_base.[s] /\ extra = rfc_dist_extra.[s].

(** The RFC code of a match length. *)
Definition rfc_len_code (l s base extra : Z) : Prop :=
  NMATCHLENSYMSTART <= s < NMATCHLENSYMSTART + NMATCHLENSYMS /\
  rfc_len_base.[s - 257] <= l < rfc_len_base.[s - 256] /\
  base = rfc_len_base.[s - 257] /\ extra = rfc_len_extra.[s - 257].

(** The RFC symbol of a match length and of a distance: the last symbol
    whose base is at most the value. *)
Definition rfc_len_sym (l : Z) : Z :=
  256 + Z.of_nat (length (filter (fun b => b <=? l) (take 29 rfc_len_base))).
Definition rfc_dist_sym (d : Z) : Z :=
  Z.of_nat (length (filter (fun b => b <=? d) (take 30 rfc_dist_base))) - 1.

#[export] Instance rfc_dist_code_dec d s b x : Decision (rfc_dist_code d s b x).
Proof. unfold rfc_dist_code. apply _. Defined.
#[export] Instance rfc_len_code_dec l s b x : Decision (rfc_len_code l s b x).
Proof. unfold rfc_len_code. apply _. Defined.

Lemma offset_rows_checked : forallZ offset_row_ok 1 (Z.to_nat MAX_OFFSET) = true.
Proof. vm_compute. reflexivity. Qed.

Lemma length_rows_checked : forallZ length_row_ok 3 256 = true.
Proof. vm_compute. reflexivity. Qed.

(** The symbol functions give the RFC code of every length and distance. *)
Lemma rfc_len_sym_checked :
  forallZ (fun l => bool_decide (rfc_len_code l (rfc_len_sym l) rfc_len_base.[rfc_len_sym l - 257]
    rfc_len_extra.[rfc_len_sym l - 257])) 3 256 = true.
Proof. vm_compute. reflexivity. Qed.

Lemma rfc_dist_sym_checked :
  forallZ (fun d => bool_decide (rfc_dist_code d (rfc_dist_sym d) rfc_dist_base.[rfc_dist_sym d]
    rfc_dist_extra.[rfc_dist_sym d])) 1 (Z.to_nat MAX_OFFSET) = true.
Proof. vm_compute. reflexivity. Qed.

(** The bases increase: a symbol's range ends before the next one starts. *)
Lemma base_chain (base : list Z) (n : nat) :
  forallZ (fun a => forallZ (fun b => negb (a <? b) || (base.[a + 1] <=? base.[b])) 0 n) 0 n = true ->
  forall a b, 0 <= a < Z.of_nat n -> 0 <= b < Z.of_nat n -> a < b -> base.[a + 1] <= base.[b].
Proof.
  intros H a b Ha Hb Hab. pose proof (forallZ_spec _ _ _ H a ltac:(lia)) as H1.
  pose proof (forallZ_spec _ _ _ H1 b ltac:(lia)) as H2. cbv beta in H2.
  apply orb_prop in H2 as [H2 | H2]; [apply negb_true_iff in H2 |]; bool_to_prop; lia.
Qed.

(** Each length and distance has one RFC code, the one of its symbol. *)
Lemma rfc_len_code_sym l s b x :
  rfc_len_code l s b x -> s = rfc_len_sym l /\ b = rfc_len_base.[s - 257] /\ x = rfc_len_extra.[s - 257].
Proof.
  intros Hc. pose proof Hc as (Hs & Hr & -> & ->). split; [| done].
  assert (Hl : 3 <= l <= 258).
  { unfold NMATCHLENSYMSTART, NMATCHLENSYMS in Hs.
    assert (Hb : forall j, 0 <= j < 0 + Z.of_nat 29 -> 3 <= rfc_len_base.[j] /\ rfc_len_base.[j + 1] <= 259).
    { apply (forallZ_prop (fun j => 3 <= rfc_len_base.[j] /\ rfc_len_base.[j + 1] <= 259) 0 29). vm_compute. reflexivity. }
    specialize (Hb (s - 257) ltac:(lia)).
    replace (s - 256) with (s - 257 + 1) in Hr by lia. lia. }
  pose proof (forallZ_spec _ _ _ rfc_len_sym_checked l ltac:(lia)) as Hk. apply bool_decide_eq_true in Hk.
  destruct Hk as (Hs' & Hr' & _). unfold NMATCHLENSYMSTART, NMATCHLENSYMS in *.
  destruct (Z.lt_trichotomy s (rfc_len_sym l)) as [Hlt | [Heq | Hgt]]; [| done |].
  - pose proof (base_chain rfc_len_base 29 ltac:(vm_compute; reflexivity) (s - 257) (rfc_len_sym l - 257)
      ltac:(lia) ltac:(lia) ltac:(lia)). replace (s - 256) with (s - 257 + 1) in Hr by lia. lia.
  - pose proof (base_chain rfc_len_base 29 ltac:(vm_compute; reflexivity) (rfc_len_sym l - 257) (s - 257)
      ltac:(lia) ltac:(lia) ltac:(lia)). replace (rfc_len_sym l - 256) with (rfc_len_sym l - 257 + 1) in Hr' by lia. lia.
Qed.

Lemma rfc_dist_code_sym d s b x :
  rfc_dist_code d s b x -> s = rfc_dist_sym d /\ b = rfc_dist_base.[s] /\ x = rfc_dist_extra.[s].
Proof.
  intros Hc. pose proof Hc as (Hs & Hr & -> & ->). split; [| done].
  assert (Hd : 1 <= d <= MAX_OFFSET).
  { unfold NVALIDOFFSETSYMS, MAX_OFFSET in *.
    assert (Hb : forall j, 0 <= j < 0 + Z.of_nat 30 -> 1 <= rfc_dist_base.[j] /\ rfc_dist_base.[j + 1] <= 32769).
    { apply (forallZ_prop (fun j => 1 <= rfc_dist_base.[j] /\ rfc_dist_base.[j + 1] <= 32769) 0 30). vm_compute. reflexivity. }
    specialize (Hb s ltac:(lia)). lia. }
  pose proof (forallZ_spec _ _ _ rfc_dist_sym_checked d ltac:(unfold MAX_OFFSET in *; lia)) as Hk.
  apply bool_decide_eq_true in Hk. destruct Hk as (Hs' & Hr' & _). unfold NVALIDOFFSETSYMS in *.
  destruct (Z.lt_trichotomy s (rfc_dist_sym d)) as [Hlt | [Heq | Hgt]]; [| done |].
  - pose proof (base_chain rfc_dist_base 30 ltac:(vm_compute; reflexivity) s (rfc_dist_sym d)
      ltac:(lia) ltac:(lia) ltac:(lia)). lia.
  - pose proof (base_chain rfc_dist_base 30 ltac:(vm_compute; reflexivity) (rfc_dist_sym d) s
      ltac:(lia) ltac:(lia) ltac:(lia)). lia.
Qed.

(** The row facts the block encoder's proofs use, from the exhaustive checks. *)
Lemma offset_row_facts d :
  1 <= d <= MAX_OFFSET ->
  exists r, offset_row d = Some r /\
    zultra_get_offset_symbol d = g_nOffsetSymbol.[r] /\
    rfc_dist_code d g_nOffsetSymbol.[r] g_nOffsetBase.[r] g_nOffsetExtraBits.[r] /\
    g_nRevOffsetSymbolBits.[g_nOffsetSymbol.[r]] = g_nOffsetExtraBits.[r] /\
    0 <= d - g_nOffsetBase.[r] < 2 ^ g_nOffsetExtraBits.[r].
Proof.
  intros Hd. unfold MAX_OFFSET in Hd.
  pose proof (forallZ_spec _ _ _ offset_rows_checked d ltac:(unfold MAX_OFFSET; lia)) as H.
  unfold offset_row_ok in H. destruct (offset_row d) as [r|]; [| done].
  bool_to_prop. exists r. unfold rfc_dist_code. repeat split; lia.
Qed.

Lemma length_row_facts l :
  MIN_MATCH_SIZE <= l <= MAX_MATCH_SIZE ->
  varlen_row (l - MIN_MATCH_SIZE) = l - MIN_MATCH_SIZE /\
  zultra_get_varlen_symbol (l - MIN_MATCH_SIZE) = g_nMatchLenSymbol.[l - MIN_MATCH_SIZE] /\
  rfc_len_code l g_nMatchLenSymbol.[l - MIN_MATCH_SIZE]
    (g_nMatchLenBase.[l - MIN_MATCH_SIZE] + MIN_MATCH_SIZE) g_nMatchLenExtraBits.[l - MIN_MATCH_SIZE] /\
  g_nRevMatchSymbolBits.[g_nMatchLenSymbol.[l - MIN_MATCH_SIZE] - 257] = g_nMatchLenExtraBits.[l - MIN_MATCH_SIZE] /\
  0 <= l - MIN_MATCH_SIZE - g_nMatchLenBase.[l - MIN_MATCH_SIZE] < 2 ^ g_nMatchLenExtraBits.[l - MIN_MATCH_SIZE].
Proof.
  intros Hl. unfold MIN_MATCH_SIZE, MAX_MATCH_SIZE in Hl.
  pose proof (forallZ_spec _ _ _ length_rows_checked l ltac:(lia)) as H.
  unfold length_row_ok in H. bool_to_prop. unfold rfc_len_code. repeat split; lia.
Qed.

(** The encoder's symbol functions give the RFC symbols. *)
Lemma varlen_symbol_rfc l :
  MIN_MATCH_SIZE <= l <= MAX_MATCH_SIZE ->
  zultra_get_varlen_symbol (l - MIN_MATCH_SIZE) = rfc_len_sym l /\
  NMATCHLENSYMSTART <= rfc_len_sym l < NMATCHLENSYMSTART + NMATCHLENSYMS.
Proof.
  intros Hl. destruct (length_row_facts l Hl) as (_ & -> & Hrfc & _).
  destruct (rfc_len_code_sym _ _ _ _ Hrfc) as (<- & _). split; [done | apply Hrfc].
Qed.

Lemma offset_symbol_rfc d :
  1 <= d <= MAX_OFFSET -> zultra_get_offset_symbol d = rfc_dist_sym d /\ 0 <= rfc_dist_sym d < NVALIDOFFSETSYMS.
Proof.
  intros Hd. destruct (offset_row_facts d Hd) as (r & _ & -> & Hrfc & _).
  destruct (rfc_dist_code_sym _ _ _ _ Hrfc) as (<- & _). split; [done | apply Hrfc].
Qed.

(** C30. For every match offset [d] in [1, 32768], the offset tables give
    the RFC 1951 distance code: [zultra_get_offset_symbol d] is the valid
    symbol whose range contains [d], the row's base and extra-bit count are
    that symbol's (so is the cost table [g_nRevOffsetSymbolBits]), and the
    extra value [d - base] fits in the extra bits. *)
Theorem offset_tables_rfc d :
  1 <= d <= MAX_OFFSET ->
  exists r, offset_row d = Some r /\
    zultra_get_offset_symbol d = g_nOffsetSymbol.[r] /\
    rfc_dist_code d g_nOffsetSymbol.[r] g_nOffsetBase.[r] g_nOffsetExtraBits.[r] /\
    g_nRevOffsetSymbolBits.[g_nOffsetSymbol.[r]] = g_nOffsetExtraBits.[r] /\
    0 <= d - g_nOffsetBase.[r] < 2 ^ g_nOffsetExtraBits.[r].
Proof. apply offset_row_facts. Qed.

(** C31. For every match length [l] in [3, 258], the length tables give the
    RFC 1951 length code: the row is [l - 3] itself, the symbol is the
    length symbol in [257, 285] whose range contains [l], the row's base
    ([g_nMatchLenBase] stores it minus 3) and extra-bit count are the
    symbol's, as is the cost table [g_nRevMatchSymbolBits], and the extra
    value fits in the extra bits. *)
Theorem length_tables_rfc l :
  MIN_MATCH_SIZE <= l <= MAX_MATCH_SIZE ->
  varlen_row (l - MIN_MATCH_SIZE) = l - MIN_MATCH_SIZE /\
  zultra_get_varlen_symbol (l - MIN_MATCH_SIZE) = g_nMatchLenSymbol.[l - MIN_MATCH_SIZE] /\
  rfc_len_code l g_nMatchLenSymbol.[l - MIN_MATCH_SIZE]
    (g_nMatchLenBase.[l - MIN_MATCH_SIZE] + MIN_MATCH_SIZE) g_nMatchLenExtraBits.[l - MIN_MATCH_SIZE] /\
  g_nRevMatchSymbolBits.[g_nMatchLenSymbol.[l - MIN_MATCH_SIZE] - 257] = g_nMatchLenExtraBits.[l - MIN_MATCH_SIZE] /\
  0 <= l - MIN_MATCH_SIZE - g_nMatchLenBase.[l - MIN_MATCH_SIZE] < 2 ^ g_nMatchLenExtraBits.[l - MIN_MATCH_SIZE].
Proof. apply length_row_facts. Qed.

Lemma offset_tables_rfc_witness :
  exists r, offset_row 300 = Some r /\
    zultra_get_offset_symbol 300 = g_nOffsetSymbol.[r] /\
    rfc_dist_code 300 g_nOffsetSymbol.[r] g_nOffsetBase.[r] g_nOffsetExtraBits.[r] /\
    g_nRevOffsetSymbolBits.[g_nOffsetSymbol.[r]] = g_nOffsetExtraBits.[r] /\
    0 <= 300 - g_nOffsetBase.[r] < 2 ^ g_nOffsetExtraBits.[r].
Proof. apply offset_tables_rfc. unfold MAX_OFFSET. lia. Defined.

Lemma length_tables_rfc_witness :
  varlen_row (100 - MIN_MATCH_SIZE) = 100 - MIN_MATCH_SIZE /\
  zultra_get_varlen_symbol (100 - MIN_MATCH_SIZE) = g_nMatchLenSymbol.[100 - MIN_MATCH_SIZE] /\
  rfc_len_code 100 g_nMatchLenSymbol.[100 - MIN_MATCH_SIZE]
    (g_nMatchLenBase.[100 - MIN_MATCH_SIZE] + MIN_MATCH_SIZE) g_nMatchLenExtraBits.[100 - MIN_MATCH_SIZE] /\
  g_nRevMatchSymbolBits.[g_nMatchLenSymbol.[100 - MIN_MATCH_SIZE] - 257] = g_nMatchLenExtraBits.[100 - MIN_MATCH_SIZE] /\
  0 <= 100 - MIN_MATCH_SIZE - g_nMatchLenBase.[100 - MIN_MATCH_SIZE] < 2 ^ g_nMatchLenExtraBits.[100 - MIN_MATCH_SIZE].
Proof. apply length_tables_rfc. unfold MIN_MATCH_SIZE, MAX_MATCH_SIZE. lia. Defined.

End Tables.
