(* ===== verification/Huffman.v ===== *)
(** * The Huffman encoder ([src/huffman/huffencoder.c], [huffencoder.h])

    State: [zultra_huffman_encoder_t], an alphabet size, a maximum code
    length and three arrays of [MAX_SYMBOLS] ints: symbol frequencies
    ([nEntropy]), code lengths and bit-reversed codewords.

    Operations, each a definition below with the C function's name:
    [zultra_huffman_encoder_init]; the index quicksort
    [zultra_huffman_encoder_qsort] (in-place, fuel-bounded recursion);
    [zultra_huffman_encoder_build_static_codewords]; the in-place
    Moffat-Katajainen length computation
    [zultra_huffman_encoder_estimate_dynamic_codelens] (its three loops are
    [mk_phase1], [mk_parents], [mk_phase2]); the length limiter and
    canonical code assignment of
    [zultra_huffman_encoder_build_dynamic_codewords]; and
    [zultra_huffman_encoder_write_codeword].

    Every [while]/[for] loop is a [Fixpoint] with a fuel argument; the
    callers give each loop one more unit of fuel than its iteration
    bound. *)

From S2P Require Import Prelude BitWriter.
Import BitWriter.

Module Huffman.

(** [huffencoder.h] *)
Definition MAX_SYMBOLS : Z := 288.
Definition MAX_CODES_MASK : Z := 31.

(** [zultra_huffman_encoder_t] *)
Record huffman_encoder := mk_encoder {
  nSymbols : Z;
  nMaxCodeLength : Z;
  nEntropy : list Z;
  nCodeWord : list Z;
  nCodeLength : list Z
}.

Definition set_entropy (e : huffman_encoder) (a : list Z) : huffman_encoder :=
  mk_encoder (nSymbols e) (nMaxCodeLength e) a (nCodeWord e) (nCodeLength e).
Definition set_codewords (e : huffman_encoder) (a : list Z) : huffman_encoder :=
  mk_encoder (nSymbols e) (nMaxCodeLength e) (nEntropy e) a (nCodeLength e).
Definition set_codelengths (e : huffman_encoder) (a : list Z) : huffman_encoder :=
  mk_encoder (nSymbols e) (nMaxCodeLength e) (nEntropy e) (nCodeWord e) a.

(** [zultra_huffman_encoder_init] (lines 73-98): on bad arguments the
    encoder is left as it was. *)
Definition zultra_huffman_encoder_init (e : huffman_encoder) (n maxl deflen : Z)
  : Z * huffman_encoder :=
  if (n <? 0) || (MAX_SYMBOLS <? n) || (maxl <? 0) || (32 <? maxl) then (-1, e)
  else (0, mk_encoder n maxl (replicate (Z.to_nat MAX_SYMBOLS) 0) (replicate (Z.to_nat MAX_SYMBOLS) 0)
             (replicate (Z.to_nat n) deflen ++ replicate (Z.to_nat (MAX_SYMBOLS - n)) 0)).

(** ** [zultra_huffman_encoder_qsort] (lines 34-61)

    Sorts the index array [idx] between [left] and [right] (inclusive) by
    [value[idx[k]]], ties broken by the index itself.  The partition loop
    [for (i = left + 1; i <= right; i++)]: *)
Fixpoint qsort_partition (fuel : nat) (value idx : list Z) (left i right last : Z) : list Z * Z :=
  match fuel with
  | O => (idx, last)
  | S fuel' =>
      if right <? i then (idx, last)
      else
        let tmp := idx.[i] in
        if (value.[tmp] <? value.[idx.[left]]) ||
           ((value.[idx.[left]] =? value.[tmp]) && (tmp <? idx.[left]))
        then qsort_partition fuel' value ((idx.[i := idx.[last + 1]]).[last + 1 := tmp])
               left (i + 1) right (last + 1)
        else qsort_partition fuel' value idx left (i + 1) right last
  end.

Fixpoint zultra_huffman_encoder_qsort (fuel : nat) (value idx : list Z) (left right : Z) : list Z :=
  match fuel with
  | O => idx
  | S fuel' =>
      if right <=? left then idx
      else
        let mid := Z.shiftr (left + right) 1 in
        let '(idx2, last) :=
          qsort_partition (Z.to_nat (right - left)) value (aswap idx left mid) left (left + 1) right left in
        let idx3 := aswap idx2 left last in
        let idx4 := zultra_huffman_encoder_qsort fuel' value idx3 left (last - 1) in
        zultra_huffman_encoder_qsort fuel' value idx4 (last + 1) right
  end.

(** Each recursive call works on a shorter range: a range of [k] entries
    needs [k + 1] units of fuel. *)
Definition qsort_fuel (left right : Z) : nat := Z.to_nat (right - left + 2).

Definition sort_indices (value idx : list Z) (n : Z) : list Z :=
  zultra_huffman_encoder_qsort (qsort_fuel 0 (n - 1)) value idx 0 (n - 1).

(** ** Canonical codewords *)

(** The branchless 16-bit reversal of the code (lines 132-135). *)
Definition rev_word (w : Z) : Z :=
  let r := Z.lor (Z.shiftl (Z.land w 0x5555) 1) (Z.shiftr (Z.land w 0xaaaa) 1) in
  let r := Z.lor (Z.shiftl (Z.land r 0x3333) 2) (Z.shiftr (Z.land r 0xcccc) 2) in
  let r := Z.lor (Z.shiftl (Z.land r 0x0f0f) 4) (Z.shiftr (Z.land r 0xf0f0) 4) in
  Z.lor (Z.shiftl (Z.land r 0x00ff) 8) (Z.shiftr (Z.land r 0xff00) 8).

(** The codeword loop shared by both builders (lines 124-144 and
    351-371): walk the sorted symbols, store the reversed canonical code of
    each, then step the code: [code = (code + 1) << (next_len - len)]. *)
Fixpoint issue_codewords (lens queue : list Z) (code len : Z) (words : list Z) : list Z :=
  match queue with
  | [] => words
  | n :: rest =>
      let words' := words.[n := Z.shiftr (rev_word code) (16 - len)] in
      match rest with
      | [] => words'
      | n' :: _ =>
          issue_codewords lens rest (wrap 32 (Z.shiftl (code + 1) (lens.[n'] - len))) lens.[n'] words'
      end
  end.

(** [zultra_huffman_encoder_build_static_codewords] (lines 107-148) *)
Definition zultra_huffman_encoder_build_static_codewords (e : huffman_encoder) : Z * huffman_encoder :=
  let queue := zseq 0 (Z.to_nat (nSymbols e)) in
  let n := Z.of_nat (length queue) in
  if 0 <? n then
    let sorted := sort_indices (nCodeLength e) queue n in
    (0, set_codewords e (issue_codewords (nCodeLength e) sorted 0 (nCodeLength e).[sorted.[0]] (nCodeWord e)))
  else (0, e).

(** ** Moffat-Katajainen code lengths (lines 157-270) *)

(** One selection of phase 1: the next internal node (at [r]) when it is
    lighter than the next leaf (at [s]), the leaf otherwise. *)
Definition mk_select (A : list Z) (n s r t : Z) : Z * list Z * Z * Z :=
  if (n <=? s) || ((r <? t) && (A.[r] <? A.[s]))
  then (A.[r], A.[r := t + 1], s, r + 1)
  else (A.[s], A, s + 1, r).

(** Phase 1, [for (t = 0; t < n - 1; t++)]: build the internal nodes. *)
Fixpoint mk_phase1 (fuel : nat) (A : list Z) (n s r t : Z) : list Z :=
  match fuel with
  | O => A
  | S fuel' =>
      if t <? n - 1 then
        let '(w1, A1, s1, r1) := mk_select A n s r t in
        let '(w2, A2, s2, r2) := mk_select A1 n s1 r1 t in
        mk_phase1 fuel' (A2.[t := w1 + w2]) n s2 r2 (t + 1)
      else A
  end.

(** Phase 2, first loop: [for (t = n - 3; t >= 0; t--) A[t] = A[A[t] - 1] + 1]:
    parent pointers become internal-node depths. *)
Fixpoint mk_parents (fuel : nat) (A : list Z) (t : Z) : list Z :=
  match fuel with
  | O => A
  | S fuel' => if t <? 0 then A else mk_parents fuel' (A.[t := A.[A.[t] - 1] + 1]) (t - 1)
  end.

(** [while (t >= 0 && A[t] == d) { u++; t--; }] *)
Fixpoint mk_count (fuel : nat) (A : list Z) (t d u : Z) : Z * Z :=
  match fuel with
  | O => (t, u)
  | S fuel' => if (0 <=? t) && (A.[t] =? d) then mk_count fuel' A (t - 1) d (u + 1) else (t, u)
  end.

(** [while (a > u) { A[x] = d; x--; a--; }] *)
Fixpoint mk_assign (fuel : nat) (A : list Z) (x a u d : Z) : list Z * Z * Z :=
  match fuel with
  | O => (A, x, a)
  | S fuel' => if u <? a then mk_assign fuel' (A.[x := d]) (x - 1) (a - 1) u d else (A, x, a)
  end.

(** Phase 2, second loop: [while (a > 0) { ... a = u << 1; d++; u = 0; }]:
    internal-node depths become leaf depths, written from the back. *)
Fixpoint mk_phase2 (fuel nfuel : nat) (A : list Z) (a u d x t : Z) : list Z :=
  match fuel with
  | O => A
  | S fuel' =>
      if 0 <? a then
        let '(t', u') := mk_count nfuel A t d u in
        let '(A', x', _) := mk_assign nfuel A x a u' d in
        mk_phase2 fuel' nfuel A' (Z.shiftl u' 1) 0 (d + 1) x' t'
      else A
  end.

(** The whole in-place computation on the sorted weights [A] of [n >= 2]
    symbols. *)
Definition mk_lengths (A : list Z) (n : Z) : list Z :=
  let fuel := S (Z.to_nat n) in
  let A1 := mk_phase1 fuel A n 0 0 0 in
  let A2 := mk_parents fuel (A1.[n - 2 := 0]) (n - 3) in
  mk_phase2 fuel fuel A2 1 0 0 (n - 1) (n - 2).

(** [for (i = 0; i < nNumSorted; i++) nCodeLength[nMinQueue[i]] = A[i];] *)
Fixpoint scatter (queue A : list Z) (i : Z) (lens : list Z) : list Z :=
  match queue with
  | [] => lens
  | q :: rest => scatter rest A (i + 1) (lens.[q := A.[i]])
  end.

(** The symbols of [0, nSymbols) whose entry in [a] is not zero, in
    increasing order. *)
Definition nonzero_symbols (a : list Z) (nsyms : Z) : list Z :=
  List.filter (fun i => negb (a.[i] =? 0)) (zseq 0 (Z.to_nat nsyms)).

(** [zultra_huffman_encoder_estimate_dynamic_codelens] *)
Definition zultra_huffman_encoder_estimate_dynamic_codelens (e : huffman_encoder) : Z * huffman_encoder :=
  if (nSymbols e <? 0) || (MAX_SYMBOLS <? nSymbols e) then (-1, e)
  else
    let queue := nonzero_symbols (nEntropy e) (nSymbols e) in
    let n := Z.of_nat (length queue) in
    if 1 <? n then
      let sorted := sort_indices (nEntropy e) queue n in
      let A := mk_lengths (map (fun q => (nEntropy e).[q]) sorted) n in
      (0, set_codelengths e (scatter sorted A 0 (replicate (Z.to_nat MAX_SYMBOLS) 0)))
    else (0, set_codelengths e ((replicate (Z.to_nat MAX_SYMBOLS) 0).[0 := 1])).

(** ** Length limiting (lines 303-345) *)

(** [for (i = nNumSorted - 1; i >= 0; i--)]: cap each length at the
    maximum and add up the Kraft sum [k], scaled by [maxk = 1 << max]. *)
Fixpoint limit_cap (rq lens : list Z) (maxl maxk k : Z) : list Z * Z :=
  match rq with
  | [] => (lens, k)
  | n :: rest =>
      let lens' := if maxl <? lens.[n] then lens.[n := maxl] else lens in
      limit_cap rest lens' maxl maxk (k + Z.shiftr maxk lens'.[n])
  end.

(** [while (len < max && k > maxk) { len++; k -= maxk >> len; }] *)
Fixpoint limit_lengthen (fuel : nat) (n : Z) (lens : list Z) (maxl maxk k : Z) : list Z * Z :=
  match fuel with
  | O => (lens, k)
  | S fuel' =>
      if (lens.[n] <? maxl) && (maxk <? k) then
        limit_lengthen fuel' n (lens.[n := lens.[n] + 1]) maxl maxk (k - Z.shiftr maxk (lens.[n] + 1))
      else (lens, k)
  end.

(** [for (i = nNumSorted - 1; k > maxk && i >= 0; i--)]: lengthen the
    longest codes first until the sum fits. *)
Fixpoint limit_propagate (rq lens : list Z) (maxl maxk k : Z) : list Z * Z :=
  match rq with
  | [] => (lens, k)
  | n :: rest =>
      if maxk <? k then
        let '(lens', k') := limit_lengthen (S (Z.to_nat maxl)) n lens maxl maxk k in
        limit_propagate rest lens' maxl maxk k'
      else (lens, k)
  end.

(** [while ((k + (maxk >> len)) <= maxk) { k += maxk >> len; len--; }] *)
Fixpoint limit_shorten (fuel : nat) (n : Z) (lens : list Z) (maxk k : Z) : list Z * Z :=
  match fuel with
  | O => (lens, k)
  | S fuel' =>
      if k + Z.shiftr maxk lens.[n] <=? maxk then
        limit_shorten fuel' n (lens.[n := lens.[n] - 1]) maxk (k + Z.shiftr maxk lens.[n])
      else (lens, k)
  end.

(** [for (i = 0; k < maxk && i <= nNumSorted; i++)]: shorten the shortest
    codes first while the sum stays within [maxk].  The bound [i <=
    nNumSorted] lets the loop read one entry past the sorted symbols (an
    uninitialised stack slot in C, 0 here). *)
Fixpoint limit_reduce (fuel : nat) (queue : list Z) (i nsorted maxl : Z) (lens : list Z) (maxk k : Z)
  : list Z * Z :=
  match fuel with
  | O => (lens, k)
  | S fuel' =>
      if (k <? maxk) && (i <=? nsorted) then
        let '(lens', k') := limit_shorten (S (Z.to_nat maxl)) queue.[i] lens maxk k in
        limit_reduce fuel' queue (i + 1) nsorted maxl lens' maxk k'
      else (lens, k)
  end.

(** The three loops in order, from the lengths sorted in [queue]. *)
Definition limit_lengths (queue lens : list Z) (n maxl : Z) : list Z :=
  let maxk := Z.shiftl 1 maxl in
  let '(l1, k1) := limit_cap (reverse queue) lens maxl maxk 0 in
  let '(l2, k2) := limit_propagate (reverse queue) l1 maxl maxk k1 in
  fst (limit_reduce (S (S (Z.to_nat n))) queue 0 n maxl l2 maxk k2).

(** [zultra_huffman_encoder_build_dynamic_codewords] (lines 279-375) *)
Definition zultra_huffman_encoder_build_dynamic_codewords (e : huffman_encoder) : Z * huffman_encoder :=
  let '(st, e1) := zultra_huffman_encoder_estimate_dynamic_codelens e in
  if st <? 0 then (-1, e1)
  else
    let lens := nCodeLength e1 in
    let queue := nonzero_symbols lens (nSymbols e1) in
    let n := Z.of_nat (length queue) in
    let '(queue', lens') :=
      if (0 <? n) && (0 <? nMaxCodeLength e1) then
        let q1 := sort_indices lens queue n in
        if nMaxCodeLength e1 <? lens.[q1.[n - 1]] then
          let l3 := limit_lengths q1 lens n (nMaxCodeLength e1) in
          (sort_indices l3 q1 n, l3)
        else (q1, lens)
      else (queue, lens) in
    let e2 := set_codelengths e1 lens' in
    if 0 <? n then
      (0, set_codewords e2 (issue_codewords lens' queue' 0 lens'.[queue'.[0]] (nCodeWord e2)))
    else (0, e2).

(** [zultra_huffman_encoder_write_codeword] (lines 386-391) *)
Definition zultra_huffman_encoder_write_codeword (e : huffman_encoder) (nSymbol : Z) (bw : bitwriter)
  : Z * bitwriter :=
  if (0 <=? nSymbol) && (nSymbol <? nSymbols e)
  then put_bits bw (nCodeWord e).[nSymbol] (nCodeLength e).[nSymbol]
  else (-1, bw).

(** A symbol the encoder can write: in its alphabet, with a code of at
    most 16 bits whose word fits its length. *)
Definition sym_ok (te : huffman_encoder) (s : Z) : Prop :=
  0 <= s < nSymbols te /\ 0 <= (nCodeLength te).[s] <= 16 /\
  0 <= (nCodeWord te).[s] < 2 ^ (nCodeLength te).[s].

#[export] Instance sym_ok_dec te s : Decision (sym_ok te s).
Proof. unfold sym_ok. apply _. Defined.

(** ** Abstract specification of the canonical code *)

(** The abstract specification of the reversal: the [l]-bit value [c]
    with its bits in reverse order, i.e. the codeword [c] (most significant
    bit first) laid out for least-significant-first emission. *)
Definition rev_bits (l : nat) (c : Z) : Z := bits_to_Z (reverse (bits_of c l)).

(** The MSB-first value of the [l]-bit codeword stored reversed in [w]. *)
Definition code_value (w l : Z) : Z := bits_to_Z (reverse (bits_of w (Z.to_nat l))).

(** The Kraft sum of the symbols of [q] under the lengths [lens], scaled
    by [2^16]. *)
Definition kraft16 (lens q : list Z) : Z := zsum (fun n => 2 ^ (16 - lens.[n])) q.

(** The canonical assignment in closed form: walking [q] in order, the
    code of each symbol is the Kraft sum [S] of the symbols before it,
    scaled to the symbol's length, and is stored bit-reversed. *)
Fixpoint canon_words (lens q : list Z) (S : Z) (words : list Z) : list Z :=
  match q with
  | [] => words
  | n :: rest =>
      canon_words lens rest (S + 2 ^ (16 - lens.[n]))
        (words.[n := rev_bits (Z.to_nat lens.[n]) (S / 2 ^ (16 - lens.[n]))])
  end.

(** The order [zultra_huffman_encoder_qsort] sorts the queue into (its
    comparison, line 46): by [value], then by symbol. *)
Definition sym_lt (value : list Z) (a b : Z) : Prop :=
  value.[a] < value.[b] \/ (value.[a] = value.[b] /\ a < b).

#[export] Instance sym_lt_dec value a b : Decision (sym_lt value a b).
Proof. unfold sym_lt. apply _. Defined.

(** ** The canonical code of RFC 1951, section 3.2.2

    The algorithm a decoder runs to rebuild the code from the code lengths
    alone, transcribed from the RFC: count the codes of each length (step
    1), compute the first code of each length (step 2), then hand out
    consecutive codes in symbol order (step 3). *)

Definition rfc_bl_count (lens : list Z) (nsyms : nat) (b : Z) : Z :=
  Z.of_nat (length (filter (fun n => lens.[n] = b) (zseq 0 nsyms))).

(** Step 2: [bl_count[0] = 0; code = 0; for (bits = 1; ...)
    { code = (code + bl_count[bits-1]) << 1; next_code[bits] = code; }] *)
Fixpoint rfc_next_code (lens : list Z) (nsyms : nat) (bits : nat) : Z :=
  match bits with
  | O => 0
  | S b =>
      (rfc_next_code lens nsyms b + (if (b =? 0)%nat then 0 else rfc_bl_count lens nsyms (Z.of_nat b))) * 2
  end.

(** Step 3: [if (len != 0) { tree[n].Code = next_code[len]; next_code[len]++; }] *)
Fixpoint rfc_assign (lens syms next codes : list Z) : list Z :=
  match syms with
  | [] => codes
  | n :: rest =>
      let len := lens.[n] in
      if len =? 0 then rfc_assign lens rest next codes
      else rfc_assign lens rest (next.[len := next.[len] + 1]) (codes.[n := next.[len]])
  end.

Definition rfc_codes (lens : list Z) (nsyms : nat) : list Z :=
  rfc_assign lens (zseq 0 nsyms)
    (map (fun b => rfc_next_code lens nsyms (Z.to_nat b)) (zseq 0 17)) (replicate nsyms 0).

Definition rev_word_ok (w : Z) : bool := rev_word w =? rev_bits 16 w.

(** ** Bit reversal *)

Lemma rev_word_checked : forallZ rev_word_ok 0 (Z.to_nat (2 ^ 16)) = true.
Proof. vm_compute. reflexivity. Qed.

Lemma rev_word_spec w : 0 <= w < 2 ^ 16 -> rev_word w = rev_bits 16 w.
Proof.
  intros Hw. pose proof (forallZ_spec _ _ _ rev_word_checked w ltac:(lia)) as H.
  unfold rev_word_ok in H. bool_to_prop. done.
Qed.

Lemma bits_of_rev_bits l c : bits_of (rev_bits l c) l = reverse (bits_of c l).
Proof.
  unfold rev_bits. rewrite <- (length_bits_of c l) at 2. rewrite <- length_reverse.
  apply bits_of_bits_to_Z.
Qed.

Lemma rev_bits_bound l c : 0 <= rev_bits l c < 2 ^ Z.of_nat l.
Proof.
  unfold rev_bits. pose proof (bits_to_Z_bound (reverse (bits_of c l))) as H.
  by rewrite length_reverse, length_bits_of in H.
Qed.

(** The reversed 16-bit word shifted right by [16 - l] is the [l]-bit
    reversal of an [l]-bit code (line 136). *)
Lemma rev_word_shift l c :
  0 <= l <= 16 -> 0 <= c < 2 ^ l ->
  Z.shiftr (rev_word c) (16 - l) = rev_bits (Z.to_nat l) c.
Proof.
  intros Hl Hc.
  assert (2 ^ l <= 2 ^ 16) by (apply Z.pow_le_mono_r; lia).
  rewrite rev_word_spec by lia. unfold rev_bits.
  replace 16%nat with (Z.to_nat l + Z.to_nat (16 - l))%nat by lia.
  rewrite bits_of_add by lia.
  rewrite (shiftr_small c) by (rewrite ?Z2Nat.id; lia).
  rewrite bits_of_zero, reverse_app, reverse_replicate, bits_to_Z_app, bits_to_Z_replicate_false.
  rewrite length_replicate, Z2Nat.id by lia. rewrite Z.add_0_l, Z.shiftr_div_pow2 by lia.
  rewrite Z.mul_comm, Z.div_mul by (apply Z.pow_nonzero; lia). done.
Qed.

(** ** The codeword loop computes the canonical code *)

Lemma pow_split a b c : a <= b <= c -> 2 ^ (c - a) = 2 ^ (b - a) * 2 ^ (c - b).
Proof. intros H. rewrite <- Z.pow_add_r by lia. f_equal. lia. Qed.

(** Writing a symbol the encoder has a code for. *)
Lemma write_codeword_ok e s bw :
  sym_ok e s -> bw_inv bw -> room bw (nCodeLength e).[s] ->
  exists bw', zultra_huffman_encoder_write_codeword e s bw = (0, bw') /\ bw_inv bw' /\
    bw_stream bw' = bw_stream bw ++ bits_of (nCodeWord e).[s] (Z.to_nat (nCodeLength e).[s]) /\
    nMaxOutDataOffset bw' = nMaxOutDataOffset bw.
Proof.
  intros (Hs1 & Hs2 & Hs3) Hinv Hr. unfold zultra_huffman_encoder_write_codeword.
  rewrite (proj2 (Z.leb_le _ _)), (proj2 (Z.ltb_lt _ _)) by lia.
  by apply put_bits_room.
Qed.

Section Canonical.

Context (lens : list Z).

Lemma kraft16_app q1 q2 : kraft16 lens (q1 ++ q2) = kraft16 lens q1 + kraft16 lens q2.
Proof. apply zsum_app. Qed.

Lemma kraft16_nonneg q : 0 <= kraft16 lens q.
Proof.
  induction q as [|x q IH]; simpl; [lia |].
  pose proof (Z.pow_nonneg 2 (16 - lens.[x])). lia.
Qed.

(** Symbols no longer than [l] have a Kraft sum that is a multiple of the
    weight [2^(16 - l)] of a code of length [l]. *)
Lemma kraft16_divide q l :
  l <= 16 -> Forall (fun x => 1 <= lens.[x] <= l) q -> (2 ^ (16 - l) | kraft16 lens q).
Proof.
  intros Hl Hq. induction Hq as [|x q Hx Hq IH]; simpl; [apply Z.divide_0_r |].
  apply Z.divide_add_r; [| done].
  exists (2 ^ (l - lens.[x])). rewrite <- Z.pow_add_r by lia. f_equal. lia.
Qed.

(** The loop of [zultra_huffman_encoder_build_static_codewords] and
    [zultra_huffman_encoder_build_dynamic_codewords] that issues the
    codewords computes the canonical code in closed form: on symbols
    sorted by nondecreasing length in [1, 16] whose Kraft sum fits, each
    symbol gets the bit-reversed Kraft sum of the symbols before it, scaled
    to its length. *)
Theorem issue_codewords_canon q code len words :
  Sorted (fun a b => lens.[a] <= lens.[b]) q ->
  Forall (fun n => 1 <= lens.[n] <= 16) q ->
  lens.[q.[0]] = len -> 0 <= code ->
  code * 2 ^ (16 - len) + kraft16 lens q <= 2 ^ 16 ->
  issue_codewords lens q code len words = canon_words lens q (code * 2 ^ (16 - len)) words.
Proof.
  revert code len words.
  induction q as [|n rest IH]; intros code len words Hs Hb Hl Hc Hk; [done |].
  apply Forall_cons in Hb as [Hn Hrest].
  unfold aget at 2 in Hl. simpl in Hl. fold (lens.[n]) in Hl. subst len.
  simpl in Hk. pose proof (kraft16_nonneg rest) as Hr.
  assert (Hsplit : 2 ^ 16 = 2 ^ lens.[n] * 2 ^ (16 - lens.[n])) by (rewrite <- Z.pow_add_r by lia; f_equal; lia).
  assert (Hp : 0 < 2 ^ (16 - lens.[n])) by (apply Z.pow_pos_nonneg; lia).
  assert (Hcode : code < 2 ^ lens.[n]) by nia.
  assert (Hdiv : code * 2 ^ (16 - lens.[n]) / 2 ^ (16 - lens.[n]) = code) by (apply Z.div_mul; lia).
  simpl. rewrite rev_word_shift, Hdiv by lia.
  destruct rest as [|n' rest']; [done |].
  apply Sorted_inv in Hs as [Hs Hhd]. apply HdRel_inv in Hhd as Hle.
  pose proof (proj1 (Forall_cons _ _ _) Hrest) as [Hn' _].
  rewrite (pow_split (lens.[n]) (lens.[n']) 16) in Hk, Hsplit, Hp |- * by lia.
  assert (Hp' : 0 < 2 ^ (16 - lens.[n'])) by (apply Z.pow_pos_nonneg; lia).
  assert (Hq : 0 < 2 ^ (lens.[n'] - lens.[n])) by (apply Z.pow_pos_nonneg; lia).
  assert (Hw : wrap 32 (Z.shiftl (code + 1) (lens.[n'] - lens.[n])) = (code + 1) * 2 ^ (lens.[n'] - lens.[n])).
  { rewrite Z.shiftl_mul_pow2 by lia. apply wrap_small; [lia |].
    assert (2 ^ 16 < 2 ^ 32) by (apply Z.pow_lt_mono_r; lia). nia. }
  rewrite Hw, IH; [| done | done | done | lia | ].
  - f_equal. ring.
  - change (kraft16 lens (n' :: rest')) with (2 ^ (16 - lens.[n']) + kraft16 lens rest').
    simpl in Hk. nia.
Qed.

Lemma length_canon_words q S w : length (canon_words lens q S w) = length w.
Proof.
  revert S w. induction q as [|x q IH]; intros S w; simpl; [done |]. by rewrite IH, length_aset.
Qed.

Lemma canon_words_other q S w m :
  Forall (fun x => 0 <= x) q -> 0 <= m -> m ∉ q -> (canon_words lens q S w).[m] = w.[m].
Proof.
  revert S w. induction q as [|x q IH]; intros S w Hq Hm Hnot; simpl; [done |].
  apply Forall_cons in Hq as [Hx Hq]. rewrite IH; [| done | done | set_solver].
  apply aget_aset_ne; [done | done | set_solver].
Qed.

(** The code of the symbol at a given place of the walk. *)
Lemma canon_words_at pre n post S w :
  NoDup (pre ++ n :: post) -> Forall (fun x => 0 <= x) (pre ++ n :: post) ->
  n < Z.of_nat (length w) ->
  (canon_words lens (pre ++ n :: post) S w).[n] =
    rev_bits (Z.to_nat lens.[n]) ((S + kraft16 lens pre) / 2 ^ (16 - lens.[n])).
Proof.
  revert S w. induction pre as [|x pre IH]; intros S w Hnd Hpos Hn; cbn [app canon_words].
  - apply NoDup_cons in Hnd as [Hnin _]. apply Forall_cons in Hpos as [Hn0 Hpos].
    rewrite canon_words_other by done. rewrite aget_aset_eq by lia.
    change (kraft16 lens []) with 0. by rewrite Z.add_0_r.
  - apply NoDup_cons in Hnd as [_ Hnd]. apply Forall_cons in Hpos as [_ Hpos].
    rewrite IH by (rewrite ?length_aset; done).
    change (kraft16 lens (x :: pre)) with (2 ^ (16 - lens.[x]) + kraft16 lens pre).
    by rewrite Z.add_assoc.
Qed.

End Canonical.

(** The arithmetic core of prefix-freeness: two codes whose scaled Kraft
    intervals [Kx, Kx + 2^(16-Lx)) and [Ky, Ky + 2^(16-Ly)) are disjoint,
    the first one no longer, are not prefixes of one another. *)
Lemma canon_pair_not_prefix Kx Ky Lx Ly :
  1 <= Lx <= 16 -> 1 <= Ly <= 16 -> Lx <= Ly ->
  (2 ^ (16 - Lx) | Kx) -> (2 ^ (16 - Ly) | Ky) -> 0 <= Kx ->
  Kx + 2 ^ (16 - Lx) <= Ky -> Ky + 2 ^ (16 - Ly) <= 2 ^ 16 ->
  ~ bits_of (rev_bits (Z.to_nat Lx) (Kx / 2 ^ (16 - Lx))) (Z.to_nat Lx) `prefix_of`
      bits_of (rev_bits (Z.to_nat Ly) (Ky / 2 ^ (16 - Ly))) (Z.to_nat Ly) /\
  ~ bits_of (rev_bits (Z.to_nat Ly) (Ky / 2 ^ (16 - Ly))) (Z.to_nat Ly) `prefix_of`
      bits_of (rev_bits (Z.to_nat Lx) (Kx / 2 ^ (16 - Lx))) (Z.to_nat Lx).
Proof.
  intros HLx HLy Hle [cx Hcx] [cy Hcy] HKx Hxy Hy.
  assert (Hpx : 0 < 2 ^ (16 - Lx)) by (apply Z.pow_pos_nonneg; lia).
  assert (Hpy : 0 < 2 ^ (16 - Ly)) by (apply Z.pow_pos_nonneg; lia).
  assert (Hx16 : 2 ^ 16 = 2 ^ Lx * 2 ^ (16 - Lx)) by (rewrite <- Z.pow_add_r by lia; f_equal; lia).
  assert (Hy16 : 2 ^ 16 = 2 ^ Ly * 2 ^ (16 - Ly)) by (rewrite <- Z.pow_add_r by lia; f_equal; lia).
  assert (Hd : 2 ^ (16 - Lx) = 2 ^ (Ly - Lx) * 2 ^ (16 - Ly)) by (rewrite <- Z.pow_add_r by lia; f_equal; lia).
  assert (Hq : 0 < 2 ^ (Ly - Lx)) by (apply Z.pow_pos_nonneg; lia).
  subst Kx Ky. rewrite !Z.div_mul by lia.
  assert (Hcxb : 0 <= cx < 2 ^ Lx) by nia.
  assert (Hcyb : 0 <= cy < 2 ^ Ly) by nia.
  assert (Hlt : (cx + 1) * 2 ^ (Ly - Lx) <= cy).
  { apply (Z.mul_le_mono_pos_r _ _ _ Hpy). rewrite <- Z.mul_assoc, <- Hd. nia. }
  assert (Hbx : 0 <= cx < 2 ^ Z.of_nat (Z.to_nat Lx)) by (rewrite Z2Nat.id; lia).
  assert (Hby : 0 <= cy < 2 ^ Z.of_nat (Z.to_nat Ly)) by (rewrite Z2Nat.id; lia).
  rewrite !bits_of_rev_bits. split; intros Hpre.
  - apply msb_prefix in Hpre as [_ Hs]; [| done | done].
    rewrite Nat2Z.inj_sub, !Z2Nat.id in Hs by lia. rewrite Z.shiftr_div_pow2 in Hs by lia.
    assert (cx + 1 <= cy / 2 ^ (Ly - Lx)) by (apply Z.div_le_lower_bound; lia). lia.
  - apply msb_prefix in Hpre as [Hl Hs]; [| done | done].
    assert (Lx = Ly) by lia. subst Ly.
    rewrite Nat.sub_diag, Z.shiftr_0_r in Hs. rewrite Z.sub_diag, Z.pow_0_r in Hlt. lia.
Qed.

Section Codes.

Context (lens words : list Z).

(** The codes of two symbols of a sorted walk, [x] placed before [y]:
    their scaled Kraft intervals are disjoint and in order. *)
Lemma canon_words_pair l1 x l2 y l3 :
  NoDup (l1 ++ x :: l2 ++ y :: l3) ->
  Forall (fun n => 0 <= n < Z.of_nat (length words) /\ 1 <= lens.[n] <= 16)
    (l1 ++ x :: l2 ++ y :: l3) ->
  StronglySorted (fun a b => lens.[a] <= lens.[b]) (l1 ++ x :: l2 ++ y :: l3) ->
  kraft16 lens (l1 ++ x :: l2 ++ y :: l3) <= 2 ^ 16 ->
  lens.[x] <= lens.[y] /\
  (canon_words lens (l1 ++ x :: l2 ++ y :: l3) 0 words).[x] =
     rev_bits (Z.to_nat lens.[x]) (kraft16 lens l1 / 2 ^ (16 - lens.[x])) /\
  (canon_words lens (l1 ++ x :: l2 ++ y :: l3) 0 words).[y] =
     rev_bits (Z.to_nat lens.[y]) (kraft16 lens (l1 ++ x :: l2) / 2 ^ (16 - lens.[y])) /\
  (2 ^ (16 - lens.[x]) | kraft16 lens l1) /\
  (2 ^ (16 - lens.[y]) | kraft16 lens (l1 ++ x :: l2)) /\
  kraft16 lens l1 + 2 ^ (16 - lens.[x]) <= kraft16 lens (l1 ++ x :: l2) /\
  kraft16 lens (l1 ++ x :: l2) + 2 ^ (16 - lens.[y]) <= 2 ^ 16.
Proof.
  intros Hnd Hq Hs Hk.
  assert (Hq' : l1 ++ x :: l2 ++ y :: l3 = (l1 ++ x :: l2) ++ y :: l3) by (by rewrite <- app_assoc).
  pose proof (StronglySorted_before _ _ _ _ Hs) as Hbx.
  rewrite Hq' in Hs. pose proof (StronglySorted_before _ _ _ _ Hs) as Hby.
  assert (Hpos : Forall (fun n => 0 <= n) (l1 ++ x :: l2 ++ y :: l3))
    by (eapply Forall_impl; [exact Hq | naive_solver lia]).
  rewrite Forall_forall in Hq, Hbx, Hby.
  assert (Hx := Hq x ltac:(set_solver)). assert (Hy := Hq y ltac:(set_solver)).
  assert (Hxy := Hby x ltac:(set_solver)). cbv beta in Hx, Hy, Hxy.
  split; [done |]. split; [apply canon_words_at; [done | done | lia] |]. split.
  { rewrite Hq'. apply canon_words_at; [by rewrite <- Hq' | by rewrite <- Hq' | lia]. }
  split; [| split].
  - apply kraft16_divide; [lia |]. apply Forall_forall. intros n Hn.
    pose proof (Hq n ltac:(set_solver)). pose proof (Hbx n Hn). lia.
  - apply kraft16_divide; [lia |]. apply Forall_forall. intros n Hn.
    pose proof (Hq n ltac:(set_solver)). pose proof (Hby n Hn). lia.
  - rewrite Hq', !kraft16_app in Hk. rewrite kraft16_app.
    change (kraft16 lens (x :: l2)) with (2 ^ (16 - lens.[x]) + kraft16 lens l2) in *.
    change (kraft16 lens (y :: l3)) with (2 ^ (16 - lens.[y]) + kraft16 lens l3) in Hk.
    pose proof (kraft16_nonneg lens l2). pose proof (kraft16_nonneg lens l3). lia.
Qed.

End Codes.

Lemma code_value_rev_bits l c :
  0 <= l -> 0 <= c < 2 ^ l -> code_value (rev_bits (Z.to_nat l) c) l = c.
Proof.
  intros Hl Hc. unfold code_value. rewrite bits_of_rev_bits, reverse_involutive.
  apply bits_to_Z_bits_of. by rewrite Z2Nat.id.
Qed.

Section RFC.

Context (lens : list Z).

Lemma rfc_assign_other syms next codes m :
  Forall (fun x => 0 <= x) syms -> 0 <= m -> m ∉ syms ->
  (rfc_assign lens syms next codes).[m] = codes.[m].
Proof.
  revert next codes. induction syms as [|x syms IH]; intros next codes Hs Hm Hn; simpl; [done |].
  apply Forall_cons in Hs as [Hx Hs].
  destruct (lens.[x] =? 0); rewrite IH by (done || set_solver); [done |].
  apply aget_aset_ne; [done | done | set_solver].
Qed.

(** Step 3 in closed form: the code of a symbol is the first code of its
    length plus the number of symbols of that length before it. *)
Lemma rfc_assign_at pre n post next codes :
  NoDup (pre ++ n :: post) -> Forall (fun x => 0 <= x) (pre ++ n :: post) ->
  Forall (fun x => 0 <= lens.[x] < Z.of_nat (length next)) (pre ++ n :: post) ->
  lens.[n] <> 0 -> n < Z.of_nat (length codes) ->
  (rfc_assign lens (pre ++ n :: post) next codes).[n] =
    next.[lens.[n]] + zsum (fun m => if decide (lens.[m] = lens.[n]) then 1 else 0) pre.
Proof.
  intros Hnd Hpos Hl Hn0 Hn.
  assert (Hln := proj1 (Forall_forall _ _) Hl n ltac:(set_solver)). cbv beta in Hln.
  revert next codes Hl Hln Hn. induction pre as [|x pre IH]; intros next codes Hl Hln Hn;
    cbn [app rfc_assign].
  - apply NoDup_cons in Hnd as [Hnin _]. apply Forall_cons in Hpos as [Hp Hpos].
    rewrite (proj2 (Z.eqb_neq _ _) Hn0), rfc_assign_other, aget_aset_eq by (done || lia).
    change (zsum _ []) with 0. lia.
  - apply NoDup_cons in Hnd as [Hx Hnd]. apply Forall_cons in Hpos as [Hp Hpos].
    apply Forall_cons in Hl as [Hlx Hl].
    assert (x <> n) by (intros ->; set_solver).
    rewrite zsum_cons; cbv beta.
    destruct (Z.eqb_spec lens.[x] 0) as [Hx0 | Hx0].
    + rewrite IH by done. destruct (decide (lens.[x] = lens.[n])); lia.
    + rewrite IH by (rewrite ?length_aset; done).
      destruct (decide (lens.[x] = lens.[n])) as [He | He].
      * rewrite He, aget_aset_eq by lia. lia.
      * rewrite aget_aset_ne by lia. lia.
Qed.

(** Step 2 in closed form: the first code of length [l] counts, for each
    shorter code, the codes of length [l] it rules out. *)
Lemma rfc_next_code_sum nsyms (l : nat) :
  rfc_next_code lens nsyms l =
    zsum (fun m => if decide (1 <= lens.[m] < Z.of_nat l) then 2 ^ (Z.of_nat l - lens.[m]) else 0)
      (zseq 0 nsyms).
Proof.
  induction l as [|b IH]; cbn [rfc_next_code].
  - symmetry. apply zsum_zero. intros m _. destruct (decide _); [lia | done].
  - rewrite IH. destruct (Nat.eqb_spec b 0) as [-> | Hb].
    + rewrite !zsum_zero; [done | |]; intros m _; destruct (decide _); lia.
    + unfold rfc_bl_count. rewrite zsum_length_filter, <- zsum_plus, Z.mul_comm, <- zsum_scale.
      apply zsum_ext. intros m _. cbv beta.
      assert (Hs : Z.of_nat (S b) - lens.[m] = Z.succ (Z.of_nat b - lens.[m])) by lia.
      rewrite Hs.
      destruct (decide (1 <= lens.[m] < Z.of_nat b)), (decide (lens.[m] = Z.of_nat b)),
        (decide (1 <= lens.[m] < Z.of_nat (S b))); try lia.
      * rewrite Z.pow_succ_r by lia. lia.
      * replace (Z.of_nat b - lens.[m]) with 0 by lia. done.
Qed.

Lemma zseq_split_at (nsyms : nat) n :
  0 <= n < Z.of_nat nsyms ->
  zseq 0 nsyms = zseq 0 (Z.to_nat n) ++ n :: zseq (n + 1) (nsyms - Z.to_nat n - 1).
Proof.
  intros Hn. rewrite <- zseq_S.
  replace nsyms with (Z.to_nat n + S (nsyms - Z.to_nat n - 1))%nat at 1 by lia.
  by rewrite zseq_app, Z.add_0_l, Z2Nat.id by lia.
Qed.

(** The code the RFC gives a used symbol, in closed form. *)
Lemma rfc_codes_at nsyms n :
  Forall (fun m => 0 <= lens.[m] <= 16) (zseq 0 nsyms) -> 0 <= n < Z.of_nat nsyms -> lens.[n] <> 0 ->
  (rfc_codes lens nsyms).[n] =
    zsum (fun m => if decide (1 <= lens.[m] < lens.[n]) then 2 ^ (lens.[n] - lens.[m]) else 0)
      (zseq 0 nsyms) +
    zsum (fun m => if decide (lens.[m] = lens.[n] /\ m < n) then 1 else 0) (zseq 0 nsyms).
Proof.
  intros Hl Hn Hn0. pose proof (zseq_split_at nsyms n Hn) as Hsplit.
  assert (Hln := proj1 (Forall_forall _ _) Hl n ltac:(apply elem_of_zseq; lia)). cbv beta in Hln.
  unfold rfc_codes. rewrite Hsplit at 1. rewrite rfc_assign_at.
  - rewrite aget_map_zseq by lia. rewrite rfc_next_code_sum, Z2Nat.id by lia. f_equal.
    rewrite Hsplit, zsum_app, zsum_cons. cbv beta.
    rewrite (zsum_zero _ (zseq (n + 1) _)).
    2: { intros m Hm%elem_of_zseq. destruct (decide _); lia. }
    rewrite decide_False by lia. rewrite !Z.add_0_r. apply zsum_ext. intros m Hm%elem_of_zseq.
    destruct (decide (lens.[m] = lens.[n])), (decide (lens.[m] = lens.[n] /\ m < n)); lia.
  - rewrite <- Hsplit. apply NoDup_zseq.
  - rewrite <- Hsplit. apply Forall_forall. intros m Hm%elem_of_zseq. lia.
  - rewrite <- Hsplit. rewrite length_map. eapply Forall_impl; [exact Hl |]. intros m Hm.
    cbv beta in *. unfold zseq. rewrite length_map, length_seq. lia.
  - done.
  - rewrite length_replicate. lia.
Qed.

End RFC.

Section CanonicalCode.

(** The code lengths, the codeword array and the queue of used symbols
    as the builders see them after sorting: ordered by length then symbol,
    each symbol once, each length in [1, 16], and the lengths satisfying
    Kraft's inequality (scaled by [2^16]). *)
Context (lens words q : list Z).
Hypothesis Hsorted : Sorted (sym_lt lens) q.
Hypothesis Hnodup : NoDup q.
Hypothesis Hrange : Forall (fun n => 0 <= n < Z.of_nat (length words) /\ 1 <= lens.[n] <= 16) q.
Hypothesis Hkraft : kraft16 lens q <= 2 ^ 16.

Lemma sorted_sym_lt : StronglySorted (sym_lt lens) q.
Proof. apply Sorted_StronglySorted; [unfold sym_lt; intros x y z; lia | done]. Qed.

Lemma sorted_by_length : StronglySorted (fun a b => lens.[a] <= lens.[b]) q.
Proof.
  apply Sorted_StronglySorted; [intros x y z; lia |].
  eapply Sorted_weaken; [| exact Hsorted]. intros x y [H | [H _]]; lia.
Qed.

Lemma issue_codewords_from_zero :
  issue_codewords lens q 0 lens.[q.[0]] words = canon_words lens q 0 words.
Proof.
  pose proof (StronglySorted_Sorted sorted_by_length) as Hs.
  rewrite (issue_codewords_canon lens q 0 lens.[q.[0]] words Hs); [done | | done | done |].
  - eapply Forall_impl; [exact Hrange | naive_solver].
  - lia.
Qed.

(** C9. The codeword loop of the Huffman builders issues a prefix-free
    code: for two distinct used symbols, the bits [put_bits] emits for
    one (its [nCodeLength] low bits of [nCodeWord], LSB first) are never a
    prefix of the bits it emits for the other. *)
Theorem canonical_prefix_free a b :
  a ∈ q -> b ∈ q -> a <> b ->
  ~ bits_of (issue_codewords lens q 0 lens.[q.[0]] words).[a] (Z.to_nat lens.[a]) `prefix_of`
      bits_of (issue_codewords lens q 0 lens.[q.[0]] words).[b] (Z.to_nat lens.[b]).
Proof.
  intros Ha Hb Hab. rewrite issue_codewords_from_zero.
  pose proof sorted_by_length as Hs.
  destruct (list_two_positions q a b Ha Hb Hab) as [(l1 & l2 & l3 & Hq) | (l1 & l2 & l3 & Hq)];
    rewrite Hq in Hs, Hnodup, Hrange, Hkraft |- *.
  - destruct (canon_words_pair lens words l1 a l2 b l3) as (Hle & -> & -> & Hd1 & Hd2 & H1 & H2);
      [done .. |].
    rewrite Forall_forall in Hrange.
    pose proof (Hrange a ltac:(set_solver)). pose proof (Hrange b ltac:(set_solver)).
    pose proof (kraft16_nonneg lens l1).
    eapply proj1, canon_pair_not_prefix; done || lia.
  - destruct (canon_words_pair lens words l1 b l2 a l3) as (Hle & -> & -> & Hd1 & Hd2 & H1 & H2);
      [done .. |].
    rewrite Forall_forall in Hrange.
    pose proof (Hrange a ltac:(set_solver)). pose proof (Hrange b ltac:(set_solver)).
    pose proof (kraft16_nonneg lens l1).
    eapply proj2, canon_pair_not_prefix; done || lia.
Qed.

(** The code of a used symbol counts, for each symbol before it in the
    (length, symbol) order, the codes of its length that one rules out. *)
(** The word stored for a used symbol is the reversal of a code that fits
    in its length. *)
Lemma issue_codewords_rev n :
  n ∈ q ->
  exists c, 0 <= c < 2 ^ lens.[n] /\
    (issue_codewords lens q 0 lens.[q.[0]] words).[n] = rev_bits (Z.to_nat lens.[n]) c.
Proof.
  intros Hn. rewrite issue_codewords_from_zero.
  pose proof (proj1 (Forall_forall _ _) Hrange n Hn) as Hrn. cbv beta in Hrn.
  destruct (list_elem_of_split q n Hn) as (pre & post & Hq). rewrite Hq in Hnodup, Hkraft, Hrange |- *.
  rewrite canon_words_at; [| done | | lia].
  2: { eapply Forall_impl; [exact Hrange | naive_solver lia]. }
  eexists. split; [| reflexivity].
  rewrite Z.add_0_l, kraft16_app in *.
  change (kraft16 lens (n :: post)) with (2 ^ (16 - lens.[n]) + kraft16 lens post) in Hkraft.
  pose proof (kraft16_nonneg lens pre). pose proof (kraft16_nonneg lens post).
  assert (Hp : 0 < 2 ^ (16 - lens.[n])) by (apply Z.pow_pos_nonneg; lia).
  split; [apply Z.div_pos; lia | apply Z.div_lt_upper_bound; [lia |]].
  rewrite <- Z.pow_add_r by lia. replace (16 - lens.[n] + lens.[n]) with 16 by lia. lia.
Qed.

Lemma canon_code_value n :
  n ∈ q ->
  code_value (canon_words lens q 0 words).[n] lens.[n] =
    zsum (fun m => if decide (sym_lt lens m n) then 2 ^ (lens.[n] - lens.[m]) else 0) q.
Proof.
  intros Hn. pose proof sorted_sym_lt as Hs. pose proof sorted_by_length as Hsl.
  pose proof (proj1 (Forall_forall _ _) Hrange) as Hr.
  destruct (list_elem_of_split q n Hn) as (pre & post & Hq). rewrite Hq in Hs, Hsl, Hnodup, Hkraft |- *.
  pose proof (Hr n Hn) as Hrn. cbv beta in Hrn.
  apply StronglySorted_before in Hsl as Hle. rewrite Forall_forall in Hle.
  rewrite canon_words_at; [| done | | lia].
  2: { eapply Forall_impl; [rewrite <- Hq; exact Hrange | naive_solver lia]. }
  rewrite Z.add_0_l, kraft16_app in *.
  change (kraft16 lens (n :: post)) with (2 ^ (16 - lens.[n]) + kraft16 lens post) in Hkraft.
  pose proof (kraft16_nonneg lens pre). pose proof (kraft16_nonneg lens post).
  assert (Hp : 0 < 2 ^ (16 - lens.[n])) by (apply Z.pow_pos_nonneg; lia).
  assert (Hsplit : forall m, lens.[m] <= lens.[n] ->
            2 ^ (16 - lens.[m]) = 2 ^ (lens.[n] - lens.[m]) * 2 ^ (16 - lens.[n])).
  { intros m Hm. rewrite <- Z.pow_add_r by lia. f_equal. lia. }
  rewrite code_value_rev_bits; [| lia |].
  2: { split; [apply Z.div_pos; lia | apply Z.div_lt_upper_bound; [lia |]].
       rewrite <- Z.pow_add_r by lia. replace (16 - lens.[n] + lens.[n]) with 16 by lia. lia. }
  unfold kraft16. rewrite zsum_div by (done || (intros m Hm; rewrite (Hsplit m (Hle m Hm)); apply Z.divide_factor_r)).
  rewrite zsum_app, zsum_cons, (zsum_zero _ (post)).
  2: { apply StronglySorted_after in Hs. rewrite Forall_forall in Hs.
       intros m Hm. specialize (Hs m Hm). rewrite decide_False; [done |]. unfold sym_lt in *. lia. }
  rewrite decide_False by (unfold sym_lt; lia). rewrite !Z.add_0_r.
  apply StronglySorted_before in Hs. rewrite Forall_forall in Hs.
  apply zsum_ext. intros m Hm. rewrite decide_True by auto.
  rewrite (Hsplit m (Hle m Hm)), Z.div_mul by lia. done.
Qed.

(** The codewords the Huffman builders issue are the canonical code
    of RFC 1951 (section 3.2.2) for the code lengths, the code a decoder
    rebuilds from the lengths alone: when the sorted queue holds exactly
    the symbols of nonzero length, the code of each one, read most
    significant bit first, is the one the RFC's algorithm assigns. *)
Theorem canonical_codes_rfc (nsyms : nat) n :
  q ≡ₚ filter (fun m => lens.[m] <> 0) (zseq 0 nsyms) ->
  Forall (fun m => 0 <= lens.[m] <= 16) (zseq 0 nsyms) ->
  n ∈ q ->
  code_value (issue_codewords lens q 0 lens.[q.[0]] words).[n] lens.[n] = (rfc_codes lens nsyms).[n].
Proof.
  intros Hperm Hlens Hn. rewrite issue_codewords_from_zero, canon_code_value by done.
  assert (Hn' : n ∈ filter (fun m => lens.[m] <> 0) (zseq 0 nsyms)) by (by rewrite <- Hperm).
  apply list_elem_of_filter in Hn' as [Hn0 Hn'%elem_of_zseq].
  rewrite rfc_codes_at by (done || lia). rewrite Hperm, zsum_filter, <- zsum_plus.
  apply zsum_ext. intros m Hm%elem_of_zseq.
  pose proof (proj1 (Forall_forall _ _) Hlens m ltac:(apply elem_of_zseq; lia)) as Hlm.
  cbv beta in Hlm. unfold sym_lt.
  destruct (decide (lens.[m] <> 0)), (decide (lens.[m] < lens.[n] \/ _)),
    (decide (1 <= lens.[m] < lens.[n])), (decide (lens.[m] = lens.[n] /\ m < n)); try lia.
  replace (lens.[n] - lens.[m]) with 0 by lia. done.
Qed.

(** C8. Writing a symbol after the codeword loop emits the symbol's
    canonical RFC 1951 code, most significant bit first, as RFC 1951
    (section 3.1.1) packs Huffman codes: [zultra_huffman_encoder_write_codeword]
    on a used symbol returns 0 and appends to the stream the bits of
    [rfc_codes] for that symbol in reverse order. *)
Theorem write_codeword_rfc_code e (nsyms : nat) n bw :
  nCodeLength e = lens -> nCodeWord e = issue_codewords lens q 0 lens.[q.[0]] words ->
  nSymbols e = Z.of_nat nsyms ->
  q ≡ₚ filter (fun m => lens.[m] <> 0) (zseq 0 nsyms) ->
  Forall (fun m => 0 <= lens.[m] <= 16) (zseq 0 nsyms) -> n ∈ q ->
  bw_inv bw -> nOutOffset bw + (nEncBitCount bw + lens.[n]) / 8 <= nMaxOutDataOffset bw ->
  exists bw', zultra_huffman_encoder_write_codeword e n bw = (0, bw') /\ bw_inv bw' /\
    bw_stream bw' = bw_stream bw ++ reverse (bits_of (rfc_codes lens nsyms).[n] (Z.to_nat lens.[n])).
Proof.
  intros HL HW HN Hperm Hlens Hn Hinv Hroom.
  pose proof (proj1 (Forall_forall _ _) Hrange n Hn) as Hrn. cbv beta in Hrn.
  assert (Hn' : n ∈ filter (fun m => lens.[m] <> 0) (zseq 0 nsyms)) by (by rewrite <- Hperm).
  apply list_elem_of_filter in Hn' as [_ Hn'%elem_of_zseq].
  rewrite <- (canonical_codes_rfc nsyms n Hperm Hlens Hn).
  destruct (issue_codewords_rev n Hn) as (c & Hc & Hw).
  unfold zultra_huffman_encoder_write_codeword.
  rewrite HN, HL, HW, (proj2 (Z.leb_le _ _)), (proj2 (Z.ltb_lt _ _)) by lia. rewrite Hw.
  destruct (put_bits_ok bw (rev_bits (Z.to_nat lens.[n]) c) lens.[n]) as (bw' & Hrun & Hinv' & Hs & _);
    [done | lia | | done |].
  { pose proof (bits_to_Z_bound (reverse (bits_of c (Z.to_nat lens.[n])))) as Hb.
    rewrite length_reverse, length_bits_of, Z2Nat.id in Hb by lia. exact Hb. }
  exists bw'. split; [done |]. split; [done |].
  by rewrite Hs, bits_of_rev_bits, code_value_rev_bits by lia.
Qed.

End CanonicalCode.

(** A duplicate-free list whose members all equal [s] has at most one. *)
Lemma NoDup_all_eq_length (l : list Z) s : NoDup l -> (forall x, x ∈ l -> x = s) -> (length l <= 1)%nat.
Proof.
  intros Hnd Hall. destruct l as [|x [|y l]]; cbn; try lia.
  apply NoDup_cons in Hnd as [Hx _]. exfalso. apply Hx.
  rewrite (Hall x), (Hall y) by set_solver. set_solver.
Qed.

(** C35. When at most one symbol has a nonzero frequency,
    [zultra_huffman_encoder_estimate_dynamic_codelens] (lines 264-268)
    clears every code length and gives the one-bit code to symbol 0,
    whichever symbol is the used one: a used symbol [s > 0] gets code
    length 0 (no codeword at all), and the unused symbol 0 gets length 1.
    Nothing else of the encoder changes. *)
Theorem estimate_single_symbol e s :
  0 <= nSymbols e <= MAX_SYMBOLS -> 0 < s < nSymbols e ->
  (forall i, 0 <= i < nSymbols e -> i <> s -> (nEntropy e).[i] = 0) ->
  exists e', zultra_huffman_encoder_estimate_dynamic_codelens e = (0, e') /\
    (nCodeLength e').[s] = 0 /\ (nCodeLength e').[0] = 1 /\
    (forall i, 0 < i -> (nCodeLength e').[i] = 0) /\
    nSymbols e' = nSymbols e /\ nEntropy e' = nEntropy e /\ nCodeWord e' = nCodeWord e.
Proof.
  intros Hn Hs Honly. unfold zultra_huffman_encoder_estimate_dynamic_codelens.
  rewrite (proj2 (Z.ltb_ge (nSymbols e) 0)), (proj2 (Z.ltb_ge MAX_SYMBOLS (nSymbols e))) by lia.
  assert (Hq : (length (nonzero_symbols (nEntropy e) (nSymbols e)) <= 1)%nat).
  { apply (NoDup_all_eq_length _ s).
    - unfold nonzero_symbols. apply NoDup_ListNoDup, List.NoDup_filter, NoDup_ListNoDup, NoDup_zseq.
    - intros x Hx. unfold nonzero_symbols in Hx. apply list_elem_of_In, filter_In in Hx as [Hx Hnz].
      apply list_elem_of_In, elem_of_zseq in Hx. destruct (decide (x = s)) as [|Hne]; [done|].
      rewrite Honly in Hnz by lia. done. }
  rewrite (proj2 (Z.ltb_ge 1 _)) by lia. cbn [orb].
  eexists. split; [reflexivity|]. cbn [nCodeLength set_codelengths nSymbols nEntropy nCodeWord].
  assert (Hall : forall i, 0 <= i -> ((replicate (Z.to_nat MAX_SYMBOLS) 0).[0 := 1]).[i] =
                   if decide (i = 0) then 1 else (if decide (i < MAX_SYMBOLS) then 0 else 0)).
  { intros i Hi. destruct (decide (i = 0)) as [->|Hne].
    - apply aget_aset_eq. rewrite length_replicate. unfold MAX_SYMBOLS. lia.
    - rewrite aget_aset_ne by lia. destruct (decide (i < MAX_SYMBOLS)).
      + apply aget_replicate. unfold MAX_SYMBOLS in *. lia.
      + apply aget_out. rewrite length_replicate. lia. }
  split_and!; try done; try intros i Hi; rewrite Hall by lia; repeat case_decide; lia.
Qed.

(** The case the finding describes: 30 symbols, only symbol 5 used. *)
Lemma estimate_single_symbol_witness :
  exists e', zultra_huffman_encoder_estimate_dynamic_codelens
      (mk_encoder 30 15 (replicate 5 0 ++ [7] ++ replicate 282 0) (replicate 288 0) (replicate 288 0))
      = (0, e') /\ (nCodeLength e').[5] = 0 /\ (nCodeLength e').[0] = 1 /\
    (forall i, 0 < i -> (nCodeLength e').[i] = 0) /\
    nSymbols e' = 30 /\ nEntropy e' = replicate 5 0 ++ [7] ++ replicate 282 0 /\
    nCodeWord e' = replicate 288 0.
Proof.
  apply (estimate_single_symbol (mk_encoder 30 15 (replicate 5 0 ++ [7] ++ replicate 282 0)
    (replicate 288 0) (replicate 288 0)) 5); cbn [nSymbols]; [unfold MAX_SYMBOLS; lia|lia|].
  intros i Hi Hne. cbn [nEntropy] in *.
  refine (forallZ_prop (fun i => i <> 5 -> (replicate 5 0 ++ [7] ++ replicate 282 0).[i] = 0) 0 30 _ i _ Hne);
    [vm_compute; reflexivity | lia].
Defined.


(** ** Witnesses, on the example of RFC 1951, section 3.2.2: the code
    lengths (3, 3, 3, 3, 3, 2, 4, 4) of the symbols A to H. *)

Lemma write_codeword_rfc_code_witness :
  exists bw', zultra_huffman_encoder_write_codeword
      (mk_encoder 8 15 [] (issue_codewords [3;3;3;3;3;2;4;4] [5;0;1;2;3;4;6;7] 0 2 (replicate 8 0))
         [3;3;3;3;3;2;4;4]) 6 (bitwriter_init (replicate 4 0) 0 4) = (0, bw') /\ bw_inv bw' /\
    bw_stream bw' = bw_stream (bitwriter_init (replicate 4 0) 0 4) ++
      reverse (bits_of (rfc_codes [3;3;3;3;3;2;4;4] 8).[6] (Z.to_nat [3;3;3;3;3;2;4;4].[6])).
Proof.
  apply (write_codeword_rfc_code [3;3;3;3;3;2;4;4] (replicate 8 0) [5;0;1;2;3;4;6;7]);
    try decide_by_eval; reflexivity.
Defined.

Lemma canonical_prefix_free_witness :
  ~ bits_of (issue_codewords [3;3;3;3;3;2;4;4] [5;0;1;2;3;4;6;7] 0 2 (replicate 8 0)).[5] 2
      `prefix_of` bits_of (issue_codewords [3;3;3;3;3;2;4;4] [5;0;1;2;3;4;6;7] 0 2 (replicate 8 0)).[0] 3.
Proof.
  apply (canonical_prefix_free [3;3;3;3;3;2;4;4] (replicate 8 0) [5;0;1;2;3;4;6;7] ltac:(decide_by_eval)
    ltac:(decide_by_eval) ltac:(decide_by_eval) ltac:(decide_by_eval) 5 0); decide_by_eval.
Defined.

End Huffman.
