(* ===== verification/HuffmanBuild.v ===== *)
(** * The dynamic Huffman code builder ([src/huffman/huffencoder.c], lines 279-375)

    What [zultra_huffman_encoder_build_dynamic_codewords] guarantees about
    the code it builds, proved on the definitions of [Huffman]:
    - the length limiter (lines 303-345: cap, propagate the excess
      backward, shorten again; [Huffman.limit_lengths]) turns any lengths
      of at least 1 bit into a complete code: every length in
      [1, nMaxCodeLength] and the Kraft sum exactly [2^nMaxCodeLength];
      its last loop completes the code by the last symbol, before the
      bound [i <= nNumSorted] would let it read past the sorted symbols;
    - the index quicksort [zultra_huffman_encoder_qsort] (lines 34-61),
      which both builders run before issuing codewords, equals the
      reference [merge_sort] under its comparator [sym_le] (by value,
      then by symbol).  Section [Sort] proves the partition loop and the
      recursion: each returns a permutation of its input, changes only
      its range, draws the range's new entries from the range, and leaves
      the range sorted; two sorted permutations under a total order are
      equal.

    The Kraft sum is scaled by [maxk = 1 << nMaxCodeLength], as the C code
    keeps it: [kraft maxl l q] is the sum over the symbols [q] of
    [2^(maxl - l[s])]. *)

From S2P Require Import Prelude BitWriter Huffman.
Import BitWriter Huffman.

Local Open Scope zultra_scope.

Module HuffmanBuild.

(** The Kraft sum of the lengths [l] of the symbols [q], scaled by [2^maxl]. *)
Definition kraft (maxl : Z) (l q : list Z) : Z := zsum (fun s => 2 ^ (maxl - l.[s])) q.

(** The symbols of [q] are valid indices of [l], each with a length of at
    least 1 and at most [hi]. *)
Definition lengths_in (l q : list Z) (lo hi : Z) : Prop :=
  forall s, s ∈ q -> 0 <= s < Z.of_nat (length l) /\ lo <= l.[s] <= hi.

(** The limiter as meant, with its last loop bounded by [i < nNumSorted]
    (the C code has [i <= nNumSorted]). *)
Definition limit_lengths_in_bounds (queue lens : list Z) (n maxl : Z) : list Z :=
  let maxk := Z.shiftl 1 maxl in
  let '(l1, k1) := limit_cap (reverse queue) lens maxl maxk 0 in
  let '(l2, k2) := limit_propagate (reverse queue) l1 maxl maxk k1 in
  fst (limit_reduce (S (S (Z.to_nat n))) queue 0 (n - 1) maxl l2 maxk k2).

(** The order [zultra_huffman_encoder_qsort] sorts by, reflexive: by
    [value], then by symbol. *)
Definition sym_le (value : list Z) (a b : Z) : Prop :=
  value.[a] < value.[b] \/ (value.[a] = value.[b] /\ a <= b).

#[export] Instance sym_le_dec value : RelDecision (sym_le value).
Proof. intros a b. unfold sym_le. apply _. Defined.

(** [l'] is [l] outside the positions [lo .. hi]. *)
Definition same_outside (lo hi : Z) (l l' : list Z) : Prop :=
  length l' = length l /\ forall k, 0 <= k -> k < lo \/ hi < k -> l'.[k] = l.[k].

(** Every entry of [l'] at a position in [lo .. hi] is an entry of [l]
    in that range. *)
Definition seg_from (lo hi : Z) (l l' : list Z) : Prop :=
  forall k, lo <= k <= hi -> exists k', lo <= k' <= hi /\ l'.[k] = l.[k'].

(** ** Kraft sums *)

(** One write into an array: the written slot and the others. *)
Lemma aset_at_other l n v j : 0 <= n < Z.of_nat (length l) -> 0 <= j ->
  (l.[n := v]).[j] = if decide (j = n) then v else l.[j].
Proof. intros Hn Hj. case_decide; subst; [by apply aget_aset_eq | apply aget_aset_ne; lia]. Qed.


Lemma shiftr_pow2 maxl len : 0 <= len <= maxl -> Z.shiftr (2 ^ maxl) len = 2 ^ (maxl - len).
Proof. intros Hl. rewrite Z.shiftr_div_pow2, Z.pow_sub_r by lia. done. Qed.

Lemma kraft_aset_in maxl l q s v :
  NoDup q -> s ∈ q -> (forall x, x ∈ q -> 0 <= x) -> 0 <= s < Z.of_nat (length l) ->
  kraft maxl (l.[s := v]) q = kraft maxl l q - 2 ^ (maxl - l.[s]) + 2 ^ (maxl - v).
Proof.
  intros Hnd Hs Hpos Hr. apply list_elem_of_split in Hs as (q1 & q2 & ->).
  apply NoDup_app in Hnd as (_ & Hdis & Hnd2). apply NoDup_cons in Hnd2 as [Hn2 _].
  assert (Hq : forall r, (forall x, x ∈ r -> x ∈ q1 ++ s :: q2 /\ x <> s) ->
    zsum (fun x => 2 ^ (maxl - (l.[s := v]).[x])) r = zsum (fun x => 2 ^ (maxl - l.[x])) r).
  { intros r Hr2. apply zsum_ext. intros x Hx. destruct (Hr2 x Hx) as [Hx' Hne].
    rewrite aget_aset_ne; [done|lia|by apply Hpos|done]. }
  unfold kraft. rewrite !zsum_app, !zsum_cons, aget_aset_eq by done.
  rewrite !Hq; [lia| |]; intros x Hx; (split; [set_solver|]); intros ->; [done|].
  by apply (Hdis s Hx); left.
Qed.

Lemma kraft_aset_out maxl l q s v :
  s ∉ q -> 0 <= s -> (forall x, x ∈ q -> 0 <= x) -> kraft maxl (l.[s := v]) q = kraft maxl l q.
Proof.
  intros Hs Hs0 Hpos. apply zsum_ext. intros x Hx. rewrite aget_aset_ne; [done|done|by apply Hpos|].
  intros ->. done.
Qed.

Lemma kraft_lower maxl l q s :
  s ∈ q -> lengths_in l q 1 maxl -> 2 ^ (maxl - l.[s]) + (Z.of_nat (length q) - 1) <= kraft maxl l q.
Proof.
  intros Hs Hin. apply list_elem_of_split in Hs as (q1 & q2 & ->). unfold kraft.
  rewrite zsum_app, zsum_cons, length_app. cbn [length].
  assert (H : forall r, (forall x, x ∈ r -> x ∈ q1 ++ s :: q2) -> Z.of_nat (length r) <= zsum (fun x => 2 ^ (maxl - l.[x])) r).
  { induction r as [|x r IH]; intros Hr; [done|]. rewrite zsum_cons. cbn [length].
    destruct (Hin x (Hr x ltac:(set_solver))) as [_ Hx].
    pose proof (Z.pow_pos_nonneg 2 (maxl - l.[x]) ltac:(lia) ltac:(lia)).
    specialize (IH ltac:(set_solver)). lia. }
  pose proof (H q1 ltac:(set_solver)). pose proof (H q2 ltac:(set_solver)). lia.
Qed.

Lemma kraft_all_max maxl l q : lengths_in l q maxl maxl -> kraft maxl l q = Z.of_nat (length q).
Proof.
  intros Hin. unfold kraft. rewrite (zsum_ext _ (fun _ => 1)).
  - clear Hin. induction q as [|x q IH]; [done|]. rewrite zsum_cons, IH. cbn [length]. lia.
  - intros x Hx. destruct (Hin x Hx) as [_ Hl]. replace (maxl - l.[x]) with 0 by lia. done.
Qed.

(** ** The three loops of the limiter *)

Section Limiter.
Context (maxl : Z).
Hypothesis Hmaxl : 1 <= maxl.

Let maxk := Z.shiftl 1 maxl.

Lemma maxk_pow : maxk = 2 ^ maxl.
Proof. unfold maxk. apply Z.shiftl_1_l. Qed.

(** The capping loop sets every length above [maxl] to [maxl] and adds
    up the capped sum. *)
Lemma limit_cap_spec rq l k :
  NoDup rq -> (forall s, s ∈ rq -> 0 <= s < Z.of_nat (length l) /\ 1 <= l.[s]) ->
  let '(l', k') := limit_cap rq l maxl maxk k in
  length l' = length l /\
  (forall j, 0 <= j -> l'.[j] = if decide (j ∈ rq) then Z.min l.[j] maxl else l.[j]) /\
  k' = k + zsum (fun s => 2 ^ (maxl - Z.min l.[s] maxl)) rq.
Proof.
  revert l k. induction rq as [|n rest IH]; intros l k Hnd Hr.
  { cbn. split_and!; [done| |lia]. intros j _. by rewrite decide_False by set_solver. }
  apply NoDup_cons in Hnd as [Hn Hnd]. destruct (Hr n ltac:(set_solver)) as [Hnr Hn1].
  cbn [limit_cap].
  set (l1 := if maxl <? l.[n] then l.[n := maxl] else l).
  assert (Hlen1 : length l1 = length l) by (unfold l1; case_match; rewrite ?length_aset; done).
  assert (Hl1 : forall j, 0 <= j -> l1.[j] = if decide (j = n) then Z.min l.[n] maxl else l.[j]).
  { intros j Hj. unfold l1. destruct (Z.ltb_spec maxl l.[n]).
    - rewrite aset_at_other by lia. case_decide; [lia|done].
    - case_decide; subst; lia. }
  specialize (IH l1 (k + Z.shiftr maxk l1.[n]) Hnd).
  destruct (limit_cap rest l1 maxl maxk _) as [l' k'].
  destruct IH as (Hlen & Hj & Hk).
  { intros s Hs. rewrite Hlen1, Hl1 by (apply Hr; set_solver). rewrite decide_False by set_solver.
    apply Hr. set_solver. }
  split_and!.
  - congruence.
  - intros j Hj0. rewrite Hj by done. destruct (decide (j = n)) as [->|Hne].
    + rewrite decide_False, decide_True, Hl1, decide_True by (done || set_solver). done.
    + rewrite !Hl1 by done. repeat case_decide; subst; try done; set_solver.
  - rewrite Hk, zsum_cons, Hl1, decide_True, maxk_pow, shiftr_pow2 by (done || lia).
    rewrite (zsum_ext _ (fun s => 2 ^ (maxl - Z.min l.[s] maxl)) rest); [lia|].
    intros x Hx. rewrite Hl1, decide_False by (set_solver || (apply Hr; set_solver)). done.
Qed.

(** [l'] is [l] but at the symbols of [r]. *)
Definition agree_outside (r l l' : list Z) : Prop :=
  length l' = length l /\ forall j, 0 <= j -> j ∉ r -> l'.[j] = l.[j].

Lemma agree_outside_refl r l : agree_outside r l l.
Proof. done. Qed.

Lemma agree_outside_trans r1 r2 r l1 l2 l3 :
  (forall x, x ∈ r1 -> x ∈ r) -> (forall x, x ∈ r2 -> x ∈ r) ->
  agree_outside r1 l1 l2 -> agree_outside r2 l2 l3 -> agree_outside r l1 l3.
Proof.
  intros H1 H2 [Hl12 Ha] [Hl23 Hb]. split; [congruence|]. intros j Hj Hjr.
  rewrite Hb, Ha by (done || set_solver). done.
Qed.

Lemma pow2_pred e : 0 < e -> 2 ^ e = 2 * 2 ^ (e - 1).
Proof. intros He. rewrite <- Z.pow_succ_r by lia. f_equal. lia. Qed.

Section Queue.
Context (q : list Z).
Hypothesis Hnodup : NoDup q.
Hypothesis Hpos : forall x, x ∈ q -> 0 <= x.

(** One write inside the range keeps the lengths in range and moves the
    Kraft sum by the change of that symbol's term. *)
Lemma set_length l n v k :
  n ∈ q -> lengths_in l q 1 maxl -> k = kraft maxl l q -> 1 <= v <= maxl ->
  lengths_in (l.[n := v]) q 1 maxl /\
  kraft maxl (l.[n := v]) q = k - 2 ^ (maxl - l.[n]) + 2 ^ (maxl - v) /\
  agree_outside [n] l (l.[n := v]) /\ (l.[n := v]).[n] = v.
Proof.
  intros Hn Hin Hk Hv. destruct (Hin n Hn) as [Hnr _].
  split_and!.
  - intros s Hs. rewrite length_aset, aset_at_other by (done || by apply Hpos).
    destruct (Hin s Hs). case_decide; [subst; lia | done].
  - subst k. by apply kraft_aset_in.
  - split; [apply length_aset|]. intros j Hj Hjn. rewrite aset_at_other by done.
    rewrite decide_False by set_solver. done.
  - by apply aget_aset_eq.
Qed.

(** [while (len < max && k > maxk) { len++; k -= maxk >> len; }] *)
Lemma limit_lengthen_spec fuel n l k :
  n ∈ q -> lengths_in l q 1 maxl -> k = kraft maxl l q -> (Z.to_nat (maxl - l.[n]) < fuel)%nat ->
  let '(l', k') := limit_lengthen fuel n l maxl maxk k in
  lengths_in l' q 1 maxl /\ k' = kraft maxl l' q /\ agree_outside [n] l l' /\
  (l'.[n] = maxl \/ k' <= maxk).
Proof.
  revert l k. induction fuel as [|fuel IH]; intros l k Hn Hin Hk Hf; [lia|].
  destruct (Hin n Hn) as [Hnr Hln]. cbn [limit_lengthen].
  destruct (Z.ltb_spec l.[n] maxl), (Z.ltb_spec maxk k); cbn [andb].
  - destruct (set_length l n (l.[n] + 1) k Hn Hin Hk ltac:(lia)) as (Hin1 & Hk1 & Ha1 & Hv1).
    specialize (IH (l.[n := l.[n] + 1]) (k - Z.shiftr maxk (l.[n] + 1)) Hn Hin1).
    destruct (limit_lengthen fuel n _ maxl maxk _) as [l' k'].
    destruct IH as (Hin' & Hk' & Ha' & Hend).
    + rewrite Hk1, maxk_pow, shiftr_pow2, (pow2_pred (maxl - l.[n])) by lia.
      replace (maxl - l.[n] - 1) with (maxl - (l.[n] + 1)) by lia. lia.
    + rewrite Hv1. lia.
    + split_and!; try done. eapply agree_outside_trans; [| |exact Ha1|exact Ha']; done.
  - split_and!; try done. right. lia.
  - split_and!; try done. left. lia.
  - split_and!; try done. left. lia.
Qed.

(** [limit_propagate] stops at once when the sum fits. *)
Lemma limit_propagate_fits rq l k :
  k <= maxk -> limit_propagate rq l maxl maxk k = (l, k).
Proof. intros Hk. destruct rq; cbn; [done|]. by rewrite (proj2 (Z.ltb_ge maxk k)) by lia. Qed.

(** The backward loop ends with the sum within [maxk], or with every
    symbol it visited at the maximum length. *)
Lemma limit_propagate_spec rq l k :
  NoDup rq -> (forall x, x ∈ rq -> x ∈ q) -> lengths_in l q 1 maxl -> k = kraft maxl l q ->
  let '(l', k') := limit_propagate rq l maxl maxk k in
  lengths_in l' q 1 maxl /\ k' = kraft maxl l' q /\ agree_outside rq l l' /\
  (k' <= maxk \/ forall s, s ∈ rq -> l'.[s] = maxl).
Proof.
  revert l k. induction rq as [|n rest IH]; intros l k Hnd Hsub Hin Hk.
  { cbn. split_and!; try done. right. set_solver. }
  apply NoDup_cons in Hnd as [Hn Hnd]. cbn [limit_propagate].
  destruct (Z.ltb_spec maxk k); [|split_and!; try done; left; lia].
  pose proof (limit_lengthen_spec (S (Z.to_nat maxl)) n l k ltac:(set_solver) Hin Hk) as Hl.
  destruct (limit_lengthen _ n l maxl maxk k) as [l1 k1].
  destruct Hl as (Hin1 & Hk1 & Ha1 & Hend1); [destruct (Hin n ltac:(set_solver)); lia|].
  destruct Hend1 as [Hmax|Hfit].
  - specialize (IH l1 k1 Hnd ltac:(set_solver) Hin1 Hk1).
    destruct (limit_propagate rest l1 maxl maxk k1) as [l' k'].
    destruct IH as (Hin' & Hk' & Ha' & Hend). split_and!; try done.
    + eapply agree_outside_trans; [| |exact Ha1|exact Ha']; set_solver.
    + destruct Hend as [?|Hall]; [by left|right]. intros s Hs. apply elem_of_cons in Hs as [->|Hs].
      * destruct Ha' as [_ Ha']. rewrite Ha'; [done| |done]. by apply Hpos, Hsub; left.
      * by apply Hall.
  - rewrite limit_propagate_fits by done. split_and!; try done; [|by left].
    eapply agree_outside_trans; [| |exact Ha1|apply agree_outside_refl]; set_solver.
Qed.

(** [while ((k + (maxk >> len)) <= maxk) { k += maxk >> len; len--; }]:
    with at least two symbols the length never reaches 0, and the loop
    ends when shortening once more would overfill the code. *)
Lemma limit_shorten_spec fuel n l k :
  n ∈ q -> (2 <= length q)%nat -> lengths_in l q 1 maxl -> k = kraft maxl l q -> k <= maxk ->
  (Z.to_nat l.[n] < fuel)%nat ->
  let '(l', k') := limit_shorten fuel n l maxk k in
  lengths_in l' q 1 maxl /\ k' = kraft maxl l' q /\ k <= k' <= maxk /\ agree_outside [n] l l' /\
  maxk < k' + 2 ^ (maxl - l'.[n]).
Proof.
  revert l k. induction fuel as [|fuel IH]; intros l k Hn H2 Hin Hk Hfit Hf; [lia|].
  destruct (Hin n Hn) as [Hnr Hln]. cbn [limit_shorten].
  pose proof (kraft_lower maxl l q n Hn Hin) as Hlow.
  rewrite maxk_pow, shiftr_pow2 by lia. rewrite maxk_pow in Hfit.
  destruct (Z.leb_spec (k + 2 ^ (maxl - l.[n])) (2 ^ maxl)) as [Hroom|Hfull].
  - assert (Hl2 : 2 <= l.[n]).
    { destruct (Z.eq_dec l.[n] 1) as [E|]; [|lia]. rewrite E in Hroom, Hlow.
      rewrite (pow2_pred maxl) in Hroom by lia. lia. }
    destruct (set_length l n (l.[n] - 1) k Hn Hin Hk ltac:(lia)) as (Hin1 & Hk1 & Ha1 & Hv1).
    specialize (IH (l.[n := l.[n] - 1]) (k + 2 ^ (maxl - l.[n])) Hn H2 Hin1).
    rewrite maxk_pow in IH.
    destruct (limit_shorten fuel n _ (2 ^ maxl) _) as [l' k'].
    destruct IH as (Hin' & Hk' & Hmono & Ha' & Hend).
    + rewrite Hk1, (pow2_pred (maxl - (l.[n] - 1))) by lia.
      replace (maxl - (l.[n] - 1) - 1) with (maxl - l.[n]) by lia. lia.
    + done.
    + rewrite Hv1. lia.
    + split_and!; try done; try lia.
      eapply agree_outside_trans; [| |exact Ha1|exact Ha']; done.
  - split_and!; try done; lia.
Qed.

(** The sum of multiples of [d] is a multiple of [d]. *)
Lemma zsum_divide {A} d (f : A -> Z) l : (forall x, x ∈ l -> (d | f x)) -> (d | zsum f l).
Proof.
  induction l as [|x l IH]; intros H; [apply Z.divide_0_r|]. rewrite zsum_cons.
  apply Z.divide_add_r; [apply H; set_solver | apply IH; set_solver].
Qed.

Lemma exists_longest l r : r <> [] -> exists s0, s0 ∈ r /\ forall s, s ∈ r -> l.[s] <= l.[s0].
Proof.
  induction r as [|x r IH]; intros Hne; [done|]. destruct r as [|y r'].
  { exists x. split; [set_solver|]. intros s Hs. apply list_elem_of_singleton in Hs as ->. lia. }
  destruct (IH ltac:(done)) as (s0 & Hs0 & Hmax).
  destruct (Z.le_gt_cases l.[x] l.[s0]).
  - exists s0. split; [set_solver|]. intros s Hs. apply elem_of_cons in Hs as [->|Hs]; [lia|auto].
  - exists x. split; [set_solver|]. intros s Hs. apply elem_of_cons in Hs as [->|Hs]; [lia|].
    specialize (Hmax s Hs). lia.
Qed.

(** A gap [D] in the Kraft sum smaller than every term is no gap: the
    smallest term divides the sum and [2^maxl], hence [D]. *)
Lemma kraft_gap_zero l D :
  q <> [] -> lengths_in l q 1 maxl -> kraft maxl l q + D = 2 ^ maxl -> 0 <= D ->
  (forall s, s ∈ q -> D < 2 ^ (maxl - l.[s])) -> D = 0.
Proof.
  intros Hne Hin Hsum HD Hlt. destruct (exists_longest l q Hne) as (s0 & Hs0 & Hmax).
  destruct (Hin s0 Hs0) as [_ Hl0].
  set (t := 2 ^ (maxl - l.[s0])).
  assert (Hdiv : forall e, maxl - l.[s0] <= e -> (t | 2 ^ e)).
  { intros e He. exists (2 ^ (e - (maxl - l.[s0]))). unfold t. rewrite <- Z.pow_add_r by lia. f_equal. lia. }
  assert (HtD : (t | D)).
  { replace D with (2 ^ maxl - kraft maxl l q) by lia. apply Z.divide_sub_r; [apply Hdiv; lia|].
    apply zsum_divide. intros x Hx. apply Hdiv. specialize (Hmax x Hx). lia. }
  destruct HtD as [c Hc]. specialize (Hlt s0 Hs0). fold t in Hlt.
  assert (0 < t) by (unfold t; apply Z.pow_pos_nonneg; lia).
  clearbody t. subst D. assert (c = 0) by nia. lia.
Qed.

(** The symbols before position [i] of the queue are not the one at [i]. *)
Lemma take_not_at i s x : q !! i = Some s -> x ∈ take i q -> x <> s.
Proof.
  intros Hs Hx ->. apply list_elem_of_lookup in Hx as [j Hj].
  pose proof (lookup_lt_Some _ _ _ Hj) as Hlt. rewrite length_take in Hlt.
  rewrite lookup_take_lt in Hj by lia. pose proof (NoDup_lookup q i j s Hnodup Hs Hj). lia.
Qed.

(** [for (i = 0; k < maxk && i <= nNumSorted; i++)]: each symbol visited
    is shortened until one more step would overfill the code; once every
    symbol has been visited no gap is left, so the loop stops with the
    code complete after the last symbol and never runs its extra
    iteration: it gives the same result with the bound [i < nNumSorted]. *)
Lemma limit_reduce_spec fuel i l k :
  (2 <= length q)%nat -> lengths_in l q 1 maxl -> k = kraft maxl l q -> k <= maxk ->
  0 <= i <= Z.of_nat (length q) ->
  (forall s, s ∈ take (Z.to_nat i) q -> maxk - k < 2 ^ (maxl - l.[s])) ->
  (Z.to_nat (Z.of_nat (length q) - i) < fuel)%nat ->
  let '(l', k') := limit_reduce fuel q i (Z.of_nat (length q)) maxl l maxk k in
  limit_reduce fuel q i (Z.of_nat (length q) - 1) maxl l maxk k = (l', k') /\
  lengths_in l' q 1 maxl /\ kraft maxl l' q = maxk /\ agree_outside q l l'.
Proof.
  revert i l k. induction fuel as [|fuel IH]; intros i l k H2 Hin Hk Hfit Hi Hdone Hf; [lia|].
  cbn [limit_reduce]. destruct (Z.ltb_spec k maxk) as [Hlt|Hge]; cbn [andb].
  2: { rewrite Hk in Hge |- *. split_and!; [done|done|lia|apply agree_outside_refl]. }
  assert (Hin_n : i < Z.of_nat (length q)).
  { destruct (Z.eq_dec i (Z.of_nat (length q))) as [E|]; [exfalso|lia].
    rewrite E, Nat2Z.id, take_ge in Hdone by lia.
    assert (maxk - k = 0); [|lia]. rewrite maxk_pow in Hlt, Hdone |- *.
    apply (kraft_gap_zero l); [intros E0; rewrite E0 in H2; cbn in H2; lia | done | lia | lia | done]. }
  rewrite (proj2 (Z.leb_le i (Z.of_nat (length q)))), (proj2 (Z.leb_le i (Z.of_nat (length q) - 1))) by lia.
  cbn [andb].
  destruct (lookup_lt_is_Some_2 q (Z.to_nat i) ltac:(lia)) as [s Hs].
  assert (Hsq : s ∈ q) by (eapply list_elem_of_lookup_2; eauto).
  assert (Hqi : q.[i] = s) by (unfold aget; by rewrite Hs).
  rewrite Hqi. destruct (Hin s Hsq) as [_ Hls].
  pose proof (limit_shorten_spec (S (Z.to_nat maxl)) s l k Hsq H2 Hin Hk Hfit ltac:(lia)) as Hsh.
  destruct (limit_shorten _ s l maxk k) as [l1 k1].
  destruct Hsh as (Hin1 & Hk1 & Hmono & Ha1 & Hend1).
  assert (Hdone1 : forall x, x ∈ take (Z.to_nat (i + 1)) q -> maxk - k1 < 2 ^ (maxl - l1.[x])).
  { intros x Hx. replace (Z.to_nat (i + 1)) with (S (Z.to_nat i)) in Hx by lia.
    rewrite (take_S_r _ _ s Hs) in Hx. apply elem_of_app in Hx as [Hx|Hx].
    - pose proof (take_not_at _ _ _ Hs Hx) as Hne. destruct Ha1 as [_ Ha1].
      assert (Hx0 : 0 <= x).
      { apply Hpos. rewrite <- (take_drop (Z.to_nat i) q). apply elem_of_app. by left. }
      rewrite Ha1; [|done|by apply not_elem_of_cons; split; [|apply not_elem_of_nil]].
      specialize (Hdone x Hx). lia.
    - apply list_elem_of_singleton in Hx as ->. lia. }
  specialize (IH (i + 1) l1 k1 H2 Hin1 Hk1 ltac:(lia) ltac:(lia) Hdone1 ltac:(lia)).
  destruct (limit_reduce fuel q (i + 1) (Z.of_nat (length q)) maxl l1 maxk k1) as [l' k'].
  destruct IH as (Heq & Hin' & Hk' & Ha').
  split_and!; try done. eapply agree_outside_trans; [| |exact Ha1|exact Ha']; [|done].
  intros x Hx. apply list_elem_of_singleton in Hx as ->. done.
Qed.

(** The three loops in order. *)
Lemma limit_lengths_spec lens :
  (2 <= length q)%nat -> Z.of_nat (length q) <= 2 ^ maxl ->
  (forall s, s ∈ q -> 0 <= s < Z.of_nat (length lens) /\ 1 <= lens.[s]) ->
  let l := limit_lengths q lens (Z.of_nat (length q)) maxl in
  lengths_in l q 1 maxl /\ kraft maxl l q = 2 ^ maxl /\ agree_outside q lens l /\
  l = limit_lengths_in_bounds q lens (Z.of_nat (length q)) maxl.
Proof.
  intros H2 Hcount Hr. unfold limit_lengths, limit_lengths_in_bounds. fold maxk.
  assert (Hrev : forall x, x ∈ reverse q <-> x ∈ q) by (intros; apply elem_of_reverse).
  pose proof (limit_cap_spec (reverse q) lens 0 ltac:(by rewrite reverse_Permutation)
    ltac:(intros x Hx; apply Hr, Hrev, Hx)) as Hc.
  destruct (limit_cap (reverse q) lens maxl maxk 0) as [l1 k1].
  destruct Hc as (Hlen1 & Hl1 & Hk1).
  assert (Hin1 : lengths_in l1 q 1 maxl).
  { intros x Hx. destruct (Hr x Hx). rewrite Hlen1, Hl1, decide_True by (lia || by apply Hrev). lia. }
  assert (Hkr1 : k1 = kraft maxl l1 q).
  { rewrite Hk1, (zsum_perm _ _ _ (reverse_Permutation q)). unfold kraft.
    apply zsum_ext. intros x Hx. rewrite Hl1, decide_True by ((destruct (Hr x Hx); lia) || by apply Hrev). done. }
  assert (Ha1 : agree_outside (reverse q) lens l1).
  { split; [done|]. intros j Hj Hjq. rewrite Hl1, decide_False by done. done. }
  pose proof (limit_propagate_spec (reverse q) l1 k1 ltac:(by rewrite reverse_Permutation)
    ltac:(intros x; apply Hrev) Hin1 Hkr1) as Hp.
  destruct (limit_propagate (reverse q) l1 maxl maxk k1) as [l2 k2].
  destruct Hp as (Hin2 & Hk2 & Ha2 & Hend).
  assert (Hfit : k2 <= maxk).
  { destruct Hend as [?|Hall]; [done|]. rewrite Hk2, kraft_all_max, maxk_pow; [lia|].
    intros x Hx. split; [apply Hin2, Hx|]. rewrite Hall by (by apply Hrev). lia. }
  pose proof (limit_reduce_spec (S (S (Z.to_nat (Z.of_nat (length q))))) 0 l2 k2 H2 Hin2 Hk2 Hfit
    ltac:(lia) ltac:(intros x Hx; change (Z.to_nat 0) with 0%nat in Hx; rewrite take_0 in Hx; set_solver) ltac:(lia)) as Hred.
  destruct (limit_reduce _ q 0 (Z.of_nat (length q)) maxl l2 maxk k2) as [l3 k3].
  destruct Hred as (Heq & Hin3 & Hk3 & Ha3).
  rewrite Heq. cbn [fst]. split_and!; [done|by rewrite <- maxk_pow| |done].
  eapply agree_outside_trans; [| |eapply agree_outside_trans; [| |exact Ha1|exact Ha2]|exact Ha3];
    intros x; rewrite ?Hrev; done.
Qed.

End Queue.

End Limiter.

(** C10. The length limiter of [zultra_huffman_encoder_build_dynamic_codewords]
    (lines 303-345), given distinct symbols with lengths of at least 1 bit
    and no more symbols than [2^nMaxCodeLength], returns lengths in
    [1, nMaxCodeLength] whose Kraft sum is exactly [2^nMaxCodeLength]: a
    complete prefix code, as RFC 1951 decoders expect.  It changes no
    other symbol's length, and its last loop reaches the complete code by
    the last symbol, so the bound [i <= nNumSorted] (one past the sorted
    symbols) never lets it read [nMinQueue[nNumSorted]]: the result is the
    same with the bound [i < nNumSorted]. *)
Theorem limit_lengths_complete q lens maxl :
  1 <= maxl -> NoDup q -> (2 <= length q)%nat -> Z.of_nat (length q) <= 2 ^ maxl ->
  (forall s, s ∈ q -> 0 <= s < Z.of_nat (length lens) /\ 1 <= lens.[s]) ->
  let l := limit_lengths q lens (Z.of_nat (length q)) maxl in
  (forall s, s ∈ q -> 1 <= l.[s] <= maxl) /\ kraft maxl l q = 2 ^ maxl /\
  (forall j, 0 <= j -> j ∉ q -> l.[j] = lens.[j]) /\
  l = limit_lengths_in_bounds q lens (Z.of_nat (length q)) maxl.
Proof.
  intros Hmaxl Hnd H2 Hcount Hr.
  destruct (limit_lengths_spec maxl Hmaxl q Hnd (fun x Hx => proj1 (proj1 (Hr x Hx))) lens H2 Hcount Hr)
    as (Hin & Hk & [_ Ha] & Heq).
  split_and!; [intros s Hs; apply Hin, Hs|done|done|done].
Qed.

(** Four symbols of lengths 1, 2, 4 and 4 limited to 3 bits: capped to
    1, 2, 3, 3, whose Kraft sum [4 + 2 + 1 + 1] is already [2^3]. *)
Lemma limit_lengths_complete_witness :
  let l := limit_lengths [0; 1; 2; 3] [1; 2; 4; 4] 4 3 in
  (forall s, s ∈ [0; 1; 2; 3] -> 1 <= l.[s] <= 3) /\ kraft 3 l [0; 1; 2; 3] = 2 ^ 3 /\
  (forall j, 0 <= j -> j ∉ [0; 1; 2; 3] -> l.[j] = [1; 2; 4; 4].[j]) /\
  l = limit_lengths_in_bounds [0; 1; 2; 3] [1; 2; 4; 4] 4 3.
Proof.
  apply (limit_lengths_complete [0; 1; 2; 3] [1; 2; 4; 4] 3); [lia|decide_by_eval|cbn; lia|cbn; lia|].
  intros s Hs. repeat (apply elem_of_cons in Hs as [->|Hs]; [vm_compute; split_and!; congruence|]).
  by apply not_elem_of_nil in Hs.
Defined.

(** ** The index quicksort (lines 34-60) *)

Section Sort.
Context (value : list Z).

Lemma sym_lt_le a b : sym_lt value a b -> sym_le value a b.
Proof. unfold sym_lt, sym_le. lia. Qed.

Lemma not_sym_lt_le a b : ~ sym_lt value a b -> sym_le value b a.
Proof. unfold sym_lt, sym_le. lia. Qed.

Lemma sym_le_trans a b c : sym_le value a b -> sym_le value b c -> sym_le value a c.
Proof. unfold sym_le. lia. Qed.

Lemma sym_lt_le_trans a b c : sym_lt value a b -> sym_le value b c -> sym_le value a c.
Proof. unfold sym_lt, sym_le. lia. Qed.

#[export] Instance sym_le_transitive : Transitive (sym_le value).
Proof. intros a b c. apply sym_le_trans. Qed.

#[export] Instance sym_le_total : Total (sym_le value).
Proof. intros a b. unfold sym_le. lia. Qed.

#[export] Instance sym_le_antisymm : AntiSymm (=) (sym_le value).
Proof. intros a b. unfold sym_le. lia. Qed.

(** The comparison of line 46. *)
Lemma qsort_cmp_spec t p :
  ((value.[t] <? value.[p]) || ((value.[p] =? value.[t]) && (t <? p))) = bool_decide (sym_lt value t p).
Proof.
  unfold sym_lt. apply eq_iff_eq_true. rewrite bool_decide_eq_true, orb_true_iff, andb_true_iff,
    Z.ltb_lt, Z.eqb_eq, Z.ltb_lt. lia.
Qed.

Lemma length_aswap a i j : length (aswap a i j) = length a.
Proof. unfold aswap. by rewrite !length_aset. Qed.

Lemma aswap_at a i j k :
  0 <= i < Z.of_nat (length a) -> 0 <= j < Z.of_nat (length a) -> 0 <= k ->
  (aswap a i j).[k] = if decide (k = j) then a.[i] else if decide (k = i) then a.[j] else a.[k].
Proof.
  intros Hi Hj Hk. unfold aswap. rewrite aset_at_other by (rewrite ?length_aset; lia).
  case_decide; [done|]. by rewrite aset_at_other by lia.
Qed.

Lemma aswap_perm a i j :
  0 <= i < Z.of_nat (length a) -> 0 <= j < Z.of_nat (length a) -> aswap a i j ≡ₚ a.
Proof.
  intros Hi Hj. unfold aswap, aset.
  apply Permutation_insert_swap; apply aget_lookup; lia.
Qed.

Lemma seg_from_refl lo hi l : seg_from lo hi l l.
Proof. intros k Hk. by exists k. Qed.

Lemma seg_from_trans lo hi l1 l2 l3 : seg_from lo hi l1 l2 -> seg_from lo hi l2 l3 -> seg_from lo hi l1 l3.
Proof.
  intros H12 H23 k Hk. destruct (H23 k Hk) as (k2 & Hk2 & E2). destruct (H12 k2 Hk2) as (k1 & Hk1 & E1).
  exists k1. split; [done|congruence].
Qed.

Lemma seg_from_widen lo hi lo' hi' l l' :
  0 <= lo' -> lo' <= lo -> hi <= hi' -> same_outside lo hi l l' -> seg_from lo hi l l' ->
  seg_from lo' hi' l l'.
Proof.
  intros H0 Hlo Hhi [_ Hout] Hs k Hk. destruct (decide (lo <= k <= hi)) as [Hin|Hout'].
  - destruct (Hs k Hin) as (k' & Hk' & E). exists k'. split; [lia|done].
  - exists k. split; [lia|]. apply Hout; lia.
Qed.

Lemma same_outside_trans lo hi lo' hi' l1 l2 l3 :
  lo' <= lo -> hi <= hi' -> same_outside lo hi l1 l2 -> same_outside lo' hi' l2 l3 ->
  same_outside (Z.min lo lo') (Z.max hi hi') l1 l3.
Proof.
  intros Hlo Hhi [Hl12 H12] [Hl23 H23]. split; [congruence|]. intros k Hk Hr.
  rewrite H23, H12 by lia. done.
Qed.

Lemma aswap_same_outside a lo hi i j :
  lo <= i <= hi -> lo <= j <= hi -> 0 <= lo -> hi < Z.of_nat (length a) ->
  same_outside lo hi a (aswap a i j) /\ seg_from lo hi a (aswap a i j).
Proof.
  intros Hi Hj Hlo Hhi. split.
  - split; [apply length_aswap|]. intros k Hk Hr. rewrite aswap_at by lia.
    repeat case_decide; subst; lia || done.
  - intros k Hk. rewrite aswap_at by lia.
    destruct (decide (k = j)); [exists i; split; [lia|done]|].
    destruct (decide (k = i)); [exists j; split; [lia|done]|]. by exists k.
Qed.

(** The partition loop (lines 47-53): the pivot stays at [left]; the
    entries in [left + 1 .. last] sort before it and those in
    [last + 1 .. i - 1] do not. *)
Lemma qsort_partition_spec fuel idx left i right last :
  0 <= left -> right < Z.of_nat (length idx) -> left <= last < i -> i <= right + 1 ->
  (forall k, left < k <= last -> sym_lt value idx.[k] idx.[left]) ->
  (forall k, last < k < i -> ~ sym_lt value idx.[k] idx.[left]) ->
  (Z.to_nat (right + 1 - i) <= fuel)%nat ->
  let '(idx', last') := qsort_partition fuel value idx left i right last in
  idx' ≡ₚ idx /\ same_outside (left + 1) right idx idx' /\ seg_from (left + 1) right idx idx' /\
  left <= last' <= right /\
  (forall k, left < k <= last' -> sym_lt value idx'.[k] idx'.[left]) /\
  (forall k, last' < k <= right -> ~ sym_lt value idx'.[k] idx'.[left]).
Proof.
  revert idx i last. induction fuel as [|fuel IH]; intros idx i last H0 Hr Hl Hi Hlt Hge Hf.
  { cbn. assert (i = right + 1) by lia. subst i.
    split_and!; try done; try lia; [apply seg_from_refl|]. intros k Hk. apply Hge. lia. }
  cbn [qsort_partition]. destruct (Z.ltb_spec right i) as [Hend|Hmore].
  { assert (i = right + 1) by lia. subst i.
    split_and!; try done; try lia; [apply seg_from_refl|]. intros k Hk. apply Hge. lia. }
  rewrite qsort_cmp_spec. case_bool_decide as Hc.
  - (* the entry at [i] sorts before the pivot: swap it to [last + 1] *)
    change ((idx.[i := idx.[last + 1]]).[last + 1 := idx.[i]]) with (aswap idx i (last + 1)).
    destruct (aswap_same_outside idx (left + 1) right i (last + 1)) as [Hso Hsf]; [lia..|].
    assert (Hat : forall k, 0 <= k -> (aswap idx i (last + 1)).[k] =
      if decide (k = last + 1) then idx.[i] else if decide (k = i) then idx.[last + 1] else idx.[k])
      by (intros; apply aswap_at; lia).
    assert (Hp : (aswap idx i (last + 1)).[left] = idx.[left]) by (rewrite Hat by lia; repeat case_decide; lia || done).
    specialize (IH (aswap idx i (last + 1)) (i + 1) (last + 1) H0 ltac:(rewrite length_aswap; lia) ltac:(lia) ltac:(lia)).
    destruct (qsort_partition fuel value (aswap idx i (last + 1)) left (i + 1) right (last + 1)) as [idx' last'].
    destruct IH as (Hperm & Hso' & Hsf' & Hlast & Hlt' & Hge').
    + intros k Hk. rewrite Hp, Hat by lia. destruct (decide (k = last + 1)) as [->|]; [done|].
      rewrite decide_False by lia. apply Hlt. lia.
    + intros k Hk. rewrite Hp, Hat by lia. rewrite decide_False by lia.
      destruct (decide (k = i)) as [->|]; [apply Hge; lia|apply Hge; lia].
    + lia.
    + split_and!; try done; try lia.
      * etrans; [exact Hperm|]. apply aswap_perm; lia.
      * destruct Hso as [Hl1 Ho1], Hso' as [Hl2 Ho2]. split; [rewrite Hl2, length_aswap; done|].
        intros k Hk Hkr. rewrite Ho2, Ho1 by done. done.
      * eapply seg_from_trans; [exact Hsf|exact Hsf'].
  - specialize (IH idx (i + 1) last H0 Hr ltac:(lia) ltac:(lia) Hlt).
    destruct (qsort_partition fuel value idx left (i + 1) right last) as [idx' last'].
    apply IH; [|lia]. intros k Hk. destruct (decide (k = i)) as [->|]; [done|apply Hge; lia].
Qed.

(** The recursion (lines 37-60): the range comes back sorted, as a
    rearrangement of its own entries, the rest of the array untouched. *)
Lemma qsort_spec fuel idx left right :
  0 <= left -> right < Z.of_nat (length idx) -> (Z.to_nat (right - left + 1) < fuel)%nat ->
  let r := zultra_huffman_encoder_qsort fuel value idx left right in
  r ≡ₚ idx /\ same_outside left right idx r /\ seg_from left right idx r /\
  forall x y, left <= x -> x < y -> y <= right -> sym_le value r.[x] r.[y].
Proof.
  revert idx left right. induction fuel as [|f IH]; intros idx left right H0 Hr Hf; [lia|].
  cbn [zultra_huffman_encoder_qsort]. destruct (Z.leb_spec right left) as [Hsmall|Hbig].
  { split_and!; [done|done|apply seg_from_refl|]. intros x y Hx Hxy Hy. lia. }
  set (mid := Z.shiftr (left + right) 1).
  assert (Hmid : left <= mid <= right) by (unfold mid; rewrite Z.shiftr_div_pow2 by lia; zlia).
  set (idx1 := aswap idx left mid).
  destruct (aswap_same_outside idx left right left mid) as [Hso1 Hsf1]; [lia..|]. fold idx1 in Hso1, Hsf1.
  assert (Hlen1 : length idx1 = length idx) by apply length_aswap.
  pose proof (qsort_partition_spec (Z.to_nat (right - left)) idx1 left (left + 1) right left H0
    ltac:(lia) ltac:(lia) ltac:(lia) ltac:(intros; lia) ltac:(intros; lia) ltac:(lia)) as Hpart.
  destruct (qsort_partition _ value idx1 left (left + 1) right left) as [idx2 last].
  destruct Hpart as (Hperm2 & Hso2 & Hsf2 & Hlast & Hlt2 & Hge2).
  assert (Hlen2 : length idx2 = length idx) by (destruct Hso2; congruence).
  set (p := idx2.[left]). set (idx3 := aswap idx2 left last).
  assert (Hat3 : forall k, 0 <= k -> idx3.[k] =
    if decide (k = last) then p else if decide (k = left) then idx2.[last] else idx2.[k])
    by (intros; apply aswap_at; lia).
  destruct (aswap_same_outside idx2 left right left last) as [Hso3 Hsf3]; [lia..|]. fold idx3 in Hso3, Hsf3.
  assert (Hlen3 : length idx3 = length idx) by (unfold idx3; rewrite length_aswap; done).
  assert (Hlo3 : forall k, left <= k <= last - 1 -> sym_lt value idx3.[k] p).
  { intros k Hk. rewrite Hat3 by lia. rewrite decide_False by lia.
    destruct (decide (k = left)); apply Hlt2; lia. }
  assert (Hhi3 : forall k, last + 1 <= k <= right -> ~ sym_lt value idx3.[k] p).
  { intros k Hk. rewrite Hat3 by lia. rewrite !decide_False by lia. apply Hge2. lia. }
  pose proof (IH idx3 left (last - 1) H0 ltac:(lia) ltac:(lia)) as (Hperm4 & Hso4 & Hsf4 & Hsort4).
  set (idx4 := zultra_huffman_encoder_qsort f value idx3 left (last - 1)) in *.
  assert (Hlen4 : length idx4 = length idx) by (destruct Hso4; congruence).
  pose proof (IH idx4 (last + 1) right ltac:(lia) ltac:(lia) ltac:(lia)) as (Hperm5 & Hso5 & Hsf5 & Hsort5).
  set (r := zultra_huffman_encoder_qsort f value idx4 (last + 1) right) in *.
  (* where the entries of [r] stand against the pivot *)
  assert (Hr4 : forall k, 0 <= k -> k <= last -> r.[k] = idx4.[k]) by (intros; apply Hso5; lia).
  assert (Hr3 : forall k, 0 <= k -> last <= k -> idx4.[k] = idx3.[k]) by (intros; apply Hso4; lia).
  assert (HA : forall k, left <= k <= last - 1 -> sym_lt value r.[k] p).
  { intros k Hk. rewrite Hr4 by lia. destruct (Hsf4 k Hk) as (k' & Hk' & ->). by apply Hlo3. }
  assert (HB : r.[last] = p) by (rewrite Hr4, Hr3, Hat3 by lia; by rewrite decide_True).
  assert (HC : forall k, last + 1 <= k <= right -> ~ sym_lt value r.[k] p).
  { intros k Hk. destruct (Hsf5 k Hk) as (k' & Hk' & ->). rewrite Hr3 by lia. by apply Hhi3. }
  split_and!.
  - etrans; [exact Hperm5|]. etrans; [exact Hperm4|]. etrans; [apply aswap_perm; lia|].
    etrans; [exact Hperm2|]. apply aswap_perm; lia.
  - split; [destruct Hso5; congruence|]. intros k Hk Hout.
    rewrite (proj2 Hso5 k), (proj2 Hso4 k) by lia. destruct Hso3 as [_ Ho3], Hso2 as [_ Ho2], Hso1 as [_ Ho1].
    rewrite Ho3, Ho2, Ho1 by lia. done.
  - eapply seg_from_trans; [exact Hsf1|]. eapply seg_from_trans.
    { apply (seg_from_widen (left + 1) right); [lia|lia|lia|exact Hso2|exact Hsf2]. }
    eapply seg_from_trans; [exact Hsf3|]. eapply seg_from_trans.
    { apply (seg_from_widen left (last - 1)); [lia|lia|lia|exact Hso4|exact Hsf4]. }
    apply (seg_from_widen (last + 1) right); [lia|lia|lia|exact Hso5|exact Hsf5].
  - intros x y Hx Hxy Hy.
    destruct (Z.lt_total y last) as [Hyl|[->|Hyl]]; [|apply sym_lt_le; rewrite HB; apply HA; lia|].
    { rewrite !Hr4 by lia. apply Hsort4; lia. }
    destruct (Z.lt_total x last) as [Hxl|[->|Hxl]].
    + apply (sym_lt_le_trans _ p); [apply HA; lia|]. apply not_sym_lt_le, HC. lia.
    + rewrite HB. apply not_sym_lt_le, HC. lia.
    + apply Hsort5; lia.
Qed.

End Sort.

#[export] Existing Instances sym_le_transitive sym_le_total sym_le_antisymm.

(** A list whose entries are ordered pairwise by position is sorted. *)
Lemma StronglySorted_aget (R : Z -> Z -> Prop) l :
  (forall x y, 0 <= x -> x < y -> y < Z.of_nat (length l) -> R l.[x] l.[y]) -> StronglySorted R l.
Proof.
  induction l as [|a l IH]; intros H; constructor.
  - apply IH. intros x y Hx Hxy Hy.
    specialize (H (x + 1) (y + 1) ltac:(lia) ltac:(lia) ltac:(cbn [length]; lia)).
    rewrite !aget_cons in H by lia. by replace (x + 1 - 1) with x in H by lia; replace (y + 1 - 1) with y in H by lia.
  - apply Forall_forall. intros z Hz. apply list_elem_of_lookup in Hz as [j Hj].
    pose proof (lookup_lt_Some _ _ _ Hj) as Hlt.
    specialize (H 0 (Z.of_nat j + 1) ltac:(lia) ltac:(lia) ltac:(cbn [length]; lia)).
    rewrite (aget_cons a l (Z.of_nat j + 1)) in H by lia. replace (Z.of_nat j + 1 - 1) with (Z.of_nat j) in H by lia.
    change ((a :: l).[0]) with a in H. unfold aget in H. rewrite Nat2Z.id, Hj in H. exact H.
Qed.

(** C11. The in-place quicksort of the Huffman builders
    ([zultra_huffman_encoder_qsort], lines 34-60, called through
    [sort_indices] on the whole queue) computes the same list as a
    reference merge sort by the order its comparison (line 46) defines:
    by [value], ties by the symbol itself.  So the queue comes out as a
    permutation of the symbols, sorted, and, the order being total and
    antisymmetric on symbols, no two symbols are left out of order. *)
Theorem sort_indices_merge_sort value q :
  sort_indices value q (Z.of_nat (length q)) = merge_sort (sym_le value) q.
Proof.
  unfold sort_indices, qsort_fuel.
  destruct (qsort_spec value (Z.to_nat (Z.of_nat (length q) - 1 - 0 + 2)) q 0 (Z.of_nat (length q) - 1)
    ltac:(lia) ltac:(lia) ltac:(lia)) as (Hperm & [Hlen _] & _ & Hsort).
  apply (Sorted_unique (sym_le value)).
  - apply StronglySorted_Sorted, StronglySorted_aget. intros x y Hx Hxy Hy.
    apply Hsort; [lia|lia|]. rewrite Hlen in Hy. lia.
  - apply Sorted_merge_sort. apply sym_le_total.
  - by rewrite merge_sort_Permutation.
Qed.

(** The queue of the example of RFC 1951, section 3.2.2 (lengths 3, 3,
    3, 3, 3, 2, 4, 4), as the builder sorts it by length. *)
Lemma sort_indices_merge_sort_witness :
  sort_indices [3; 3; 3; 3; 3; 2; 4; 4] [0; 1; 2; 3; 4; 5; 6; 7] 8 = [5; 0; 1; 2; 3; 4; 6; 7] /\
  sort_indices [3; 3; 3; 3; 3; 2; 4; 4] [0; 1; 2; 3; 4; 5; 6; 7] 8 =
    merge_sort (sym_le [3; 3; 3; 3; 3; 2; 4; 4]) [0; 1; 2; 3; 4; 5; 6; 7].
Proof. split; [vm_compute; reflexivity | exact (sort_indices_merge_sort _ [0; 1; 2; 3; 4; 5; 6; 7])]. Defined.


End HuffmanBuild.
