(* ===== verification/CodeLengths.v ===== *)
(** * Code-length tables ([src/huffman/huffencoder.c], lines 393-735)

    A dynamic DEFLATE block header sends the code lengths of the literal/
    length and distance codes run-length coded with the code-length
    alphabet of RFC 1951, section 3.2.7: symbols 0-15 are lengths, 16
    repeats the previous length 3-6 times (2 extra bits), 17 and 18 code
    runs of 3-10 and 11-138 zeros (3 and 7 extra bits).  It also sends the
    lengths of the code-length code itself, 3 bits each, in the order of
    [zultra_huffman_encoder_codelen_sym_idx].

    The C file has three copies of the run-length loop:
    [zultra_huffman_encoder_update_var_lengths_entropy] counts the symbols,
    [zultra_huffman_encoder_get_var_lengths_size] adds up their cost in
    bits and [zultra_huffman_encoder_write_var_lengths] writes them.  The
    three have the same control flow and differ only in what each step
    does with a symbol, so the loop is modelled once, [var_lengths_loop],
    over a [sink]: a record of the four effects the copies perform (emit a
    literal length, emit a symbol, emit extra bits, check the writer).
    Each C function is the loop on its own sink.  The trace sink records
    the effects as a list of events; the loop on any sink is the fold of
    that sink over the trace, and the theorems about the three functions
    are proved on the trace. *)

From S2P Require Import Prelude BitWriter Tables Huffman.
Import BitWriter Tables Huffman.

Module CodeLengths.

(** ** The effects of one step of the loop *)

Record sink (St : Type) := mk_sink {
  sink_lit : Z -> St -> St;       (** a nonzero code length, as a symbol *)
  sink_sym : Z -> St -> St;       (** a symbol 0, 16, 17 or 18 *)
  sink_extra : Z -> Z -> St -> St; (** extra bits: value, bit count *)
  sink_check : St -> St           (** [if (zultra_bitwriter_get_offset(..) < 0) return -1;] *)
}.
Arguments mk_sink {St}.
Arguments sink_lit {St}.
Arguments sink_sym {St}.
Arguments sink_extra {St}.
Arguments sink_check {St}.

(** ** The run-length loop (the body common to lines 446-522, 549-628 and 640-735) *)

Section Loop.

Context {St : Type} (sk : sink St) (mask : Z) (a : list Z) (n : Z).

(** [while ((i + nRunLen) < nWriteSymbols && pCodeLength[i + nRunLen] == pCodeLength[i]) nRunLen++;] *)
Fixpoint run_length (fuel : nat) (i r : Z) : Z :=
  match fuel with
  | O => r
  | S f => if (i + r <? n) && (a.[i + r] =? a.[i]) then run_length f i (r + 1) else r
  end.

(** [while (nRunLen >= 11 && (nEnabledCodesMask & 4))]: runs of zeros as
    symbol 18, at most 138 at a time. *)
Fixpoint zero_runs18 (fuel : nat) (r i : Z) (s : St) : Z * Z * St :=
  match fuel with
  | O => (r, i, s)
  | S f =>
      if (11 <=? r) && negb (Z.land mask 4 =? 0) then
        let m := Z.min r 138 in
        zero_runs18 f (r - m) (i + m) (sink_extra sk (m - 11) 7 (sink_sym sk 18 s))
      else (r, i, s)
  end.

(** [while (nRunLen >= 3 && (nEnabledCodesMask & 2))]: symbol 17, at
    most 10 zeros at a time. *)
Fixpoint zero_runs17 (fuel : nat) (r i : Z) (s : St) : Z * Z * St :=
  match fuel with
  | O => (r, i, s)
  | S f =>
      if (3 <=? r) && negb (Z.land mask 2 =? 0) then
        let m := Z.min r 10 in
        zero_runs17 f (r - m) (i + m) (sink_extra sk (m - 3) 3 (sink_sym sk 17 s))
      else (r, i, s)
  end.

(** [while (nRunLen >= 3 && (nEnabledCodesMask & 1))]: symbol 16, at most
    6 repeats at a time. *)
Fixpoint repeat_runs16 (fuel : nat) (r i : Z) (s : St) : Z * Z * St :=
  match fuel with
  | O => (r, i, s)
  | S f =>
      if (3 <=? r) && negb (Z.land mask 1 =? 0) then
        let m := Z.min r 6 in
        repeat_runs16 f (r - m) (i + m) (sink_extra sk (m - 3) 2 (sink_sym sk 16 s))
      else (r, i, s)
  end.

(** [if (nRunLen == 7 && ...) { ... } else if (nRunLen == 8 && ...) { ... }]:
    two 16 codes for 7 (4 + 3) or 8 (4 + 4) repeats, unless bit 3 or bit 4
    of the mask disables the pattern. *)
Definition repeat_pattern (r i : Z) (s : St) : Z * Z * St :=
  if (r =? 7) && negb (Z.land mask 1 =? 0) && (Z.land mask 8 =? 0) then
    (r - 7, i + 7, sink_extra sk 0 2 (sink_sym sk 16 (sink_extra sk 1 2 (sink_sym sk 16 s))))
  else if (r =? 8) && negb (Z.land mask 1 =? 0) && (Z.land mask 16 =? 0) then
    (r - 8, i + 8, sink_extra sk 1 2 (sink_sym sk 16 (sink_extra sk 1 2 (sink_sym sk 16 s))))
  else (r, i, s).

(** One iteration of the outer loop, from position [i] with its run
    length [r]: the new position and state. *)
Definition var_lengths_step (fuel : nat) (i r : Z) (s : St) : Z * St :=
  if a.[i] =? 0 then
    if 3 <=? r then
      let '(r1, i1, s1) := zero_runs18 fuel r i s in
      let '(r2, i2, s2) := zero_runs17 fuel r1 i1 s1 in
      let '(i3, s3) := if r2 =? 0 then (i2, s2) else (i2 + 1, sink_sym sk a.[i2] s2) in
      (i3, sink_check sk s3)
    else (i + 1, sink_sym sk a.[i] s)
  else
    let '(r1, i1, s1) := repeat_pattern (r - 1) (i + 1) (sink_lit sk a.[i] s) in
    let '(_, i2, s2) := repeat_runs16 fuel r1 i1 s1 in
    (i2, sink_check sk s2).

(** [i = 0; while (i < nWriteSymbols) { ... }] *)
Fixpoint var_lengths_iter (fuel : nat) (i : Z) (s : St) : St :=
  match fuel with
  | O => s
  | S f =>
      if i <? n then
        let '(i', s') := var_lengths_step (Z.to_nat n) i (run_length (Z.to_nat n) i 1) s in
        var_lengths_iter f i' s'
      else s
  end.

Definition var_lengths_loop (s : St) : St := var_lengths_iter (S (Z.to_nat n)) 0 s.

End Loop.

(** ** The three C functions *)

(** [zultra_huffman_encoder_update_var_lengths_entropy]: count each
    symbol in [nEntropy]; a literal length above 15 is counted as 15. *)
Definition entropy_sink : sink (list Z) := {|
  sink_lit := fun l e => aincr e (Z.min l 15);
  sink_sym := fun s e => aincr e s;
  sink_extra := fun _ _ e => e;
  sink_check := fun e => e |}.

Definition zultra_huffman_encoder_update_var_lengths_entropy
    (te : huffman_encoder) (nWriteSymbols : Z) (pCodeLength : list Z) (mask : Z) : huffman_encoder :=
  set_entropy te (var_lengths_loop entropy_sink mask pCodeLength nWriteSymbols (nEntropy te)).

(** [zultra_huffman_encoder_get_var_lengths_size]: add the code length of
    each symbol and the extra bits. *)
Definition size_sink (te : huffman_encoder) : sink Z := {|
  sink_lit := fun l z => z + (nCodeLength te).[Z.min l 15];
  sink_sym := fun s z => z + (nCodeLength te).[s];
  sink_extra := fun _ b z => z + b;
  sink_check := fun z => z |}.

Definition zultra_huffman_encoder_get_var_lengths_size
    (te : huffman_encoder) (nWriteSymbols : Z) (pCodeLength : list Z) (mask : Z) : Z :=
  var_lengths_loop (size_sink te) mask pCodeLength nWriteSymbols 0.

(** [zultra_huffman_encoder_write_var_lengths]: write each symbol with
    [zultra_huffman_encoder_write_codeword] and the extra bits with
    [zultra_bitwriter_put_bits], ignoring their status as the C code does.
    The state is the writer and whether the function has returned -1: a
    literal above 15 ([if (nCodeLength > 15) return -1;]) or a failed
    offset check stops it, and every later step leaves the state alone. *)
Definition write_sink (te : huffman_encoder) : sink (bool * bitwriter) := {|
  sink_lit := fun l (st : bool * bitwriter) =>
    if fst st then st
    else if 15 <? l then (true, snd st)
    else (false, snd (zultra_huffman_encoder_write_codeword te l (snd st)));
  sink_sym := fun s (st : bool * bitwriter) =>
    if fst st then st else (false, snd (zultra_huffman_encoder_write_codeword te s (snd st)));
  sink_extra := fun v b (st : bool * bitwriter) =>
    if fst st then st else (false, snd (put_bits (snd st) v b));
  sink_check := fun (st : bool * bitwriter) =>
    if fst st then st else (get_offset (snd st) <? 0, snd st) |}.

Definition zultra_huffman_encoder_write_var_lengths
    (te : huffman_encoder) (nWriteSymbols : Z) (pCodeLength : list Z) (mask : Z) (bw : bitwriter)
    : Z * bitwriter :=
  if get_offset bw <? 0 then (-1, bw)
  else
    let '(failed, bw') := var_lengths_loop (write_sink te) mask pCodeLength nWriteSymbols (false, bw) in
    (if failed then -1 else 0, bw').

(** ** The fixed-size table of code-length code lengths *)

(** [zultra_huffman_encoder_get_raw_table_size] (lines 400-406):
    [while (i > 4 && !nCodeLength[codelen_sym_idx[i - 1]]) i--;] *)
Fixpoint raw_table_trim (fuel : nat) (lens : list Z) (i : Z) : Z :=
  match fuel with
  | O => i
  | S f =>
      if (4 <? i) && (lens.[zultra_huffman_encoder_codelen_sym_idx.[i - 1]] =? 0)
      then raw_table_trim f lens (i - 1) else i
  end.

Definition zultra_huffman_encoder_get_raw_table_size (e : huffman_encoder) : Z :=
  raw_table_trim (Z.to_nat (nSymbols e)) (nCodeLength e) (nSymbols e).

(** [zultra_huffman_encoder_write_raw_table] (lines 418-437): each
    length in [nLenBits] bits, checking the offset after each. *)
Fixpoint raw_table_loop (fuel : nat) (e : huffman_encoder) (nLenBits nWrite i : Z) (bw : bitwriter)
    : Z * bitwriter :=
  match fuel with
  | O => (0, bw)
  | S f =>
      if i <? nWrite then
        let bw' := snd (put_bits bw (nCodeLength e).[zultra_huffman_encoder_codelen_sym_idx.[i]] nLenBits) in
        if get_offset bw' <? 0 then (-1, bw') else raw_table_loop f e nLenBits nWrite (i + 1) bw'
      else (0, bw)
  end.

Definition zultra_huffman_encoder_write_raw_table (e : huffman_encoder) (nLenBits nWriteSymbols : Z)
    (bw : bitwriter) : Z * bitwriter :=
  if (nWriteSymbols <? 4) || (nSymbols e <? nWriteSymbols) then (-1, bw)
  else if get_offset bw <? 0 then (-1, bw)
  else raw_table_loop (Z.to_nat nWriteSymbols) e nLenBits nWriteSymbols 0 bw.

(** [zultra_huffman_encoder_get_defined_var_lengths_count] (lines
    532-538): [while (i > nMinSymbols && !nCodeLength[i - 1]) i--;] *)
Fixpoint defined_trim (fuel : nat) (lens : list Z) (nMin i : Z) : Z :=
  match fuel with
  | O => i
  | S f => if (nMin <? i) && (lens.[i - 1] =? 0) then defined_trim f lens nMin (i - 1) else i
  end.

Definition zultra_huffman_encoder_get_defined_var_lengths_count (e : huffman_encoder) (nMinSymbols : Z) : Z :=
  defined_trim (Z.to_nat (nSymbols e)) (nCodeLength e) nMinSymbols (nSymbols e).

(** ** The trace of the loop and the decoder of RFC 1951, section 3.2.7 *)

(** The effects of the loop, in order. *)
Inductive event :=
  | EvLit (l : Z)
  | EvSym (s : Z)
  | EvExtra (v b : Z)
  | EvCheck.

Definition trace_sink : sink (list event) := {|
  sink_lit := fun l t => t ++ [EvLit l];
  sink_sym := fun s t => t ++ [EvSym s];
  sink_extra := fun v b t => t ++ [EvExtra v b];
  sink_check := fun t => t ++ [EvCheck] |}.

(** Replay one event on a sink. *)
Definition run_event {St} (sk : sink St) (s : St) (ev : event) : St :=
  match ev with
  | EvLit l => sink_lit sk l s
  | EvSym x => sink_sym sk x s
  | EvExtra v b => sink_extra sk v b s
  | EvCheck => sink_check sk s
  end.

Definition cl_trace (mask : Z) (a : list Z) (n : Z) : list event :=
  var_lengths_loop trace_sink mask a n [].

(** The decoder of the code-length sequence, one symbol or extra field at
    a time: the lengths decoded so far, the previous length (for symbol
    16) and the repeat symbol waiting for its extra bits. *)
Record dec_state := mk_dec { dec_out : list Z; dec_prev : option Z; dec_pending : option Z }.

Definition dec_length (l : Z) (st : dec_state) : option dec_state :=
  if (0 <=? l) && (l <=? 15) && bool_decide (dec_pending st = None)
  then Some (mk_dec (dec_out st ++ [l]) (Some l) None) else None.

Definition dec_step (st : dec_state) (ev : event) : option dec_state :=
  match ev with
  | EvCheck => Some st
  | EvLit l => dec_length l st
  | EvSym x =>
      if (16 <=? x) && (x <=? 18) && bool_decide (dec_pending st = None)
      then Some (mk_dec (dec_out st) (dec_prev st) (Some x))
      else dec_length x st
  | EvExtra v b =>
      match dec_pending st with
      | Some x =>
          if (0 <=? v) && (v <? 2 ^ b) then
            if (x =? 16) && (b =? 2) then
              match dec_prev st with
              | Some p => Some (mk_dec (dec_out st ++ replicate (Z.to_nat (v + 3)) p) (Some p) None)
              | None => None
              end
            else if (x =? 17) && (b =? 3) then
              Some (mk_dec (dec_out st ++ replicate (Z.to_nat (v + 3)) 0) (Some 0) None)
            else if (x =? 18) && (b =? 7) then
              Some (mk_dec (dec_out st ++ replicate (Z.to_nat (v + 11)) 0) (Some 0) None)
            else None
          else None
      | None => None
      end
  end.

Definition dec_run (st : option dec_state) (evs : list event) : option dec_state :=
  foldl (fun st ev => st ≫= fun st => dec_step st ev) st evs.

(** The decoder state after a whole event list. *)
Definition decoded (evs : list event) : option dec_state := dec_run (Some (mk_dec [] None None)) evs.

Definition cl_decode (evs : list event) : option (list Z) :=
  match decoded evs with
  | Some (mk_dec out _ None) => Some out
  | _ => None
  end.

(** The decoder state after the first [i] lengths of [a]. *)
Definition dec_good (a : list Z) (i : Z) : option dec_state :=
  Some (mk_dec (take (Z.to_nat i) a) (if i =? 0 then None else Some a.[i - 1]) None).

(** The bits [zultra_huffman_encoder_write_var_lengths] writes for one
    event: the codeword of a symbol as [write_codeword] emits it, the
    extra bits least significant first. *)
Definition event_bits (te : huffman_encoder) (ev : event) : list bool :=
  match ev with
  | EvLit l | EvSym l => bits_of (nCodeWord te).[l] (Z.to_nat (nCodeLength te).[l])
  | EvExtra v b => bits_of v (Z.to_nat b)
  | EvCheck => []
  end.

(** What [zultra_huffman_encoder_get_var_lengths_size] adds for one event. *)
Definition event_cost (te : huffman_encoder) (ev : event) : Z :=
  match ev with
  | EvLit l => (nCodeLength te).[Z.min l 15]
  | EvSym s => (nCodeLength te).[s]
  | EvExtra _ b => b
  | EvCheck => 0
  end.

(** The symbol an event counts in [nEntropy]. *)
Definition event_sym (ev : event) : option Z :=
  match ev with
  | EvLit l => Some (Z.min l 15)
  | EvSym s => Some s
  | _ => None
  end.

(** The events a decodable sequence is made of. *)
Definition event_valid (ev : event) : Prop :=
  match ev with
  | EvLit l => 0 <= l <= 15
  | EvSym s => 0 <= s <= 18
  | EvExtra v b => (b = 2 \/ b = 3 \/ b = 7) /\ 0 <= v < 2 ^ b
  | EvCheck => True
  end.

(** ** The loop on any sink replays its trace *)

Section Replay.

Context {St : Type} (sk : sink St) (mask : Z) (a : list Z) (n : Z) (s0 : St).

Definition replay (t : list event) : St := foldl (run_event sk) s0 t.

Lemma replay_snoc t ev : replay (t ++ [ev]) = run_event sk (replay t) ev.
Proof. apply foldl_snoc. Qed.

Lemma replay_lit l t : sink_lit sk l (replay t) = replay (sink_lit trace_sink l t).
Proof. exact (eq_sym (replay_snoc t (EvLit l))). Qed.
Lemma replay_sym x t : sink_sym sk x (replay t) = replay (sink_sym trace_sink x t).
Proof. exact (eq_sym (replay_snoc t (EvSym x))). Qed.
Lemma replay_extra v b t : sink_extra sk v b (replay t) = replay (sink_extra trace_sink v b t).
Proof. exact (eq_sym (replay_snoc t (EvExtra v b))). Qed.
Lemma replay_check t : sink_check sk (replay t) = replay (sink_check trace_sink t).
Proof. exact (eq_sym (replay_snoc t EvCheck)). Qed.

Create Rewrite HintDb replay.
Hint Rewrite replay_lit replay_sym replay_extra replay_check : replay.

(** The three inner loops: same control, the state is the replay. *)
Lemma zero_runs18_replay f r i t :
  zero_runs18 sk mask f r i (replay t) =
  let '(r', i', t') := zero_runs18 trace_sink mask f r i t in (r', i', replay t').
Proof.
  revert r i t. induction f as [|f IH]; intros r i t; simpl; [done |].
  destruct (_ && _); [| done]. autorewrite with replay. apply IH.
Qed.

Lemma zero_runs17_replay f r i t :
  zero_runs17 sk mask f r i (replay t) =
  let '(r', i', t') := zero_runs17 trace_sink mask f r i t in (r', i', replay t').
Proof.
  revert r i t. induction f as [|f IH]; intros r i t; simpl; [done |].
  destruct (_ && _); [| done]. autorewrite with replay. apply IH.
Qed.

Lemma repeat_runs16_replay f r i t :
  repeat_runs16 sk mask f r i (replay t) =
  let '(r', i', t') := repeat_runs16 trace_sink mask f r i t in (r', i', replay t').
Proof.
  revert r i t. induction f as [|f IH]; intros r i t; simpl; [done |].
  destruct (_ && _); [| done]. autorewrite with replay. apply IH.
Qed.

Lemma repeat_pattern_replay r i t :
  repeat_pattern sk mask r i (replay t) =
  let '(r', i', t') := repeat_pattern trace_sink mask r i t in (r', i', replay t').
Proof.
  unfold repeat_pattern. destruct (_ && _ && _); [| destruct (_ && _ && _)]; by autorewrite with replay.
Qed.

Lemma var_lengths_step_replay f i r t :
  var_lengths_step sk mask a f i r (replay t) =
  let '(i', t') := var_lengths_step trace_sink mask a f i r t in (i', replay t').
Proof.
  unfold var_lengths_step. destruct (a.[i] =? 0).
  - destruct (3 <=? r); [| by autorewrite with replay].
    rewrite zero_runs18_replay. destruct (zero_runs18 trace_sink mask f r i t) as [[r1 i1] t1].
    rewrite zero_runs17_replay. destruct (zero_runs17 trace_sink mask f r1 i1 t1) as [[r2 i2] t2].
    destruct (r2 =? 0); by autorewrite with replay.
  - rewrite replay_lit, repeat_pattern_replay.
    destruct (repeat_pattern trace_sink _ _ _ _) as [[r1 i1] t1].
    rewrite repeat_runs16_replay. destruct (repeat_runs16 trace_sink _ _ _ _ _) as [[r2 i2] t2].
    by autorewrite with replay.
Qed.

Lemma var_lengths_iter_replay f i t :
  var_lengths_iter sk mask a n f i (replay t) = replay (var_lengths_iter trace_sink mask a n f i t).
Proof.
  revert i t. induction f as [|f IH]; intros i t; simpl; [done |].
  destruct (i <? n); [| done]. rewrite var_lengths_step_replay.
  destruct (var_lengths_step trace_sink _ _ _ _ _ _) as [i' t']. apply IH.
Qed.

(** The loop on [sk] is [sk] replayed over the trace. *)
Lemma var_lengths_loop_replay : var_lengths_loop sk mask a n s0 = replay (cl_trace mask a n).
Proof. apply (var_lengths_iter_replay _ 0 []). Qed.

End Replay.

(** ** The decoder *)

Lemma dec_run_app st t1 t2 : dec_run st (t1 ++ t2) = dec_run (dec_run st t1) t2.
Proof. apply foldl_app. Qed.

Lemma dec_run_none t : dec_run None t = None.
Proof. induction t as [|ev t IH]; [done |]. apply IH. Qed.

Lemma dec_run_cons st ev t : dec_run (Some st) (ev :: t) = dec_run (dec_step st ev) t.
Proof. done. Qed.

(** A sequence the decoder accepts is made of valid events: lengths in
    [0, 15], symbols in [0, 18], extra fields of 2, 3 or 7 bits that fit. *)
Lemma dec_run_valid t st : dec_run (Some st) t <> None -> Forall event_valid t.
Proof.
  revert st. induction t as [|ev t IH]; intros st Hd; [constructor |].
  rewrite dec_run_cons in Hd.
  destruct (dec_step st ev) as [st' |] eqn:E; [| by rewrite dec_run_none in Hd].
  constructor; [| by apply (IH st')].
  destruct ev as [l | x | v b |]; simpl in E |- *; try done; revert E.
  - unfold dec_length. destruct (_ && _ && _) eqn:C; intros E; [bool_to_prop; lia | inversion E].
  - destruct ((16 <=? x) && (x <=? 18) && _) eqn:C; intros E.
    + bool_to_prop. lia.
    + cbv beta iota in E. unfold dec_length in E.
      destruct ((0 <=? x) && (x <=? 15) && bool_decide (dec_pending st = None)) eqn:C';
        [bool_to_prop; lia | inversion E].
  - destruct (dec_pending st) as [x |]; [| intros E; inversion E].
    destruct ((0 <=? v) && (v <? 2 ^ b)) eqn:C; intros E; [| inversion E]. bool_to_prop.
    revert E. destruct ((x =? 16) && (b =? 2)) eqn:C16; [bool_to_prop; lia |].
    destruct ((x =? 17) && (b =? 3)) eqn:C17; [bool_to_prop; lia |].
    destruct ((x =? 18) && (b =? 7)) eqn:C18; [bool_to_prop; lia | intros E; inversion E].
Qed.

Section Decode.

Context (a : list Z) (n : Z).
Hypothesis Hn : 0 <= n <= Z.of_nat (length a).

(** Appending a run of [m >= 1] copies of [v] to the output. *)
Lemma dec_good_extend i m v :
  0 <= i -> 1 <= m -> i + m <= n -> (forall k, i <= k < i + m -> a.[k] = v) ->
  Some (mk_dec (take (Z.to_nat i) a ++ replicate (Z.to_nat m) v) (Some v) None) = dec_good a (i + m).
Proof.
  intros Hi Hm Hin Hv. unfold dec_good. rewrite (take_extend a i m v) by (done || lia).
  rewrite (proj2 (Z.eqb_neq _ _)) by lia. do 3 f_equal. symmetry. apply Hv. lia.
Qed.

Lemma dec_good_length i l :
  0 <= i < n -> a.[i] = l -> 0 <= l <= 15 ->
  dec_length l (mk_dec (take (Z.to_nat i) a) (if i =? 0 then None else Some a.[i - 1]) None) =
  dec_good a (i + 1).
Proof.
  intros Hi Hl Hr. unfold dec_length. simpl.
  rewrite (proj2 (Z.leb_le _ _)), (proj2 (Z.leb_le _ _)) by lia. simpl.
  apply (dec_good_extend i 1 l); lia || (intros; replace k with i by lia; done).
Qed.

Lemma dec_good_lit i :
  0 <= i < n -> 0 <= a.[i] <= 15 -> dec_run (dec_good a i) [EvLit a.[i]] = dec_good a (i + 1).
Proof. intros. by apply dec_good_length. Qed.

Lemma dec_good_sym i :
  0 <= i < n -> 0 <= a.[i] <= 15 -> dec_run (dec_good a i) [EvSym a.[i]] = dec_good a (i + 1).
Proof.
  intros. simpl. rewrite (proj2 (Z.leb_gt 16 a.[i])) by lia. by apply dec_good_length.
Qed.

Lemma dec_good_check i : dec_run (dec_good a i) [EvCheck] = dec_good a i.
Proof. done. Qed.

(** A repeat symbol and its extra bits: 16 repeats the previous length
    [m] times, 17 and 18 write [m] zeros. *)
Lemma dec_good_group i x c b m v :
  (x = 16 /\ c = 3 /\ b = 2 /\ 1 <= i /\ v = a.[i - 1]) \/
  (x = 17 /\ c = 3 /\ b = 3 /\ v = 0) \/ (x = 18 /\ c = 11 /\ b = 7 /\ v = 0) ->
  0 <= i -> c <= m -> m - c < 2 ^ b -> i + m <= n -> (forall k, i <= k < i + m -> a.[k] = v) ->
  dec_run (dec_good a i) [EvSym x; EvExtra (m - c) b] = dec_good a (i + m).
Proof.
  intros Hx Hi Hm Hb Hin Hv.
  assert (Hext : (0 <=? m - c) && (m - c <? 2 ^ b) = true) by (apply andb_true_intro; split; [apply Z.leb_le | apply Z.ltb_lt]; lia).
  destruct Hx as [(-> & -> & -> & Hi1 & ->) | [(-> & -> & -> & ->) | (-> & -> & -> & ->)]];
    cbn [dec_run foldl]; unfold dec_good; simpl; rewrite Hext; simpl.
  - rewrite (proj2 (Z.eqb_neq i 0)) by lia. rewrite Z.sub_add. apply dec_good_extend; lia || done.
  - rewrite Z.sub_add. apply dec_good_extend; lia || done.
  - rewrite Z.sub_add. apply dec_good_extend; lia || done.
Qed.

Lemma decoded_snoc2 t e1 e2 : decoded ((t ++ [e1]) ++ [e2]) = dec_run (decoded t) [e1; e2].
Proof. unfold decoded. by rewrite <- app_assoc, dec_run_app. Qed.

Lemma decoded_snoc t e : decoded (t ++ [e]) = dec_run (decoded t) [e].
Proof. unfold decoded. by rewrite dec_run_app. Qed.

(** The three inner loops keep the decoder in step with the position. *)

Section Inner.

Context (mask : Z).

Lemma zero_runs18_good f r i t :
  decoded t = dec_good a i -> 0 <= i -> 0 <= r -> i + r <= n -> (forall k, i <= k < i + r -> a.[k] = 0) ->
  let '(r', i', t') := zero_runs18 trace_sink mask f r i t in
  decoded t' = dec_good a i' /\ i' + r' = i + r /\ 0 <= r' /\ i <= i'.
Proof.
  revert r i t. induction f as [|f IH]; intros r i t Ht Hi Hr Hin Hz; simpl; [split; [done | lia] |].
  destruct ((11 <=? r) && negb (Z.land mask 4 =? 0)) eqn:E; [| split; [done | lia]].
  apply andb_true_iff in E as [E _]. apply Z.leb_le in E.
  pose proof (IH (r - Z.min r 138) (i + Z.min r 138)
    ((t ++ [EvSym 18]) ++ [EvExtra (Z.min r 138 - 11) 7])) as IH'.
  destruct (zero_runs18 _ _ _ _ _ _) as [[r' i'] t'].
  assert (Hd : decoded ((t ++ [EvSym 18]) ++ [EvExtra (Z.min r 138 - 11) 7]) = dec_good a (i + Z.min r 138)).
  { rewrite decoded_snoc2, Ht. apply (dec_good_group i 18 11 7 _ 0); try lia.
    intros; apply Hz; lia. }
  destruct (IH' Hd) as (? & ? & ? & ?); [lia .. | intros; apply Hz; lia |]. split; [done | lia].
Qed.

Lemma zero_runs17_good f r i t :
  decoded t = dec_good a i -> 0 <= i -> 0 <= r -> i + r <= n -> (forall k, i <= k < i + r -> a.[k] = 0) ->
  let '(r', i', t') := zero_runs17 trace_sink mask f r i t in
  decoded t' = dec_good a i' /\ i' + r' = i + r /\ 0 <= r' /\ i <= i'.
Proof.
  revert r i t. induction f as [|f IH]; intros r i t Ht Hi Hr Hin Hz; simpl; [split; [done | lia] |].
  destruct ((3 <=? r) && negb (Z.land mask 2 =? 0)) eqn:E; [| split; [done | lia]].
  apply andb_true_iff in E as [E _]. apply Z.leb_le in E.
  pose proof (IH (r - Z.min r 10) (i + Z.min r 10)
    ((t ++ [EvSym 17]) ++ [EvExtra (Z.min r 10 - 3) 3])) as IH'.
  destruct (zero_runs17 _ _ _ _ _ _) as [[r' i'] t'].
  assert (Hd : decoded ((t ++ [EvSym 17]) ++ [EvExtra (Z.min r 10 - 3) 3]) = dec_good a (i + Z.min r 10)).
  { rewrite decoded_snoc2, Ht. apply (dec_good_group i 17 3 3 _ 0); try lia.
    intros; apply Hz; lia. }
  destruct (IH' Hd) as (? & ? & ? & ?); [lia .. | intros; apply Hz; lia |]. split; [done | lia].
Qed.

Lemma repeat_runs16_good f r i t v :
  decoded t = dec_good a i -> 1 <= i -> 0 <= r -> i + r <= n ->
  (forall k, i - 1 <= k < i + r -> a.[k] = v) ->
  let '(r', i', t') := repeat_runs16 trace_sink mask f r i t in
  decoded t' = dec_good a i' /\ i' + r' = i + r /\ 0 <= r' /\ i <= i'.
Proof.
  revert r i t. induction f as [|f IH]; intros r i t Ht Hi Hr Hin Hz; simpl; [split; [done | lia] |].
  destruct ((3 <=? r) && negb (Z.land mask 1 =? 0)) eqn:E; [| split; [done | lia]].
  apply andb_true_iff in E as [E _]. apply Z.leb_le in E.
  pose proof (IH (r - Z.min r 6) (i + Z.min r 6)
    ((t ++ [EvSym 16]) ++ [EvExtra (Z.min r 6 - 3) 2])) as IH'.
  destruct (repeat_runs16 _ _ _ _ _ _) as [[r' i'] t'].
  assert (Hd : decoded ((t ++ [EvSym 16]) ++ [EvExtra (Z.min r 6 - 3) 2]) = dec_good a (i + Z.min r 6)).
  { rewrite decoded_snoc2, Ht. apply (dec_good_group i 16 3 2 _ v); try lia.
    - left. rewrite (Hz (i - 1)) by lia. lia.
    - intros; apply Hz; lia. }
  destruct (IH' Hd) as (? & ? & ? & ?); [lia .. | intros; apply Hz; lia |]. split; [done | lia].
Qed.

Lemma run_length_spec f i r :
  0 <= i < n -> 1 <= r -> i + r <= n -> (forall k, i <= k < i + r -> a.[k] = a.[i]) ->
  let r' := run_length a n f i r in
  1 <= r' /\ i + r' <= n /\ (forall k, i <= k < i + r' -> a.[k] = a.[i]).
Proof.
  revert r. induction f as [|f IH]; intros r Hi Hr Hin Hk; simpl; [done |].
  destruct ((i + r <? n) && (a.[i + r] =? a.[i])) eqn:E; [| done].
  apply andb_true_iff in E as [E1 E2]. apply Z.ltb_lt in E1. apply Z.eqb_eq in E2.
  apply IH; [lia | lia | lia |]. intros k Hk'.
  destruct (Z.eq_dec k (i + r)) as [-> | Hne]; [done | apply Hk; lia].
Qed.

(** The two-16 patterns of the nonzero branch: runs of 7 and 8 repeats. *)
Lemma repeat_pattern_good r i t v :
  decoded t = dec_good a i -> 1 <= i -> 0 <= r -> i + r <= n ->
  (forall k, i - 1 <= k < i + r -> a.[k] = v) ->
  let '(r', i', t') := repeat_pattern trace_sink mask r i t in
  decoded t' = dec_good a i' /\ i' + r' = i + r /\ 0 <= r' /\ i <= i'.
Proof.
  intros Ht Hi Hr Hin Hv.
  assert (Hg : forall t0 j m e, e = m - 3 -> i <= j -> 3 <= m <= 6 -> j + m <= i + r ->
            decoded t0 = dec_good a j ->
            decoded ((t0 ++ [EvSym 16]) ++ [EvExtra e 2]) = dec_good a (j + m)).
  { intros t0 j m e -> Hj Hm Hjm Htj. rewrite decoded_snoc2, Htj. apply (dec_good_group j 16 3 2 _ v); try lia.
    - left. rewrite (Hv (j - 1)) by lia. lia.
    - intros; apply Hv; lia. }
  unfold repeat_pattern.
  destruct ((r =? 7) && negb (Z.land mask 1 =? 0) && (Z.land mask 8 =? 0)) eqn:E7;
    [| destruct ((r =? 8) && negb (Z.land mask 1 =? 0) && (Z.land mask 16 =? 0)) eqn:E8]; simpl.
  - apply andb_true_iff in E7 as [[E7 _]%andb_true_iff _]. apply Z.eqb_eq in E7. subst r.
    split; [| lia]. rewrite (Hg _ (i + 4) 3 0); [f_equal; lia | lia .. |]. by rewrite (Hg _ i 4 1) by (lia || done).
  - apply andb_true_iff in E8 as [[E8 _]%andb_true_iff _]. apply Z.eqb_eq in E8. subst r.
    split; [| lia]. rewrite (Hg _ (i + 4) 4 1); [f_equal; lia | lia .. |]. by rewrite (Hg _ i 4 1) by (lia || done).
  - split; [done | lia].
Qed.

Hypothesis Ha : forall i, 0 <= i < n -> 0 <= a.[i] <= 15.

(** One iteration of the outer loop decodes exactly the positions it
    passes over. *)
Lemma var_lengths_step_good f i r t :
  decoded t = dec_good a i -> 0 <= i < n -> 1 <= r -> i + r <= n ->
  (forall k, i <= k < i + r -> a.[k] = a.[i]) ->
  let '(i', t') := var_lengths_step trace_sink mask a f i r t in
  decoded t' = dec_good a i' /\ i < i' <= n.
Proof.
  intros Ht Hi Hr Hin Hk. unfold var_lengths_step.
  destruct (a.[i] =? 0) eqn:E0; [apply Z.eqb_eq in E0 |].
  - destruct (3 <=? r) eqn:E3; [apply Z.leb_le in E3 |]; cbn [sink_sym sink_check trace_sink].
    + pose proof (zero_runs18_good f r i t Ht ltac:(lia) ltac:(lia) Hin ltac:(intros; rewrite Hk; lia)) as H18.
      destruct (zero_runs18 _ _ _ _ _ _) as [[r1 i1] t1]. destruct H18 as (Ht1 & H1 & ? & ?).
      pose proof (zero_runs17_good f r1 i1 t1 Ht1 ltac:(lia) ltac:(lia) ltac:(lia)
        ltac:(intros; rewrite Hk; lia)) as H17.
      destruct (zero_runs17 _ _ _ _ _ _) as [[r2 i2] t2]. destruct H17 as (Ht2 & H2 & ? & ?).
      destruct (r2 =? 0) eqn:Er; [apply Z.eqb_eq in Er |]; cbn [sink_sym sink_check trace_sink].
      * rewrite decoded_snoc, Ht2. split; [done | lia].
      * apply Z.eqb_neq in Er. rewrite !decoded_snoc, Ht2, dec_good_sym; [split; [done | lia] | lia |].
        rewrite Hk; lia.
    + rewrite decoded_snoc, Ht, dec_good_sym by (rewrite ?E0; lia). split; [done | lia].
  - apply Z.eqb_neq in E0. cbn [sink_lit trace_sink].
    assert (Ht1 : decoded (t ++ [EvLit a.[i]]) = dec_good a (i + 1)).
    { rewrite decoded_snoc, Ht. apply dec_good_lit; [lia | apply Ha; lia]. }
    pose proof (repeat_pattern_good (r - 1) (i + 1) (t ++ [EvLit a.[i]]) a.[i] Ht1
      ltac:(lia) ltac:(lia) ltac:(lia) ltac:(intros; apply Hk; lia)) as Hp.
    destruct (repeat_pattern _ _ _ _ _) as [[r2 i2] t2]. destruct Hp as (Ht2 & H2 & ? & ?).
    pose proof (repeat_runs16_good f r2 i2 t2 a.[i] Ht2 ltac:(lia) ltac:(lia) ltac:(lia)
      ltac:(intros; apply Hk; lia)) as H16.
    destruct (repeat_runs16 _ _ _ _ _ _) as [[r3 i3] t3]. destruct H16 as (Ht3 & H3 & ? & ?).
    cbn [sink_check trace_sink]. rewrite decoded_snoc, Ht3. split; [done | lia].
Qed.

Lemma var_lengths_iter_good f i t :
  decoded t = dec_good a i -> 0 <= i <= n -> (n - i < Z.of_nat f)%Z ->
  decoded (var_lengths_iter trace_sink mask a n f i t) = dec_good a n.
Proof.
  revert i t. induction f as [|f IH]; intros i t Ht Hi Hf; simpl; [lia |].
  destruct (i <? n) eqn:E; [apply Z.ltb_lt in E | apply Z.ltb_ge in E].
  - pose proof (run_length_spec (Z.to_nat n) i 1 ltac:(lia) ltac:(lia) ltac:(lia)
      ltac:(intros; replace k with i by lia; done)) as (Hr1 & Hr2 & Hr3).
    pose proof (var_lengths_step_good (Z.to_nat n) i _ t Ht ltac:(lia) Hr1 Hr2 Hr3) as Hs.
    destruct (var_lengths_step _ _ _ _ _ _ _) as [i' t']. destruct Hs as [Hs1 Hs2].
    apply IH; [done | lia | lia].
  - by replace n with i by lia.
Qed.

Lemma cl_trace_decoded : decoded (cl_trace mask a n) = dec_good a n.
Proof.
  unfold cl_trace, var_lengths_loop.
  apply (var_lengths_iter_good (S (Z.to_nat n)) 0 []); [done | lia | lia].
Qed.

Lemma cl_trace_valid : Forall event_valid (cl_trace mask a n).
Proof. apply (dec_run_valid _ (mk_dec [] None None)). fold (decoded (cl_trace mask a n)). by rewrite cl_trace_decoded. Qed.

(** C12. The code-length symbols the run-length loop produces (the
    symbols [zultra_huffman_encoder_write_var_lengths] writes, counts and
    costs) decode, by the rules of RFC 1951 section 3.2.7, back to the
    first [nWriteSymbols] code lengths, for every mask of enabled codes,
    when the lengths are in [0, 15]. *)
Theorem var_lengths_roundtrip : cl_decode (cl_trace mask a n) = Some (take (Z.to_nat n) a).
Proof. unfold cl_decode. by rewrite cl_trace_decoded. Qed.

End Inner.

End Decode.

(** ** What [zultra_huffman_encoder_write_var_lengths] writes *)

Section Write.

Context (te : huffman_encoder).
Hypothesis Hte : forall s, 0 <= s <= 18 -> sym_ok te s.



Lemma write_event bw ev k :
  bw_inv bw -> event_valid ev -> 0 <= k -> room bw (Z.of_nat (length (event_bits te ev)) + k) ->
  exists bw', run_event (write_sink te) (false, bw) ev = (false, bw') /\ bw_inv bw' /\
    bw_stream bw' = bw_stream bw ++ event_bits te ev /\ room bw' k.
Proof.
  intros Hinv Hev Hk Hr.
  assert (Hsym : forall x, 0 <= x <= 18 -> room bw (Z.of_nat (length (event_bits te (EvSym x))) + k) ->
    exists bw', (false, snd (zultra_huffman_encoder_write_codeword te x bw)) = (false, bw') /\ bw_inv bw' /\
      bw_stream bw' = bw_stream bw ++ event_bits te (EvSym x) /\ room bw' k).
  { intros x Hx Hrx. pose proof (Hte x Hx) as Hok. pose proof Hok as (_ & Hl & _).
    simpl in Hrx. rewrite length_bits_of, Z2Nat.id in Hrx by lia.
    destruct (write_codeword_ok te x bw Hok Hinv) as (bw' & -> & H2 & H3 & H4); [unfold room in *; lia |].
    exists bw'. split; [done |]. split; [done |]. split; [done |].
    apply (room_after bw bw' _ k Hinv H2 H3 H4). simpl. rewrite length_bits_of, Z2Nat.id by lia. done. }
  destruct ev as [l | x | v b |]; simpl in Hev |- *.
  - rewrite (proj2 (Z.ltb_ge _ _)) by lia. by apply Hsym; [lia |].
  - by apply Hsym.
  - destruct (put_bits_room bw v b) as (bw' & -> & H2 & H3 & H4);
      [done | lia | lia | simpl in Hr; rewrite length_bits_of in Hr; unfold room in *; lia |].
    exists bw'. split; [done |]. split; [done |]. split; [done |].
    by apply (room_after bw bw' _ k Hinv H2 H3 H4).
  - rewrite get_offset_inv by done. pose proof Hinv as (_ & _ & Ho & _).
    rewrite (proj2 (Z.ltb_ge _ _)) by lia. exists bw. rewrite app_nil_r. simpl in Hr. done.
Qed.

Lemma write_events t bw k :
  bw_inv bw -> Forall event_valid t -> 0 <= k ->
  room bw (Z.of_nat (length (mjoin (map (event_bits te) t))) + k) ->
  exists bw', foldl (run_event (write_sink te)) (false, bw) t = (false, bw') /\ bw_inv bw' /\
    bw_stream bw' = bw_stream bw ++ mjoin (map (event_bits te) t) /\ room bw' k.
Proof.
  revert bw. induction t as [|ev t IH]; intros bw Hinv Hv Hk Hr.
  - exists bw. by rewrite app_nil_r.
  - apply Forall_cons in Hv as [Hev Hv]. simpl in Hr. rewrite length_app in Hr.
    destruct (write_event bw ev (Z.of_nat (length (mjoin (map (event_bits te) t))) + k))
      as (bw1 & H1 & H2 & H3 & H4); [done | done | lia | unfold room in *; lia |].
    destruct (IH bw1) as (bw2 & H5 & H6 & H7 & H8); [done .. |].
    exists bw2. simpl. rewrite H1. split; [done |]. split; [done |]. split; [| done].
    by rewrite H7, H3, app_assoc.
Qed.

End Write.

(** ** The three functions on valid code lengths *)

Section Functions.

Context (te : huffman_encoder) (mask : Z) (a : list Z) (n : Z).
Hypothesis Hte : forall s, 0 <= s <= 18 -> sym_ok te s.
Hypothesis Hn : 0 <= n <= Z.of_nat (length a).
Hypothesis Ha : forall i, 0 <= i < n -> 0 <= a.[i] <= 15.

Lemma size_replay t z : foldl (run_event (size_sink te)) z t = z + zsum (event_cost te) t.
Proof.
  revert z. induction t as [|ev t IH]; intros z; simpl; [lia |].
  rewrite IH. destruct ev; simpl; lia.
Qed.

Lemma event_cost_bits ev :
  event_valid ev -> event_cost te ev = Z.of_nat (length (event_bits te ev)).
Proof.
  destruct ev as [l | x | v b |]; simpl; intros Hv; try done.
  - rewrite Z.min_l by lia. destruct (Hte l ltac:(lia)) as (_ & H & _).
    rewrite length_bits_of. lia.
  - destruct (Hte x ltac:(lia)) as (_ & H & _). rewrite length_bits_of. lia.
  - rewrite length_bits_of. lia.
Qed.

(** C32. The cost [zultra_huffman_encoder_get_var_lengths_size] reports
    is exactly the number of bits [zultra_huffman_encoder_write_var_lengths]
    writes for the same lengths and mask, when the code lengths are in
    [0, 15] and the table encoder has a code of at most 16 bits for every
    code-length symbol. *)
Theorem var_lengths_size_exact :
  zultra_huffman_encoder_get_var_lengths_size te n a mask =
  Z.of_nat (length (mjoin (map (event_bits te) (cl_trace mask a n)))).
Proof.
  unfold zultra_huffman_encoder_get_var_lengths_size.
  rewrite var_lengths_loop_replay. unfold replay. rewrite size_replay, Z.add_0_l.
  pose proof (cl_trace_valid a n Hn mask Ha) as Hv.
  induction (cl_trace mask a n) as [|ev t IH]; [done |].
  apply Forall_cons in Hv as [Hev Hv]. rewrite zsum_cons, IH by done.
  simpl. rewrite length_app, event_cost_bits by done. lia.
Qed.

(** C23. [zultra_huffman_encoder_write_var_lengths] returns 0 and appends
    to the stream exactly the codewords and extra bits of the code-length
    symbols, in order, when the writer has room for them, the code
    lengths are in [0, 15] and the table encoder has a code of at most 16
    bits for every code-length symbol. *)
Theorem write_var_lengths_emits bw :
  bw_inv bw -> room bw (Z.of_nat (length (mjoin (map (event_bits te) (cl_trace mask a n))))) ->
  exists bw', zultra_huffman_encoder_write_var_lengths te n a mask bw = (0, bw') /\ bw_inv bw' /\
    bw_stream bw' = bw_stream bw ++ mjoin (map (event_bits te) (cl_trace mask a n)).
Proof.
  intros Hinv Hr. unfold zultra_huffman_encoder_write_var_lengths.
  rewrite get_offset_inv by done. pose proof Hinv as (_ & _ & Ho & _).
  rewrite (proj2 (Z.ltb_ge _ _)) by lia.
  rewrite var_lengths_loop_replay. unfold replay.
  destruct (write_events te Hte (cl_trace mask a n) bw 0) as (bw' & -> & H2 & H3 & _);
    [done | apply (cl_trace_valid a n Hn mask Ha) | lia | by rewrite Z.add_0_r |].
  by exists bw'.
Qed.

Lemma entropy_replay t e x :
  Forall event_valid t -> 0 <= x < Z.of_nat (length e) ->
  (foldl (run_event entropy_sink) e t).[x] =
    e.[x] + Z.of_nat (length (filter (fun ev => event_sym ev = Some x) t)).
Proof.
  revert e. induction t as [|ev t IH]; intros e Hv Hx; simpl; [lia |].
  apply Forall_cons in Hv as [Hev Hv]. rewrite filter_cons.
  assert (Hinc : forall y, 0 <= y -> (aincr e y).[x] = e.[x] + (if decide (y = x) then 1 else 0)).
  { intros y Hy. unfold aincr. destruct (decide (y = x)) as [-> | Hne].
    - rewrite aget_aset_eq by lia. lia.
    - rewrite aget_aset_ne by lia. lia. }
  destruct ev as [l | y | v b |]; simpl in Hev |- *.
  - rewrite IH, Hinc by (try done; rewrite ?length_aincr; lia).
    destruct (decide (Some (Z.min l 15) = Some x)) as [E | E], (decide (Z.min l 15 = x)); simpl;
      try congruence; lia.
  - rewrite IH, Hinc by (try done; rewrite ?length_aincr; lia).
    destruct (decide (Some y = Some x)) as [E | E], (decide (y = x)); simpl; try congruence; lia.
  - rewrite ?decide_False by done. by apply IH.
  - rewrite ?decide_False by done. by apply IH.
Qed.

(** [zultra_huffman_encoder_update_var_lengths_entropy] adds to the
    frequency of each code-length symbol the number of times the
    run-length loop emits it, the symbols that
    [zultra_huffman_encoder_write_var_lengths] writes (a literal length
    above 15 counts as 15). *)
Theorem update_var_lengths_entropy_counts x :
  0 <= x < Z.of_nat (length (nEntropy te)) ->
  (nEntropy (zultra_huffman_encoder_update_var_lengths_entropy te n a mask)).[x] =
    (nEntropy te).[x] + Z.of_nat (length (filter (fun ev => event_sym ev = Some x) (cl_trace mask a n))).
Proof.
  intros Hx. unfold zultra_huffman_encoder_update_var_lengths_entropy. simpl.
  rewrite var_lengths_loop_replay. unfold replay.
  apply entropy_replay; [apply (cl_trace_valid a n Hn mask Ha) | done].
Qed.

End Functions.

(** ** Masks that select the same codes *)

Section Masks.

Context {St : Type} (sk : sink St) (m1 m2 : Z).
Hypothesis H1 : Z.land m1 1 = Z.land m2 1.
Hypothesis H2 : Z.land m1 2 = Z.land m2 2.
Hypothesis H4 : Z.land m1 4 = Z.land m2 4.
Hypothesis H8 : Z.land m1 1 <> 0 -> Z.land m1 8 = Z.land m2 8 /\ Z.land m1 16 = Z.land m2 16.

Lemma zero_runs18_masks f r i s : zero_runs18 sk m1 f r i s = zero_runs18 sk m2 f r i s.
Proof. revert r i s. induction f as [|f IH]; intros; simpl; [done |]. rewrite H4. by destruct (_ && _). Qed.

Lemma zero_runs17_masks f r i s : zero_runs17 sk m1 f r i s = zero_runs17 sk m2 f r i s.
Proof. revert r i s. induction f as [|f IH]; intros; simpl; [done |]. rewrite H2. by destruct (_ && _). Qed.

Lemma repeat_runs16_masks f r i s : repeat_runs16 sk m1 f r i s = repeat_runs16 sk m2 f r i s.
Proof. revert r i s. induction f as [|f IH]; intros; simpl; [done |]. rewrite H1. by destruct (_ && _). Qed.

Lemma repeat_pattern_masks r i s : repeat_pattern sk m1 r i s = repeat_pattern sk m2 r i s.
Proof.
  unfold repeat_pattern. rewrite H1. destruct (Z.land m2 1 =? 0) eqn:E; simpl; rewrite ?andb_false_r; [done |].
  apply Z.eqb_neq in E. rewrite <- H1 in E. destruct (H8 E) as [-> ->]. done.
Qed.

Lemma var_lengths_step_masks a f i r s :
  var_lengths_step sk m1 a f i r s = var_lengths_step sk m2 a f i r s.
Proof.
  unfold var_lengths_step. destruct (a.[i] =? 0).
  - destruct (3 <=? r); [| done].
    rewrite zero_runs18_masks. destruct (zero_runs18 sk m2 f r i s) as [[r1 i1] s1]. cbv beta iota.
    rewrite zero_runs17_masks. by destruct (zero_runs17 sk m2 f r1 i1 s1) as [[r2 i2] s2].
  - rewrite repeat_pattern_masks.
    destruct (repeat_pattern sk m2 (r - 1) (i + 1) (sink_lit sk a.[i] s)) as [[r3 i3] s3]. cbv beta iota.
    by rewrite repeat_runs16_masks.
Qed.

Lemma var_lengths_loop_masks a n s : var_lengths_loop sk m1 a n s = var_lengths_loop sk m2 a n s.
Proof.
  unfold var_lengths_loop. generalize (S (Z.to_nat n)) as f. generalize 0 as i. revert s.
  intros s i f. revert s i. induction f as [|f IH]; intros s i; simpl; [done |].
  destruct (i <? n); [| done]. rewrite var_lengths_step_masks.
  destruct (var_lengths_step sk m2 _ _ _ _ _). apply IH.
Qed.

End Masks.

(** Above 7, the search of [zultra_block_deflate] over the masks of
    enabled codes tries odd masks only: an even mask has symbol 16
    disabled, which makes bits 3 and 4 irrelevant, so the run-length loop
    (and hence each of the three functions) does the same with mask [m]
    as with [m & 7]. *)
Theorem var_lengths_even_mask {St} (sk : sink St) mask a n s :
  Z.even mask = true -> var_lengths_loop sk mask a n s = var_lengths_loop sk (Z.land mask 7) a n s.
Proof.
  intros He. assert (H0 : Z.land mask 1 = 0).
  { change 1 with (Z.ones 1). rewrite Z.land_ones by lia. rewrite Zmod_even, He. done. }
  apply var_lengths_loop_masks; try (rewrite <- Z.land_assoc; reflexivity). by rewrite H0.
Qed.

(** ** Trimming trailing unused lengths *)

Lemma defined_trim_spec f lens nMin i :
  nMin <= i -> i - nMin <= Z.of_nat f ->
  let c := defined_trim f lens nMin i in
  nMin <= c <= i /\ (forall k, c <= k < i -> lens.[k] = 0) /\ (c = nMin \/ lens.[c - 1] <> 0).
Proof.
  revert i. induction f as [|f IH]; intros i Hi Hf; simpl; [repeat split; lia |].
  destruct ((nMin <? i) && (lens.[i - 1] =? 0)) eqn:E.
  - apply andb_true_iff in E as [E1 E2]. apply Z.ltb_lt in E1. apply Z.eqb_eq in E2.
    destruct (IH (i - 1)) as (H1 & H2 & H3); [lia | lia |].
    split; [lia |]. split; [| done]. intros k Hk.
    destruct (Z.eq_dec k (i - 1)) as [-> | Hne]; [done | apply H2; lia].
  - split; [lia |]. split; [lia |].
    apply andb_false_iff in E as [E | E]; [apply Z.ltb_ge in E; lia | apply Z.eqb_neq in E; by right].
Qed.

Lemma raw_table_trim_spec f lens i :
  4 <= i -> i - 4 <= Z.of_nat f ->
  let c := raw_table_trim f lens i in
  4 <= c <= i /\ (forall k, c <= k < i -> lens.[zultra_huffman_encoder_codelen_sym_idx.[k]] = 0) /\
  (c = 4 \/ lens.[zultra_huffman_encoder_codelen_sym_idx.[c - 1]] <> 0).
Proof.
  revert i. induction f as [|f IH]; intros i Hi Hf; simpl; [repeat split; lia |].
  destruct ((4 <? i) && (lens.[zultra_huffman_encoder_codelen_sym_idx.[i - 1]] =? 0)) eqn:E.
  - apply andb_true_iff in E as [E1 E2]. apply Z.ltb_lt in E1. apply Z.eqb_eq in E2.
    destruct (IH (i - 1)) as (H1 & H2 & H3); [lia | lia |].
    split; [lia |]. split; [| done]. intros k Hk.
    destruct (Z.eq_dec k (i - 1)) as [-> | Hne]; [done | apply H2; lia].
  - split; [lia |]. split; [lia |].
    apply andb_false_iff in E as [E | E]; [apply Z.ltb_ge in E; lia | apply Z.eqb_neq in E; by right].
Qed.

(** [zultra_huffman_encoder_get_defined_var_lengths_count] returns the
    alphabet size with the trailing unused symbols cut off, but never less
    than [nMinSymbols]: the count [c] is in [nMinSymbols, nSymbols], every
    symbol from [c] on has length 0, and symbol [c - 1] is used unless
    [c = nMinSymbols]. *)
Theorem defined_var_lengths_count_spec e nMin :
  0 <= nMin <= nSymbols e ->
  let c := zultra_huffman_encoder_get_defined_var_lengths_count e nMin in
  nMin <= c <= nSymbols e /\ (forall k, c <= k < nSymbols e -> (nCodeLength e).[k] = 0) /\
  (c = nMin \/ (nCodeLength e).[c - 1] <> 0).
Proof. intros H. apply defined_trim_spec; lia. Qed.

(** [zultra_huffman_encoder_get_raw_table_size] returns the number of
    code-length code lengths to send (HCLEN + 4): the entries of the
    permuted order [zultra_huffman_encoder_codelen_sym_idx] with the
    trailing zero lengths cut off, but at least 4. *)
Theorem raw_table_size_spec e :
  4 <= nSymbols e ->
  let c := zultra_huffman_encoder_get_raw_table_size e in
  4 <= c <= nSymbols e /\
  (forall k, c <= k < nSymbols e -> (nCodeLength e).[zultra_huffman_encoder_codelen_sym_idx.[k]] = 0) /\
  (c = 4 \/ (nCodeLength e).[zultra_huffman_encoder_codelen_sym_idx.[c - 1]] <> 0).
Proof. intros H. apply raw_table_trim_spec; lia. Qed.

(** The bits of the fixed-size table from entry [i] on. *)
Lemma raw_table_loop_ok f e nLenBits nWrite i bw :
  bw_inv bw -> 0 <= nLenBits <= 16 -> 0 <= i <= nWrite -> nWrite - i <= Z.of_nat f ->
  (forall k, i <= k < nWrite ->
     0 <= (nCodeLength e).[zultra_huffman_encoder_codelen_sym_idx.[k]] < 2 ^ nLenBits) ->
  room bw ((nWrite - i) * nLenBits) ->
  exists bw', raw_table_loop f e nLenBits nWrite i bw = (0, bw') /\ bw_inv bw' /\
    bw_stream bw' = bw_stream bw ++
      mjoin (map (fun k => bits_of (nCodeLength e).[zultra_huffman_encoder_codelen_sym_idx.[k]]
                             (Z.to_nat nLenBits)) (zseq i (Z.to_nat (nWrite - i)))).
Proof.
  revert i bw. induction f as [|f IH]; intros i bw Hinv Hb Hi Hf Hl Hr.
  - exists bw. replace (Z.to_nat (nWrite - i)) with O by lia. simpl. by rewrite app_nil_r.
  - simpl. destruct (i <? nWrite) eqn:E; [apply Z.ltb_lt in E | apply Z.ltb_ge in E].
    + destruct (put_bits_room bw (nCodeLength e).[zultra_huffman_encoder_codelen_sym_idx.[i]] nLenBits)
        as (bw1 & -> & H2 & H3 & H4); [done | done | apply Hl; lia | unfold room in *; nia |].
      simpl. rewrite get_offset_inv by done. pose proof H2 as (_ & _ & Ho & _).
      rewrite (proj2 (Z.ltb_ge _ _)) by lia.
      destruct (IH (i + 1) bw1) as (bw2 & -> & H6 & H7); [done | done | lia | lia | intros; apply Hl; lia | |].
      { unfold room in *. pose proof (length_bw_stream bw Hinv). pose proof (length_bw_stream bw1 H2).
        rewrite H3, length_app, length_bits_of in *. nia. }
      exists bw2. split; [done |]. split; [done |].
      replace (Z.to_nat (nWrite - i)) with (S (Z.to_nat (nWrite - (i + 1)))) by lia.
      by rewrite zseq_S, H7, H3, <- app_assoc.
    + exists bw. replace (Z.to_nat (nWrite - i)) with O by lia. simpl. by rewrite app_nil_r.
Qed.

(** [zultra_huffman_encoder_write_raw_table] returns 0 and writes the
    first [nWriteSymbols] code lengths in the order of
    [zultra_huffman_encoder_codelen_sym_idx], [nLenBits] bits each, when
    [4 <= nWriteSymbols <= nSymbols], each length fits in [nLenBits] bits
    and the writer has room. *)
Theorem write_raw_table_emits e nLenBits nWrite bw :
  bw_inv bw -> 0 <= nLenBits <= 16 -> 4 <= nWrite <= nSymbols e ->
  (forall k, 0 <= k < nWrite ->
     0 <= (nCodeLength e).[zultra_huffman_encoder_codelen_sym_idx.[k]] < 2 ^ nLenBits) ->
  room bw (nWrite * nLenBits) ->
  exists bw', zultra_huffman_encoder_write_raw_table e nLenBits nWrite bw = (0, bw') /\ bw_inv bw' /\
    bw_stream bw' = bw_stream bw ++
      mjoin (map (fun k => bits_of (nCodeLength e).[zultra_huffman_encoder_codelen_sym_idx.[k]]
                             (Z.to_nat nLenBits)) (zseq 0 (Z.to_nat nWrite))).
Proof.
  intros Hinv Hb Hw Hl Hr. unfold zultra_huffman_encoder_write_raw_table.
  rewrite (proj2 (Z.ltb_ge nWrite 4)), (proj2 (Z.ltb_ge (nSymbols e) nWrite)) by lia. simpl.
  rewrite get_offset_inv by done. pose proof Hinv as (_ & _ & Ho & _).
  rewrite (proj2 (Z.ltb_ge _ 0)) by lia.
  destruct (raw_table_loop_ok (Z.to_nat nWrite) e nLenBits nWrite 0 bw) as (bw' & H1 & H2 & H3);
    [done | done | lia | lia | done | by rewrite Z.sub_0_r |].
  rewrite Z.sub_0_r in H3. by exists bw'.
Qed.

(** ** Witnesses: a sequence of 33 code lengths with runs of 9 eights,
    16 zeros and 4 fives, written with a table code of 5-bit codewords. *)

Lemma var_lengths_roundtrip_witness :
  cl_decode (cl_trace 7 [8;8;8;8;8;8;8;8;8;0;0;0;0;0;0;0;0;0;0;0;0;0;0;0;0;5;5;5;5;7;0;0;9] 33) = Some (take (Z.to_nat 33) [8;8;8;8;8;8;8;8;8;0;0;0;0;0;0;0;0;0;0;0;0;0;0;0;0;5;5;5;5;7;0;0;9]).
Proof.
  apply (var_lengths_roundtrip [8;8;8;8;8;8;8;8;8;0;0;0;0;0;0;0;0;0;0;0;0;0;0;0;0;5;5;5;5;7;0;0;9] 33); [cbn; lia |].
  apply (forallZ_prop (fun i => 0 <= [8;8;8;8;8;8;8;8;8;0;0;0;0;0;0;0;0;0;0;0;0;0;0;0;0;5;5;5;5;7;0;0;9].[i] <= 15) 0 33). vm_compute. reflexivity.
Defined.

Lemma var_lengths_size_exact_witness :
  zultra_huffman_encoder_get_var_lengths_size (mk_encoder 19 7 (replicate 19 0) (replicate 19 0) (replicate 19 5)) 33 [8;8;8;8;8;8;8;8;8;0;0;0;0;0;0;0;0;0;0;0;0;0;0;0;0;5;5;5;5;7;0;0;9] 7 =
  Z.of_nat (length (mjoin (map (event_bits (mk_encoder 19 7 (replicate 19 0) (replicate 19 0) (replicate 19 5))) (cl_trace 7 [8;8;8;8;8;8;8;8;8;0;0;0;0;0;0;0;0;0;0;0;0;0;0;0;0;5;5;5;5;7;0;0;9] 33)))).
Proof.
  apply var_lengths_size_exact; [| cbn; lia |].
  - intros s Hs. apply (forallZ_prop (sym_ok (mk_encoder 19 7 (replicate 19 0) (replicate 19 0) (replicate 19 5))) 0 19); [vm_compute; reflexivity | lia].
  - apply (forallZ_prop (fun i => 0 <= [8;8;8;8;8;8;8;8;8;0;0;0;0;0;0;0;0;0;0;0;0;0;0;0;0;5;5;5;5;7;0;0;9].[i] <= 15) 0 33). vm_compute. reflexivity.
Defined.

Lemma write_var_lengths_emits_witness :
  exists bw', zultra_huffman_encoder_write_var_lengths (mk_encoder 19 7 (replicate 19 0) (replicate 19 0) (replicate 19 5)) 33 [8;8;8;8;8;8;8;8;8;0;0;0;0;0;0;0;0;0;0;0;0;0;0;0;0;5;5;5;5;7;0;0;9] 7 (bitwriter_init (replicate 64 0) 0 64)
    = (0, bw') /\ bw_inv bw' /\
    bw_stream bw' = bw_stream (bitwriter_init (replicate 64 0) 0 64) ++
      mjoin (map (event_bits (mk_encoder 19 7 (replicate 19 0) (replicate 19 0) (replicate 19 5))) (cl_trace 7 [8;8;8;8;8;8;8;8;8;0;0;0;0;0;0;0;0;0;0;0;0;0;0;0;0;5;5;5;5;7;0;0;9] 33)).
Proof.
  apply write_var_lengths_emits; [| cbn; lia | | decide_by_eval | unfold room; decide_by_eval].
  - intros s Hs. apply (forallZ_prop (sym_ok (mk_encoder 19 7 (replicate 19 0) (replicate 19 0) (replicate 19 5))) 0 19); [vm_compute; reflexivity | lia].
  - apply (forallZ_prop (fun i => 0 <= [8;8;8;8;8;8;8;8;8;0;0;0;0;0;0;0;0;0;0;0;0;0;0;0;0;5;5;5;5;7;0;0;9].[i] <= 15) 0 33). vm_compute. reflexivity.
Defined.

Lemma var_lengths_even_mask_witness :
  var_lengths_loop entropy_sink 10 [8;8;8;8;8;8;8;8;8;0;0;0;0;0;0;0;0;0;0;0;0;0;0;0;0;5;5;5;5;7;0;0;9] 33 (replicate 19 0) =
  var_lengths_loop entropy_sink (Z.land 10 7) [8;8;8;8;8;8;8;8;8;0;0;0;0;0;0;0;0;0;0;0;0;0;0;0;0;5;5;5;5;7;0;0;9] 33 (replicate 19 0).
Proof. apply var_lengths_even_mask. reflexivity. Defined.

Lemma update_var_lengths_entropy_counts_witness :
  (nEntropy (zultra_huffman_encoder_update_var_lengths_entropy (mk_encoder 19 7 (replicate 19 0) (replicate 19 0) (replicate 19 5)) 33 [8;8;8;8;8;8;8;8;8;0;0;0;0;0;0;0;0;0;0;0;0;0;0;0;0;5;5;5;5;7;0;0;9] 7)).[16] =
    (nEntropy (mk_encoder 19 7 (replicate 19 0) (replicate 19 0) (replicate 19 5))).[16] + Z.of_nat (length (filter (fun ev => event_sym ev = Some 16) (cl_trace 7 [8;8;8;8;8;8;8;8;8;0;0;0;0;0;0;0;0;0;0;0;0;0;0;0;0;5;5;5;5;7;0;0;9] 33))).
Proof.
  apply update_var_lengths_entropy_counts; [cbn; lia | | cbn; lia].
  apply (forallZ_prop (fun i => 0 <= [8;8;8;8;8;8;8;8;8;0;0;0;0;0;0;0;0;0;0;0;0;0;0;0;0;5;5;5;5;7;0;0;9].[i] <= 15) 0 33). vm_compute. reflexivity.
Defined.

Lemma defined_var_lengths_count_spec_witness :
  let e := mk_encoder 30 15 [] [] ([5; 5; 0; 4; 0; 0] ++ replicate 24 0) in
  let c := zultra_huffman_encoder_get_defined_var_lengths_count e 1 in
  1 <= c <= nSymbols e /\ (forall k, c <= k < nSymbols e -> (nCodeLength e).[k] = 0) /\
  (c = 1 \/ (nCodeLength e).[c - 1] <> 0).
Proof. apply defined_var_lengths_count_spec. simpl. lia. Defined.

Lemma raw_table_size_spec_witness :
  let e := mk_encoder 19 7 [] [] ([2; 0; 3; 0] ++ replicate 12 0 ++ [3; 3; 2]) in
  let c := zultra_huffman_encoder_get_raw_table_size e in
  4 <= c <= nSymbols e /\
  (forall k, c <= k < nSymbols e -> (nCodeLength e).[zultra_huffman_encoder_codelen_sym_idx.[k]] = 0) /\
  (c = 4 \/ (nCodeLength e).[zultra_huffman_encoder_codelen_sym_idx.[c - 1]] <> 0).
Proof. apply raw_table_size_spec. simpl. lia. Defined.

Lemma write_raw_table_emits_witness :
  exists bw', zultra_huffman_encoder_write_raw_table (mk_encoder 19 7 (replicate 19 0) (replicate 19 0) (replicate 19 5)) 3 5 (bitwriter_init (replicate 8 0) 0 8) = (0, bw') /\
    bw_inv bw' /\
    bw_stream bw' = bw_stream (bitwriter_init (replicate 8 0) 0 8) ++
      mjoin (map (fun k => bits_of (nCodeLength (mk_encoder 19 7 (replicate 19 0) (replicate 19 0) (replicate 19 5))).[zultra_huffman_encoder_codelen_sym_idx.[k]]
                             (Z.to_nat 3)) (zseq 0 (Z.to_nat 5))).
Proof.
  apply write_raw_table_emits; [decide_by_eval | lia | simpl; lia | | unfold room; decide_by_eval].
  intros k Hk. apply (forallZ_prop (fun k => 0 <= (nCodeLength (mk_encoder 19 7 (replicate 19 0) (replicate 19 0) (replicate 19 5))).[zultra_huffman_encoder_codelen_sym_idx.[k]] < 2 ^ 3) 0 5);
    [vm_compute; reflexivity | lia].
Defined.

End CodeLengths.









