(* ===== verification/Block.v ===== *)
(** * Symbols of a compressed block ([src/blockdeflate.c], lines 86-244)

    The block-level state of [zultra_compressor_t] ([src/private.h]): the
    candidate matches of the match finder ([NMATCHES_PER_OFFSET] per
    position), the parse chosen by the optimiser ([best_match]), the
    scratch array the optimiser uses for its costs ([pos_data]) and the two
    Huffman encoders.  The functions that cost and write one literal, one
    match length and one match offset, each as the C function does it.

    Theorems: each writer emits the Huffman codeword of the RFC 1951 symbol
    of its value (section 3.2.5) followed by the extra bits of the value
    above the symbol's base, and each cost function returns exactly the
    number of bits the matching writer emits. *)

From S2P Require Import Prelude BitWriter Format Tables Huffman.
Import BitWriter Format Tables Huffman.

Module Block.

(** The fields of [zultra_compressor_t] the block functions use. *)
Record compressor := mk_compressor {
  cmatch : list zultra_match;     (** [match] *)
  best_match : list zultra_match;
  pos_data : list Z;              (** the optimiser's [cost] array *)
  literalsEncoder : huffman_encoder;
  offsetEncoder : huffman_encoder
}.

Definition set_best_match (c : compressor) (b : list zultra_match) : compressor :=
  mk_compressor (cmatch c) b (pos_data c) (literalsEncoder c) (offsetEncoder c).
Definition set_pos_data (c : compressor) (p : list Z) : compressor :=
  mk_compressor (cmatch c) (best_match c) p (literalsEncoder c) (offsetEncoder c).
Definition set_literals (c : compressor) (e : huffman_encoder) : compressor :=
  mk_compressor (cmatch c) (best_match c) (pos_data c) e (offsetEncoder c).
Definition set_offsets (c : compressor) (e : huffman_encoder) : compressor :=
  mk_compressor (cmatch c) (best_match c) (pos_data c) (literalsEncoder c) e.

(** [zultra_get_literal_size] (lines 95-100) *)
Definition zultra_get_literal_size (c : compressor) (nLiteralByte : Z) : Z :=
  if nLiteralByte <? 256 then (nCodeLength (literalsEncoder c)).[nLiteralByte] else 8.

(** [zultra_write_literal] (lines 111-117) *)
Definition zultra_write_literal (c : compressor) (bw : bitwriter) (nLiteralByte : Z) : Z * bitwriter :=
  if 256 <=? nLiteralByte then (-1, bw)
  else
    let '(st, bw1) := zultra_huffman_encoder_write_codeword (literalsEncoder c) nLiteralByte bw in
    if st <? 0 then (-1, bw1) else (0, bw1).

(** [zultra_get_offset_size] (lines 127-136); the row is computed as in
    [offset_row], the branch past 32768 returns [NOFFSETSYMS]. *)
Definition zultra_get_offset_size (c : compressor) (nMatchOffset : Z) : Z :=
  match offset_row nMatchOffset with
  | Some r => (nCodeLength (offsetEncoder c)).[g_nOffsetSymbol.[r]] + g_nOffsetExtraBits.[r]
  | None => NOFFSETSYMS
  end.

(** [zultra_write_offset] (lines 164-193): the symbol's codeword, then
    [nMatchOffset - nBase] in [nExtraBits] bits (unsigned arithmetic). *)
Definition zultra_write_offset (c : compressor) (bw : bitwriter) (nMatchOffset : Z) : Z * bitwriter :=
  match offset_row nMatchOffset with
  | None => (-1, bw)
  | Some r =>
      let nDisp := wrap 32 (nMatchOffset - g_nOffsetBase.[r]) in
      let '(st1, bw1) := zultra_huffman_encoder_write_codeword (offsetEncoder c) g_nOffsetSymbol.[r] bw in
      if st1 <? 0 then (-1, bw1)
      else
        let '(st2, bw2) := put_bits bw1 nDisp g_nOffsetExtraBits.[r] in
        if st2 <? 0 then (-1, bw2) else (0, bw2)
  end.

(** [zultra_get_varlen_size] (lines 216-219): [nLength] is the match
    length minus [MIN_MATCH_SIZE]. *)
Definition zultra_get_varlen_size (c : compressor) (nLength : Z) : Z :=
  let r := varlen_row nLength in
  (nCodeLength (literalsEncoder c)).[g_nMatchLenSymbol.[r]] + g_nMatchLenExtraBits.[r].

(** [zultra_write_varlen] (lines 230-244) *)
Definition zultra_write_varlen (c : compressor) (bw : bitwriter) (nLength : Z) : Z * bitwriter :=
  let r := varlen_row nLength in
  let nDisp := wrap 32 (nLength - g_nMatchLenBase.[r]) in
  let '(st1, bw1) := zultra_huffman_encoder_write_codeword (literalsEncoder c) g_nMatchLenSymbol.[r] bw in
  if st1 <? 0 then (-1, bw1)
  else
    let '(st2, bw2) := put_bits bw1 nDisp g_nMatchLenExtraBits.[r] in
    if st2 <? 0 then (-1, bw2) else (0, bw2).

(** The code lengths of the static Huffman tables (RFC 1951 section
    3.2.6) that [zultra_block_deflate] stores for a static block
    (lines 841-851). *)
Definition static_literal_lengths : list Z :=
  map (fun i => if i <? 144 then 8 else if i <? 256 then 9 else if i <? 280 then 7 else 8)
    (zseq 0 (Z.to_nat NLITERALSYMS)).
Definition static_offset_lengths : list Z := replicate (Z.to_nat NOFFSETSYMS) 5.

(** The bits of a literal, a match length and a match offset: the Huffman
    codeword of the RFC 1951 symbol, then the extra bits. *)
Definition code_bits (e : huffman_encoder) (s : Z) : list bool :=
  bits_of (nCodeWord e).[s] (Z.to_nat (nCodeLength e).[s]).

(** The RFC 1951 code of a match length [l] and of a distance [d]: the
    codeword of the symbol, then the value above the symbol's base in the
    symbol's number of extra bits (section 3.2.5). *)
Definition len_bits (c : compressor) (l : Z) : list bool :=
  let s := rfc_len_sym l in
  code_bits (literalsEncoder c) s ++ bits_of (l - rfc_len_base.[s - 257]) (Z.to_nat rfc_len_extra.[s - 257]).
Definition dist_bits (c : compressor) (d : Z) : list bool :=
  let s := rfc_dist_sym d in
  code_bits (offsetEncoder c) s ++ bits_of (d - rfc_dist_base.[s]) (Z.to_nat rfc_dist_extra.[s]).

(** ** Each writer emits its symbol and extra bits, and costs what it emits *)

Lemma dist_extra_bound s : 0 <= s < NVALIDOFFSETSYMS -> 0 <= rfc_dist_extra.[s] <= 16.
Proof.
  intros Hs. unfold NVALIDOFFSETSYMS in Hs.
  apply (forallZ_prop (fun s => 0 <= rfc_dist_extra.[s] <= 16) 0 30); [vm_compute; reflexivity | lia].
Qed.

Lemma len_extra_bound s : NMATCHLENSYMSTART <= s < NMATCHLENSYMSTART + NMATCHLENSYMS -> 0 <= rfc_len_extra.[s - 257] <= 16.
Proof.
  intros Hs. unfold NMATCHLENSYMSTART, NMATCHLENSYMS in Hs.
  apply (forallZ_prop (fun s => 0 <= rfc_len_extra.[s] <= 16) 0 29); [vm_compute; reflexivity | lia].
Qed.

Lemma wrap32_extra x b : 0 <= b <= 16 -> 0 <= x < 2 ^ b -> wrap 32 x = x.
Proof.
  intros Hb Hx. apply wrap_small; [lia |].
  pose proof (Z.pow_le_mono_r 2 b 32 ltac:(lia) ltac:(lia)). lia.
Qed.

Lemma length_code_bits e s : 0 <= (nCodeLength e).[s] -> Z.of_nat (length (code_bits e s)) = (nCodeLength e).[s].
Proof. intros H. unfold code_bits. rewrite length_bits_of. lia. Qed.

(** The sizes count the bits of the RFC code. *)
Lemma offset_size_bits c d :
  1 <= d <= MAX_OFFSET -> sym_ok (offsetEncoder c) (zultra_get_offset_symbol d) ->
  Z.of_nat (length (dist_bits c d)) = zultra_get_offset_size c d.
Proof.
  intros Hd Hok. destruct (offset_row_facts d Hd) as (r & Hrow & Hsym & Hrfc & _ & _).
  destruct (rfc_dist_code_sym _ _ _ _ Hrfc) as (Es & Eb & Ex). pose proof Hrfc as (Hs & _ & _ & Hex).
  rewrite Hsym in Hok. pose proof Hok as (_ & Hl & _). pose proof (dist_extra_bound _ Hs).
  unfold dist_bits, zultra_get_offset_size. rewrite Hrow, <- Es, <- Ex.
  rewrite length_app, Nat2Z.inj_add, length_code_bits, length_bits_of by lia. lia.
Qed.

Lemma varlen_size_bits c l :
  MIN_MATCH_SIZE <= l <= MAX_MATCH_SIZE -> sym_ok (literalsEncoder c) (zultra_get_varlen_symbol (l - MIN_MATCH_SIZE)) ->
  Z.of_nat (length (len_bits c l)) = zultra_get_varlen_size c (l - MIN_MATCH_SIZE).
Proof.
  intros Hl Hok. destruct (length_row_facts l Hl) as (Hrow & Hsym & Hrfc & _ & _).
  destruct (rfc_len_code_sym _ _ _ _ Hrfc) as (Es & Eb & Ex). pose proof Hrfc as (Hs & _ & _ & Hex).
  rewrite Hsym in Hok. pose proof Hok as (_ & Hc & _). pose proof (len_extra_bound _ Hs).
  unfold len_bits, zultra_get_varlen_size. rewrite Hrow, <- Es, <- Ex.
  rewrite length_app, Nat2Z.inj_add, length_code_bits, length_bits_of by lia. lia.
Qed.

Lemma write_offset_ok c bw d :
  1 <= d <= MAX_OFFSET -> sym_ok (offsetEncoder c) (zultra_get_offset_symbol d) ->
  bw_inv bw -> room bw (zultra_get_offset_size c d) ->
  exists bw', zultra_write_offset c bw d = (0, bw') /\ bw_inv bw' /\
    nMaxOutDataOffset bw' = nMaxOutDataOffset bw /\
    bw_stream bw' = bw_stream bw ++ dist_bits c d /\
    Z.of_nat (length (dist_bits c d)) = zultra_get_offset_size c d.
Proof.
  intros Hd Hok Hinv Hr.
  destruct (offset_row_facts d Hd) as (r & Hrow & Hsym & Hrfc & _ & Hx).
  pose proof Hrfc as (Hs & _ & _ & Hex). rewrite Hsym in Hok. pose proof Hok as (_ & Hl & _).
  unfold zultra_get_offset_size in Hr |- *. rewrite Hrow in Hr |- *.
  assert (Hext : 0 <= g_nOffsetExtraBits.[r] <= 16).
  { rewrite Hex. apply dist_extra_bound. exact Hs. }
  destruct (write_codeword_ok (offsetEncoder c) g_nOffsetSymbol.[r] bw Hok Hinv) as (bw1 & H1 & H2 & H3 & H4);
    [unfold room in *; lia |].
  destruct (put_bits_room bw1 (d - g_nOffsetBase.[r]) g_nOffsetExtraBits.[r]) as (bw2 & H5 & H6 & H7 & H8);
    [done | done | done | |].
  { apply (room_after bw bw1 _ _ Hinv H2 H3 H4). rewrite length_bits_of, Z2Nat.id by lia. done. }
  destruct (rfc_dist_code_sym _ _ _ _ Hrfc) as (Es & Eb & Ex).
  assert (Hdb : dist_bits c d = code_bits (offsetEncoder c) g_nOffsetSymbol.[r] ++
    bits_of (d - g_nOffsetBase.[r]) (Z.to_nat g_nOffsetExtraBits.[r])).
  { unfold dist_bits. rewrite <- Es, <- Eb, <- Ex. done. }
  exists bw2. rewrite Hdb. unfold zultra_write_offset. rewrite Hrow, H1. simpl.
  rewrite (wrap32_extra _ _ Hext Hx), H5. simpl. split; [done |]. split; [done |].
  split; [congruence |]. split; [by rewrite H7, H3, app_assoc |].
  rewrite length_app, Nat2Z.inj_add, length_code_bits, length_bits_of by lia. lia.
Qed.

Lemma write_varlen_ok c bw l :
  MIN_MATCH_SIZE <= l <= MAX_MATCH_SIZE ->
  sym_ok (literalsEncoder c) (zultra_get_varlen_symbol (l - MIN_MATCH_SIZE)) ->
  bw_inv bw -> room bw (zultra_get_varlen_size c (l - MIN_MATCH_SIZE)) ->
  exists bw', zultra_write_varlen c bw (l - MIN_MATCH_SIZE) = (0, bw') /\ bw_inv bw' /\
    nMaxOutDataOffset bw' = nMaxOutDataOffset bw /\
    bw_stream bw' = bw_stream bw ++ len_bits c l /\
    Z.of_nat (length (len_bits c l)) = zultra_get_varlen_size c (l - MIN_MATCH_SIZE).
Proof.
  intros Hl Hok Hinv Hr.
  destruct (length_row_facts l Hl) as (Hrow & Hsym & Hrfc & _ & Hx).
  pose proof Hrfc as (Hs & _ & _ & Hex). rewrite Hsym in Hok. pose proof Hok as (_ & Hcl & _).
  unfold zultra_get_varlen_size in Hr |- *. rewrite Hrow in Hr |- *.
  set (r := l - MIN_MATCH_SIZE) in *.
  assert (Hext : 0 <= g_nMatchLenExtraBits.[r] <= 16).
  { rewrite Hex. apply len_extra_bound. exact Hs. }
  destruct (write_codeword_ok (literalsEncoder c) g_nMatchLenSymbol.[r] bw Hok Hinv) as (bw1 & H1 & H2 & H3 & H4);
    [unfold room in *; lia |].
  destruct (put_bits_room bw1 (r - g_nMatchLenBase.[r]) g_nMatchLenExtraBits.[r]) as (bw2 & H5 & H6 & H7 & H8);
    [done | done | unfold r in *; lia | |].
  { apply (room_after bw bw1 _ _ Hinv H2 H3 H4). rewrite length_bits_of, Z2Nat.id by lia. done. }
  destruct (rfc_len_code_sym _ _ _ _ Hrfc) as (Es & Eb & Ex).
  assert (Hlb : len_bits c l = code_bits (literalsEncoder c) g_nMatchLenSymbol.[r] ++
    bits_of (r - g_nMatchLenBase.[r]) (Z.to_nat g_nMatchLenExtraBits.[r])).
  { unfold len_bits. rewrite <- Es, <- Eb, <- Ex. do 2 f_equal. unfold r. lia. }
  exists bw2. rewrite Hlb. unfold zultra_write_varlen. fold r. rewrite Hrow, H1. simpl.
  rewrite (wrap32_extra _ _ Hext Hx), H5. simpl. split; [done |]. split; [done |].
  split; [congruence |]. split; [by rewrite H7, H3, app_assoc |].
  rewrite length_app, Nat2Z.inj_add, length_code_bits, length_bits_of by lia. lia.
Qed.

Lemma write_literal_ok c bw b :
  0 <= b < 256 -> sym_ok (literalsEncoder c) b -> bw_inv bw -> room bw (zultra_get_literal_size c b) ->
  exists bw', zultra_write_literal c bw b = (0, bw') /\ bw_inv bw' /\
    nMaxOutDataOffset bw' = nMaxOutDataOffset bw /\
    bw_stream bw' = bw_stream bw ++ code_bits (literalsEncoder c) b /\
    Z.of_nat (length (code_bits (literalsEncoder c) b)) = zultra_get_literal_size c b.
Proof.
  intros Hb Hok Hinv Hr. pose proof Hok as (_ & Hl & _).
  unfold zultra_get_literal_size in Hr |- *. rewrite (proj2 (Z.ltb_lt _ _)) in Hr |- * by lia.
  destruct (write_codeword_ok (literalsEncoder c) b bw Hok Hinv Hr) as (bw1 & H1 & H2 & H3 & H4).
  exists bw1. unfold zultra_write_literal. rewrite (proj2 (Z.leb_gt _ _)) by lia. rewrite H1. simpl.
  split; [done |]. split; [done |]. split; [done |]. split; [done |]. by rewrite length_code_bits by lia.
Qed.

(** C24. [zultra_write_offset] on a match offset [d] in [1, 32768] returns
    0 and emits the RFC 1951 code of [d]: the codeword of its distance
    symbol, then [d] minus the symbol's base in the symbol's number of
    extra bits; these are exactly [zultra_get_offset_size] bits.  (Assumes
    the offset code has a codeword for the symbol and the writer has room.) *)
Theorem write_offset_rfc c bw d :
  1 <= d <= MAX_OFFSET -> sym_ok (offsetEncoder c) (zultra_get_offset_symbol d) ->
  bw_inv bw -> room bw (zultra_get_offset_size c d) ->
  exists bw', zultra_write_offset c bw d = (0, bw') /\ bw_inv bw' /\
    bw_stream bw' = bw_stream bw ++ dist_bits c d /\
    Z.of_nat (length (dist_bits c d)) = zultra_get_offset_size c d.
Proof.
  intros Hd Hok Hinv Hr. destruct (write_offset_ok c bw d Hd Hok Hinv Hr) as (bw' & H1 & H2 & _ & H3 & H4).
  by exists bw'.
Qed.

(** C25. [zultra_write_varlen] on the encoded length [l - 3] of a match
    length [l] in [3, 258] returns 0 and emits the RFC 1951 code of [l]:
    the codeword of its length symbol, then [l] minus the symbol's base in
    the symbol's number of extra bits; these are exactly
    [zultra_get_varlen_size] bits. *)
Theorem write_varlen_rfc c bw l :
  MIN_MATCH_SIZE <= l <= MAX_MATCH_SIZE ->
  sym_ok (literalsEncoder c) (zultra_get_varlen_symbol (l - MIN_MATCH_SIZE)) ->
  bw_inv bw -> room bw (zultra_get_varlen_size c (l - MIN_MATCH_SIZE)) ->
  exists bw', zultra_write_varlen c bw (l - MIN_MATCH_SIZE) = (0, bw') /\ bw_inv bw' /\
    bw_stream bw' = bw_stream bw ++ len_bits c l /\
    Z.of_nat (length (len_bits c l)) = zultra_get_varlen_size c (l - MIN_MATCH_SIZE).
Proof.
  intros Hl Hok Hinv Hr. destruct (write_varlen_ok c bw l Hl Hok Hinv Hr) as (bw' & H1 & H2 & _ & H3 & H4).
  by exists bw'.
Qed.

(** ** Witnesses: a compressor whose literal/length code has 8-bit and
    whose offset code has 5-bit codewords, writing into 16 bytes. *)

Lemma write_offset_rfc_witness :
  exists bw', zultra_write_offset (mk_compressor [] [] [] (mk_encoder 288 15 (replicate 288 0) (replicate 288 0) (replicate 288 8)) (mk_encoder 32 15 (replicate 32 0) (replicate 32 0) (replicate 32 5))) (bitwriter_init (replicate 16 0) 0 16) 100 = (0, bw') /\ bw_inv bw' /\
    bw_stream bw' = bw_stream (bitwriter_init (replicate 16 0) 0 16) ++ dist_bits (mk_compressor [] [] [] (mk_encoder 288 15 (replicate 288 0) (replicate 288 0) (replicate 288 8)) (mk_encoder 32 15 (replicate 32 0) (replicate 32 0) (replicate 32 5))) 100 /\
    Z.of_nat (length (dist_bits (mk_compressor [] [] [] (mk_encoder 288 15 (replicate 288 0) (replicate 288 0) (replicate 288 8)) (mk_encoder 32 15 (replicate 32 0) (replicate 32 0) (replicate 32 5))) 100)) = zultra_get_offset_size (mk_compressor [] [] [] (mk_encoder 288 15 (replicate 288 0) (replicate 288 0) (replicate 288 8)) (mk_encoder 32 15 (replicate 32 0) (replicate 32 0) (replicate 32 5))) 100.
Proof.
  apply write_offset_rfc; [unfold MAX_OFFSET; lia | decide_by_eval | decide_by_eval | unfold room; decide_by_eval].
Defined.

Lemma write_varlen_rfc_witness :
  exists bw', zultra_write_varlen (mk_compressor [] [] [] (mk_encoder 288 15 (replicate 288 0) (replicate 288 0) (replicate 288 8)) (mk_encoder 32 15 (replicate 32 0) (replicate 32 0) (replicate 32 5))) (bitwriter_init (replicate 16 0) 0 16) (100 - MIN_MATCH_SIZE) = (0, bw') /\ bw_inv bw' /\
    bw_stream bw' = bw_stream (bitwriter_init (replicate 16 0) 0 16) ++ len_bits (mk_compressor [] [] [] (mk_encoder 288 15 (replicate 288 0) (replicate 288 0) (replicate 288 8)) (mk_encoder 32 15 (replicate 32 0) (replicate 32 0) (replicate 32 5))) 100 /\
    Z.of_nat (length (len_bits (mk_compressor [] [] [] (mk_encoder 288 15 (replicate 288 0) (replicate 288 0) (replicate 288 8)) (mk_encoder 32 15 (replicate 32 0) (replicate 32 0) (replicate 32 5))) 100)) = zultra_get_varlen_size (mk_compressor [] [] [] (mk_encoder 288 15 (replicate 288 0) (replicate 288 0) (replicate 288 8)) (mk_encoder 32 15 (replicate 32 0) (replicate 32 0) (replicate 32 5))) (100 - MIN_MATCH_SIZE).
Proof.
  apply write_varlen_rfc; [unfold MIN_MATCH_SIZE, MAX_MATCH_SIZE; lia | decide_by_eval | decide_by_eval | unfold room; decide_by_eval].
Defined.

End Block.
