(* ===== verification/Parser.v ===== *)
(** * The optimal parser ([zultra_optimize_matches_lwd], [src/blockdeflate.c] lines 254-325)

    A backward dynamic programme over the block [nStartOffset, nEndOffset):
    [cost[i]] is the number of bits needed to encode the bytes from [i] to
    the end of the block, choosing at each position between a literal and
    a match of one of the candidate matches found there; [best_match[i]]
    records the choice.  The model keeps the C loop structure: the outer
    loop over [i] downwards, the loop over the candidate matches of [i],
    and the loop over the shortened lengths [k] of a short match.

    Theorems: the recorded cost at each position satisfies the recurrence
    of the programme, it is the minimum cost over every parse built from
    the candidates, and the choices recorded in [best_match] form a parse
    that attains it. *)

From S2P Require Import Prelude BitWriter Format Tables Huffman Block.
Import BitWriter Format Tables Huffman Block.

Module Parser.

(** The best choice so far at one position: [nBestCost],
    [nBestMatchLen], [nBestMatchOffset]. *)
Record best := mk_best { bCost : Z; bLen : Z; bOff : Z }.

(** [hi, hi-1, ..., hi-n+1]: the values a loop counting down takes. *)
Fixpoint zdown (hi : Z) (n : nat) : list Z :=
  match n with O => [] | S n' => hi :: zdown (hi - 1) n' end.

Section Optimizer.
Context (c : compressor) (pInWindow : list Z) (nStartOffset nEndOffset : Z).

(** [if (nBestCost > nCurCost) { ... }]: a strictly cheaper choice wins. *)
Definition better (b : best) (nCurCost nLen nOffset : Z) : best :=
  if nCurCost <? bCost b then mk_best nCurCost nLen nOffset else b.

(** [nCachedVarlenSize] (lines 263-264). *)
Definition nCachedVarlenSize : list Z :=
  map (zultra_get_varlen_size c) (zseq 0 (Z.to_nat LEAVE_ALONE_MATCH_SIZE)).

(** The match length after cutting it at [nEndOffset - LAST_LITERALS]
    (lines 285-286). *)
Definition clamp_len (i nMatchLen : Z) : Z :=
  if nEndOffset - LAST_LITERALS <? i + nMatchLen then nEndOffset - LAST_LITERALS - i else nMatchLen.

(** The loop over [k] from [nMatchLen] down to [MIN_MATCH_SIZE] (lines 303-314). *)
Definition k_loop (cost : list Z) (i nOffsetSize nOffset nMatchLen : Z) (b : best) : best :=
  foldl (fun b k => better b (nCachedVarlenSize.[k - MIN_MATCH_SIZE] + (nOffsetSize + cost.[i + k])) k nOffset)
    b (zdown nMatchLen (Z.to_nat (nMatchLen - MIN_MATCH_SIZE + 1))).

(** One candidate match [pMatch[m]] (lines 282-315): a long match is
    only tried at its full (cut) length, a short one at every length. *)
Definition try_match (cost : list Z) (i : Z) (pm : zultra_match) (b : best) : best :=
  let nOffsetSize := zultra_get_offset_size c (m_offset pm) in
  let nMatchLen := clamp_len i (m_length pm) in
  if LEAVE_ALONE_MATCH_SIZE <=? m_length pm then
    better b (zultra_get_varlen_size c (nMatchLen - MIN_MATCH_SIZE) + (nOffsetSize + cost.[i + nMatchLen]))
      nMatchLen (m_offset pm)
  else k_loop cost i nOffsetSize (m_offset pm) nMatchLen b.

(** The candidate match [m] of position [i]. *)
Definition cand_match (i m : Z) : zultra_match :=
  mget (cmatch c) (Z.shiftl i MATCHES_PER_OFFSET_SHIFT + m).

(** The loop over the candidates [m] (lines 281-316): it stops at the first
    slot whose length is below [MIN_MATCH_SIZE]. *)
Fixpoint match_loop (cost : list Z) (i : Z) (fuel : nat) (m : Z) (b : best) : best :=
  match fuel with
  | O => b
  | S f =>
      if (m <? NMATCHES_PER_OFFSET) && (MIN_MATCH_SIZE <=? m_length (cand_match i m))
      then match_loop cost i f (m + 1) (try_match cost i (cand_match i m) b)
      else b
  end.

(** The bits of the literal at [i]. *)
Definition lit_cost (i : Z) : Z := zultra_get_literal_size c pInWindow.[i].

(** The body of the outer loop for position [i] (lines 272-316), before
    the stores: the literal (line 274), then every candidate. *)
Definition lwd_pos (cost : list Z) (i : Z) : best :=
  match_loop cost i (Z.to_nat NMATCHES_PER_OFFSET) 0 (mk_best (lit_cost i + cost.[i + 1]) 0 0).

(** The stores of the outer loop (lines 321-323); [nLastLiteralsOffset]
    is assigned and never read, so it is not modelled. *)
Definition lwd_iter (st : list Z * list zultra_match) (i : Z) : list Z * list zultra_match :=
  let '(cost, bm) := st in
  let b := lwd_pos cost i in
  (cost.[i := bCost b], mset bm i (mk_match (bLen b) (bOff b))).

(** The positions the outer loop visits: [nEndOffset - 2] down to
    [nStartOffset] (line 271). *)
Definition lwd_positions : list Z :=
  zdown (nEndOffset - 2) (Z.to_nat (nEndOffset - 1 - nStartOffset)).

(** [zultra_optimize_matches_lwd] (lines 254-325). *)
Definition zultra_optimize_matches_lwd : compressor :=
  if nEndOffset <=? nStartOffset then c
  else
    let cost0 := (pos_data c).[nEndOffset - 1 := lit_cost (nEndOffset - 1)] in
    let bm0 := mset (best_match c) (nEndOffset - 1) (mk_match 0 0) in
    let '(cost, bm) := foldl lwd_iter (cost0, bm0) lwd_positions in
    set_best_match (set_pos_data c cost) bm.

(** ** The programme the optimiser solves

    A candidate at position [i]: slot [m] of the candidate matches, all
    slots up to [m] holding a match of at least [MIN_MATCH_SIZE] (the
    loop stops at the first that does not), used at length [k]: a long
    match only at its cut length, a short one at any length from
    [MIN_MATCH_SIZE] to its cut length. *)
Definition slot_ok (i m : Z) : Prop :=
  0 <= m < NMATCHES_PER_OFFSET /\
  forall m', 0 <= m' <= m -> MIN_MATCH_SIZE <= m_length (cand_match i m').

Definition len_ok (i : Z) (pm : zultra_match) (k : Z) : Prop :=
  (LEAVE_ALONE_MATCH_SIZE <= m_length pm /\ k = clamp_len i (m_length pm)) \/
  (m_length pm < LEAVE_ALONE_MATCH_SIZE /\ MIN_MATCH_SIZE <= k <= clamp_len i (m_length pm)).

Definition is_cand (i k nOffset : Z) : Prop :=
  exists m, slot_ok i m /\ nOffset = m_offset (cand_match i m) /\ len_ok i (cand_match i m) k.

(** The bits of a match of length [k] at offset [nOffset]. *)
Definition match_cost (k nOffset : Z) : Z :=
  zultra_get_varlen_size c (k - MIN_MATCH_SIZE) + zultra_get_offset_size c nOffset.

(** [parse i x]: the bytes from [i] to the end of the block can be coded
    in [x] bits by literals and candidate matches; the last byte is
    always a literal, since matches are cut one byte before the end. *)
Inductive parse : Z -> Z -> Prop :=
| parse_last : parse (nEndOffset - 1) (lit_cost (nEndOffset - 1))
| parse_lit i x : nStartOffset <= i < nEndOffset - 1 -> parse (i + 1) x -> parse i (lit_cost i + x)
| parse_match i k nOffset x : nStartOffset <= i < nEndOffset - 1 -> is_cand i k nOffset ->
    parse (i + k) x -> parse i (match_cost k nOffset + x).

(** The choice recorded at [i] is the literal or a candidate, and the
    cost recorded at [i] is that choice's bits plus the cost after it. *)
Definition choice_ok (cost : list Z) (i : Z) (b : best) : Prop :=
  (bLen b = 0 /\ bCost b = lit_cost i + cost.[i + 1]) \/
  (is_cand i (bLen b) (bOff b) /\ bCost b = match_cost (bLen b) (bOff b) + cost.[i + bLen b]).

End Optimizer.

(** ** An example block

    Twelve bytes [b a a b a b a b a a b a] with the candidate matches a
    match finder reports for them, costed with the static tables. *)
Definition ex_window : list Z := [98; 97; 97; 98; 97; 98; 97; 98; 97; 97; 98; 97].

Definition ex_matches : list zultra_match :=
  replicate 32 no_match ++ [mk_match 5 2] ++ replicate 7 no_match ++ [mk_match 4 2] ++ replicate 7 no_match ++
  [mk_match 3 4] ++ replicate 7 no_match ++ [mk_match 4 7] ++ replicate 7 no_match ++
  [mk_match 3 7] ++ replicate 31 no_match.

Definition ex_compressor : compressor :=
  mk_compressor ex_matches (replicate 12 no_match) (replicate 12 0)
    (mk_encoder NLITERALSYMS 15 (replicate 288 0) (replicate 288 0) static_literal_lengths)
    (mk_encoder NOFFSETSYMS 15 (replicate 32 0) (replicate 32 0) static_offset_lengths).

(** ** The inner loops keep the cheapest choice *)

Lemma elem_of_zdown hi n k : k ∈ zdown hi n <-> hi - Z.of_nat n < k <= hi.
Proof.
  revert hi. induction n as [|n IH]; intros hi; simpl; [rewrite elem_of_nil; lia |].
  rewrite elem_of_cons, IH. lia.
Qed.

(** The range of a loop [for (k = hi; k >= lo; k--)]. *)
Lemma elem_of_zdown_to hi lo k : k ∈ zdown hi (Z.to_nat (hi - lo + 1)) <-> lo <= k <= hi.
Proof. rewrite elem_of_zdown. lia. Qed.

Lemma foldl_ext_in {A B} (f g : B -> A -> B) (l : list A) b :
  (forall x b, x ∈ l -> f b x = g b x) -> foldl f b l = foldl g b l.
Proof.
  revert b. induction l as [|x l IH]; intros b H; [done |]. simpl.
  rewrite H by set_solver. apply IH. set_solver.
Qed.

(** A fold of [better] over the lengths [l] ends with a choice no dearer
    than the start and than any of [l], which is the start or one of [l]. *)
Lemma foldl_better (f : Z -> Z) nOffset l b :
  let b' := foldl (fun b k => better b (f k) k nOffset) b l in
  bCost b' <= bCost b /\ (forall k, k ∈ l -> bCost b' <= f k) /\
  (b' = b \/ (bLen b' ∈ l /\ bOff b' = nOffset /\ bCost b' = f (bLen b'))).
Proof.
  revert b. induction l as [|k l IH]; intros b; simpl.
  - split; [lia |]. split; [intros k Hk; by apply elem_of_nil in Hk | by left].
  - destruct (IH (better b (f k) k nOffset)) as (H1 & H2 & H3).
    unfold better in *. destruct (f k <? bCost b) eqn:E; bool_to_prop; simpl in *.
    + split; [lia |]. split; [intros k' Hk'; apply elem_of_cons in Hk' as [-> | Hk']; auto; lia |].
      right. destruct H3 as [-> | (? & ? & ?)]; simpl; [set_solver | set_solver].
    + split; [lia |]. split; [intros k' Hk'; apply elem_of_cons in Hk' as [-> | Hk']; auto; lia |].
      destruct H3 as [-> | (? & ? & ?)]; [by left | right; set_solver].
Qed.

Lemma better_spec b x l o :
  bCost (better b x l o) <= bCost b /\ bCost (better b x l o) <= x /\
  (better b x l o = b \/ better b x l o = mk_best x l o).
Proof. unfold better. destruct (x <? bCost b) eqn:E; bool_to_prop; simpl; [auto with lia | auto with lia]. Qed.

Lemma cached_varlen_size c j :
  0 <= j < LEAVE_ALONE_MATCH_SIZE -> (nCachedVarlenSize c).[j] = zultra_get_varlen_size c j.
Proof. intros Hj. unfold nCachedVarlenSize. rewrite aget_map_zseq by (unfold LEAVE_ALONE_MATCH_SIZE in *; lia). done. Qed.

Lemma clamp_len_le e i L : clamp_len e i L <= L.
Proof. unfold clamp_len. destruct (_ <? _) eqn:E; bool_to_prop; lia. Qed.

Section Steps.
Context (c : compressor) (w : list Z) (s e : Z).

(** One candidate: [try_match] keeps the cheapest of the current choice
    and the lengths [len_ok] allows for the candidate. *)
Lemma try_match_spec cost i pm b :
  let b' := try_match c e cost i pm b in
  bCost b' <= bCost b /\
  (forall k, len_ok e i pm k -> bCost b' <= match_cost c k (m_offset pm) + cost.[i + k]) /\
  (b' = b \/ (len_ok e i pm (bLen b') /\ bOff b' = m_offset pm /\
              bCost b' = match_cost c (bLen b') (bOff b') + cost.[i + bLen b'])).
Proof.
  pose proof (clamp_len_le e i (m_length pm)) as Hcl.
  unfold try_match, len_ok, match_cost. cbv zeta. destruct (LEAVE_ALONE_MATCH_SIZE <=? m_length pm) eqn:E; bool_to_prop.
  - destruct (better_spec b (zultra_get_varlen_size c (clamp_len e i (m_length pm) - MIN_MATCH_SIZE) +
      (zultra_get_offset_size c (m_offset pm) + cost.[i + clamp_len e i (m_length pm)]))
      (clamp_len e i (m_length pm)) (m_offset pm)) as (H1 & H2 & H3).
    split; [lia | split].
    + intros k [(_ & ->) | (? & _)]; lia.
    + destruct H3 as [-> | ->]; [by left | right; simpl; auto with lia].
  - unfold k_loop.
    destruct (foldl_better (fun k => (nCachedVarlenSize c).[k - MIN_MATCH_SIZE] +
      (zultra_get_offset_size c (m_offset pm) + cost.[i + k])) (m_offset pm)
      (zdown (clamp_len e i (m_length pm)) (Z.to_nat (clamp_len e i (m_length pm) - MIN_MATCH_SIZE + 1))) b)
      as (H1 & H2 & H3).
    split; [done | split].
    + intros k [(? & _) | (_ & Hk)]; [lia |].
      specialize (H2 k ltac:(apply elem_of_zdown_to; lia)). cbv beta in H2.
      rewrite cached_varlen_size in H2 by (unfold MIN_MATCH_SIZE, LEAVE_ALONE_MATCH_SIZE in *; lia). lia.
    + destruct H3 as [H3 | (Hin & Ho & Hc)]; [by left | right].
      apply elem_of_zdown_to in Hin. rewrite cached_varlen_size in Hc by (unfold MIN_MATCH_SIZE, LEAVE_ALONE_MATCH_SIZE in *; lia).
      split; [right; unfold MIN_MATCH_SIZE in *; lia |]. split; [done | rewrite Ho; lia].
Qed.

(** A candidate choice: one of [is_cand] with the cost it records. *)
Definition cand_choice (cost : list Z) (i : Z) (b : best) : Prop :=
  is_cand c e i (bLen b) (bOff b) /\ bCost b = match_cost c (bLen b) (bOff b) + cost.[i + bLen b].

(** The candidate loop from slot [m]: it tries every slot from [m] on
    that [slot_ok] allows. *)
Lemma match_loop_spec cost i f m b :
  0 <= m -> (forall m', 0 <= m' < m -> MIN_MATCH_SIZE <= m_length (cand_match c i m')) ->
  let b' := match_loop c e cost i f m b in
  bCost b' <= bCost b /\
  (forall m' k, m <= m' < m + Z.of_nat f -> slot_ok c i m' ->
     len_ok e i (cand_match c i m') k -> bCost b' <= match_cost c k (m_offset (cand_match c i m')) + cost.[i + k]) /\
  (b' = b \/ cand_choice cost i b').
Proof.
  revert m b. induction f as [|f IH]; intros m b Hm Hpre; simpl.
  - split; [lia | split; [lia | by left]].
  - destruct ((m <? NMATCHES_PER_OFFSET) && (MIN_MATCH_SIZE <=? m_length (cand_match c i m))) eqn:E.
    + bool_to_prop.
      assert (Hpre' : forall m', 0 <= m' < m + 1 -> MIN_MATCH_SIZE <= m_length (cand_match c i m')).
      { intros m' Hm'. destruct (Z.eq_dec m' m) as [-> | ?]; [done | apply Hpre; lia]. }
      destruct (try_match_spec cost i (cand_match c i m) b) as (T1 & T2 & T3).
      destruct (IH (m + 1) (try_match c e cost i (cand_match c i m) b)) as (I1 & I2 & I3); [lia | done |].
      split; [lia | split].
      * intros m' k Hm' Hok Hk. destruct (Z.eq_dec m' m) as [-> | ?].
        -- specialize (T2 k Hk). lia.
        -- apply I2; [lia | done | done].
      * destruct I3 as [-> | I3]; [| by right].
        destruct T3 as [T3 | (L & O & Cst)]; [by left | right].
        split; [| done]. exists m. split; [split; [lia | intros m' ?; apply Hpre'; lia] | done].
    + split; [lia | split; [| by left]].
      intros m' k Hm' (Hr & Hall) Hk. exfalso.
      apply andb_false_iff in E as [E | E]; bool_to_prop; [lia |].
      specialize (Hall m ltac:(lia)). lia.
Qed.

(** One position: the recorded choice is no dearer than the literal and
    than every candidate, and it is the literal or a candidate. *)
Lemma lwd_pos_spec cost i :
  let b := lwd_pos c w e cost i in
  bCost b <= lit_cost c w i + cost.[i + 1] /\
  (forall k o, is_cand c e i k o -> bCost b <= match_cost c k o + cost.[i + k]) /\
  choice_ok c w e cost i b.
Proof.
  destruct (match_loop_spec cost i (Z.to_nat NMATCHES_PER_OFFSET) 0 (mk_best (lit_cost c w i + cost.[i + 1]) 0 0))
    as (H1 & H2 & H3); [lia | lia |].
  unfold lwd_pos. split; [done | split].
  - intros k o (m & Hok & -> & Hk). apply H2; [pose proof (proj1 Hok); unfold NMATCHES_PER_OFFSET in *; lia | done | done].
  - unfold choice_ok. destruct H3 as [-> | H3]; [by left | by right].
Qed.

(** A candidate at a position before the last byte ends at the last byte at the latest. *)
Lemma cand_range i k o : i <= e - 2 -> is_cand c e i k o -> 1 <= k /\ i + k <= e - 1.
Proof.
  intros Hi (m & (Hm & Hall) & _ & Hk). specialize (Hall m ltac:(lia)).
  unfold len_ok, clamp_len, LAST_LITERALS, LEAVE_ALONE_MATCH_SIZE, MIN_MATCH_SIZE in *.
  destruct (_ <? _) eqn:E; bool_to_prop; lia.
Qed.

(** ** Position [i] reads the costs after [i] and before the end only *)

Lemma clamp_len_end i L : i + clamp_len e i L <= e - 1.
Proof. unfold clamp_len, LAST_LITERALS. destruct (_ <? _) eqn:E; bool_to_prop; lia. Qed.

Section Local.
Context (cost cost' : list Z) (i : Z).
Hypothesis Hagree : forall j, i < j < e -> cost.[j] = cost'.[j].
Hypothesis Hi : i <= e - 2.

Lemma try_match_local pm b : try_match c e cost i pm b = try_match c e cost' i pm b.
Proof.
  pose proof (clamp_len_end i (m_length pm)) as Hend.
  unfold try_match. cbv zeta. destruct (LEAVE_ALONE_MATCH_SIZE <=? m_length pm) eqn:E; bool_to_prop.
  - rewrite Hagree; [done |]. split; [| lia].
    unfold clamp_len, LAST_LITERALS, LEAVE_ALONE_MATCH_SIZE in *. destruct (_ <? _) eqn:E'; bool_to_prop; lia.
  - unfold k_loop. apply foldl_ext_in. intros k b' Hk%elem_of_zdown_to.
    rewrite Hagree; [done | unfold MIN_MATCH_SIZE in *; lia].
Qed.

Lemma match_loop_local f m b : match_loop c e cost i f m b = match_loop c e cost' i f m b.
Proof.
  revert m b. induction f as [|f IH]; intros m b; simpl; [done |].
  destruct (_ && _); [| done]. rewrite try_match_local. apply IH.
Qed.

Lemma lwd_pos_local : lwd_pos c w e cost i = lwd_pos c w e cost' i.
Proof. unfold lwd_pos. rewrite Hagree by lia. apply match_loop_local. Qed.

End Local.

(** ** The outer loop: every visited position ends with the cost and the
    choice of [lwd_pos] on the final cost array *)

Lemma lwd_fold_spec hi n cost0 bm0 F B :
  0 <= hi - Z.of_nat n + 1 -> hi <= e - 2 ->
  e <= Z.of_nat (length cost0) -> e <= Z.of_nat (length bm0) ->
  foldl (lwd_iter c w e) (cost0, bm0) (zdown hi n) = (F, B) ->
  length F = length cost0 /\ length B = length bm0 /\
  (forall j, hi < j -> F.[j] = cost0.[j] /\ mget B j = mget bm0 j) /\
  (forall j, hi - Z.of_nat n < j <= hi ->
     F.[j] = bCost (lwd_pos c w e F j) /\
     mget B j = mk_match (bLen (lwd_pos c w e F j)) (bOff (lwd_pos c w e F j))).
Proof.
  revert hi cost0 bm0. induction n as [|n IH]; intros hi cost0 bm0 Hlo Hhi Hc Hb Hf.
  - simpl in Hf. injection Hf as <- <-. split; [done | split; [done | split; [done | lia]]].
  - cbn [zdown foldl lwd_iter] in Hf.
    set (b := lwd_pos c w e cost0 hi) in Hf.
    destruct (IH (hi - 1) (cost0.[hi := bCost b]) (mset bm0 hi (mk_match (bLen b) (bOff b))) ltac:(lia) ltac:(lia) ltac:(rewrite length_aset; lia)
      ltac:(rewrite length_mset; lia) Hf) as (L1 & L2 & Hafter & Hin).
    rewrite length_aset in L1. rewrite length_mset in L2.
    assert (Hup : forall j, hi < j -> F.[j] = cost0.[j] /\ mget B j = mget bm0 j).
    { intros j Hj. destruct (Hafter j ltac:(lia)) as [-> ->].
      rewrite aget_aset_ne, mget_mset_ne by lia. done. }
    split; [done | split; [done | split; [done |]]].
    intros j Hj. destruct (Z.eq_dec j hi) as [-> | Hne]; [| apply Hin; lia].
    destruct (Hafter hi ltac:(lia)) as [-> ->].
    rewrite (lwd_pos_local F cost0 hi) by (try lia; intros j Hj'; apply Hup; lia).
    rewrite aget_aset_eq, mget_mset_eq by lia. done.
Qed.

(** The state [zultra_optimize_matches_lwd] leaves, position by position. *)
Lemma optimize_spec :
  0 <= s < e -> e <= Z.of_nat (length (pos_data c)) -> e <= Z.of_nat (length (best_match c)) ->
  let c' := zultra_optimize_matches_lwd c w s e in
  (pos_data c').[e - 1] = lit_cost c w (e - 1) /\ mget (best_match c') (e - 1) = mk_match 0 0 /\
  forall j, s <= j <= e - 2 ->
    (pos_data c').[j] = bCost (lwd_pos c w e (pos_data c') j) /\
    mget (best_match c') j = mk_match (bLen (lwd_pos c w e (pos_data c') j)) (bOff (lwd_pos c w e (pos_data c') j)).
Proof.
  intros He Hc Hb. unfold zultra_optimize_matches_lwd, lwd_positions.
  rewrite (proj2 (Z.leb_gt _ _)) by lia.
  destruct (foldl (lwd_iter c w e) _ _) as [F B] eqn:Hf.
  destruct (lwd_fold_spec (e - 2) (Z.to_nat (e - 1 - s)) ((pos_data c).[e - 1 := lit_cost c w (e - 1)])
    (mset (best_match c) (e - 1) (mk_match 0 0)) F B ltac:(rewrite Z2Nat.id; lia) ltac:(lia) ltac:(rewrite length_aset; lia)
    ltac:(rewrite length_mset; lia) Hf) as (_ & _ & Hafter & Hin).
  simpl. destruct (Hafter (e - 1) ltac:(lia)) as [-> ->].
  rewrite aget_aset_eq, mget_mset_eq by lia.
  split; [done | split; [done |]]. intros j Hj. apply Hin. lia.
Qed.

End Steps.

(** The choices at every position of the block. *)
Lemma optimize_choices c w s e :
  0 <= s < e -> e <= Z.of_nat (length (pos_data c)) -> e <= Z.of_nat (length (best_match c)) ->
  let c' := zultra_optimize_matches_lwd c w s e in
  (pos_data c').[e - 1] = lit_cost c w (e - 1) /\ mget (best_match c') (e - 1) = mk_match 0 0 /\
  forall i, s <= i <= e - 2 ->
    choice_ok c w e (pos_data c') i
      (mk_best (pos_data c').[i] (m_length (mget (best_match c') i)) (m_offset (mget (best_match c') i))).
Proof.
  intros He Hc Hb. cbv zeta. destruct (optimize_spec c w s e He Hc Hb) as (H1 & H2 & H3).
  split; [done | split; [done |]]. intros i Hi. destruct (H3 i Hi) as [-> ->]. simpl.
  set (F := pos_data (zultra_optimize_matches_lwd c w s e)) in *.
  destruct (lwd_pos_spec c w e F i) as (_ & _ & Hch). by destruct (lwd_pos c w e F i).
Qed.

(** The recorded costs are lower bounds of every parse. *)
Lemma optimize_lower c w s e :
  0 <= s < e -> e <= Z.of_nat (length (pos_data c)) -> e <= Z.of_nat (length (best_match c)) ->
  forall i x, parse c w s e i x -> s <= i < e -> (pos_data (zultra_optimize_matches_lwd c w s e)).[i] <= x.
Proof.
  intros He Hc Hb. destruct (optimize_spec c w s e He Hc Hb) as (H1 & _ & H3).
  set (F := pos_data (zultra_optimize_matches_lwd c w s e)) in *.
  induction 1 as [| i x Hi Hp IH | i k o x Hi Hk Hp IH]; intros Hr.
  - rewrite H1. lia.
  - destruct (lwd_pos_spec c w e F i) as (L & _ & _). rewrite (proj1 (H3 i ltac:(lia))). specialize (IH ltac:(lia)). lia.
  - destruct (lwd_pos_spec c w e F i) as (_ & M & _). rewrite (proj1 (H3 i ltac:(lia))).
    pose proof (cand_range c e i k o ltac:(lia) Hk). specialize (M k o Hk). specialize (IH ltac:(lia)). lia.
Qed.

(** The recorded cost is the cost of a parse. *)
Lemma optimize_attained c w s e :
  0 <= s < e -> e <= Z.of_nat (length (pos_data c)) -> e <= Z.of_nat (length (best_match c)) ->
  forall i, s <= i < e -> parse c w s e i (pos_data (zultra_optimize_matches_lwd c w s e)).[i].
Proof.
  intros He Hc Hb. destruct (optimize_choices c w s e He Hc Hb) as (H1 & _ & H3).
  set (F := pos_data (zultra_optimize_matches_lwd c w s e)) in *.
  intros i. induction i as [i IH] using (well_founded_induction (Wf_nat.well_founded_ltof _ (fun i => Z.to_nat (e - i)))).
  intros Hi. destruct (Z.eq_dec i (e - 1)) as [-> | Hne]; [rewrite H1; constructor |].
  destruct (H3 i ltac:(lia)) as [(_ & Hc') | (Hk & Hc')]; simpl in Hc'; rewrite Hc'.
  - apply parse_lit; [lia |]. apply IH; [unfold Wf_nat.ltof; lia | lia].
  - pose proof (cand_range c e i _ _ ltac:(lia) Hk) as Hr. simpl in Hr.
    apply parse_match; [lia | done |]. apply IH; [unfold Wf_nat.ltof; lia | lia].
Qed.


(** C1. The optimal parser is optimal: for a block [nStartOffset,
    nEndOffset) whose cost and choice arrays cover the block, the cost
    [zultra_optimize_matches_lwd] records at each position is the number
    of bits of some parse of the rest of the block into literals and
    candidate matches, and no such parse takes fewer bits. *)
Theorem optimize_matches_optimal c w s e :
  0 <= s < e -> e <= Z.of_nat (length (pos_data c)) -> e <= Z.of_nat (length (best_match c)) ->
  forall i, s <= i < e ->
    parse c w s e i (pos_data (zultra_optimize_matches_lwd c w s e)).[i] /\
    forall x, parse c w s e i x -> (pos_data (zultra_optimize_matches_lwd c w s e)).[i] <= x.
Proof.
  intros He Hc Hb i Hi. split; [by apply optimize_attained |].
  intros x Hx. by apply (optimize_lower c w s e He Hc Hb i x Hx).
Qed.

(** C22. The choices [zultra_optimize_matches_lwd] records are the ones
    its costs are made of: the last byte is a literal, and at every other
    position of the block the recorded choice is a literal (length 0)
    whose cost is the literal's bits plus the next position's cost, or a
    candidate match whose cost is the match's bits plus the cost after it. *)
Theorem optimize_matches_choices c w s e :
  0 <= s < e -> e <= Z.of_nat (length (pos_data c)) -> e <= Z.of_nat (length (best_match c)) ->
  let c' := zultra_optimize_matches_lwd c w s e in
  (pos_data c').[e - 1] = lit_cost c w (e - 1) /\ mget (best_match c') (e - 1) = mk_match 0 0 /\
  forall i, s <= i <= e - 2 ->
    choice_ok c w e (pos_data c') i
      (mk_best (pos_data c').[i] (m_length (mget (best_match c') i)) (m_offset (mget (best_match c') i))).
Proof. apply optimize_choices. Qed.

(** Ties between the lengths of one match go to the longest: at
    position 4 of the example block the match of length 5 at offset 2
    can be used at length 3 or 4 for the same number of bits, and the
    optimiser records length 4 (the [k] loop runs from the longest length
    down and replaces the choice only on a strictly smaller cost). *)
Example optimize_tie_prefers_longer :
  let c' := zultra_optimize_matches_lwd ex_compressor ex_window 0 12 in
  is_cand ex_compressor 12 4 3 2 /\ is_cand ex_compressor 12 4 4 2 /\
  match_cost ex_compressor 3 2 + (pos_data c').[4 + 3] = (pos_data c').[4] /\
  match_cost ex_compressor 4 2 + (pos_data c').[4 + 4] = (pos_data c').[4] /\
  mget (best_match c') 4 = mk_match 4 2.
Proof.
  assert (Hc : forall k, 3 <= k <= 5 -> is_cand ex_compressor 12 4 k 2).
  { assert (E : cand_match ex_compressor 4 0 = mk_match 5 2) by reflexivity.
    intros k Hk. exists 0. rewrite E. split; [split; [unfold NMATCHES_PER_OFFSET; lia |] |].
    - intros m' Hm'. replace m' with 0 by lia. rewrite E. unfold MIN_MATCH_SIZE. simpl. lia.
    - split; [reflexivity | right]. unfold clamp_len, LAST_LITERALS, LEAVE_ALONE_MATCH_SIZE, MIN_MATCH_SIZE. simpl. lia. }
  split; [apply Hc; lia | split; [apply Hc; lia |]]. vm_compute. auto.
Qed.

(** Witness: the optimiser on the example block. *)
Lemma optimize_matches_optimal_witness :
  parse ex_compressor ex_window 0 12 4 (pos_data (zultra_optimize_matches_lwd ex_compressor ex_window 0 12)).[4] /\
  forall x, parse ex_compressor ex_window 0 12 4 x ->
    (pos_data (zultra_optimize_matches_lwd ex_compressor ex_window 0 12)).[4] <= x.
Proof. apply (optimize_matches_optimal ex_compressor ex_window 0 12); decide_by_eval. Defined.

Lemma optimize_matches_choices_witness :
  let c' := zultra_optimize_matches_lwd ex_compressor ex_window 0 12 in
  (pos_data c').[12 - 1] = lit_cost ex_compressor ex_window (12 - 1) /\ mget (best_match c') (12 - 1) = mk_match 0 0 /\
  forall i, 0 <= i <= 12 - 2 ->
    choice_ok ex_compressor ex_window 12 (pos_data c') i
      (mk_best (pos_data c').[i] (m_length (mget (best_match c') i)) (m_offset (mget (best_match c') i))).
Proof. apply (optimize_matches_choices ex_compressor ex_window 0 12); decide_by_eval. Defined.

End Parser.
