(* ===== verification/Lz77.v ===== *)
(** * Walking the parse of a block ([src/blockdeflate.c] lines 335-509)

    Four functions walk a block from [nStartOffset] to [nEndOffset] the
    same way, one literal or one match at a time:
    [zultra_build_initial_entropy_lwd] (over the first candidate match of
    each position), [zultra_build_final_entropy_lwd] and
    [zultra_post_optimize_block_lwd] (over [best_match]) and
    [zultra_write_block_lwd].  Each is modelled as its own loop, with fuel
    [nEndOffset - nStartOffset] (every step advances by at least one).

    The parse is also read as a list of LZ77 tokens ([walk]), decoded by
    the RFC 1951 copy semantics ([lz_decode]).  Theorems: the fuel is
    enough; a parse of valid matches decodes to the block; the entropy
    builders count the symbols of the tokens; [zultra_write_block_lwd]
    emits the RFC code of every token, then the end-of-block code; the
    post-optimisation keeps the decoded block and never makes the parse
    dearer. *)

From S2P Require Import Prelude BitWriter Format Tables Huffman Block.
Import BitWriter Format Tables Huffman Block.

Module Lz77.

(** An LZ77 token: a literal byte, or a match of [len] bytes copied from
    [off] bytes back. *)
Inductive token := TLit (b : Z) | TMatch (len off : Z).

(** The walk of the four loops, reading the match of each position from
    [get]: a match of at least [MIN_MATCH_SIZE] bytes, else a literal. *)
Fixpoint walk (get : Z -> zultra_match) (w : list Z) (e : Z) (fuel : nat) (i : Z) : list token :=
  match fuel with
  | O => []
  | S f =>
      if i <? e then
        let pm := get i in
        if MIN_MATCH_SIZE <=? m_length pm then TMatch (m_length pm) (m_offset pm) :: walk get w e f (i + m_length pm)
        else TLit w.[i] :: walk get w e f (i + 1)
      else []
  end.

(** The tokens of the parse [best_match] records for a block. *)
Definition block_tokens (c : compressor) (w : list Z) (s e : Z) : list token :=
  walk (mget (best_match c)) w e (Z.to_nat (e - s)) s.

(** ** RFC 1951 decoding of tokens *)

(** Copy [n] bytes from [off] back, one at a time (the copy may overlap
    what it writes). *)
Fixpoint copy_match (out : list Z) (n : nat) (off : Z) : list Z :=
  match n with
  | O => out
  | S n' => copy_match (out ++ [out.[Z.of_nat (length out) - off]]) n' off
  end.

Fixpoint lz_decode (out : list Z) (ts : list token) : list Z :=
  match ts with
  | [] => out
  | TLit b :: ts' => lz_decode (out ++ [b]) ts'
  | TMatch len off :: ts' => lz_decode (copy_match out (Z.to_nat len) off) ts'
  end.

(** A match at [i] is valid when it copies from inside the window, bytes
    equal to the ones it stands for. *)
Definition match_valid (w : list Z) (i : Z) (pm : zultra_match) : Prop :=
  1 <= m_offset pm <= i /\ forall j, 0 <= j < m_length pm -> w.[i + j] = w.[i - m_offset pm + j].

(** A window of bytes. *)
Definition bytes (w : list Z) : Prop := Forall (fun b => 0 <= b < 256) w.

(** Every match [get] gives in the block ends in the block and is valid. *)
Definition parse_valid (get : Z -> zultra_match) (w : list Z) (s e : Z) : Prop :=
  forall i, s <= i < e -> MIN_MATCH_SIZE <= m_length (get i) ->
    i + m_length (get i) <= e /\ match_valid w i (get i).

(** A checker for [parse_valid]. *)
Definition parse_validb (get : Z -> zultra_match) (w : list Z) (s e : Z) : bool :=
  forallZ (fun i => let pm := get i in
    negb (MIN_MATCH_SIZE <=? m_length pm) ||
    ((i + m_length pm <=? e) && (1 <=? m_offset pm) && (m_offset pm <=? i) &&
     forallZ (fun j => w.[i + j] =? w.[i - m_offset pm + j]) 0 (Z.to_nat (m_length pm))))
    s (Z.to_nat (e - s)).

(** ** The entropy builders (lines 335-402) *)

(** The loop of [zultra_build_initial_entropy_lwd] and
    [zultra_build_final_entropy_lwd]: count the length and offset symbol
    of each match and each literal byte. *)
Fixpoint entropy_loop (get : Z -> zultra_match) (w : list Z) (e : Z) (fuel : nat) (i : Z)
    (lit off : list Z) : list Z * list Z :=
  match fuel with
  | O => (lit, off)
  | S f =>
      if i <? e then
        let pm := get i in
        if MIN_MATCH_SIZE <=? m_length pm then
          entropy_loop get w e f (i + m_length pm)
            (aincr lit (zultra_get_varlen_symbol (m_length pm - MIN_MATCH_SIZE)))
            (aincr off (zultra_get_offset_symbol (m_offset pm)))
        else
          entropy_loop get w e f (i + 1) (if w.[i] <? 256 then aincr lit w.[i] else lit) off
      else (lit, off)
  end.

(** The loop, then the end-of-block symbol, stored in the encoders. *)
Definition build_entropy_lwd (get : Z -> zultra_match) (c : compressor) (w : list Z) (s e : Z) : compressor :=
  let '(lit, off) := entropy_loop get w e (Z.to_nat (e - s)) s
                       (nEntropy (literalsEncoder c)) (nEntropy (offsetEncoder c)) in
  set_offsets (set_literals c (set_entropy (literalsEncoder c) (aincr lit NEODMARKERSYM)))
    (set_entropy (offsetEncoder c) off).

(** [zultra_build_initial_entropy_lwd] (lines 335-363): the greedy parse
    of the first candidate of each position. *)
Definition zultra_build_initial_entropy_lwd (c : compressor) (w : list Z) (s e : Z) : compressor :=
  build_entropy_lwd (fun i => mget (cmatch c) (Z.shiftl i MATCHES_PER_OFFSET_SHIFT)) c w s e.

(** [zultra_build_final_entropy_lwd] (lines 373-402). *)
Definition zultra_build_final_entropy_lwd (c : compressor) (w : list Z) (s e : Z) : compressor :=
  build_entropy_lwd (mget (best_match c)) c w s e.

(** ** [zultra_write_block_lwd] (lines 473-509) *)

Fixpoint write_block_loop (c : compressor) (w : list Z) (e : Z) (fuel : nat) (i : Z) (bw : bitwriter)
    : Z * bitwriter :=
  match fuel with
  | O => (0, bw)
  | S f =>
      if i <? e then
        let pm := mget (best_match c) i in
        if MIN_MATCH_SIZE <=? m_length pm then
          if (m_offset pm <? MIN_OFFSET) || (MAX_OFFSET <? m_offset pm) then (-1, bw)
          else
            let '(st1, bw1) := zultra_write_varlen c bw (m_length pm - MIN_MATCH_SIZE) in
            if st1 <? 0 then (-1, bw1)
            else
              let '(st2, bw2) := zultra_write_offset c bw1 (m_offset pm) in
              if st2 <? 0 then (-1, bw2) else write_block_loop c w e f (i + m_length pm) bw2
        else
          let '(st, bw1) := zultra_write_literal c bw w.[i] in
          if st <? 0 then (-1, bw1) else write_block_loop c w e f (i + 1) bw1
      else (0, bw)
  end.

Definition zultra_write_block_lwd (c : compressor) (bw : bitwriter) (w : list Z) (s e : Z) : Z * bitwriter :=
  let '(st, bw1) := write_block_loop c w e (Z.to_nat (e - s)) s bw in
  if st <? 0 then (-1, bw1)
  else
    let '(st2, bw2) := zultra_huffman_encoder_write_codeword (literalsEncoder c) NEODMARKERSYM bw1 in
    if st2 <? 0 then (-1, bw2) else (0, bw2).

(** The RFC 1951 code of a token, the bits [zultra_get_literal_size],
    [zultra_get_varlen_size] and [zultra_get_offset_size] count for it, and
    the tokens the writers accept (a byte or a match of 3..258 bytes at
    1..32768 back, whose symbols have codewords). *)
Definition token_bits (c : compressor) (t : token) : list bool :=
  match t with
  | TLit b => code_bits (literalsEncoder c) b
  | TMatch l d => len_bits c l ++ dist_bits c d
  end.

Definition token_cost (c : compressor) (t : token) : Z :=
  match t with
  | TLit b => zultra_get_literal_size c b
  | TMatch l d => zultra_get_varlen_size c (l - MIN_MATCH_SIZE) + zultra_get_offset_size c d
  end.

Definition token_ok (c : compressor) (t : token) : Prop :=
  match t with
  | TLit b => 0 <= b < 256 /\ sym_ok (literalsEncoder c) b
  | TMatch l d => MIN_MATCH_SIZE <= l <= MAX_MATCH_SIZE /\ MIN_OFFSET <= d <= MAX_OFFSET /\
      sym_ok (literalsEncoder c) (zultra_get_varlen_symbol (l - MIN_MATCH_SIZE)) /\
      sym_ok (offsetEncoder c) (zultra_get_offset_symbol d)
  end.

#[export] Instance token_ok_dec c t : Decision (token_ok c t).
Proof. destruct t; simpl; apply _. Defined.

(** A token of the RFC 1951 alphabet: a byte, or a match of 3..258 bytes
    at 1..32768 back. *)
Definition token_wf (t : token) : Prop :=
  match t with
  | TLit b => 0 <= b < 256
  | TMatch l d => MIN_MATCH_SIZE <= l <= MAX_MATCH_SIZE /\ MIN_OFFSET <= d <= MAX_OFFSET
  end.

#[export] Instance token_wf_dec t : Decision (token_wf t).
Proof. destruct t; simpl; apply _. Defined.

(** The RFC symbols of a token in the literal/length alphabet and in the
    distance alphabet. *)
Definition token_lit_syms (t : token) : list Z :=
  match t with TLit b => [b] | TMatch l _ => [rfc_len_sym l] end.
Definition token_off_syms (t : token) : list Z :=
  match t with TLit _ => [] | TMatch _ d => [rfc_dist_sym d] end.

(** An example block: [a b c a b c a b] parsed as three literals, a
    match of 4 bytes at offset 3 and a literal, with the static code
    lengths (and codewords left at 0). *)
Definition lz_ex_window : list Z := [97; 98; 99; 97; 98; 99; 97; 98].

Definition lz_ex_compressor : compressor :=
  mk_compressor [] [no_match; no_match; no_match; mk_match 4 3; no_match; no_match; no_match; no_match]
    (replicate 8 0)
    (mk_encoder NLITERALSYMS 15 (replicate 288 0) (replicate 288 0) static_literal_lengths)
    (mk_encoder NOFFSETSYMS 15 (replicate 32 0) (replicate 32 0) static_offset_lengths).

(** ** [zultra_post_optimize_block_lwd] (lines 412-460) *)

(** The cost of a match's bytes as literals (lines 437-446): summed while
    below [nMatchCost]; [None] for a byte without a codeword (the C code's
    [nLiteralsCost = -1]). *)
Fixpoint literals_cost (lens w : list Z) (nStartIdx nMatchLen nMatchCost : Z) (fuel : nat) (j acc : Z) : option Z :=
  match fuel with
  | O => Some acc
  | S f =>
      if (j <? nMatchLen) && (acc <? nMatchCost) then
        let nCurLiteralCost := lens.[w.[nStartIdx + j]] in
        if nCurLiteralCost =? 0 then None
        else literals_cost lens w nStartIdx nMatchLen nMatchCost f (j + 1) (acc + nCurLiteralCost)
      else Some acc
  end.

(** Turn the [n] positions from [nStartIdx] into literals (lines 452-454). *)
Definition clear_lengths (bm : list zultra_match) (nStartIdx n : Z) : list zultra_match :=
  foldl (fun bm j => mset bm (nStartIdx + j) (mk_match 0 (m_offset (mget bm (nStartIdx + j)))))
    bm (zseq 0 (Z.to_nat n)).

Fixpoint post_optimize_loop (c : compressor) (w : list Z) (e : Z) (fuel : nat) (i : Z)
    (bm : list zultra_match) : list zultra_match :=
  match fuel with
  | O => bm
  | S f =>
      if i <? e then
        let pm := mget bm i in
        if MIN_MATCH_SIZE <=? m_length pm then
          let nMatchOffset := m_offset pm in
          let nMatchLen := m_length pm in
          let i' := i + nMatchLen in
          if (nMatchOffset <? MIN_OFFSET) || (MAX_OFFSET <? nMatchOffset) then post_optimize_loop c w e f i' bm
          else
            let nMatchCost := zultra_get_varlen_size c (nMatchLen - MIN_MATCH_SIZE) +
                              zultra_get_offset_size c nMatchOffset in
            match literals_cost (nCodeLength (literalsEncoder c)) w i nMatchLen nMatchCost
                    (Z.to_nat nMatchLen) 0 0 with
            | None => post_optimize_loop c w e f i' bm
            | Some nLiteralsCost =>
                if nLiteralsCost <? nMatchCost then post_optimize_loop c w e f i' (clear_lengths bm i nMatchLen)
                else post_optimize_loop c w e f i' bm
            end
        else post_optimize_loop c w e f (i + 1) bm
      else bm
  end.

Definition zultra_post_optimize_block_lwd (c : compressor) (w : list Z) (s e : Z) : compressor :=
  set_best_match c (post_optimize_loop c w e (Z.to_nat (e - s)) s (best_match c)).

(** ** The walk ends, and decodes to the block *)

Section Walk.
Context (get : Z -> zultra_match) (w : list Z) (e : Z).

(** Fuel [nEndOffset - i] is enough: more fuel gives the same tokens. *)
Lemma walk_fuel f f' i : (Z.to_nat (e - i) <= f)%nat -> (f <= f')%nat -> walk get w e f i = walk get w e f' i.
Proof.
  revert f' i. induction f as [|f IH]; intros f' i Hf Hf'.
  - destruct f' as [|f']; [done |]. simpl. rewrite (proj2 (Z.ltb_ge _ _)) by lia. done.
  - destruct f' as [|f']; [lia |]. simpl.
    destruct (i <? e) eqn:E; [| done]. destruct (MIN_MATCH_SIZE <=? m_length (get i)) eqn:E2; bool_to_prop;
      (f_equal; apply IH; [unfold MIN_MATCH_SIZE in *; lia | lia]).
Qed.

End Walk.

Lemma lz_decode_app out ts1 ts2 : lz_decode out (ts1 ++ ts2) = lz_decode (lz_decode out ts1) ts2.
Proof. revert out. induction ts1 as [|[b | l o] ts1 IH]; intros out; simpl; auto. Qed.

Lemma take_snoc_aget (w : list Z) i : 0 <= i < Z.of_nat (length w) -> take (Z.to_nat i) w ++ [w.[i]] = take (Z.to_nat (i + 1)) w.
Proof.
  intros Hi. replace (Z.to_nat (i + 1)) with (S (Z.to_nat i)) by lia.
  rewrite (take_S_r w (Z.to_nat i) w.[i]); [done |]. apply aget_lookup. lia.
Qed.

Lemma aget_take (w : list Z) n j : 0 <= j < Z.of_nat n -> (take n w).[j] = w.[j].
Proof.
  intros Hj. unfold aget. rewrite lookup_take_lt by lia. done.
Qed.

(** A valid copy of [n] bytes from [off] back extends the decoded prefix. *)
Lemma copy_match_valid (w : list Z) n i off :
  1 <= off <= i -> i + Z.of_nat n <= Z.of_nat (length w) ->
  (forall j, 0 <= j < Z.of_nat n -> w.[i + j] = w.[i - off + j]) ->
  copy_match (take (Z.to_nat i) w) n off = take (Z.to_nat (i + Z.of_nat n)) w.
Proof.
  revert i. induction n as [|n IH]; intros i Ho Hl Hw; simpl.
  - by rewrite Z.add_0_r.
  - rewrite length_take, Nat.min_l by lia. rewrite Z2Nat.id by lia.
    rewrite aget_take by lia. rewrite <- (Z.add_0_r (i - off)), <- Hw, Z.add_0_r by lia.
    rewrite take_snoc_aget by lia. rewrite IH by (try lia; intros j Hj; rewrite <- Z.add_assoc, Hw by lia; f_equal; lia).
    f_equal. lia.
Qed.

Lemma parse_valid_from get w s e s' : s <= s' -> parse_valid get w s e -> parse_valid get w s' e.
Proof. intros Hs Hv i Hi. apply Hv. lia. Qed.

(** The tokens of a valid parse decode, after the bytes before the block,
    to the bytes up to the block's end. *)
Lemma walk_decode get w e f i :
  0 <= i <= e -> e <= Z.of_nat (length w) -> (Z.to_nat (e - i) <= f)%nat -> parse_valid get w i e ->
  lz_decode (take (Z.to_nat i) w) (walk get w e f i) = take (Z.to_nat e) w.
Proof.
  revert i. induction f as [|f IH]; intros i Hi Hl Hf Hv; simpl.
  - by replace i with e by lia.
  - destruct (i <? e) eqn:E; bool_to_prop; [| by replace i with e by lia].
    destruct (MIN_MATCH_SIZE <=? m_length (get i)) eqn:E2; bool_to_prop; simpl.
    + destruct (Hv i ltac:(lia) E2) as (Hend & Ho & Hw). unfold MIN_MATCH_SIZE in E2.
      rewrite <- (Z2Nat.id (m_length (get i))) in Hw, Hend by lia.
      rewrite copy_match_valid by (try done; lia). rewrite Z2Nat.id in * by lia.
      apply IH; [lia | done | lia | apply (parse_valid_from _ _ i); [lia | done]].
    + rewrite take_snoc_aget by lia. apply IH; [lia | done | lia | apply (parse_valid_from _ _ i); [lia | done]].
Qed.


(** ** [zultra_write_block_lwd] emits the RFC code of the tokens *)

Lemma token_bits_cost c t : token_ok c t -> Z.of_nat (length (token_bits c t)) = token_cost c t.
Proof.
  destruct t as [b | l d]; simpl.
  - intros (Hb & Hok). pose proof Hok as (_ & Hl & _). unfold zultra_get_literal_size.
    rewrite (proj2 (Z.ltb_lt _ _)) by lia. apply length_code_bits; lia.
  - intros (Hl & Hd & H1 & H2). rewrite length_app, Nat2Z.inj_add, varlen_size_bits, offset_size_bits by done. done.
Qed.

Lemma tokens_bits_cost c ts :
  Forall (token_ok c) ts -> Z.of_nat (length (mjoin (map (token_bits c) ts))) = zsum (token_cost c) ts.
Proof.
  induction 1 as [| t ts Ht _ IH]; [done |]. rewrite zsum_cons. simpl. rewrite length_app, Nat2Z.inj_add, IH.
  by rewrite token_bits_cost.
Qed.

Lemma tokens_cost_nonneg c ts : Forall (token_ok c) ts -> 0 <= zsum (token_cost c) ts.
Proof. intros H. rewrite <- tokens_bits_cost by done. lia. Qed.

Lemma write_block_loop_ok c w e f i bw :
  Forall (token_ok c) (walk (mget (best_match c)) w e f i) -> bw_inv bw ->
  room bw (zsum (token_cost c) (walk (mget (best_match c)) w e f i)) ->
  exists bw', write_block_loop c w e f i bw = (0, bw') /\ bw_inv bw' /\
    nMaxOutDataOffset bw' = nMaxOutDataOffset bw /\
    bw_stream bw' = bw_stream bw ++ mjoin (map (token_bits c) (walk (mget (best_match c)) w e f i)).
Proof.
  revert i bw. induction f as [|f IH]; intros i bw Hok Hinv Hr; simpl.
  - exists bw. by rewrite app_nil_r.
  - simpl in Hok, Hr. destruct (i <? e); [| exists bw; by rewrite app_nil_r].
    destruct (MIN_MATCH_SIZE <=? m_length (mget (best_match c) i)) eqn:E.
    + set (pm := mget (best_match c) i) in *.
      apply Forall_cons in Hok as [(Hl & Hd & H1 & H2) Hrest]. rewrite zsum_cons in Hr. simpl in Hr.
      pose proof (tokens_cost_nonneg c _ Hrest).
      pose proof (varlen_size_bits c _ Hl H1). pose proof (offset_size_bits c _ Hd H2).
      rewrite (proj2 (Z.ltb_ge _ _)), (proj2 (Z.ltb_ge _ _)) by (unfold MIN_OFFSET, MAX_OFFSET in *; lia). simpl.
      destruct (write_varlen_ok c bw _ Hl H1 Hinv) as (bw1 & W1 & I1 & M1 & S1 & _); [eapply room_le; [| exact Hr]; lia |].
      rewrite W1. simpl.
      destruct (write_offset_ok c bw1 _ Hd H2 I1) as (bw2 & W2 & I2 & M2 & S2 & _).
      { apply (room_after bw bw1 (len_bits c (m_length pm))); [done | done | done | done |].
        eapply room_le; [| exact Hr]; lia. }
      rewrite W2. simpl.
      destruct (IH (i + m_length pm) bw2 Hrest I2) as (bw3 & W3 & I3 & M3 & S3).
      { apply (room_after bw1 bw2 (dist_bits c (m_offset pm))); [done | done | done | done |].
        apply (room_after bw bw1 (len_bits c (m_length pm))); [done | done | done | done |].
        eapply room_le; [| exact Hr]; lia. }
      exists bw3. split; [done | split; [done | split; [congruence |]]].
      rewrite S3, S2, S1. simpl. by rewrite !app_assoc.
    + apply Forall_cons in Hok as [(Hb & H1) Hrest]. rewrite zsum_cons in Hr. simpl in Hr.
      pose proof (tokens_cost_nonneg c _ Hrest). pose proof (token_bits_cost c (TLit w.[i]) (conj Hb H1)) as Hc.
      simpl in Hc.
      destruct (write_literal_ok c bw _ Hb H1 Hinv) as (bw1 & W1 & I1 & M1 & S1 & _); [eapply room_le; [| exact Hr]; lia |].
      rewrite W1. simpl.
      destruct (IH (i + 1) bw1 Hrest I1) as (bw2 & W2 & I2 & M2 & S2).
      { apply (room_after bw bw1 (code_bits (literalsEncoder c) w.[i])); [done | done | done | done |].
        eapply room_le; [| exact Hr]; lia. }
      exists bw2. split; [done | split; [done | split; [congruence |]]].
      rewrite S2, S1. simpl. by rewrite !app_assoc.
Qed.

(** C2. [zultra_write_block_lwd] writes the block as RFC 1951 compressed
    data: when every token of the parse in [best_match] can be written and
    the output has room, it returns 0 after emitting the RFC code of each
    token in order, then the end-of-block codeword; the bits of the tokens
    are exactly the sum of the sizes the cost functions give them. *)
Theorem write_block_emits c bw w s e :
  Forall (token_ok c) (block_tokens c w s e) -> sym_ok (literalsEncoder c) NEODMARKERSYM -> bw_inv bw ->
  room bw (zsum (token_cost c) (block_tokens c w s e) + (nCodeLength (literalsEncoder c)).[NEODMARKERSYM]) ->
  exists bw', zultra_write_block_lwd c bw w s e = (0, bw') /\ bw_inv bw' /\
    bw_stream bw' = bw_stream bw ++ mjoin (map (token_bits c) (block_tokens c w s e)) ++
                    code_bits (literalsEncoder c) NEODMARKERSYM /\
    Z.of_nat (length (mjoin (map (token_bits c) (block_tokens c w s e)))) = zsum (token_cost c) (block_tokens c w s e).
Proof.
  unfold block_tokens. intros Hok Heod Hinv Hr.
  pose proof (tokens_cost_nonneg c _ Hok). pose proof (tokens_bits_cost c _ Hok). pose proof Heod as (_ & Hl & _).
  destruct (write_block_loop_ok c w e (Z.to_nat (e - s)) s bw Hok Hinv) as (bw1 & W1 & I1 & M1 & S1);
    [eapply room_le; [| exact Hr]; lia |].
  destruct (write_codeword_ok (literalsEncoder c) NEODMARKERSYM bw1 Heod I1) as (bw2 & W2 & I2 & S2 & _).
  { eapply room_after; [exact Hinv | exact I1 | exact S1 | exact M1 |]. eapply room_le; [| exact Hr]. lia. }
  exists bw2. unfold zultra_write_block_lwd. rewrite W1. simpl. rewrite W2. simpl.
  split; [done | split; [done |]]. split; [| done].
  rewrite S2, S1. unfold code_bits. by rewrite app_assoc.
Qed.

(** C3. The parse [best_match] records decodes to the block: when every
    match of the parse copies bytes equal to the ones it stands for from
    inside the window, decoding its tokens after the bytes before the block
    gives the window up to the block's end. *)
Theorem block_tokens_decode c w s e :
  0 <= s <= e -> e <= Z.of_nat (length w) -> parse_valid (mget (best_match c)) w s e ->
  lz_decode (take (Z.to_nat s) w) (block_tokens c w s e) = take (Z.to_nat e) w.
Proof. intros Hs He Hv. apply walk_decode; [lia | done | lia | done]. Qed.

(** ** The entropy builders count the RFC symbols of the tokens *)

Lemma entropy_loop_walk get w e f i lit off :
  Forall token_wf (walk get w e f i) ->
  entropy_loop get w e f i lit off =
    (foldl aincr lit (mjoin (map token_lit_syms (walk get w e f i))),
     foldl aincr off (mjoin (map token_off_syms (walk get w e f i)))).
Proof.
  revert i lit off. induction f as [|f IH]; intros i lit off Hwf; simpl; [done |].
  simpl in Hwf. destruct (i <? e); [| done].
  destruct (MIN_MATCH_SIZE <=? m_length (get i)).
  - apply Forall_cons in Hwf as [(Hl & Hd) Hrest]. rewrite IH by done. simpl.
    rewrite (proj1 (varlen_symbol_rfc _ Hl)), (proj1 (offset_symbol_rfc _ Hd)). done.
  - apply Forall_cons in Hwf as [Hb Hrest]. simpl in Hb. rewrite (proj2 (Z.ltb_lt _ _)) by lia.
    rewrite IH by done. done.
Qed.

Lemma token_syms_nonneg ts :
  Forall token_wf ts ->
  Forall (fun x => 0 <= x) (mjoin (map token_lit_syms ts)) /\ Forall (fun x => 0 <= x) (mjoin (map token_off_syms ts)).
Proof.
  induction 1 as [| t ts Ht _ [IH1 IH2]]; [done |]. destruct t as [b | l d]; simpl in *.
  - split; [constructor; [lia | done] | done].
  - destruct Ht as (Hl & Hd). pose proof (proj2 (varlen_symbol_rfc _ Hl)). pose proof (proj2 (offset_symbol_rfc _ Hd)).
    unfold NMATCHLENSYMSTART in *. split; (constructor; [lia | done]).
Qed.

Lemma length_foldl_aincr a l : length (foldl aincr a l) = length a.
Proof. revert a. induction l as [|x l IH]; intros a; simpl; [done |]. rewrite IH. apply length_aincr. Qed.

Lemma final_entropy_at c w s e :
  Forall token_wf (block_tokens c w s e) ->
  NLITERALSYMS <= Z.of_nat (length (nEntropy (literalsEncoder c))) ->
  NOFFSETSYMS <= Z.of_nat (length (nEntropy (offsetEncoder c))) ->
  let c' := zultra_build_final_entropy_lwd c w s e in
  (forall k, 0 <= k < NLITERALSYMS ->
     (nEntropy (literalsEncoder c')).[k] = (nEntropy (literalsEncoder c)).[k] +
       zcount k (mjoin (map token_lit_syms (block_tokens c w s e))) + (if k =? NEODMARKERSYM then 1 else 0)) /\
  (forall k, 0 <= k < NOFFSETSYMS ->
     (nEntropy (offsetEncoder c')).[k] = (nEntropy (offsetEncoder c)).[k] +
       zcount k (mjoin (map token_off_syms (block_tokens c w s e)))).
Proof.
  intros Hwf Hl Ho. unfold block_tokens in *. destruct (token_syms_nonneg _ Hwf) as (N1 & N2).
  unfold zultra_build_final_entropy_lwd, build_entropy_lwd. rewrite entropy_loop_walk by done. simpl.
  split; intros k Hk.
  - unfold aincr. destruct (Z.eq_dec k NEODMARKERSYM) as [-> | Hne].
    + rewrite aget_aset_eq by (rewrite length_foldl_aincr; unfold NEODMARKERSYM, NLITERALSYMS in *; lia).
      rewrite aget_foldl_aincr by (try done; unfold NEODMARKERSYM, NLITERALSYMS in *; lia). simpl. lia.
    + rewrite aget_aset_ne by (unfold NEODMARKERSYM in *; lia).
      rewrite aget_foldl_aincr by (try done; lia). rewrite (proj2 (Z.eqb_neq _ _)) by done. lia.
  - rewrite aget_foldl_aincr by (try done; lia). done.
Qed.

(** C29. [zultra_build_final_entropy_lwd] counts the symbols of the RFC
    code of the parse: for a parse of RFC tokens, each literal/length
    symbol's count grows by the number of tokens coded with it (plus one
    for the end-of-block symbol), and each distance symbol's count by the
    number of matches coded with it. *)
Theorem final_entropy_counts c w s e :
  Forall token_wf (block_tokens c w s e) ->
  NLITERALSYMS <= Z.of_nat (length (nEntropy (literalsEncoder c))) ->
  NOFFSETSYMS <= Z.of_nat (length (nEntropy (offsetEncoder c))) ->
  let c' := zultra_build_final_entropy_lwd c w s e in
  (forall k, 0 <= k < NLITERALSYMS ->
     (nEntropy (literalsEncoder c')).[k] = (nEntropy (literalsEncoder c)).[k] +
       zcount k (mjoin (map token_lit_syms (block_tokens c w s e))) + (if k =? NEODMARKERSYM then 1 else 0)) /\
  (forall k, 0 <= k < NOFFSETSYMS ->
     (nEntropy (offsetEncoder c')).[k] = (nEntropy (offsetEncoder c)).[k] +
       zcount k (mjoin (map token_off_syms (block_tokens c w s e)))).
Proof. apply final_entropy_at. Qed.

(** ** The post-optimisation keeps the block and never costs more *)

(** The walk from [i] reads [get] from [i] on only. *)
Lemma walk_local get get' w e f i :
  (forall j, i <= j -> get j = get' j) -> walk get w e f i = walk get' w e f i.
Proof.
  revert i. induction f as [|f IH]; intros i H; simpl; [done |].
  rewrite <- (H i) by lia. destruct (i <? e) eqn:E; [| done]. bool_to_prop.
  destruct (MIN_MATCH_SIZE <=? m_length (get i)) eqn:E2; bool_to_prop; f_equal; apply IH; intros j Hj; apply H;
    unfold MIN_MATCH_SIZE in *; lia.
Qed.

(** Over positions without a match, the walk reads literals. *)
Lemma walk_literals get w e f i (n : nat) :
  i + Z.of_nat n <= e -> (n <= f)%nat -> (forall j, i <= j < i + Z.of_nat n -> m_length (get j) < MIN_MATCH_SIZE) ->
  walk get w e f i = map (fun j => TLit w.[j]) (zseq i n) ++ walk get w e (f - n) (i + Z.of_nat n).
Proof.
  revert i f. induction n as [|n IH]; intros i f Hn Hf Hl.
  - simpl. by rewrite Nat.sub_0_r, Z.add_0_r.
  - destruct f as [|f]; [lia |]. rewrite zseq_S. cbn [walk map app].
    rewrite (proj2 (Z.ltb_lt _ _)) by lia. rewrite (proj2 (Z.leb_gt _ _)) by (apply Hl; lia).
    rewrite IH by (try lia; intros j Hj; apply Hl; lia). simpl. do 3 f_equal. lia.
Qed.

(** [literals_cost] either gives up (a byte without a codeword), stops at
    [nMatchCost], or sums the codeword lengths of all the bytes. *)
Lemma literals_cost_sum lens w st len M f j acc a :
  0 <= j <= len -> (Z.to_nat (len - j) <= f)%nat ->
  literals_cost lens w st len M f j acc = Some a -> a < M ->
  a = acc + zsum (fun k => lens.[w.[k]]) (zseq (st + j) (Z.to_nat (len - j))).
Proof.
  revert j acc. induction f as [|f IH]; intros j acc Hj Hf Hc Ha; simpl in Hc.
  - injection Hc as <-. replace (Z.to_nat (len - j)) with O by lia. simpl. lia.
  - destruct ((j <? len) && (acc <? M)) eqn:E.
    + bool_to_prop. destruct (lens.[w.[st + j]] =? 0); [done |].
      rewrite (IH (j + 1) _ ltac:(lia) ltac:(lia) Hc Ha).
      replace (Z.to_nat (len - j)) with (S (Z.to_nat (len - (j + 1)))) by lia.
      rewrite zseq_S, zsum_cons. replace (st + j + 1) with (st + (j + 1)) by lia. lia.
    + injection Hc as <-. apply andb_false_iff in E as [E | E]; bool_to_prop; [| lia].
      replace (Z.to_nat (len - j)) with O by lia. simpl. lia.
Qed.

Lemma length_foldl_clear bm st l :
  length (foldl (fun bm j => mset bm (st + j) (mk_match 0 (m_offset (mget bm (st + j))))) bm l) = length bm.
Proof. revert bm. induction l as [|x l IH]; intros bm; simpl; [done |]. by rewrite IH, length_mset. Qed.

Lemma length_clear_lengths bm st n : length (clear_lengths bm st n) = length bm.
Proof. apply length_foldl_clear. Qed.

Lemma mget_clear_lengths bm st n j :
  0 <= st -> 0 <= j -> st + n <= Z.of_nat (length bm) ->
  mget (clear_lengths bm st n) j =
    if decide (st <= j < st + n) then mk_match 0 (m_offset (mget bm j)) else mget bm j.
Proof.
  intros Hst Hj Hn. unfold clear_lengths.
  destruct (decide (0 <= n)) as [Hn0 | Hn0]; [| replace (Z.to_nat n) with O by lia; simpl; case_decide; [lia | done]].
  rewrite <- (Z2Nat.id n) in Hn |- * by lia. revert Hn. generalize (Z.to_nat n) as k. clear Hn0. intros k Hk. rewrite Nat2Z.id.
  induction k as [|k IH]; [simpl; case_decide; [lia | done] |].
  replace (S k) with (k + 1)%nat by lia. rewrite (zseq_app 0 k 1), foldl_app, zseq_S.
  change (zseq _ 0) with (@nil Z). cbn [foldl]. rewrite Nat2Z.inj_add in *.
  replace (0 + Z.of_nat k) with (Z.of_nat k) by lia.
  destruct (Z.eq_dec j (st + Z.of_nat k)) as [-> | Hne].
  - rewrite mget_mset_eq by (rewrite length_foldl_clear; lia).
    rewrite IH by lia. case_decide; [lia |]. case_decide; [done | lia].
  - rewrite mget_mset_ne by lia. rewrite IH by lia. repeat case_decide; try done; lia.
Qed.

Lemma bytes_aget w j : bytes w -> 0 <= w.[j] < 256.
Proof.
  intros Hw. unfold aget. destruct (w !! Z.to_nat j) as [b|] eqn:E; [| lia].
  eapply Forall_lookup_1 in Hw; [exact Hw | exact E].
Qed.

Lemma walk_unfold_lit get w e i :
  i < e -> m_length (get i) < MIN_MATCH_SIZE ->
  walk get w e (Z.to_nat (e - i)) i = TLit w.[i] :: walk get w e (Z.to_nat (e - (i + 1))) (i + 1).
Proof.
  intros Hi Hl. replace (Z.to_nat (e - i)) with (S (Z.to_nat (e - (i + 1)))) by lia. simpl.
  rewrite (proj2 (Z.ltb_lt _ _)), (proj2 (Z.leb_gt _ _)) by lia. done.
Qed.

Lemma walk_unfold_match get w e i :
  i < e -> MIN_MATCH_SIZE <= m_length (get i) -> i + m_length (get i) <= e ->
  walk get w e (Z.to_nat (e - i)) i =
    TMatch (m_length (get i)) (m_offset (get i)) :: walk get w e (Z.to_nat (e - (i + m_length (get i)))) (i + m_length (get i)).
Proof.
  intros Hi Hl He. unfold MIN_MATCH_SIZE in *.
  replace (Z.to_nat (e - i)) with (S (Z.to_nat (e - i) - 1)) by lia. simpl.
  rewrite (proj2 (Z.ltb_lt _ _)), (proj2 (Z.leb_le _ _)) by (unfold MIN_MATCH_SIZE; lia).
  f_equal. symmetry. apply walk_fuel; lia.
Qed.

Lemma zsum_lits c w l :
  bytes w -> zsum (token_cost c) (map (fun j => TLit w.[j]) l) = zsum (fun k => (nCodeLength (literalsEncoder c)).[w.[k]]) l.
Proof.
  intros Hw. induction l as [|k l IH]; [done |]. simpl map. rewrite !zsum_cons, IH. simpl.
  unfold zultra_get_literal_size. pose proof (bytes_aget w k Hw). rewrite (proj2 (Z.ltb_lt _ _)) by lia. done.
Qed.

Section PostOptimize.
Context (c : compressor) (w : list Z) (e : Z).
Hypothesis Hbytes : bytes w.

(** The cost of the walk from [i]. *)
Let wcost (bm : list zultra_match) (i : Z) : Z := zsum (token_cost c) (walk (mget bm) w e (Z.to_nat (e - i)) i).

Lemma wcost_local bm bm' i : (forall j, i <= j -> mget bm j = mget bm' j) -> wcost bm i = wcost bm' i.
Proof. intros H. unfold wcost. by rewrite (walk_local (mget bm) (mget bm')). Qed.

(** One loop of [zultra_post_optimize_block_lwd] from [i]: it changes
    positions from [i] on only, keeps the parse valid, and does not make
    the walk from [i] dearer. *)
Lemma post_optimize_loop_spec f i bm :
  0 <= i <= e -> (Z.to_nat (e - i) <= f)%nat -> e <= Z.of_nat (length bm) -> parse_valid (mget bm) w i e ->
  let bm' := post_optimize_loop c w e f i bm in
  length bm' = length bm /\ (forall j, 0 <= j < i -> mget bm' j = mget bm j) /\
  parse_valid (mget bm') w i e /\ wcost bm' i <= wcost bm i.
Proof.
  revert i bm. induction f as [|f IH]; intros i bm Hi Hf Hl Hv; cbn zeta.
  - simpl. split; [done | split; [done | split; [done | lia]]].
  - cbn [post_optimize_loop]. destruct (i <? e) eqn:Ei; bool_to_prop; [| split; [done | split; [done | split; [done | lia]]]].
    set (pm := mget bm i).
    destruct (MIN_MATCH_SIZE <=? m_length pm) eqn:Em; bool_to_prop.
    + (* a match: kept or turned into literals *)
      destruct (Hv i ltac:(lia) Em) as (Hend & Hoff & Hw). fold pm in Hend, Hoff, Hw.
      assert (Hkept : forall bm', length bm' = length bm -> (forall j, 0 <= j < i + m_length pm -> mget bm' j = mget bm j) ->
                parse_valid (mget bm') w (i + m_length pm) e -> wcost bm' (i + m_length pm) <= wcost bm (i + m_length pm) ->
                length bm' = length bm /\ (forall j, 0 <= j < i -> mget bm' j = mget bm j) /\
                parse_valid (mget bm') w i e /\ wcost bm' i <= wcost bm i).
      { intros bm' L1 P1 V1 C1. split; [done | split; [intros j Hj; apply P1; unfold MIN_MATCH_SIZE in *; lia |]].
        split.
        - intros j Hj Hm. destruct (decide (j < i + m_length pm)).
          + rewrite P1 in Hm |- * by lia. apply Hv; [lia | done].
          + apply V1; [lia | done].
        - assert (Hi' : mget bm' i = pm) by (apply P1; unfold MIN_MATCH_SIZE in *; lia).
          unfold wcost. rewrite (walk_unfold_match (mget bm') w e i) by (rewrite ?Hi'; lia).
          rewrite (walk_unfold_match (mget bm) w e i) by (fold pm; lia). rewrite Hi'. fold pm. rewrite !zsum_cons. fold (wcost bm' (i + m_length pm)) (wcost bm (i + m_length pm)). lia. }
      destruct (IH (i + m_length pm) bm ltac:(unfold MIN_MATCH_SIZE in *; lia) ltac:(unfold MIN_MATCH_SIZE in *; lia) Hl
        ltac:(apply (parse_valid_from _ _ i); [unfold MIN_MATCH_SIZE in *; lia | done])) as (L1 & P1 & V1 & C1).
      destruct ((m_offset pm <? MIN_OFFSET) || (MAX_OFFSET <? m_offset pm)); [apply Hkept; auto |].
      destruct (literals_cost _ _ _ _ _ _ _ _) as [nLit|] eqn:Elit; [| apply Hkept; auto].
      destruct (nLit <? _) eqn:Elt; bool_to_prop; [| apply Hkept; auto].
      (* cheaper as literals: the match's positions are cleared *)
      set (L := m_length pm) in *. assert (HL : 3 <= L) by (unfold MIN_MATCH_SIZE in Em; lia). set (bm1 := clear_lengths bm i L).
      assert (Lb1 : length bm1 = length bm) by apply length_clear_lengths.
      assert (Mb1 : forall j, 0 <= j -> mget bm1 j =
        if decide (i <= j < i + L) then mk_match 0 (m_offset (mget bm j)) else mget bm j).
      { intros j Hj. apply mget_clear_lengths; lia. }
      destruct (IH (i + L) bm1 ltac:(lia) ltac:(lia)
        ltac:(lia)) as (L2 & P2 & V2 & C2).
      { intros j Hj Hm. rewrite Mb1 in Hm |- * by lia. case_decide; [lia |]. apply Hv; [lia | done]. }
      set (bm' := post_optimize_loop c w e f (i + L) bm1) in *.
      assert (Hz : forall j, i <= j < i + L -> m_length (mget bm' j) = 0).
      { intros j Hj. rewrite P2, Mb1 by lia. case_decide; [done | lia]. }
      split; [congruence | split; [intros j Hj; rewrite P2, Mb1 by lia; case_decide; [lia | done] |]]. split.
      * intros j Hj Hm. destruct (decide (j < i + L)); [rewrite Hz in Hm by lia; unfold MIN_MATCH_SIZE in Hm; lia |].
        apply V2; [lia | done].
      * pose proof (fun H1 H2 => literals_cost_sum _ _ _ _ _ _ 0 0 _ H1 H2 Elit Elt) as Hsum.
        specialize (Hsum ltac:(lia) ltac:(lia)).
        rewrite Z.add_0_r, Z.sub_0_r in Hsum.
        assert (Hw' : wcost bm' i = nLit + wcost bm' (i + L)).
        { unfold wcost. rewrite (walk_literals _ _ _ _ i (Z.to_nat L)); [| lia | lia |].
          2:{ intros j Hj. rewrite Hz by lia. unfold MIN_MATCH_SIZE. lia. }
          rewrite zsum_app, zsum_lits, Hsum by done. rewrite Z2Nat.id by lia.
          do 3 f_equal. lia. }
        assert (Hb : wcost bm i = zultra_get_varlen_size c (L - MIN_MATCH_SIZE) + zultra_get_offset_size c (m_offset pm) +
                                  wcost bm (i + L)).
        { unfold wcost. rewrite walk_unfold_match by (fold pm; lia). fold pm L. rewrite zsum_cons. done. }
        assert (Hloc : wcost bm1 (i + L) = wcost bm (i + L)).
        { apply wcost_local. intros j Hj. rewrite Mb1 by lia. case_decide; [lia | done]. }
        lia.
    + (* a literal *)
      destruct (IH (i + 1) bm ltac:(lia) ltac:(lia) Hl ltac:(apply (parse_valid_from _ _ i); [lia | done])) as (L1 & P1 & V1 & C1).
      split; [done | split; [intros j Hj; apply P1; lia |]]. split.
      * intros j Hj Hm. destruct (Z.eq_dec j i) as [-> | ?]; [rewrite P1 in Hm by lia; fold pm in Hm; lia | apply V1; [lia | done]].
      * unfold wcost. rewrite (walk_unfold_lit (mget (post_optimize_loop c w e f (i + 1) bm)) w e i), (walk_unfold_lit (mget bm) w e i);
          [| lia | done | lia | rewrite P1 by lia; done].
        rewrite !zsum_cons. fold (wcost (post_optimize_loop c w e f (i + 1) bm) (i + 1)) (wcost bm (i + 1)). lia.
Qed.

End PostOptimize.

(** C15. [zultra_post_optimize_block_lwd] is safe and never loses: on a
    window of bytes whose parse is valid, the parse it leaves still decodes
    to the block, and the bits of the tokens, costed with the final code
    lengths, do not grow (a match is replaced by literals only when the
    literals are strictly cheaper). *)
Theorem post_optimize_keeps_block c w s e :
  0 <= s <= e -> e <= Z.of_nat (length w) -> bytes w -> e <= Z.of_nat (length (best_match c)) ->
  parse_valid (mget (best_match c)) w s e ->
  let c' := zultra_post_optimize_block_lwd c w s e in
  lz_decode (take (Z.to_nat s) w) (block_tokens c' w s e) = take (Z.to_nat e) w /\
  zsum (token_cost c') (block_tokens c' w s e) <= zsum (token_cost c) (block_tokens c w s e).
Proof.
  intros Hs Hw Hb Hl Hv.
  destruct (post_optimize_loop_spec c w e Hb (Z.to_nat (e - s)) s (best_match c) ltac:(lia) ltac:(lia) Hl Hv)
    as (_ & _ & V & C).
  split; [apply walk_decode; [lia | done | lia | done] | exact C].
Qed.

Lemma parse_validb_spec get w s e : parse_validb get w s e = true -> parse_valid get w s e.
Proof.
  intros H i Hi Hm. pose proof (forallZ_spec _ _ _ H i ltac:(lia)) as Hb. cbv beta zeta in Hb.
  rewrite (proj2 (Z.leb_le _ _) Hm) in Hb. simpl in Hb. bool_to_prop.
  split; [done | split; [lia |]]. intros j Hj.
  pose proof (forallZ_spec _ _ _ H1 j ltac:(lia)) as Hj'. by apply Z.eqb_eq in Hj'.
Qed.

(** ** Witnesses on the example block *)

Lemma write_block_emits_witness :
  exists bw', zultra_write_block_lwd lz_ex_compressor (bitwriter_init (replicate 64 0) 0 64) lz_ex_window 0 8 = (0, bw') /\
    bw_inv bw' /\
    bw_stream bw' = bw_stream (bitwriter_init (replicate 64 0) 0 64) ++
      mjoin (map (token_bits lz_ex_compressor) (block_tokens lz_ex_compressor lz_ex_window 0 8)) ++
      code_bits (literalsEncoder lz_ex_compressor) NEODMARKERSYM /\
    Z.of_nat (length (mjoin (map (token_bits lz_ex_compressor) (block_tokens lz_ex_compressor lz_ex_window 0 8)))) =
      zsum (token_cost lz_ex_compressor) (block_tokens lz_ex_compressor lz_ex_window 0 8).
Proof. apply write_block_emits; [decide_by_eval | decide_by_eval | decide_by_eval | unfold room; decide_by_eval]. Defined.

Lemma block_tokens_decode_witness :
  lz_decode (take (Z.to_nat 0) lz_ex_window) (block_tokens lz_ex_compressor lz_ex_window 0 8) = take (Z.to_nat 8) lz_ex_window.
Proof.
  apply block_tokens_decode; [lia | vm_compute; discriminate | apply parse_validb_spec; vm_compute; reflexivity].
Defined.

Lemma final_entropy_counts_witness :
  let c' := zultra_build_final_entropy_lwd lz_ex_compressor lz_ex_window 0 8 in
  (forall k, 0 <= k < NLITERALSYMS ->
     (nEntropy (literalsEncoder c')).[k] = (nEntropy (literalsEncoder lz_ex_compressor)).[k] +
       zcount k (mjoin (map token_lit_syms (block_tokens lz_ex_compressor lz_ex_window 0 8))) + (if k =? NEODMARKERSYM then 1 else 0)) /\
  (forall k, 0 <= k < NOFFSETSYMS ->
     (nEntropy (offsetEncoder c')).[k] = (nEntropy (offsetEncoder lz_ex_compressor)).[k] +
       zcount k (mjoin (map token_off_syms (block_tokens lz_ex_compressor lz_ex_window 0 8)))).
Proof. apply final_entropy_counts; decide_by_eval. Defined.

Lemma post_optimize_keeps_block_witness :
  let c' := zultra_post_optimize_block_lwd lz_ex_compressor lz_ex_window 0 8 in
  lz_decode (take (Z.to_nat 0) lz_ex_window) (block_tokens c' lz_ex_window 0 8) = take (Z.to_nat 8) lz_ex_window /\
  zsum (token_cost c') (block_tokens c' lz_ex_window 0 8) <= zsum (token_cost lz_ex_compressor) (block_tokens lz_ex_compressor lz_ex_window 0 8).
Proof.
  apply post_optimize_keeps_block;
    [lia | vm_compute; discriminate | decide_by_eval | vm_compute; discriminate |
     apply parse_validb_spec; vm_compute; reflexivity].
Defined.

End Lz77.
