(* ===== verification/Deflate.v ===== *)
(** * Cost evaluation and the block encoder ([src/blockdeflate.c] lines 521-620, 829-999)

    [zultra_block_prepare_cost_evaluation] counts the greedy parse of a
    block; [zultra_block_evaluate_static_cost] and
    [zultra_block_evaluate_dynamic_cost] turn the counts into an estimate
    of the block's size in bits; [zultra_block_deflate] drives the whole
    encoding of one block: static tables, or the convergence passes of the
    optimiser and the dynamic tables with the best run-length mask, then
    the block data.

    [zultra_huffman_encoder_optimize_for_rle] is declared in
    [huffman/huffutils.h] but its source is not in the repository: the
    block encoder is defined for any implementation of it (a [Context] of
    the section).

    Theorems: the data part of the dynamic estimate is exactly the number
    of bits the block writer emits for the parse it was counted from; the
    mask search picks a mask whose table cost is the least of all masks it
    tries; after the last convergence pass at least two distance symbols
    are used. *)

From S2P Require Import Prelude BitWriter Format Tables Huffman CodeLengths Block Parser Lz77.
Import BitWriter Format Tables Huffman CodeLengths Block Parser Lz77.

Module Deflate.

(** The two [zultra_huffman_encoder_init] calls that open
    [zultra_block_prepare_cost_evaluation] and [zultra_block_deflate]
    (lines 522-524 and 834-836). *)
Definition init_encoders (c : compressor) : Z * compressor :=
  let '(r1, le) := zultra_huffman_encoder_init (literalsEncoder c) NLITERALSYMS 15 0 in
  if r1 <? 0 then (-1, c)
  else
    let '(r2, oe) := zultra_huffman_encoder_init (offsetEncoder c) NOFFSETSYMS 15 0 in
    if r2 <? 0 then (-1, set_literals c le) else (0, set_offsets (set_literals c le) oe).

(** [zultra_block_prepare_cost_evaluation] (lines 521-529). *)
Definition zultra_block_prepare_cost_evaluation (c : compressor) (w : list Z) (s n : Z) : Z * compressor :=
  let '(r, c1) := init_encoders c in
  if r <? 0 then (-1, c1) else (0, zultra_build_initial_entropy_lwd c1 w s (s + n)).

(** [zultra_block_evaluate_static_cost] (lines 540-568): each symbol's
    count times its fixed code length and extra bits, plus the 3 bits of
    the block header. *)
Definition zultra_block_evaluate_static_cost (le oe : huffman_encoder) : Z * Z :=
  let nStaticCost :=
    zsum (fun i => (nEntropy le).[i] * static_literal_lengths.[i]) (zseq 0 (Z.to_nat NMATCHLENSYMSTART)) +
    zsum (fun i => (nEntropy le).[i] * (static_literal_lengths.[i] + g_nRevMatchSymbolBits.[i - NMATCHLENSYMSTART]))
      (zseq NMATCHLENSYMSTART (Z.to_nat NMATCHLENSYMS)) +
    zsum (fun i => (nEntropy oe).[i] * (5 + g_nRevOffsetSymbolBits.[i])) (zseq 0 (Z.to_nat NOFFSETSYMS)) in
  (0, nStaticCost + 3).

(** The data part of [zultra_block_evaluate_dynamic_cost] (lines 584-595). *)
Definition dynamic_data_cost (le oe : huffman_encoder) : Z :=
  zsum (fun i => (nEntropy le).[i] * (nCodeLength le).[i]) (zseq 0 (Z.to_nat NMATCHLENSYMSTART)) +
  zsum (fun i => (nEntropy le).[i] * ((nCodeLength le).[i] + g_nRevMatchSymbolBits.[i - NMATCHLENSYMSTART]))
    (zseq NMATCHLENSYMSTART (Z.to_nat NMATCHLENSYMS)) +
  zsum (fun i => (nEntropy oe).[i] * ((nCodeLength oe).[i] + g_nRevOffsetSymbolBits.[i])) (zseq 0 (Z.to_nat NOFFSETSYMS)).

(** The two [memcpy]s into [nCodeLength]: the defined literal/length code
    lengths, then the defined distance code lengths. *)
Definition joint_code_lengths (le oe : huffman_encoder) (nLiteralSyms nOffsetSyms : Z) : list Z :=
  take (Z.to_nat nLiteralSyms) (nCodeLength le) ++ take (Z.to_nat nOffsetSyms) (nCodeLength oe).

(** [zultra_block_evaluate_dynamic_cost] (lines 579-620).  The tables
    encoder is a stack variable that [zultra_huffman_encoder_init] fills
    in whole; the value passed for it as the encoder's previous state is
    never read. *)
Definition zultra_block_evaluate_dynamic_cost (le oe : huffman_encoder) : Z * Z :=
  let nLiteralSyms := zultra_huffman_encoder_get_defined_var_lengths_count le 257 in
  let nOffsetSyms := zultra_huffman_encoder_get_defined_var_lengths_count oe 1 in
  let lens := joint_code_lengths le oe nLiteralSyms nOffsetSyms in
  let te0 := snd (zultra_huffman_encoder_init le NCODELENSYMS 7 0) in
  let te1 := zultra_huffman_encoder_update_var_lengths_entropy te0 (nLiteralSyms + nOffsetSyms) lens 7 in
  let te2 := snd (zultra_huffman_encoder_estimate_dynamic_codelens te1) in
  let nCodeLenSyms := zultra_huffman_encoder_get_raw_table_size te2 in
  (0, dynamic_data_cost le oe + (5 + 5 + 4) + NCODELENBITS * nCodeLenSyms +
      zultra_huffman_encoder_get_var_lengths_size te2 (nLiteralSyms + nOffsetSyms) lens MAX_CODES_MASK + 3).

(** ** [zultra_block_deflate] (lines 829-999) *)

(** [for (i = 0; i < n; i++) if (a[i] == 0) a[i] = d;] (lines 875-883). *)
Definition default_lengths (a : list Z) (n d : Z) : list Z :=
  foldl (fun a i => if a.[i] =? 0 then a.[i := d] else a) a (zseq 0 (Z.to_nat n)).

(** [for (i = 0; i < n; i++) a[i] = 0;] (lines 889-892, 974-975). *)
Definition zero_prefix (a : list Z) (n : Z) : list Z :=
  foldl (fun a i => a.[i := 0]) a (zseq 0 (Z.to_nat n)).

(** The static code lengths stored into the literal encoder (lines 841-848). *)
Definition store_static_lengths (a : list Z) : list Z :=
  foldl (fun a i => a.[i := static_literal_lengths.[i]]) a (zseq 0 (Z.to_nat NLITERALSYMS)).

(** [for (i = 0; nOffsetLens < 2 && i < NOFFSETSYMS - 2; i++) if (nEntropy[i]) nOffsetLens++;]
    (lines 896-900). *)
Fixpoint count_offset_lens (ent : list Z) (fuel : nat) (i n : Z) : Z :=
  match fuel with
  | O => n
  | S f =>
      if (n <? 2) && (i <? NOFFSETSYMS - 2)
      then count_offset_lens ent f (i + 1) (if ent.[i] =? 0 then n else n + 1)
      else n
  end.

(** The phantom distance frequencies of the last pass (lines 895-915):
    at least two distance codes are always sent. *)
Definition offset_phantoms (ent : list Z) : list Z :=
  let nOffsetLens := count_offset_lens ent (Z.to_nat NOFFSETSYMS) 0 0 in
  if nOffsetLens =? 0 then (ent.[0 := 1]).[1 := 1]
  else if nOffsetLens =? 1 then (if negb (ent.[0] =? 0) then ent.[1 := 1] else ent.[0 := 1])
  else ent.

(** [nConvergencePasses] *)
Definition nConvergencePasses : Z := 3.

(** One pass [j] of the convergence loop (lines 874-921). *)
Definition convergence_pass (j : Z) (c : compressor) (w : list Z) (s e : Z) : Z * compressor :=
  let le := set_codelengths (literalsEncoder c) (default_lengths (nCodeLength (literalsEncoder c)) NLITERALSYMS 9) in
  let oe := set_codelengths (offsetEncoder c) (default_lengths (nCodeLength (offsetEncoder c)) NOFFSETSYMS 6) in
  let c1 := zultra_optimize_matches_lwd (set_offsets (set_literals c le) oe) w s e in
  let c2 := set_offsets (set_literals c1 (set_entropy (literalsEncoder c1) (zero_prefix (nEntropy (literalsEncoder c1)) NLITERALSYMS)))
              (set_entropy (offsetEncoder c1) (zero_prefix (nEntropy (offsetEncoder c1)) NOFFSETSYMS)) in
  let c3 := zultra_build_final_entropy_lwd c2 w s e in
  let c4 := if j =? nConvergencePasses
            then set_offsets c3 (set_entropy (offsetEncoder c3) (offset_phantoms (nEntropy (offsetEncoder c3))))
            else c3 in
  let '(r1, le') := zultra_huffman_encoder_build_dynamic_codewords (literalsEncoder c4) in
  if r1 <? 0 then (-1, set_literals c4 le')
  else
    let '(r2, oe') := zultra_huffman_encoder_build_dynamic_codewords (offsetEncoder c4) in
    if r2 <? 0 then (-1, set_offsets (set_literals c4 le') oe') else (0, set_offsets (set_literals c4 le') oe').

(** [for (int j = 0; j <= nConvergencePasses; j++)] (lines 873-922). *)
Fixpoint convergence_loop (fuel : nat) (j : Z) (c : compressor) (w : list Z) (s e : Z) : Z * compressor :=
  match fuel with
  | O => (0, c)
  | S f =>
      if j <=? nConvergencePasses then
        let '(r, c') := convergence_pass j c w s e in
        if r <? 0 then (-1, c') else convergence_loop f (j + 1) c' w s e
      else (0, c)
  end.

(** One turn of the mask search (lines 964-975): count the run-length
    symbols for [mask], build their code, cost the table, reset the
    counts. *)
Definition tables_step (te : huffman_encoder) (n : Z) (lens : list Z) (mask : Z) : Z * huffman_encoder :=
  let te1 := zultra_huffman_encoder_update_var_lengths_entropy te n lens mask in
  let te2 := snd (zultra_huffman_encoder_build_dynamic_codewords te1) in
  (zultra_huffman_encoder_get_var_lengths_size te2 n lens mask,
   set_entropy te2 (zero_prefix (nEntropy te2) NCODELENSYMS)).

(** [for (nCurCodesMask = 0; nCurCodesMask <= MAX_CODES_MASK;
    (nCurCodesMask >= 7) ? (nCurCodesMask += 2) : (nCurCodesMask++))]
    (lines 960-976): a mask whose table costs no more than the best so
    far replaces it. *)
Fixpoint mask_search (fuel : nat) (te : huffman_encoder) (n : Z) (lens : list Z) (mask best bestCost : Z)
    : Z * Z * huffman_encoder :=
  match fuel with
  | O => (best, bestCost, te)
  | S f =>
      if mask <=? MAX_CODES_MASK then
        let '(cost, te') := tables_step te n lens mask in
        let '(best', bestCost') := if (best =? -1) || (cost <=? bestCost) then (mask, cost) else (best, bestCost) in
        mask_search f te' n lens (if 7 <=? mask then mask + 2 else mask + 1) best' bestCost'
      else (best, bestCost, te)
  end.

Section BlockDeflate.

(** [zultra_huffman_encoder_optimize_for_rle(length, counts, good_for_rle)]:
    rewrites the first [length] counts; the scratch array is not read
    afterwards. *)
Context (zultra_huffman_encoder_optimize_for_rle : Z -> list Z -> list Z).

(** The choice between the final tables and the tables rebuilt from
    counts smoothed for run-length coding (lines 927-947). *)
Definition rle_tables (le oe : huffman_encoder) : Z * huffman_encoder * huffman_encoder :=
  let nCurTotalBitCost := snd (zultra_block_evaluate_dynamic_cost le oe) in
  let ole := set_entropy le (zultra_huffman_encoder_optimize_for_rle NLITERALSYMS (nEntropy le)) in
  let ooe := set_entropy oe (zultra_huffman_encoder_optimize_for_rle NOFFSETSYMS (nEntropy oe)) in
  let '(r1, ole') := zultra_huffman_encoder_build_dynamic_codewords ole in
  if r1 <? 0 then (-1, le, oe)
  else
    let '(r2, ooe') := zultra_huffman_encoder_build_dynamic_codewords ooe in
    if r2 <? 0 then (-1, le, oe)
    else
      let nOptTotalBitCost := snd (zultra_block_evaluate_dynamic_cost ole' ooe') in
      if nOptTotalBitCost <? nCurTotalBitCost then (0, ole', ooe') else (0, le, oe).

(** The tables of a dynamic block (lines 950-994, from
    the defined symbol counts to [zultra_huffman_encoder_write_var_lengths]). *)
Definition write_dynamic_tables (le oe : huffman_encoder) (bw : bitwriter) : Z * bitwriter :=
  let nLiteralSyms := zultra_huffman_encoder_get_defined_var_lengths_count le 257 in
  let nOffsetSyms := zultra_huffman_encoder_get_defined_var_lengths_count oe 1 in
  let lens := joint_code_lengths le oe nLiteralSyms nOffsetSyms in
  let te0 := snd (zultra_huffman_encoder_init le NCODELENSYMS 7 0) in
  let '(nBestCodesMask, _, te1) :=
    mask_search (S (Z.to_nat MAX_CODES_MASK)) te0 (nLiteralSyms + nOffsetSyms) lens 0 (-1) 0 in
  let te2 := snd (zultra_huffman_encoder_build_dynamic_codewords
                   (zultra_huffman_encoder_update_var_lengths_entropy te1 (nLiteralSyms + nOffsetSyms) lens nBestCodesMask)) in
  let nCodeLenSyms := zultra_huffman_encoder_get_raw_table_size te2 in
  if (NVALIDLITERALSYMS <? nLiteralSyms) || (NVALIDOFFSETSYMS <? nOffsetSyms) || (NCODELENSYMS <? nCodeLenSyms)
  then (-1, bw)
  else
    let '(r1, bw1) := put_bits bw (nLiteralSyms - 257) 5 in
    if r1 <? 0 then (-1, bw1) else
    let '(r2, bw2) := put_bits bw1 (nOffsetSyms - 1) 5 in
    if r2 <? 0 then (-1, bw2) else
    let '(r3, bw3) := put_bits bw2 (nCodeLenSyms - 4) 4 in
    if r3 <? 0 then (-1, bw3) else
    let '(r4, bw4) := zultra_huffman_encoder_write_raw_table te2 NCODELENBITS nCodeLenSyms bw3 in
    if r4 <? 0 then (-1, bw4) else
    let '(r5, bw5) := zultra_huffman_encoder_write_var_lengths te2 (nLiteralSyms + nOffsetSyms) lens nBestCodesMask bw4 in
    if r5 <? 0 then (-1, bw5) else (0, bw5).

(** [zultra_block_deflate] (lines 829-999): the status, the compressor
    and the writer it leaves. *)
Definition zultra_block_deflate (c : compressor) (bw : bitwriter) (w : list Z) (s nInDataSize : Z) (nIsDynamic : bool)
    : Z * compressor * bitwriter :=
  let e := s + nInDataSize in
  let '(r0, c0) := init_encoders c in
  if r0 <? 0 then (-1, c0, bw)
  else if negb nIsDynamic then
    let le := set_codelengths (literalsEncoder c0) (store_static_lengths (nCodeLength (literalsEncoder c0))) in
    let oe := set_codelengths (offsetEncoder c0)
                (foldl (fun a i => a.[i := 5]) (nCodeLength (offsetEncoder c0)) (zseq 0 (Z.to_nat NOFFSETSYMS))) in
    let '(r1, le') := zultra_huffman_encoder_build_static_codewords le in
    if r1 <? 0 then (-1, set_offsets (set_literals c0 le') oe, bw)
    else
      let '(r2, oe') := zultra_huffman_encoder_build_static_codewords oe in
      if r2 <? 0 then (-1, set_offsets (set_literals c0 le') oe', bw)
      else
        let c1 := zultra_optimize_matches_lwd (set_offsets (set_literals c0 le') oe') w s e in
        let '(r, bw') := zultra_write_block_lwd c1 bw w s e in (r, c1, bw')
  else
    let c1 := zultra_build_initial_entropy_lwd c0 w s e in
    let '(r1, le) := zultra_huffman_encoder_build_dynamic_codewords (literalsEncoder c1) in
    if r1 <? 0 then (-1, set_literals c1 le, bw)
    else
      let '(r2, oe) := zultra_huffman_encoder_build_dynamic_codewords (offsetEncoder c1) in
      if r2 <? 0 then (-1, set_offsets (set_literals c1 le) oe, bw)
      else
        let '(r3, c2) := convergence_loop (S (Z.to_nat nConvergencePasses)) 0 (set_offsets (set_literals c1 le) oe) w s e in
        if r3 <? 0 then (-1, c2, bw)
        else
          let c3 := zultra_post_optimize_block_lwd c2 w s e in
          let '(r4, le', oe') := rle_tables (literalsEncoder c3) (offsetEncoder c3) in
          if r4 <? 0 then (-1, c3, bw)
          else
            let c4 := set_offsets (set_literals c3 le') oe' in
            let '(r5, bw1) := write_dynamic_tables le' oe' bw in
            if r5 <? 0 then (-1, c4, bw1)
            else let '(r, bw') := zultra_write_block_lwd c4 bw1 w s e in (r, c4, bw').

End BlockDeflate.

(** ** Specifications *)

(** The distance symbols of [0, NOFFSETSYMS - 2) from [i] on that are used. *)
Definition used_offsets (ent : list Z) (i : Z) : list Z :=
  filter (fun j => ent.[j] <> 0) (zseq i (Z.to_nat (NOFFSETSYMS - 2 - i))).

(** The bits a literal/length symbol and a distance symbol cost in the
    block data: the codeword and, for a length or distance symbol, its
    extra bits (RFC 1951, section 3.2.5). *)
Definition lit_sym_cost (le : huffman_encoder) (i : Z) : Z :=
  (nCodeLength le).[i] + (if i <? NMATCHLENSYMSTART then 0 else g_nRevMatchSymbolBits.[i - NMATCHLENSYMSTART]).
Definition off_sym_cost (oe : huffman_encoder) (i : Z) : Z :=
  (nCodeLength oe).[i] + g_nRevOffsetSymbolBits.[i].

(** The masks the search tries, in order: 0 to 7, then the odd masks
    from 9 to [MAX_CODES_MASK]. *)
Definition tried_masks : list Z := zseq 0 8 ++ map (fun k => 9 + 2 * k) (zseq 0 12).

(** The masks the loop visits with [fuel] turns left from [mask]. *)
Fixpoint mask_steps (fuel : nat) (mask : Z) : list Z :=
  match fuel with
  | O => []
  | S f => if mask <=? MAX_CODES_MASK then mask :: mask_steps f (if 7 <=? mask then mask + 2 else mask + 1) else []
  end.

(** Two encoder states that build the same code: same alphabet, length
    limit and frequencies. *)
Definition same_shape (te1 te2 : huffman_encoder) : Prop :=
  nSymbols te1 = nSymbols te2 /\ nMaxCodeLength te1 = nMaxCodeLength te2 /\ nEntropy te1 = nEntropy te2.

(** A block of 8 bytes whose position 6 has a match of length 45 at
    distance 1 that runs past the block's end (the match finder searches
    the whole input chunk, the block splitter then cuts it), with a
    dynamic code in which a literal costs 15 bits and the length-258
    symbol 1 bit. *)
Definition cut_ex_window : list Z := [97; 97; 97; 97; 97; 97; 97; 97].
Definition cut_ex_lit_lengths : list Z := replicate 285 15 ++ [1; 15; 15].
Definition cut_ex_compressor : compressor :=
  mk_compressor (replicate 48 no_match ++ [mk_match 45 1] ++ replicate 15 no_match)
    (replicate 8 no_match) (replicate 8 0)
    (mk_encoder NLITERALSYMS 15 (replicate 288 0) (replicate 288 0) cut_ex_lit_lengths)
    (mk_encoder NOFFSETSYMS 15 (replicate 32 0) (replicate 32 0) (replicate 32 1)).

(** A table encoder as [zultra_huffman_encoder_init] leaves it, and the
    code lengths of a small block. *)
Definition mask_ex_encoder : huffman_encoder :=
  snd (zultra_huffman_encoder_init (mk_encoder 0 0 [] [] []) NCODELENSYMS 7 0).
Definition mask_ex_lens : list Z := [8; 8; 8; 8; 0; 0; 0; 0; 5; 5].

(** ** At least two distance codes *)

Lemma count_offset_lens_spec ent f i n :
  0 <= i <= NOFFSETSYMS - 2 -> (Z.to_nat (NOFFSETSYMS - 2 - i) <= f)%nat -> 0 <= n <= 2 ->
  count_offset_lens ent f i n = Z.min 2 (n + Z.of_nat (length (used_offsets ent i))).
Proof.
  unfold used_offsets, NOFFSETSYMS. revert i n. induction f as [|f IH]; intros i n Hi Hf Hn.
  - replace (Z.to_nat (32 - 2 - i)) with O by lia. simpl. lia.
  - cbn [count_offset_lens]. destruct (decide (i = 32 - 2)) as [-> | Hne].
    + replace (32 - 2 <? NOFFSETSYMS - 2) with false by reflexivity. rewrite andb_false_r, Z.sub_diag. simpl. lia.
    + replace (Z.to_nat (32 - 2 - i)) with (S (Z.to_nat (32 - 2 - (i + 1)))) by lia.
      rewrite zseq_S, filter_cons. destruct (n <? 2) eqn:En; bool_to_prop; simpl.
      * rewrite (proj2 (Z.ltb_lt i (NOFFSETSYMS - 2))) by (unfold NOFFSETSYMS; lia). simpl.
        destruct (decide (ent.[i] <> 0)) as [Hz | Hz]; simpl.
        -- rewrite (proj2 (Z.eqb_neq _ _)) by done. rewrite IH by lia. lia.
        -- rewrite (proj2 (Z.eqb_eq _ _)) by lia. rewrite IH by lia. lia.
      * lia.
Qed.

Lemma elem_of_used_offsets ent i k :
  k ∈ used_offsets ent i <-> i <= k < NOFFSETSYMS - 2 /\ ent.[k] <> 0.
Proof. unfold used_offsets. rewrite list_elem_of_filter, elem_of_zseq. unfold NOFFSETSYMS. lia. Qed.

Lemma used_offsets_two ent x y :
  x <> y -> x ∈ used_offsets ent 0 -> y ∈ used_offsets ent 0 -> (2 <= length (used_offsets ent 0))%nat.
Proof.
  intros Hxy Hx Hy. destruct (used_offsets ent 0) as [|a [|b l]]; simpl; [set_solver | | lia].
  apply list_elem_of_singleton in Hx, Hy. congruence.
Qed.
Lemma used_offsets_NoDup ent : NoDup (used_offsets ent 0).
Proof. apply NoDup_filter, NoDup_zseq. Qed.

(** C26. After the last convergence pass the distance code has at
    least two used symbols among the valid ones, as zlib's inflate of the
    time required (lines 895-915), and no symbol the block really uses
    has its count changed. *)
Theorem offset_phantoms_two ent :
  NOFFSETSYMS <= Z.of_nat (length ent) ->
  (exists i j, i <> j /\ 0 <= i < NVALIDOFFSETSYMS /\ 0 <= j < NVALIDOFFSETSYMS /\
     (offset_phantoms ent).[i] <> 0 /\ (offset_phantoms ent).[j] <> 0) /\
  (forall k, 0 <= k -> ent.[k] <> 0 -> (offset_phantoms ent).[k] = ent.[k]).
Proof.
  intros Hl. unfold offset_phantoms.
  rewrite count_offset_lens_spec by (unfold NOFFSETSYMS; lia). rewrite Z.add_0_l.
  assert (Hin : forall k, 0 <= k < NVALIDOFFSETSYMS -> ent.[k] <> 0 -> k ∈ used_offsets ent 0)
    by (intros; apply elem_of_used_offsets; unfold NVALIDOFFSETSYMS, NOFFSETSYMS in *; lia).
  assert (Hmem : forall k, k ∈ used_offsets ent 0 -> 0 <= k < NVALIDOFFSETSYMS /\ ent.[k] <> 0)
    by (intros k Hk; apply elem_of_used_offsets in Hk; unfold NVALIDOFFSETSYMS, NOFFSETSYMS in *; lia).
  pose proof (used_offsets_NoDup ent) as Hnd. unfold NOFFSETSYMS, NVALIDOFFSETSYMS in *.
  destruct (used_offsets ent 0) as [|x [|y l]] eqn:E.
  - replace (Z.min 2 _ =? 0) with true by reflexivity. split.
    + exists 0, 1. rewrite aget_aset_eq, aget_aset_ne, aget_aset_eq by (rewrite ?length_aset; lia). lia.
    + intros k Hk Hz. assert (k <> 0 /\ k <> 1) as [H0 H1].
      { split; intros ->; [apply (not_elem_of_nil 0) | apply (not_elem_of_nil 1)]; (apply Hin; [lia | exact Hz]). }
      rewrite !aget_aset_ne by lia. done.
  - replace (Z.min 2 _ =? 0) with false by reflexivity. replace (Z.min 2 _ =? 1) with true by reflexivity.
    destruct (Hmem x ltac:(set_solver)) as (Hx & Hxz). destruct (ent.[0] =? 0) eqn:E0; bool_to_prop; simpl negb; cbv iota.
    + assert (x <> 0) by (intros ->; lia). split.
      * exists 0, x. rewrite aget_aset_eq, aget_aset_ne by lia. lia.
      * intros k Hk Hz. assert (k <> 0) by (intros ->; lia). rewrite aget_aset_ne by lia. done.
    + apply Z.eqb_neq in E0. assert (Hx0 : 0 ∈ [x]) by (apply Hin; [lia | done]). apply list_elem_of_singleton in Hx0. subst x. split.
      * exists 0, 1. rewrite aget_aset_ne, aget_aset_eq by lia. lia.
      * intros k Hk Hz. destruct (decide (k = 1)) as [-> | Hne].
        -- apply Hin, list_elem_of_singleton in Hz; lia.
        -- rewrite aget_aset_ne by lia. done.
  - replace (Z.min 2 _) with 2 by (simpl; lia). simpl Z.eqb; cbv iota. apply NoDup_cons in Hnd as [Hxy _].
    destruct (Hmem x ltac:(set_solver)) as (Hx & Hxz), (Hmem y ltac:(set_solver)) as (Hy & Hyz).
    split; [| done]. exists x, y. split; [set_solver | lia].
Qed.

(** ** The dynamic estimate counts the bits of the block data *)

Lemma token_cost_syms c t :
  token_wf t ->
  token_cost c t = zsum (lit_sym_cost (literalsEncoder c)) (token_lit_syms t) +
                   zsum (off_sym_cost (offsetEncoder c)) (token_off_syms t).
Proof.
  unfold lit_sym_cost, off_sym_cost.
  destruct t as [b | l d]; simpl; intros Ht.
  - unfold zultra_get_literal_size, NMATCHLENSYMSTART.
    rewrite (proj2 (Z.ltb_lt b 256)), (proj2 (Z.ltb_lt b 257)) by lia. lia.
  - destruct Ht as (Hl & Hd). unfold MIN_OFFSET in Hd.
    destruct (length_row_facts l Hl) as (Hr & Hs & _ & Hrev & _).
    destruct (offset_row_facts d Hd) as (r & Hor & Hos & _ & Hrev' & _).
    destruct (varlen_symbol_rfc l Hl) as (Hsym & Hrange). destruct (offset_symbol_rfc d Hd) as (Hsym' & _).
    rewrite <- Hsym, <- Hsym', Hs, Hos in *.
    rewrite (proj2 (Z.ltb_ge _ _)) by lia. change NMATCHLENSYMSTART with 257. rewrite Hrev, Hrev'.
    unfold zultra_get_varlen_size, zultra_get_offset_size. rewrite Hr, Hor. lia.
Qed.

Lemma tokens_cost_syms c ts :
  Forall token_wf ts ->
  zsum (token_cost c) ts = zsum (lit_sym_cost (literalsEncoder c)) (mjoin (map token_lit_syms ts)) +
                           zsum (off_sym_cost (offsetEncoder c)) (mjoin (map token_off_syms ts)).
Proof.
  intros Hwf. rewrite !zsum_mjoin, <- zsum_plus. apply zsum_ext. intros t Ht.
  apply token_cost_syms. by eapply Forall_forall.
Qed.

Lemma token_syms_range ts :
  Forall token_wf ts ->
  (forall x, x ∈ mjoin (map token_lit_syms ts) -> 0 <= x < NVALIDLITERALSYMS) /\
  (forall x, x ∈ mjoin (map token_off_syms ts) -> 0 <= x < NVALIDOFFSETSYMS).
Proof.
  induction 1 as [| t ts Ht _ [IH1 IH2]]; [split; intros x Hx; inversion Hx |].
  simpl. split; intros x [Hx | Hx]%elem_of_app; auto; destruct t as [b | l d]; simpl in Hx, Ht;
    try (inversion Hx; fail); apply list_elem_of_singleton in Hx as ->.
  - unfold NVALIDLITERALSYMS. lia.
  - destruct Ht as (Hl & _). pose proof (proj2 (varlen_symbol_rfc l Hl)).
    unfold NVALIDLITERALSYMS, NMATCHLENSYMSTART, NMATCHLENSYMS in *. lia.
  - destruct Ht as (_ & Hd). apply (offset_symbol_rfc d Hd).
Qed.

(** [dynamic_data_cost] weighs each symbol's count by its cost. *)
Lemma dynamic_data_cost_syms le oe :
  dynamic_data_cost le oe =
    zsum (fun i => (nEntropy le).[i] * lit_sym_cost le i) (zseq 0 (Z.to_nat NVALIDLITERALSYMS)) +
    zsum (fun i => (nEntropy oe).[i] * off_sym_cost oe i) (zseq 0 (Z.to_nat NOFFSETSYMS)).
Proof.
  unfold dynamic_data_cost. replace (Z.to_nat NVALIDLITERALSYMS) with (257 + 29)%nat by reflexivity.
  rewrite zseq_app, zsum_app.
  change (zseq (0 + Z.of_nat 257) 29) with (zseq NMATCHLENSYMSTART (Z.to_nat NMATCHLENSYMS)).
  change (zseq 0 257) with (zseq 0 (Z.to_nat NMATCHLENSYMSTART)).
  rewrite (zsum_ext _ (fun i => (nEntropy le).[i] * lit_sym_cost le i) (zseq 0 _)),
    (zsum_ext _ (fun i => (nEntropy le).[i] * lit_sym_cost le i) (zseq NMATCHLENSYMSTART _)); [done | |];
    intros i Hi%elem_of_zseq; unfold lit_sym_cost.
  - rewrite (proj2 (Z.ltb_ge _ _)) by (unfold NMATCHLENSYMSTART in *; lia). lia.
  - rewrite (proj2 (Z.ltb_lt _ _)) by (unfold NMATCHLENSYMSTART in *; lia). lia.
Qed.

Lemma build_entropy_lengths get c w s e :
  nCodeLength (literalsEncoder (build_entropy_lwd get c w s e)) = nCodeLength (literalsEncoder c) /\
  nCodeLength (offsetEncoder (build_entropy_lwd get c w s e)) = nCodeLength (offsetEncoder c).
Proof. unfold build_entropy_lwd. by destruct (entropy_loop _ _ _ _ _ _ _). Qed.

(** C16. Counting a parse from zero with
    [zultra_build_final_entropy_lwd], the data part of
    [zultra_block_evaluate_dynamic_cost] is exactly the size of the block
    data [zultra_write_block_lwd] writes: the sum of the token sizes and
    the end-of-block codeword. *)
Theorem dynamic_cost_data_exact c w s e :
  Forall token_wf (block_tokens c w s e) ->
  NLITERALSYMS <= Z.of_nat (length (nEntropy (literalsEncoder c))) ->
  NOFFSETSYMS <= Z.of_nat (length (nEntropy (offsetEncoder c))) ->
  (forall k, 0 <= k < NLITERALSYMS -> (nEntropy (literalsEncoder c)).[k] = 0) ->
  (forall k, 0 <= k < NOFFSETSYMS -> (nEntropy (offsetEncoder c)).[k] = 0) ->
  let c' := zultra_build_final_entropy_lwd c w s e in
  dynamic_data_cost (literalsEncoder c') (offsetEncoder c') =
    zsum (token_cost c) (block_tokens c w s e) + (nCodeLength (literalsEncoder c)).[NEODMARKERSYM].
Proof.
  intros Hwf Hl Ho Z1 Z2 c'. destruct (final_entropy_at c w s e Hwf Hl Ho) as (HL & HO).
  destruct (token_syms_range _ Hwf) as (R1 & R2).
  destruct (build_entropy_lengths (mget (best_match c)) c w s e) as (E1 & E2).
  rewrite dynamic_data_cost_syms, tokens_cost_syms by done.
  unfold lit_sym_cost at 1, off_sym_cost at 1.
  change (build_entropy_lwd (mget (best_match c)) c w s e) with c' in E1, E2.
  rewrite E1, E2. fold (lit_sym_cost (literalsEncoder c)) (off_sym_cost (offsetEncoder c)).
  unfold NVALIDLITERALSYMS, NOFFSETSYMS, NLITERALSYMS, NVALIDOFFSETSYMS, NEODMARKERSYM in *.
  rewrite (zsum_ext _ (fun i => zcount i (mjoin (map token_lit_syms (block_tokens c w s e))) *
                                 lit_sym_cost (literalsEncoder c) i +
                               (if decide (256 = i) then 1 else 0) * lit_sym_cost (literalsEncoder c) i)).
  2: { intros i Hi%elem_of_zseq. rewrite HL, Z1 by lia.
       destruct (decide (256 = i)) as [<- | Hne]; [rewrite Z.eqb_refl | rewrite (proj2 (Z.eqb_neq i 256)) by congruence]; cbv iota; unfold lit_sym_cost; ring. }
  rewrite (zsum_ext (fun i => _ * _) (fun i => zcount i (mjoin (map token_off_syms (block_tokens c w s e))) *
                                 off_sym_cost (offsetEncoder c) i) (zseq 0 (Z.to_nat 32))).
  2: { intros i Hi%elem_of_zseq. rewrite HO, Z2 by lia. unfold off_sym_cost; ring. }
  rewrite zsum_plus, !zsum_zcount, zsum_single by
    (try apply NoDup_zseq; try (intros x Hx; apply elem_of_zseq; simpl; (apply R1 in Hx || apply R2 in Hx); lia);
     apply elem_of_zseq; simpl; lia).
  unfold lit_sym_cost at 2. rewrite (proj2 (Z.ltb_lt 256 NMATCHLENSYMSTART)) by (unfold NMATCHLENSYMSTART; lia). lia.
Qed.

(** ** The run-length mask search *)

Lemma build_dynamic_shape te : same_shape (snd (zultra_huffman_encoder_build_dynamic_codewords te)) te.
Proof.
  unfold zultra_huffman_encoder_build_dynamic_codewords, zultra_huffman_encoder_estimate_dynamic_codelens.
  repeat case_match; simplify_eq; done.
Qed.

(** The code lengths [zultra_huffman_encoder_build_dynamic_codewords]
    builds depend only on the alphabet, the length limit and the
    frequencies. *)
Lemma build_dynamic_lengths s m ent cw1 cl1 cw2 cl2 :
  0 <= s <= MAX_SYMBOLS ->
  nCodeLength (snd (zultra_huffman_encoder_build_dynamic_codewords (mk_encoder s m ent cw1 cl1))) =
  nCodeLength (snd (zultra_huffman_encoder_build_dynamic_codewords (mk_encoder s m ent cw2 cl2))).
Proof.
  intros Hs. unfold zultra_huffman_encoder_build_dynamic_codewords, zultra_huffman_encoder_estimate_dynamic_codelens.
  simpl. replace ((s <? 0) || (MAX_SYMBOLS <? s)) with false
    by (symmetry; apply orb_false_iff; split; apply Z.ltb_ge; lia).
  destruct (1 <? _); simpl;
    match goal with |- context [let (_, _) := ?X in _] => destruct X end; simpl; by destruct (0 <? _).
Qed.

Lemma length_entropy_replay t e : length (foldl (run_event entropy_sink) e t) = length e.
Proof.
  revert e. induction t as [|ev t IH]; intros e; [done |]. simpl. rewrite IH.
  destruct ev; simpl; rewrite ?length_aincr; done.
Qed.

Lemma event_sym_small t x :
  Forall event_valid t -> NCODELENSYMS <= x -> filter (fun ev => event_sym ev = Some x) t = [].
Proof.
  unfold NCODELENSYMS. induction 1 as [|ev t Hev _ IH]; intros Hx; [done |].
  rewrite filter_cons, IH by done. rewrite decide_False; [done |].
  destruct ev; simpl in *; intros [=]; lia.
Qed.

Section MaskSearch.

Context (te0 : huffman_encoder) (n : Z) (lens : list Z).
Hypothesis Hsyms : 0 <= nSymbols te0 <= MAX_SYMBOLS.
Hypothesis Hent : nEntropy te0 = replicate (Z.to_nat MAX_SYMBOLS) 0.
Hypothesis Hn : 0 <= n <= Z.of_nat (length lens).
Hypothesis Ha : forall i, 0 <= i < n -> 0 <= lens.[i] <= 15.

(** The table cost of [mask] from the initial state. *)
Let mask_cost (m : Z) : Z := fst (tables_step te0 n lens m).

Lemma tables_step_cost te m : same_shape te te0 -> fst (tables_step te n lens m) = mask_cost m.
Proof.
  intros (H1 & H2 & H3). unfold mask_cost, tables_step, zultra_huffman_encoder_update_var_lengths_entropy,
    zultra_huffman_encoder_get_var_lengths_size, set_entropy. simpl.
  rewrite H1, H2, H3. unfold size_sink. rewrite (build_dynamic_lengths _ _ _ _ _ (nCodeWord te0) (nCodeLength te0)).
  - done.
  - lia.
Qed.

Lemma tables_step_shape te m : same_shape te te0 -> same_shape (snd (tables_step te n lens m)) te0.
Proof.
  intros (H1 & H2 & H3). unfold tables_step, same_shape, set_entropy.
  set (te1 := zultra_huffman_encoder_update_var_lengths_entropy te n lens m).
  destruct (build_dynamic_shape te1) as (B1 & B2 & B3). cbn [fst snd nSymbols nMaxCodeLength nEntropy].
  rewrite B1, B2, B3. split; [apply H1 | split; [apply H2 |]].
  unfold te1, zultra_huffman_encoder_update_var_lengths_entropy. simpl. rewrite H3, Hent.
  rewrite var_lengths_loop_replay. unfold replay, zero_prefix.
  pose proof (cl_trace_valid lens n Hn m Ha) as Hv.
  apply aget_ext; [by rewrite length_fill, length_entropy_replay |].
  intros k Hk. rewrite length_fill, length_entropy_replay, length_replicate in Hk.
  rewrite aget_fill by (rewrite ?length_entropy_replay, ?length_replicate; lia).
  rewrite aget_replicate by lia. destruct (_ && _) eqn:E; [done |].
  rewrite entropy_replay, aget_replicate, event_sym_small by (try done; rewrite ?length_replicate; try lia;
    apply andb_false_iff in E as [E | E]; bool_to_prop; unfold NCODELENSYMS in *; lia). done.
Qed.

(** What the loop keeps after visiting the masks [mask_steps f mask]. *)
Lemma mask_search_spec f te mask best bestCost b bc te' :
  same_shape te te0 -> 0 <= mask -> (best <> -1 \/ mask_steps f mask <> []) ->
  mask_search f te n lens mask best bestCost = (b, bc, te') ->
  ((b = best /\ bc = bestCost) \/ (b ∈ mask_steps f mask /\ bc = mask_cost b)) /\ b <> -1 /\
  (best <> -1 -> bc <= bestCost) /\ (forall m, m ∈ mask_steps f mask -> bc <= mask_cost m).
Proof.
  revert te mask best bestCost. induction f as [|f IH]; intros te mask best bestCost Hs Hm Hb Hrun.
  - simpl in *. injection Hrun as <- <- <-. destruct Hb as [Hb | Hb]; [| done].
    split; [by left | split; [done | split; [lia | intros m Hm'; inversion Hm']]].
  - cbn [mask_search mask_steps] in Hrun, Hb |- *. revert Hrun.
    destruct (mask <=? MAX_CODES_MASK) eqn:Emax; intros Hrun; [| injection Hrun as <- <- <-;
      destruct Hb as [Hb | Hb]; [| done]; split; [by left | split; [done | split; [lia | intros m Hm'; inversion Hm']]]].
    revert Hrun. destruct (tables_step te n lens mask) as [cost te1] eqn:Est.
    assert (Hc : cost = mask_cost mask) by (rewrite <- (tables_step_cost te mask Hs), Est; done).
    assert (Hs1 : same_shape te1 te0) by (pose proof (tables_step_shape te mask Hs) as H; rewrite Est in H; done).
    set (mask' := if 7 <=? mask then mask + 2 else mask + 1) in *.
    assert (Hm' : 0 <= mask') by (unfold mask'; destruct (7 <=? mask); lia).
    destruct ((best =? -1) || (cost <=? bestCost)) eqn:Ec; intros Hrun.
    + destruct (IH te1 mask' mask cost Hs1 Hm' ltac:(left; lia) Hrun) as (R1 & R2 & R3 & R4).
      split; [right; destruct R1 as [(-> & ->) | (Hin & Hbc)]; [split; [set_solver | done] | split; [set_solver | done]] |].
      split; [done | split].
      * intros Hb'. apply orb_true_iff in Ec as [Ec | Ec]; bool_to_prop; lia.
      * intros m' Hin. apply elem_of_cons in Hin as [-> | Hin]; [lia | by apply R4].
    + apply orb_false_iff in Ec as [Ec1 Ec2]. apply Z.eqb_neq in Ec1. bool_to_prop.
      destruct (IH te1 mask' best bestCost Hs1 Hm' ltac:(left; done) Hrun) as (R1 & R2 & R3 & R4).
      split; [destruct R1 as [H | (Hin & Hbc)]; [by left | right; split; [set_solver | done]] |].
      split; [done | split; [done |]].
      intros m' Hin. apply elem_of_cons in Hin as [-> | Hin]; [specialize (R3 Ec1); lia | by apply R4].
Qed.

End MaskSearch.

(** C17. The search of [zultra_block_deflate] over the run-length
    masks (lines 960-976) returns a mask it tried whose table cost is the
    least of all masks 0 to 7 and the odd masks 9 to 31, each costed from
    the same initial table encoder: the reset of the counts after each
    turn makes every turn independent of the ones before. *)
Theorem mask_search_optimal te0 n lens :
  0 <= nSymbols te0 <= MAX_SYMBOLS -> nEntropy te0 = replicate (Z.to_nat MAX_SYMBOLS) 0 ->
  0 <= n <= Z.of_nat (length lens) -> (forall i, 0 <= i < n -> 0 <= lens.[i] <= 15) ->
  let '(b, bc, _) := mask_search (S (Z.to_nat MAX_CODES_MASK)) te0 n lens 0 (-1) 0 in
  b ∈ tried_masks /\ bc = fst (tables_step te0 n lens b) /\
  forall m, m ∈ tried_masks -> bc <= fst (tables_step te0 n lens m).
Proof.
  intros Hs He Hn Ha. destruct (mask_search _ _ _ _ _ _ _) as [[b bc] te'] eqn:E.
  assert (Ht : mask_steps (S (Z.to_nat MAX_CODES_MASK)) 0 = tried_masks) by reflexivity.
  destruct (mask_search_spec te0 n lens Hs He Hn Ha (S (Z.to_nat MAX_CODES_MASK)) te0 0 (-1) 0 b bc te') as (R1 & R2 & R3 & R4);
    [split; [| split]; reflexivity | lia | right; rewrite Ht; discriminate | exact E |].
  rewrite Ht in R1, R4. destruct R1 as [(-> & _) | (Hin & Hbc)]; [by destruct R2 |]. split; [exact Hin | split; [exact Hbc | exact R4]].
Qed.

(** At the last positions of a block a match of at least
    [LEAVE_ALONE_MATCH_SIZE] bytes is cut to [nEndOffset - 1 - i] bytes,
    which is 1 or 2 at the two positions before the last one; the
    optimiser still costs it as a match, with the code of the wrapped
    negative length (the length-258 symbol), and can record it, while the
    block writer writes a recorded length below [MIN_MATCH_SIZE] as a
    literal: the cost the optimiser computed is not the cost of what is
    written. *)
Example optimize_cut_match_mispriced :
  let c' := zultra_optimize_matches_lwd cut_ex_compressor cut_ex_window 0 8 in
  mget (best_match c') 6 = mk_match 1 1 /\
  (pos_data c').[6] = 2 + (pos_data c').[7] /\
  drop 6 (block_tokens c' cut_ex_window 0 8) = [TLit 97; TLit 97] /\
  zsum (token_cost c') [TLit 97; TLit 97] = 30 /\ (pos_data c').[6] = 17.
Proof. vm_compute. repeat split; reflexivity. Qed.

Lemma offset_phantoms_two_witness :
  let ent := (replicate 32 0).[5 := 7] in
  (exists i j, i <> j /\ 0 <= i < NVALIDOFFSETSYMS /\ 0 <= j < NVALIDOFFSETSYMS /\
     (offset_phantoms ent).[i] <> 0 /\ (offset_phantoms ent).[j] <> 0) /\
  (forall k, 0 <= k -> ent.[k] <> 0 -> (offset_phantoms ent).[k] = ent.[k]).
Proof. apply offset_phantoms_two. decide_by_eval. Defined.

Lemma dynamic_cost_data_exact_witness :
  let c' := zultra_build_final_entropy_lwd lz_ex_compressor lz_ex_window 0 8 in
  dynamic_data_cost (literalsEncoder c') (offsetEncoder c') =
    zsum (token_cost lz_ex_compressor) (block_tokens lz_ex_compressor lz_ex_window 0 8) +
    (nCodeLength (literalsEncoder lz_ex_compressor)).[NEODMARKERSYM].
Proof.
  apply dynamic_cost_data_exact; [decide_by_eval | decide_by_eval | decide_by_eval | |];
    intros k Hk; apply aget_replicate; unfold NLITERALSYMS, NOFFSETSYMS in Hk; lia.
Defined.

Lemma mask_search_optimal_witness :
  let '(b, bc, _) := mask_search (S (Z.to_nat MAX_CODES_MASK)) mask_ex_encoder 10 mask_ex_lens 0 (-1) 0 in
  b ∈ tried_masks /\ bc = fst (tables_step mask_ex_encoder 10 mask_ex_lens b) /\
  forall m, m ∈ tried_masks -> bc <= fst (tables_step mask_ex_encoder 10 mask_ex_lens m).
Proof.
  apply mask_search_optimal; [decide_by_eval | reflexivity | decide_by_eval |].
  intros i Hi. assert (Hb : forallZ (fun j => (0 <=? mask_ex_lens.[j]) && (mask_ex_lens.[j] <=? 15)) 0 10 = true)
    by reflexivity.
  pose proof (forallZ_spec _ _ _ Hb i) as H. specialize (H ltac:(simpl; lia)). cbv beta in H. bool_to_prop. lia.
Defined.

End Deflate.
