(* ===== verification/Split.v ===== *)
(** * The block splitter ([src/blockdeflate.c] lines 636-815)

    [zultra_compressor_split_subblock_recursive] scans the greedy parse of
    a sub-block, keeps 18 counters of coarse symbol classes, and at every
    check point (256 new tokens, 512 bytes in) compares the new counts with
    the counts so far.  When they have drifted apart it costs the block cut
    at the last check point against the whole block, with the dynamic
    estimates of [zultra_block_evaluate_dynamic_cost], and remembers the
    most profitable cut.  It then splits the two halves recursively, at
    most 6 levels deep.  [zultra_block_split] adds the end of the block as
    the last split.

    The scan state is the record [scan]; the part that the cost
    evaluation changes (the compressor, whose encoders
    [zultra_block_prepare_cost_evaluation] overwrites, the four local
    encoders, the last left end and the best cut) is the record [ev].

    Theorems: the recursion and the scan terminate within the fuel given
    (enough fuel gives the result, and more fuel does not change it); the
    splits [zultra_block_split] returns partition the block: strictly
    increasing, inside it, the last one its end, and no more than the
    array holds; the unsigned drift sum is the exact L1 distance of the
    scaled counts whenever the products stay below 2^32, which holds for
    every block of at most 2 MiB (the largest [zultra_stream_init]
    allows). *)

From S2P Require Import Prelude Format Tables Huffman CodeLengths Block Lz77 Deflate.
Import Format Huffman Block Lz77 Deflate.

Module Split.

(** The state the cost evaluation of a cut changes. *)
Record ev := mk_ev {
  ev_c : compressor;
  leftLiteralsEncoder : huffman_encoder;
  leftOffsetEncoder : huffman_encoder;
  rightLiteralsEncoder : huffman_encoder;
  rightOffsetEncoder : huffman_encoder;
  nLastLeftEndOffset : Z;
  nBestSplitOffset : Z;
  nBestSplitDelta : Z
}.

(** The state of the scan loop (lines 638-643). *)
Record scan := mk_scan {
  sc_i : Z;
  stat : list Z;
  newStat : list Z;
  nNumStats : Z;
  nNumNewStats : Z;
  nLastGoodSplitIdx : Z;
  sc_ev : ev
}.

(** [((nByte >> 4) & 0xc) | (nByte & 0x3)]: the class of a literal. *)
Definition stat_index (nByte : Z) : Z := Z.lor (Z.land (Z.shiftr nByte 4) 12) (Z.land nByte 3).

(** One token of the greedy parse (lines 687-705): the position after it
    and the class counts.  [nMatchLen] is the [int] length of a match of
    at least [MIN_MATCH_SIZE] bytes, so its conversion to [unsigned] keeps
    it; the counters stay far below 2^32 (at most one per byte). *)
Definition scan_token (c : compressor) (w : list Z) (i : Z) (ns : list Z) : Z * list Z :=
  let pm := mget (cmatch c) (Z.shiftl i MATCHES_PER_OFFSET_SHIFT) in
  if MIN_MATCH_SIZE <=? m_length pm then
    let nMatchLen := m_length pm in
    (i + nMatchLen, aincr ns (if 9 <=? nMatchLen then 17 else 16))
  else (i + 1, aincr ns (stat_index w.[i])).

(** One turn of the drift sum (lines 711-721), in 32-bit unsigned
    arithmetic. *)
Definition drift_term (st ns : list Z) (nStats nNewStats tot j : Z) : Z :=
  let expected := wrap 32 (st.[j] * nNewStats) in
  let actual := wrap 32 (ns.[j] * nStats) in
  let nDelta := if actual <? expected then wrap 32 (expected - actual) else wrap 32 (actual - expected) in
  wrap 32 (tot + nDelta).

Definition total_delta (st ns : list Z) (nStats nNewStats : Z) : Z :=
  foldl (drift_term st ns nStats nNewStats) 0 (zseq 0 18).

(** [(nTotalDelta / nNumNewStats) >= (nNumStats * 45 / 100)], unsigned. *)
Definition drifted (nTotalDelta nStats nNewStats : Z) : bool :=
  wrap 32 (nStats * 45) / 100 <=? nTotalDelta / nNewStats.

(** [for (j = 0; j < n; j++) a[j] += b[j];] *)
Definition add_entropy (a b : list Z) (n : Z) : list Z :=
  foldl (fun a j => a.[j := a.[j] + b.[j]]) a (zseq 0 (Z.to_nat n)).

(** [for (j = 0; j < n; j++) r[j] = t[j] - l[j];] *)
Definition sub_entropy (r t l : list Z) (n : Z) : list Z :=
  foldl (fun r j => r.[j := t.[j] - l.[j]]) r (zseq 0 (Z.to_nat n)).

(** The merge of the new counts at a check point (lines 767-773). *)
Definition merge_stats (st ns : list Z) (nStats : Z) : list Z * Z :=
  foldl (fun '(st, n) j => (st.[j := st.[j] + ns.[j]], n + ns.[j])) (st, nStats) (zseq 0 18).

Section Scan.

Context (w : list Z) (nStartOffset nInDataSize : Z).
Context (totalLiteralsEncoder totalOffsetEncoder : huffman_encoder) (nTotalDynamicCost : Z).

(** The six estimates of the cost of a cut, chained by [&&] (lines
    747-752): whether all succeeded, the four encoders as they are left,
    and the two costs. *)
Definition cut_costs (ll lo rl ro : huffman_encoder)
    : bool * huffman_encoder * huffman_encoder * huffman_encoder * huffman_encoder * Z * Z :=
  let '(s1, ll') := zultra_huffman_encoder_estimate_dynamic_codelens ll in
  if s1 <? 0 then (false, ll', lo, rl, ro, 0, 0) else
  let '(s2, lo') := zultra_huffman_encoder_estimate_dynamic_codelens lo in
  if s2 <? 0 then (false, ll', lo', rl, ro, 0, 0) else
  let '(s3, nLeft) := zultra_block_evaluate_dynamic_cost ll' lo' in
  if s3 <? 0 then (false, ll', lo', rl, ro, nLeft, 0) else
  let '(s4, rl') := zultra_huffman_encoder_estimate_dynamic_codelens rl in
  if s4 <? 0 then (false, ll', lo', rl', ro, nLeft, 0) else
  let '(s5, ro') := zultra_huffman_encoder_estimate_dynamic_codelens ro in
  if s5 <? 0 then (false, ll', lo', rl', ro', nLeft, 0) else
  let '(s6, nRight) := zultra_block_evaluate_dynamic_cost rl' ro' in
  (negb (s6 <? 0), ll', lo', rl', ro', nLeft, nRight).

(** The evaluation of the cut at [nLastGoodSplitIdx] (lines 734-763). *)
Definition try_split (e : ev) (g : Z) : ev :=
  let '(r, c1) := zultra_block_prepare_cost_evaluation (ev_c e) w (nLastLeftEndOffset e) (g - nLastLeftEndOffset e) in
  if r <? 0 then mk_ev c1 (leftLiteralsEncoder e) (leftOffsetEncoder e) (rightLiteralsEncoder e)
                   (rightOffsetEncoder e) (nLastLeftEndOffset e) (nBestSplitOffset e) (nBestSplitDelta e)
  else
    let ll := set_entropy (leftLiteralsEncoder e)
                ((add_entropy (nEntropy (leftLiteralsEncoder e)) (nEntropy (literalsEncoder c1)) NLITERALSYMS)
                   .[NEODMARKERSYM := 1]) in
    let lo := set_entropy (leftOffsetEncoder e)
                (add_entropy (nEntropy (leftOffsetEncoder e)) (nEntropy (offsetEncoder c1)) NOFFSETSYMS) in
    let rl := set_entropy (rightLiteralsEncoder e)
                ((sub_entropy (nEntropy (rightLiteralsEncoder e)) (nEntropy totalLiteralsEncoder) (nEntropy ll) NLITERALSYMS)
                   .[NEODMARKERSYM := 1]) in
    let ro := set_entropy (rightOffsetEncoder e)
                (sub_entropy (nEntropy (rightOffsetEncoder e)) (nEntropy totalOffsetEncoder) (nEntropy lo) NOFFSETSYMS) in
    let '(ok, ll', lo', rl', ro', nLeft, nRight) := cut_costs ll lo rl ro in
    let nDelta := nTotalDynamicCost - (nLeft + nRight) in
    if ok && (0 <=? nDelta) &&
       ((nBestSplitOffset e =? nStartOffset + nInDataSize) || (nBestSplitDelta e <? nDelta))
    then mk_ev c1 ll' lo' rl' ro' g g nDelta
    else mk_ev c1 ll' lo' rl' ro' g (nBestSplitOffset e) (nBestSplitDelta e).

(** One turn of the scan loop (lines 687-774). *)
Definition scan_step (st : scan) : scan :=
  let '(i', ns) := scan_token (ev_c (sc_ev st)) w (sc_i st) (newStat st) in
  let nNew := nNumNewStats st + 1 in
  if (256 <=? nNew) && (512 <=? i' - nStartOffset) then
    let e' :=
      if negb (nNumStats st =? 0) &&
         drifted (total_delta (stat st) ns (nNumStats st) nNew) (nNumStats st) nNew &&
         (0 <=? nLastGoodSplitIdx st)
      then try_split (sc_ev st) (nLastGoodSplitIdx st) else sc_ev st in
    let '(st', nStats') := merge_stats (stat st) ns (nNumStats st) in
    mk_scan i' st' (zero_prefix ns 18) nStats' 0 i' e'
  else mk_scan i' (stat st) ns (nNumStats st) nNew (nLastGoodSplitIdx st) (sc_ev st).

(** [for (i = nStartOffset; i < nStartOffset + nInDataSize; )] *)
Fixpoint scan_loop (fuel : nat) (st : scan) : scan :=
  match fuel with
  | O => st
  | S f => if sc_i st <? nStartOffset + nInDataSize then scan_loop f (scan_step st) else st
  end.

End Scan.

(** The four local encoders before [zultra_huffman_encoder_init] fills
    them; [init] overwrites every field on success. *)
Definition blank_encoder : huffman_encoder := mk_encoder 0 0 [] [] [].

(** The body of [zultra_compressor_split_subblock_recursive] from the
    first cost evaluation to the end of the scan (lines 661-775): the
    status (-1 on an error, [nInDataSize] when an encoder cannot be
    initialised, 0 otherwise), the compressor and the best cut
    ([nStartOffset + nInDataSize] for none). *)
Definition split_scan (c : compressor) (w : list Z) (s n : Z) : Z * compressor * Z :=
  let '(r0, c0) := zultra_block_prepare_cost_evaluation c w s n in
  if r0 <? 0 then (-1, c0, s + n) else
  let '(r1, le) := zultra_huffman_encoder_estimate_dynamic_codelens (literalsEncoder c0) in
  let c1 := set_literals c0 le in
  if r1 <? 0 then (-1, c1, s + n) else
  let '(r2, oe) := zultra_huffman_encoder_estimate_dynamic_codelens (offsetEncoder c1) in
  let c2 := set_offsets c1 oe in
  if r2 <? 0 then (-1, c2, s + n) else
  let '(r3, nTotal) := zultra_block_evaluate_dynamic_cost le oe in
  if r3 <? 0 then (-1, c2, s + n) else
  let '(i1, ll) := zultra_huffman_encoder_init blank_encoder NLITERALSYMS 15 0 in
  let '(i2, lo) := zultra_huffman_encoder_init blank_encoder NOFFSETSYMS 15 0 in
  let '(i3, rl) := zultra_huffman_encoder_init blank_encoder NLITERALSYMS 15 0 in
  let '(i4, ro) := zultra_huffman_encoder_init blank_encoder NOFFSETSYMS 15 0 in
  if (i1 <? 0) || (i2 <? 0) || (i3 <? 0) || (i4 <? 0) then (n, c2, s + n) else
  let st0 := mk_scan s (replicate 18 0) (replicate 18 0) 0 0 (-1) (mk_ev c2 ll lo rl ro s (s + n) 0) in
  let st := scan_loop w s n le oe nTotal (Z.to_nat n) st0 in
  (0, ev_c (sc_ev st), nBestSplitOffset (sc_ev st)).

(** [zultra_compressor_split_subblock_recursive] (lines 636-788): the
    status, the compressor and the split offsets written so far (the
    array [pSplitOffset] up to [*pSplitCount]).  The recursion is at most
    6 levels deep; [fuel] bounds it. *)
Fixpoint split_subblock_recursive (fuel : nat) (c : compressor) (w : list Z) (s n nDepth nMaxSplits : Z)
    (splits : list Z) : Z * compressor * list Z :=
  match fuel with
  | O => (0, c, splits)
  | S f =>
      if nMaxSplits <=? Z.of_nat (length splits) then (0, c, splits)
      else if (6 <=? nDepth) || (n <? 8192) then (0, c, splits)
      else
        let '(r, c3, best) := split_scan c w s n in
        if negb (r =? 0) then (r, c3, splits)
        else if best =? s + n then (0, c3, splits)
        else
          let '(r4, c4, sp4) := split_subblock_recursive f c3 w s (best - s) (nDepth + 1) nMaxSplits splits in
          if r4 <? 0 then (-1, c4, sp4) else
          let sp5 := if Z.of_nat (length sp4) <? nMaxSplits then sp4 ++ [best] else sp4 in
          let '(r6, c6, sp6) := split_subblock_recursive f c4 w best ((n + s) - best) (nDepth + 1) nMaxSplits sp5 in
          if r6 <? 0 then (-1, c6, sp6) else (0, c6, sp6)
  end.

(** A scan state after one check point: 256 tokens counted in class 0,
    600 bytes in. *)
Definition split_ex_state : scan :=
  mk_scan 600 (replicate 18 0).[0 := 256] (replicate 18 0) 256 0 600
    (mk_ev lz_ex_compressor blank_encoder blank_encoder blank_encoder blank_encoder 0 1000 0).

(** Fuel for a call at depth [d]: the calls at depth 6 return at once. *)
Definition split_fuel (d : Z) : nat := S (Z.to_nat (6 - d)).

(** [zultra_block_split] (lines 802-815): the number of splits (or the
    status), the compressor and the splits. *)
Definition zultra_block_split (c : compressor) (w : list Z) (s n nMaxSplits : Z) : Z * compressor * list Z :=
  let '(nResult, c', splits) := split_subblock_recursive (split_fuel 0) c w s n 0 (nMaxSplits - 1) [] in
  if (nResult =? 0) && (Z.of_nat (length splits) <? nMaxSplits)
  then (Z.of_nat (length splits) + 1, c', splits ++ [s + n])
  else (nResult, c', splits).

(** ** The scan invariant *)

Section ScanSpec.

Context (w : list Z) (s n : Z) (tl to : huffman_encoder) (nT : Z).

(** The last check point and the best cut are inside the block scanned so
    far. *)
Definition scan_inv (st : scan) : Prop :=
  s <= sc_i st /\
  (nLastGoodSplitIdx st = -1 \/ s < nLastGoodSplitIdx st <= sc_i st) /\
  (nBestSplitOffset (sc_ev st) = s + n \/ s < nBestSplitOffset (sc_ev st) < s + n).

(** The class counters: 18 nonnegative counts adding up to [nNumStats]
    and [nNumNewStats], at most one token per byte scanned, and after the
    first check point fewer than 256 new tokens, 512 bytes in. *)
Definition stats_inv (st : scan) : Prop :=
  length (stat st) = 18%nat /\ length (newStat st) = 18%nat /\
  (forall j, 0 <= j < 18 -> 0 <= (stat st).[j] /\ 0 <= (newStat st).[j]) /\
  zsum (aget (stat st)) (zseq 0 18) = nNumStats st /\
  zsum (aget (newStat st)) (zseq 0 18) = nNumNewStats st /\
  nNumStats st + nNumNewStats st <= sc_i st - s /\
  (nNumStats st = 0 \/ (nNumNewStats st < 256 /\ 512 <= sc_i st - s)).

End ScanSpec.

(** The drift the check should measure: the L1 distance between the old
    counts scaled by the number of new tokens and the new counts scaled by
    the number of old ones. *)
Definition exact_delta (st ns : list Z) (nStats nNewStats : Z) : Z :=
  zsum (fun j => Z.abs (st.[j] * nNewStats - ns.[j] * nStats)) (zseq 0 18).

(** ** The scan makes progress and terminates *)

Lemma scan_token_advance c w i ns : i + 1 <= fst (scan_token c w i ns).
Proof. unfold scan_token. destruct (MIN_MATCH_SIZE <=? _) eqn:E; simpl; bool_to_prop; unfold MIN_MATCH_SIZE in *; lia. Qed.

Section ScanLoop.

Context (w : list Z) (s n : Z) (tl to : huffman_encoder) (nT : Z).

Lemma scan_step_i st :
  sc_i (scan_step w s n tl to nT st) = fst (scan_token (ev_c (sc_ev st)) w (sc_i st) (newStat st)).
Proof.
  unfold scan_step. destruct (scan_token _ _ _ _) as [i' ns]. destruct (_ && _); [| done].
  by destruct (merge_stats _ _ _).
Qed.

Lemma scan_step_advance st : sc_i st + 1 <= sc_i (scan_step w s n tl to nT st).
Proof. rewrite scan_step_i. apply scan_token_advance. Qed.

Lemma scan_loop_S f st :
  scan_loop w s n tl to nT (S f) st =
    if sc_i st <? s + n then scan_loop w s n tl to nT f (scan_step w s n tl to nT st) else st.
Proof. reflexivity. Qed.

(** With fuel for every byte left, the loop stops on its own condition. *)
Lemma scan_loop_exit f st :
  (Z.to_nat (s + n - sc_i st) <= f)%nat -> s + n <= sc_i (scan_loop w s n tl to nT f st).
Proof.
  revert st. induction f as [|f IH]; intros st Hf; simpl; [lia |].
  destruct (sc_i st <? s + n) eqn:E; bool_to_prop; [| lia].
  apply IH. pose proof (scan_step_advance st). lia.
Qed.

Lemma scan_loop_stable f st :
  (Z.to_nat (s + n - sc_i st) <= f)%nat -> scan_loop w s n tl to nT (S f) st = scan_loop w s n tl to nT f st.
Proof.
  revert st. induction f as [|f IH]; intros st Hf.
  - simpl. destruct (sc_i st <? s + n) eqn:E; bool_to_prop; [lia | done].
  - rewrite (scan_loop_S (S f) st), (scan_loop_S f st). destruct (sc_i st <? s + n) eqn:E; bool_to_prop; [| done].
    apply IH. pose proof (scan_step_advance st). lia.
Qed.

Lemma try_split_best e g :
  nBestSplitOffset (try_split w s n tl to nT e g) = nBestSplitOffset e \/
  nBestSplitOffset (try_split w s n tl to nT e g) = g.
Proof.
  unfold try_split. destruct (zultra_block_prepare_cost_evaluation _ _ _ _) as [r c1].
  destruct (r <? 0); [by left |]. cbv zeta.
  match goal with |- context [cut_costs ?a ?b ?c ?d] => destruct (cut_costs a b c d) as [[[[[[ok ll] lo] rl] ro] nL] nR] end.
  destruct (_ && _ && _); [by right | by left].
Qed.

Lemma scan_step_inv st :
  sc_i st < s + n -> scan_inv s n st -> scan_inv s n (scan_step w s n tl to nT st).
Proof.
  intros Hi (H1 & H2 & H3). pose proof (scan_step_advance st) as Ha. revert Ha. unfold scan_step.
  destruct (scan_token _ _ _ _) as [i' ns]. destruct ((256 <=? _) && (512 <=? _)) eqn:C; intros Ha.
  - destruct (merge_stats _ _ _) as [st' nStats']. bool_to_prop. unfold scan_inv in *; simpl in *.
    split; [lia | split; [right; lia |]].
    destruct (negb _ && _ && _) eqn:D; [| done]. bool_to_prop.
    destruct (try_split_best (sc_ev st) (nLastGoodSplitIdx st)) as [-> | ->]; [done | right; lia].
  - unfold scan_inv in *; simpl in *. lia.
Qed.

Lemma scan_loop_inv f st : scan_inv s n st -> scan_inv s n (scan_loop w s n tl to nT f st).
Proof.
  revert st. induction f as [|f IH]; intros st H; simpl; [done |].
  destruct (sc_i st <? s + n) eqn:E; bool_to_prop; [| done]. by apply IH, scan_step_inv.
Qed.

End ScanLoop.

(** ** The cost evaluation before the scan succeeds *)

Lemma init_ok e k maxl d :
  0 <= k <= MAX_SYMBOLS -> 0 <= maxl <= 32 ->
  fst (zultra_huffman_encoder_init e k maxl d) = 0 /\ nSymbols (snd (zultra_huffman_encoder_init e k maxl d)) = k.
Proof.
  intros Hk Hm. unfold zultra_huffman_encoder_init.
  replace ((k <? 0) || (MAX_SYMBOLS <? k) || (maxl <? 0) || (32 <? maxl)) with false
    by (symmetry; repeat rewrite orb_false_iff; repeat split; apply Z.ltb_ge; lia). done.
Qed.

Lemma estimate_ok e :
  0 <= nSymbols e <= MAX_SYMBOLS ->
  fst (zultra_huffman_encoder_estimate_dynamic_codelens e) = 0 /\
  nSymbols (snd (zultra_huffman_encoder_estimate_dynamic_codelens e)) = nSymbols e.
Proof.
  intros Hs. unfold zultra_huffman_encoder_estimate_dynamic_codelens.
  replace ((nSymbols e <? 0) || (MAX_SYMBOLS <? nSymbols e)) with false
    by (symmetry; apply orb_false_iff; split; apply Z.ltb_ge; lia). by destruct (1 <? _).
Qed.

Lemma prepare_ok c w s n :
  let '(r, c0) := zultra_block_prepare_cost_evaluation c w s n in
  r = 0 /\ nSymbols (literalsEncoder c0) = NLITERALSYMS /\ nSymbols (offsetEncoder c0) = NOFFSETSYMS.
Proof.
  unfold zultra_block_prepare_cost_evaluation, init_encoders.
  destruct (init_ok (literalsEncoder c) NLITERALSYMS 15 0) as (A1 & A2); [unfold MAX_SYMBOLS, NLITERALSYMS; lia | lia |].
  destruct (init_ok (offsetEncoder c) NOFFSETSYMS 15 0) as (B1 & B2); [unfold MAX_SYMBOLS, NOFFSETSYMS; lia | lia |].
  destruct (zultra_huffman_encoder_init (literalsEncoder c) _ _ _) as [r1 le], (zultra_huffman_encoder_init (offsetEncoder c) _ _ _) as [r2 oe].
  simpl in *. subst. simpl. unfold zultra_build_initial_entropy_lwd, build_entropy_lwd.
  destruct (entropy_loop _ _ _ _ _ _ _). simpl. done.
Qed.

(** [split_scan] always succeeds, and its cut is strictly inside the block
    or is the block's end. *)
Lemma split_scan_spec c w s n :
  let '(r, c', best) := split_scan c w s n in r = 0 /\ (best = s + n \/ s < best < s + n).
Proof.
  unfold split_scan. pose proof (prepare_ok c w s n) as P.
  destruct (zultra_block_prepare_cost_evaluation c w s n) as [r0 c0]. destruct P as (-> & P1 & P2). simpl.
  destruct (estimate_ok (literalsEncoder c0)) as (E1 & E2); [rewrite P1; unfold MAX_SYMBOLS, NLITERALSYMS; lia |].
  destruct (zultra_huffman_encoder_estimate_dynamic_codelens (literalsEncoder c0)) as [r1 le]. simpl in E1. subst r1. simpl.
  destruct (estimate_ok (offsetEncoder c0)) as (F1 & F2); [rewrite P2; unfold MAX_SYMBOLS, NOFFSETSYMS; lia |].
  destruct (zultra_huffman_encoder_estimate_dynamic_codelens (offsetEncoder c0)) as [r2 oe]. simpl in F1. subst r2. simpl.
  destruct (zultra_block_evaluate_dynamic_cost le oe) as [r3 nTotal] eqn:Ev.
  assert (r3 = 0) as -> by (apply (f_equal fst) in Ev; exact (eq_sym Ev)). simpl.
  destruct (init_ok blank_encoder NLITERALSYMS 15 0) as (I1 & _); [unfold MAX_SYMBOLS, NLITERALSYMS; lia | lia |].
  destruct (init_ok blank_encoder NOFFSETSYMS 15 0) as (I2 & _); [unfold MAX_SYMBOLS, NOFFSETSYMS; lia | lia |].
  destruct (zultra_huffman_encoder_init blank_encoder NLITERALSYMS 15 0) as [i1 ll].
  destruct (zultra_huffman_encoder_init blank_encoder NOFFSETSYMS 15 0) as [i2 lo]. simpl in I1, I2. subst. simpl.
  split; [done |]. apply scan_loop_inv. unfold scan_inv; simpl. lia.
Qed.

(** ** The recursion *)

Lemma split_rec_S f c w s n d M sp :
  split_subblock_recursive (S f) c w s n d M sp =
    if M <=? Z.of_nat (length sp) then (0, c, sp)
    else if (6 <=? d) || (n <? 8192) then (0, c, sp)
    else
      let '(r, c3, best) := split_scan c w s n in
      if negb (r =? 0) then (r, c3, sp)
      else if best =? s + n then (0, c3, sp)
      else
        let '(r4, c4, sp4) := split_subblock_recursive f c3 w s (best - s) (d + 1) M sp in
        if r4 <? 0 then (-1, c4, sp4) else
        let sp5 := if Z.of_nat (length sp4) <? M then sp4 ++ [best] else sp4 in
        let '(r6, c6, sp6) := split_subblock_recursive f c4 w best ((n + s) - best) (d + 1) M sp5 in
        if r6 <? 0 then (-1, c6, sp6) else (0, c6, sp6).
Proof. reflexivity. Qed.

Lemma split_fuel_stable f c w s n d M sp :
  (Z.to_nat (6 - d) < f)%nat ->
  split_subblock_recursive (S f) c w s n d M sp = split_subblock_recursive f c w s n d M sp.
Proof.
  revert c s n d sp. induction f as [|f IH]; intros c s n d sp Hf; [lia |].
  rewrite (split_rec_S (S f) c w s n d M sp), (split_rec_S f c w s n d M sp).
  destruct (M <=? _); [done |]. destruct ((6 <=? d) || _) eqn:Ed; [done |].
  apply orb_false_iff in Ed as [Ed _]. bool_to_prop.
  destruct (split_scan c w s n) as [[r c3] best]. destruct (negb _); [done |]. destruct (best =? s + n); [done |].
  rewrite IH by lia. destruct (split_subblock_recursive f c3 w s _ _ _ _) as [[r4 c4] sp4].
  destruct (r4 <? 0); [done |]. cbv zeta. rewrite IH by lia. done.
Qed.

(** What one call adds to the splits: cuts strictly inside its block, in
    increasing order, never beyond [nMaxSplits] entries. *)
Lemma split_rec_spec f c w s n d M sp :
  let '(r, c', sp') := split_subblock_recursive f c w s n d M sp in
  r = 0 /\ exists nw, sp' = sp ++ nw /\ StronglySorted Z.lt nw /\ Forall (fun x => s < x < s + n) nw /\
    Z.of_nat (length sp') <= Z.max (Z.of_nat (length sp)) M.
Proof.
  revert c s n d sp. induction f as [|f IH]; intros c s n d sp.
  { split; [done |]. exists []. rewrite app_nil_r. repeat split; [constructor | constructor | lia]. }
  rewrite split_rec_S.
  destruct (M <=? _).
  { split; [done |]. exists []. rewrite app_nil_r. repeat split; [constructor | constructor | lia]. }
  destruct (_ || _).
  { split; [done |]. exists []. rewrite app_nil_r. repeat split; [constructor | constructor | lia]. }
  pose proof (split_scan_spec c w s n) as Sc. destruct (split_scan c w s n) as [[r c3] best].
  destruct Sc as (-> & Hb). simpl. destruct (best =? s + n) eqn:Eb; bool_to_prop.
  { split; [done |]. exists []. rewrite app_nil_r. repeat split; [constructor | constructor | lia]. }
  destruct Hb as [Hb | Hb]; [apply Z.eqb_neq in Eb; lia |].
  pose proof (IH c3 s (best - s) (d + 1) sp) as L.
  destruct (split_subblock_recursive f c3 w s _ _ _ _) as [[r4 c4] sp4].
  destruct L as (-> & nw1 & -> & S1 & F1 & L1). simpl.
  set (sp5 := if Z.of_nat (length (sp ++ nw1)) <? M then (sp ++ nw1) ++ [best] else sp ++ nw1).
  pose proof (IH c4 best (n + s - best) (d + 1) sp5) as R.
  destruct (split_subblock_recursive f c4 w best _ _ _ _) as [[r6 c6] sp6].
  destruct R as (-> & nw2 & -> & S2 & F2 & L2). simpl. split; [done |].
  assert (F1' : Forall (fun x => s < x < s + n) nw1) by (eapply Forall_impl; [exact F1 | simpl; lia]).
  assert (F2' : Forall (fun x => s < x < s + n) nw2) by (eapply Forall_impl; [exact F2 | simpl; lia]).
  unfold sp5 in *. destruct (Z.of_nat (length (sp ++ nw1)) <? M) eqn:EM; bool_to_prop.
  - exists (nw1 ++ [best] ++ nw2). split; [by rewrite !app_assoc |].
    rewrite !length_app in *. cbn [length] in *. split; [| split].
    + apply StronglySorted_app_2; [| done |].
      * intros x y Hx Hy. eapply Forall_forall in F1; [| exact Hx]. simpl in F1.
        apply elem_of_app in Hy as [Hy | Hy]; [apply list_elem_of_singleton in Hy; lia |].
        eapply Forall_forall in F2; [| exact Hy]. simpl in F2. lia.
      * apply StronglySorted_app_2; [| repeat constructor | done].
        intros x y Hx Hy. apply list_elem_of_singleton in Hx. eapply Forall_forall in F2; [| exact Hy]. simpl in F2. lia.
    + apply Forall_app; split; [done | apply Forall_app; split; [constructor; [lia | constructor] | done]].
    + lia.
  - exists (nw1 ++ nw2). rewrite app_assoc. split; [done |]. split; [| split].
    + apply StronglySorted_app_2; [| done | done]. intros x y Hx Hy.
      eapply Forall_forall in F1; [| exact Hx]. eapply Forall_forall in F2; [| exact Hy]. simpl in *. lia.
    + by apply Forall_app.
    + rewrite !length_app in *. lia.
Qed.

(** ** The drift sum in 32-bit arithmetic *)

Lemma pow2_32 : 2 ^ 32 = 4294967296.
Proof. reflexivity. Qed.

Lemma drift_fold st ns N N' acc l :
  0 <= acc -> (forall j, j ∈ l -> 0 <= st.[j] * N' /\ 0 <= ns.[j] * N) ->
  acc + zsum (fun j => st.[j] * N' + ns.[j] * N) l < 2 ^ 32 ->
  foldl (drift_term st ns N N') acc l = acc + zsum (fun j => Z.abs (st.[j] * N' - ns.[j] * N)) l.
Proof.
  pose proof pow2_32. revert acc. induction l as [|j l IH]; intros acc Hacc Hnn Hb; simpl; [lia |].
  rewrite zsum_cons in Hb. destruct (Hnn j ltac:(set_solver)) as [H1 H2].
  assert (Hl : 0 <= zsum (fun j => st.[j] * N' + ns.[j] * N) l).
  { apply zsum_nonneg. intros x Hx. destruct (Hnn x ltac:(set_solver)). lia. }
  assert (Hd : drift_term st ns N N' acc j = acc + Z.abs (st.[j] * N' - ns.[j] * N)).
  { unfold drift_term. rewrite (wrap_small 32 (st.[j] * N')), (wrap_small 32 (ns.[j] * N)) by lia.
    destruct (ns.[j] * N <? st.[j] * N') eqn:E; bool_to_prop.
    - rewrite (wrap_small 32 (st.[j] * N' - ns.[j] * N)) by lia. rewrite wrap_small by lia. lia.
    - rewrite (wrap_small 32 (ns.[j] * N - st.[j] * N')) by lia. rewrite wrap_small by lia. lia. }
  rewrite Hd, IH; [lia | lia | intros x Hx; apply Hnn; set_solver | lia].
Qed.

(** ** The class counters *)

Lemma stat_index_range b : 0 <= stat_index b < 16.
Proof.
  unfold stat_index.
  assert (H : Z.shiftr (Z.lor (Z.land (Z.shiftr b 4) 12) (Z.land b 3)) 4 = 0).
  { apply Z.bits_inj'. intros k Hk. rewrite Z.shiftr_spec, Z.lor_spec, !Z.land_spec, Z.bits_0 by lia.
    rewrite (Z.bits_above_log2 12), (Z.bits_above_log2 3) by (simpl; lia). by rewrite !andb_false_r. }
  assert (0 <= Z.lor (Z.land (Z.shiftr b 4) 12) (Z.land b 3))
    by (apply Z.lor_nonneg; split; apply Z.land_nonneg; right; lia).
  rewrite Z.shiftr_div_pow2 in H by lia. change (2 ^ 4) with 16 in H. zlia.
Qed.

Lemma scan_token_class c w i ns :
  let '(i', ns') := scan_token c w i ns in i + 1 <= i' /\ exists k, 0 <= k < 18 /\ ns' = aincr ns k.
Proof.
  unfold scan_token. destruct (MIN_MATCH_SIZE <=? _) eqn:E; bool_to_prop; (split; [unfold MIN_MATCH_SIZE in *; lia |]).
  - eexists. split; [| reflexivity]. destruct (9 <=? _); lia.
  - exists (stat_index w.[i]). split; [pose proof (stat_index_range w.[i]); lia | reflexivity].
Qed.

Lemma merge_fold st ns N l :
  NoDup l -> (forall j, j ∈ l -> 0 <= j < Z.of_nat (length st)) ->
  let '(st', N') := foldl (fun '(st, n) j => (st.[j := st.[j] + ns.[j]], n + ns.[j])) (st, N) l in
  length st' = length st /\ N' = N + zsum (aget ns) l /\
  forall i, 0 <= i -> st'.[i] = st.[i] + (if decide (i ∈ l) then ns.[i] else 0).
Proof.
  revert st N. induction l as [|j l IH]; intros st N Hnd Hl; cbn [foldl].
  - split; [done | split; [unfold zsum; simpl; lia |]]. intros i _. destruct (decide (i ∈ [])) as [Hi |]; [set_solver | lia].
  - apply NoDup_cons in Hnd as [Hj Hnd]. assert (Hj' := Hl j ltac:(set_solver)).
    specialize (IH (st.[j := st.[j] + ns.[j]]) (N + ns.[j]) Hnd).
    destruct (foldl _ _ l) as [st' N'].
    destruct IH as (L & HN & Hget); [intros x Hx; rewrite length_aset; apply Hl; set_solver |].
    split; [by rewrite L, length_aset |]. split; [rewrite HN, zsum_cons; lia |].
    intros i Hi. rewrite Hget by done. destruct (decide (i = j)) as [-> | Hne].
    + rewrite aget_aset_eq by lia. rewrite decide_False by done. rewrite decide_True by set_solver. lia.
    + rewrite aget_aset_ne by lia.
      destruct (decide (i ∈ l)); [rewrite decide_True by set_solver | rewrite decide_False by set_solver]; lia.
Qed.

Section Stats.

Context (w : list Z) (s n : Z) (tl to : huffman_encoder) (nT : Z).

Lemma scan_step_stats st : stats_inv s st -> stats_inv s (scan_step w s n tl to nT st).
Proof.
  intros (L1 & L2 & Hnn & S1 & S2 & Hle & Hph). unfold scan_step.
  pose proof (scan_token_class (ev_c (sc_ev st)) w (sc_i st) (newStat st)) as T.
  destruct (scan_token _ _ _ _) as [i' ns]. destruct T as (Hi' & k & Hk & ->).
  assert (Lns : length (aincr (newStat st) k) = 18%nat) by (rewrite length_aincr; done).
  assert (Sns : zsum (aget (aincr (newStat st) k)) (zseq 0 18) = nNumNewStats st + 1).
  { rewrite zsum_aincr; [lia | apply NoDup_zseq | apply elem_of_zseq; simpl; lia |
      intros i Hi%elem_of_zseq; lia | rewrite L2; simpl; lia]. }
  assert (Nns : forall j, 0 <= j < 18 -> 0 <= (aincr (newStat st) k).[j]).
  { intros j Hj. rewrite aget_aincr by (rewrite ?L2; simpl; lia). destruct (Hnn j Hj). destruct (decide _); lia. }
  destruct ((256 <=? _) && (512 <=? _)) eqn:C.
  - unfold merge_stats.
    pose proof (merge_fold (stat st) (aincr (newStat st) k) (nNumStats st) (zseq 0 18) (NoDup_zseq 0 18)) as M.
    destruct (foldl _ (stat st, nNumStats st) _) as [st' N'].
    destruct M as (ML & MN & MG); [intros j Hj%elem_of_zseq; rewrite L1; simpl in *; lia |].
    bool_to_prop. unfold zero_prefix.
    assert (HZ : forall j, 0 <= j < 18 ->
      (foldl (fun a i => a.[i := 0]) (aincr (newStat st) k) (zseq 0 (Z.to_nat 18))).[j] = 0).
    { intros j Hj. rewrite aget_fill by (rewrite ?Lns; simpl; lia). simpl.
      rewrite (proj2 (Z.leb_le _ _)), (proj2 (Z.ltb_lt _ _)) by lia. done. }
    assert (HS : forall j, 0 <= j < 18 -> st'.[j] = (stat st).[j] + (aincr (newStat st) k).[j]).
    { intros j Hj. rewrite MG by lia. rewrite decide_True; [done | apply elem_of_zseq; simpl; lia]. }
    unfold stats_inv; cbn [stat newStat nNumStats nNumNewStats sc_i]. split; [by rewrite ML | split; [by rewrite length_fill |]].
    split; [intros j Hj; rewrite HS, HZ by done; destruct (Hnn j Hj); pose proof (Nns j Hj); lia |].
    split; [rewrite (zsum_ext _ (fun j => (stat st).[j] + (aincr (newStat st) k).[j])),
              zsum_plus by (intros j Hj%elem_of_zseq; apply HS; simpl in Hj; lia);
            fold (zsum (aget (stat st)) (zseq 0 18)); lia |].
    split; [apply zsum_zero; intros j Hj%elem_of_zseq; apply HZ; simpl in Hj; lia |].
    lia.
  - apply andb_false_iff in C. unfold stats_inv; cbn [stat newStat nNumStats nNumNewStats sc_i].
    split; [done | split; [done | split; [intros j Hj; split; [apply Hnn | apply Nns]; done |]]].
    split; [done | split; [done |]]. destruct C as [C | C]; bool_to_prop; lia.
Qed.

Lemma scan_loop_stats f st : stats_inv s st -> stats_inv s (scan_loop w s n tl to nT f st).
Proof.
  revert st. induction f as [|f IH]; intros st H; simpl; [done |].
  destruct (sc_i st <? s + n); [| done]. by apply IH, scan_step_stats.
Qed.

End Stats.

(** ** Claims *)

(** The splits partition the block (see the claim below). *)
Lemma block_split_spec c w s n M :
  1 <= M -> 0 < n ->
  let '(k, c', sp) := zultra_block_split c w s n M in
  k = Z.of_nat (length sp) /\ 1 <= k <= M /\ StronglySorted Z.lt sp /\
  Forall (fun x => s < x <= s + n) sp /\ last sp = Some (s + n).
Proof.
  intros HM Hn. unfold zultra_block_split.
  pose proof (split_rec_spec (split_fuel 0) c w s n 0 (M - 1) []) as H.
  destruct (split_subblock_recursive _ _ _ _ _ _ _ _) as [[r c'] sp].
  destruct H as (-> & nw & -> & S & F & L). simpl in L |- *.
  rewrite (proj2 (Z.ltb_lt _ M)) by lia. simpl. rewrite length_app. cbn [length].
  split; [lia | split; [lia | split; [| split]]].
  - apply StronglySorted_app_2; [| done | repeat constructor].
    intros x y Hx Hy. apply list_elem_of_singleton in Hy as ->. eapply Forall_forall in F; [| exact Hx]. simpl in F. lia.
  - apply Forall_app. split; [eapply Forall_impl; [exact F | simpl; lia] | constructor; [lia | constructor]].
  - apply last_snoc.
Qed.

(** C18. [zultra_block_split] partitions the block: for a nonempty block
    and room for at least one split, it returns the number of splits it
    wrote, at least 1 and at most [nMaxSplits] (so the writes stay inside
    the caller's [nSplitOffset[MAX_SPLITS]] array), the split offsets are
    strictly increasing and inside [(nStartOffset, nStartOffset +
    nInDataSize]], and the last one is the block's end. *)
Theorem block_split_partition c w s n M :
  1 <= M -> 0 < n ->
  let '(k, c', sp) := zultra_block_split c w s n M in
  k = Z.of_nat (length sp) /\ 1 <= k <= M /\ StronglySorted Z.lt sp /\
  Forall (fun x => s < x <= s + n) sp /\ last sp = Some (s + n).
Proof. apply block_split_spec. Qed.

(** The recursion of [zultra_compressor_split_subblock_recursive]
    terminates within the fuel the model gives it: from depth [d], any
    fuel of at least [split_fuel d] = 7 - d gives the same result, so the
    bound never cuts the C recursion short. *)
Theorem split_fuel_enough f c w s n d M sp :
  (split_fuel d <= f)%nat ->
  split_subblock_recursive f c w s n d M sp = split_subblock_recursive (split_fuel d) c w s n d M sp.
Proof.
  intros Hf. replace f with ((f - split_fuel d) + split_fuel d)%nat by lia.
  induction (f - split_fuel d)%nat as [|k IH]; [done |].
  rewrite Nat.add_succ_l, split_fuel_stable, IH; [done |]. unfold split_fuel. lia.
Qed.

(** C27. The scan loop of [zultra_compressor_split_subblock_recursive]
    terminates: each token moves [i] forward by at least one byte, so from
    any state with at most [f] bytes left the loop stops on its own
    condition [i >= nStartOffset + nInDataSize] within [f] turns, and more
    fuel gives the same state. *)
Theorem scan_loop_terminates w s n tl to nT f st :
  (Z.to_nat (s + n - sc_i st) <= f)%nat ->
  s + n <= sc_i (scan_loop w s n tl to nT f st) /\
  scan_loop w s n tl to nT (S f) st = scan_loop w s n tl to nT f st.
Proof. intros Hf. split; [by apply scan_loop_exit | by apply scan_loop_stable]. Qed.

Lemma block_split_partition_witness :
  let '(k, c', sp) := zultra_block_split lz_ex_compressor lz_ex_window 0 8 MAX_SPLITS in
  k = Z.of_nat (length sp) /\ 1 <= k <= MAX_SPLITS /\ StronglySorted Z.lt sp /\
  Forall (fun x => 0 < x <= 0 + 8) sp /\ last sp = Some (0 + 8).
Proof. apply block_split_partition; unfold MAX_SPLITS; lia. Defined.

Lemma split_fuel_enough_witness :
  split_subblock_recursive 10 lz_ex_compressor lz_ex_window 0 8 0 63 [] =
  split_subblock_recursive (split_fuel 0) lz_ex_compressor lz_ex_window 0 8 0 63 [].
Proof. apply split_fuel_enough. unfold split_fuel. simpl. lia. Defined.

Lemma scan_loop_terminates_witness :
  let st0 := mk_scan 0 (replicate 18 0) (replicate 18 0) 0 0 (-1)
               (mk_ev lz_ex_compressor blank_encoder blank_encoder blank_encoder blank_encoder 0 8 0) in
  0 + 8 <= sc_i (scan_loop lz_ex_window 0 8 blank_encoder blank_encoder 0 8 st0) /\
  scan_loop lz_ex_window 0 8 blank_encoder blank_encoder 0 9 st0 =
    scan_loop lz_ex_window 0 8 blank_encoder blank_encoder 0 8 st0.
Proof. apply scan_loop_terminates. simpl. lia. Defined.

(** The drift sum of the split check (lines 711-721) is computed in
    32-bit unsigned arithmetic; when the counts are nonnegative, add up to
    [nNumStats] and [nNumNewStats] and [2 * nNumStats * nNumNewStats]
    stays below 2^32, no product, difference or sum wraps and the result
    is the exact L1 distance of the scaled counts. *)
Theorem total_delta_exact st ns N N' :
  (forall j, 0 <= j < 18 -> 0 <= st.[j] /\ 0 <= ns.[j]) -> 0 <= N -> 0 <= N' ->
  zsum (aget st) (zseq 0 18) = N -> zsum (aget ns) (zseq 0 18) = N' -> 2 * N * N' < 2 ^ 32 ->
  total_delta st ns N N' = exact_delta st ns N N'.
Proof.
  intros Hnn HN HN' Hs Hs' Hb. unfold total_delta, exact_delta. rewrite drift_fold; [lia | lia | |].
  - intros j Hj%elem_of_zseq. destruct (Hnn j ltac:(simpl in Hj; lia)). split; nia.
  - rewrite zsum_plus, (zsum_ext _ (fun j => N' * st.[j])), (zsum_ext (fun j => ns.[j] * N) (fun j => N * ns.[j])),
      !zsum_scale by (intros; lia). fold (zsum (aget st) (zseq 0 18)) (zsum (aget ns) (zseq 0 18)).
    rewrite Hs, Hs'. nia.
Qed.

Lemma total_delta_exact_witness :
  total_delta (replicate 18 2) (replicate 18 1) 36 18 = exact_delta (replicate 18 2) (replicate 18 1) 36 18.
Proof.
  apply total_delta_exact; [intros j Hj; rewrite !aget_replicate by (simpl; lia); lia | lia | lia |
    reflexivity | reflexivity | rewrite pow2_32; lia].
Defined.

Lemma stats_inv_init s e : stats_inv s (mk_scan s (replicate 18 0) (replicate 18 0) 0 0 (-1) e).
Proof.
  unfold stats_inv; cbn [stat newStat nNumStats nNumNewStats sc_i].
  split; [done | split; [done | split; [intros j Hj; rewrite aget_replicate by (simpl; lia); lia |]]].
  split; [apply zsum_zero; intros j Hj%elem_of_zseq; apply aget_replicate; simpl in *; lia |].
  split; [apply zsum_zero; intros j Hj%elem_of_zseq; apply aget_replicate; simpl in *; lia |]. lia.
Qed.

(** The class counters of the split scan stay consistent in every
    state the loop reaches from its initial state: 18 nonnegative
    counters adding up to [nNumStats] and [nNumNewStats], at most one
    token per byte scanned, and once a check point has passed, fewer than
    256 new tokens between two checks. *)
Theorem scan_loop_stats_inv w s n tl to nT f st :
  stats_inv s st -> stats_inv s (scan_loop w s n tl to nT f st).
Proof. apply scan_loop_stats. Qed.

(** C28. In every turn of the split scan of a block of at most 2 MiB (the
    largest block [zultra_stream_init] allows), from a state with
    consistent counters, the drift check computes the exact L1 distance:
    [2 * nNumStats * nNumNewStats <= 2^30], so none of the 32-bit unsigned
    products and sums of lines 711-721 wraps. *)
Theorem scan_drift_exact w s n st :
  n <= 2 ^ 21 -> stats_inv s st -> sc_i st < s + n ->
  let '(i', ns) := scan_token (ev_c (sc_ev st)) w (sc_i st) (newStat st) in
  nNumStats st <> 0 ->
  total_delta (stat st) ns (nNumStats st) (nNumNewStats st + 1) =
    exact_delta (stat st) ns (nNumStats st) (nNumNewStats st + 1).
Proof.
  intros Hn (L1 & L2 & Hnn & S1 & S2 & Hle & Hph) Hi.
  pose proof (scan_token_class (ev_c (sc_ev st)) w (sc_i st) (newStat st)) as T.
  destruct (scan_token _ _ _ _) as [i' ns]. destruct T as (Hi' & k & Hk & ->). intros H0.
  assert (0 <= nNumStats st) by (rewrite <- S1; apply zsum_nonneg; intros j Hj%elem_of_zseq; apply Hnn; simpl in Hj; lia).
  assert (0 <= nNumNewStats st) by (rewrite <- S2; apply zsum_nonneg; intros j Hj%elem_of_zseq; apply Hnn; simpl in Hj; lia).
  apply total_delta_exact; [| lia | lia | done | |].
  - intros j Hj. rewrite aget_aincr by (rewrite ?L2; simpl; lia). destruct (Hnn j Hj). destruct (decide _); lia.
  - rewrite zsum_aincr; [lia | apply NoDup_zseq | apply elem_of_zseq; simpl; lia |
      intros j Hj%elem_of_zseq; lia | rewrite L2; simpl; lia].
  - rewrite pow2_32. change (2 ^ 21) with 2097152 in Hn. nia.
Qed.

Lemma scan_loop_stats_inv_witness :
  stats_inv 0 (scan_loop lz_ex_window 0 8 blank_encoder blank_encoder 0 8
    (mk_scan 0 (replicate 18 0) (replicate 18 0) 0 0 (-1)
       (mk_ev lz_ex_compressor blank_encoder blank_encoder blank_encoder blank_encoder 0 8 0))).
Proof. apply scan_loop_stats_inv, stats_inv_init. Defined.

Lemma scan_drift_exact_witness :
  let st := split_ex_state in
  let '(i', ns) := scan_token (ev_c (sc_ev st)) lz_ex_window (sc_i st) (newStat st) in
  nNumStats st <> 0 ->
  total_delta (stat st) ns (nNumStats st) (nNumNewStats st + 1) =
    exact_delta (stat st) ns (nNumStats st) (nNumNewStats st + 1).
Proof.
  apply (scan_drift_exact lz_ex_window 0 1000); [lia | | simpl; lia].
  unfold stats_inv; cbn [stat newStat nNumStats nNumNewStats sc_i split_ex_state].
  split; [reflexivity | split; [reflexivity | split]]; [| split; [reflexivity | split; [reflexivity | lia]]].
  intros j Hj. assert (Hb : forallZ (fun j => (0 <=? ((replicate 18 0).[0 := 256]).[j]) && (0 <=? (replicate 18 0).[j])) 0 18 = true)
    by reflexivity.
  pose proof (forallZ_spec _ _ _ Hb j) as H. specialize (H ltac:(simpl; lia)). cbv beta in H. bool_to_prop. lia.
Defined.

End Split.
