(* ===== verification/Stream.v ===== *)
(** * The stream layer ([src/libzultra.c])

    [zultra_stream_compress] collects input into a block of at most
    [max_block_size] bytes, compresses it (suffix array, matches, split,
    then one DEFLATE block per split) into [out_buffer] through the
    compressor's bit writer, and copies the buffer out.  A block whose
    compressed form is larger than the block itself is rewritten as stored
    blocks (lines 335-380): the writer is rewound to the block's start and
    the bytes are sent in sub-blocks of at most 65535 bytes, each with its
    3 header bits, padding to a byte, LEN and NLEN, then the raw bytes.
    The bit writer and [out_buffer] are one buffer: the stored bytes are
    written into the writer's [pOutData] behind its back, and
    [zultra_bitwriter_set_offset] then moves its offset past them.

    This file holds the status codes of [libzultra.h], the size of
    [out_buffer] ([zultra_stream_init]), the stored-block fallback loop,
    the copy of [out_buffer] to the caller (lines 424-444), and, as the
    specification the fallback is checked against, a decoder for the
    stored blocks of RFC 1951, 3.2.4.

    Theorems: the fallback writes stored blocks that decode, from the bit
    where the rewound writer stood, to exactly the bytes of the block, all
    but the last sub-block non-final and the last carrying the block's
    final flag, and it leaves the writer byte-aligned; it fails exactly
    when the buffer has no room.  The copy-out hands over the pending
    bytes in order; its size check cannot fire. *)

From S2P Require Import Prelude BitWriter Format.
Import BitWriter.

Local Open Scope zultra_scope.

Module Stream.

(** [zultra_status_t] ([libzultra.h]). *)
Inductive zultra_status :=
  | ZULTRA_OK
  | ZULTRA_ERROR_SRC
  | ZULTRA_ERROR_DST
  | ZULTRA_ERROR_DICTIONARY
  | ZULTRA_ERROR_MEMORY
  | ZULTRA_ERROR_COMPRESSION.

#[export] Instance zultra_status_eq_dec : EqDecision zultra_status.
Proof. solve_decision. Defined.

(** The size of [out_buffer] and the limit of the compressor's bit writer,
    [1 + nMaxBlockSize + (1 + 4) * ((nMaxBlockSize / 65535) + 1)]
    ([zultra_stream_init], lines 114 and 162). *)
Definition out_limit (nMaxBlockSize : Z) : Z :=
  1 + nMaxBlockSize + (1 + 4) * ((nMaxBlockSize / 65535) + 1).

(** The bit writer with its buffer replaced: the C code writes
    [out_buffer], which the writer points into. *)
Definition with_out (bw : bitwriter) (o : list Z) : bitwriter :=
  mk_bitwriter (nEncBitCount bw) (nEncBitsData bw) o (nOutOffset bw) (nMaxOutDataOffset bw).

(** One turn of the stored-block loop (lines 338-379): the header bits,
    the padding, LEN, NLEN and [nSubBlockSize] bytes of [in_data] from
    [src].  The status is [ZULTRA_ERROR_DST] when a write fails or the
    sub-block does not fit. *)
Definition stored_sub_block (nMaxBlockSize : Z) (in_data : list Z) (src nSubBlockSize nSubIsFinal : Z)
    (bw : bitwriter) : zultra_status * bitwriter :=
  let '(r1, bw1) := put_bits bw nSubIsFinal 1 in
  if r1 <? 0 then (ZULTRA_ERROR_DST, bw1) else
  let '(r2, bw2) := put_bits bw1 0 2 in
  if r2 <? 0 then (ZULTRA_ERROR_DST, bw2) else
  let '(r3, bw3) := flush_bits bw2 in
  if r3 <? 0 then (ZULTRA_ERROR_DST, bw3) else
  let nCurWriteOffset := get_offset bw3 in
  if (nCurWriteOffset <? 0) || (out_limit nMaxBlockSize <? nCurWriteOffset + 4 + nSubBlockSize)
  then (ZULTRA_ERROR_DST, bw3)
  else
    let o := pOutData bw3 in
    let o := o.[nCurWriteOffset := Z.land nSubBlockSize 0xff] in
    let o := o.[nCurWriteOffset + 1 := Z.land (Z.shiftr nSubBlockSize 8) 0xff] in
    let o := o.[nCurWriteOffset + 2 := Z.lxor (Z.land nSubBlockSize 0xff) 0xff] in
    let o := o.[nCurWriteOffset + 3 := Z.lxor (Z.land (Z.shiftr nSubBlockSize 8) 0xff) 0xff] in
    let o := memcpy o (nCurWriteOffset + 4) in_data src nSubBlockSize in
    (ZULTRA_OK, set_offset (with_out bw3 o) (nCurWriteOffset + 4 + nSubBlockSize)).

(** [while (!nError && nRemainingBlockSize) { ... }] (lines 337-380), from
    the rewound writer; the block's bytes start at [src] in [in_data]
    ([HISTORY_SIZE + nInStart]).  A sub-block takes at most 65535 bytes;
    only the last one carries [nIsFinal]. *)
Fixpoint stored_loop (fuel : nat) (nMaxBlockSize : Z) (in_data : list Z) (src nIsFinal : Z)
    (bw : bitwriter) (nSubBlockOffset nRemainingBlockSize : Z) : zultra_status * bitwriter :=
  match fuel with
  | O => (ZULTRA_OK, bw)
  | S f =>
      if nRemainingBlockSize =? 0 then (ZULTRA_OK, bw)
      else
        let nSubBlockSize := if 65535 <? nRemainingBlockSize then 65535 else nRemainingBlockSize in
        let nSubIsFinal := if 65535 <? nRemainingBlockSize then 0 else nIsFinal in
        let '(err, bw') := stored_sub_block nMaxBlockSize in_data (src + nSubBlockOffset) nSubBlockSize nSubIsFinal bw in
        if decide (err = ZULTRA_OK)
        then stored_loop f nMaxBlockSize in_data src nIsFinal bw' (nSubBlockOffset + nSubBlockSize)
               (nRemainingBlockSize - nSubBlockSize)
        else (err, bw')
  end.

(** The number of sub-blocks of a block of [n] bytes, and the fuel the
    loop needs. *)
Definition stored_count (n : Z) : Z := (n + 65534) / 65535.
Definition stored_fuel (n : Z) : nat := Z.to_nat (stored_count n).

(** ** Copying [out_buffer] to the caller (lines 424-444) *)

(** The part of [zultra_stream_t] and [zultra_compressor_t] the copy
    touches; [delivered] is what has gone to [next_out] so far. *)
Record drain := mk_drain {
  cur_out_index : Z;
  pending_out_bytes : Z;
  delivered : list Z;
  avail_out : Z;
  total_out : Z
}.

(** [if (!nError && !pending_frame_bytes && pending_out_bytes) { ... }]:
    the size check, then at most [avail_out] pending bytes copied out. *)
Definition drain_out_buffer (nMaxBlockSize pending_frame_bytes : Z) (nError : zultra_status) (out_buffer : list Z)
    (d : drain) : zultra_status * drain :=
  if bool_decide (nError = ZULTRA_OK) && (pending_frame_bytes =? 0) && negb (pending_out_bytes d =? 0) then
    let nMaxOutSize := out_limit nMaxBlockSize in
    if nMaxOutSize <? cur_out_index d + pending_frame_bytes then (ZULTRA_ERROR_COMPRESSION, d)
    else if negb (avail_out d =? 0) then
      let nMaxOutDataBytes := if pending_out_bytes d <? avail_out d then pending_out_bytes d else avail_out d in
      (nError, mk_drain (cur_out_index d + nMaxOutDataBytes) (pending_out_bytes d - nMaxOutDataBytes)
                 (delivered d ++ map (aget out_buffer) (zseq (cur_out_index d) (Z.to_nat nMaxOutDataBytes)))
                 (avail_out d - nMaxOutDataBytes) (total_out d + nMaxOutDataBytes))
    else (nError, d)
  else (nError, d).

(** ** RFC 1951, 3.2.4: stored blocks, as a decoder reads them *)

(** [n] bytes, each 8 bits LSB first. *)
Fixpoint read_bytes (bs : list bool) (n : nat) : list Z :=
  match n with
  | O => []
  | S n' => bits_to_Z (take 8 bs) :: read_bytes (drop 8 bs) n'
  end.

(** The first byte boundary at or after bit [p]. *)
Definition byte_align (p : nat) : nat := 8 * ((p + 7) / 8).

(** A stored block at bit [p] of the stream [bs]: BFINAL, BTYPE = 00, the
    bits up to the next byte boundary ignored, LEN and NLEN (its one's
    complement), then LEN bytes.  The result is BFINAL, the bytes and the
    bit after the block. *)
Definition stored_decode (bs : list bool) (p : nat) : option (bool * list Z * nat) :=
  match drop p bs with
  | bfinal :: false :: false :: _ =>
      let q := byte_align (p + 3) in
      let len := bits_to_Z (take 16 (drop q bs)) in
      let nlen := bits_to_Z (take 16 (drop (q + 16) bs)) in
      let e := (q + 32 + 8 * Z.to_nat len)%nat in
      if (nlen =? 65535 - len) && bool_decide (e <= length bs)%nat
      then Some (bfinal, read_bytes (drop (q + 32) bs) (Z.to_nat len), e)
      else None
  | _ => None
  end.

(** [k] stored blocks in a row from bit [p]: their flags and bytes, and
    the bit after the last one. *)
Fixpoint stored_decode_n (k : nat) (bs : list bool) (p : nat) : option (list (bool * list Z) * nat) :=
  match k with
  | O => Some ([], p)
  | S k' =>
      match stored_decode bs p with
      | Some (b, d, p') =>
          match stored_decode_n k' bs p' with
          | Some (r, e) => Some ((b, d) :: r, e)
          | None => None
          end
      | None => None
      end
  end.

(** LEN and NLEN of a stored block of [n] bytes, as bytes. *)
Definition stored_header (n : Z) : list Z := [n mod 256; n / 256; 255 - n mod 256; 255 - n / 256].

(** ** The stored-block decoder on the bits the fallback writes *)

Definition is_byte (b : Z) : Prop := 0 <= b < 256.

Lemma lxor_255 x : 0 <= x < 256 -> Z.lxor x 255 = 255 - x.
Proof. apply (forallZ_prop (fun x => Z.lxor x 255 = 255 - x) 0 256). decide_by_eval. Qed.

(** The four header bytes as the C code computes them. *)
Lemma header_bytes n :
  0 <= n < 65536 ->
  [Z.land n 0xff; Z.land (Z.shiftr n 8) 0xff; Z.lxor (Z.land n 0xff) 0xff;
   Z.lxor (Z.land (Z.shiftr n 8) 0xff) 0xff] = stored_header n.
Proof.
  intros Hn. unfold stored_header.
  assert (Hl : Z.land n 0xff = n mod 256) by (change 0xff with (Z.ones 8); by rewrite Z.land_ones by lia).
  assert (Hh : Z.land (Z.shiftr n 8) 0xff = n / 256).
  { change 0xff with (Z.ones 8). rewrite Z.land_ones, Z.shiftr_div_pow2 by lia.
    apply Z.mod_small. zlia. }
  rewrite Hl, Hh, !lxor_255 by zlia. done.
Qed.

Lemma drop_app_exact {A} (l k : list A) n : n = length l -> drop n (l ++ k) = k.
Proof. intros ->. apply drop_app_length. Qed.

Lemma take_app_exact {A} (l k : list A) n : n = length l -> take n (l ++ k) = l.
Proof. intros ->. apply take_app_length. Qed.

Lemma bits_to_Z_byte b : is_byte b -> bits_to_Z (bits_of b 8) = b.
Proof. intros Hb. apply bits_to_Z_bits_of. unfold is_byte in Hb. simpl. lia. Qed.

Lemma read_bytes_bytes_bits d rest :
  Forall is_byte d -> read_bytes (bytes_bits d ++ rest) (length d) = d.
Proof.
  induction d as [|b d IH]; intros Hd; [done |]. inversion Hd as [|? ? Hb Hd']; subst.
  change (bytes_bits (b :: d)) with (bits_of b 8 ++ bytes_bits d). rewrite <- app_assoc. cbn [length read_bytes].
  rewrite take_app_exact, drop_app_exact by (by rewrite length_bits_of).
  by rewrite bits_to_Z_byte, IH.
Qed.

(** Two bytes read as a 16-bit little-endian field. *)
Lemma read_le16 a b rest :
  is_byte a -> is_byte b -> bits_to_Z (take 16 (bits_of a 8 ++ bits_of b 8 ++ rest)) = a + 256 * b.
Proof.
  intros Ha Hb. rewrite app_assoc, take_app_exact by (by rewrite length_app, !length_bits_of).
  rewrite bits_to_Z_app, !bits_to_Z_byte by done. rewrite length_bits_of. simpl. lia.
Qed.

Lemma drop_bytes2 a b rest : drop 16 (bits_of a 8 ++ bits_of b 8 ++ rest) = rest.
Proof. rewrite app_assoc. apply drop_app_exact. by rewrite length_app, !length_bits_of. Qed.

Lemma drop_bytes4 a b c e rest :
  drop 32 (bits_of a 8 ++ bits_of b 8 ++ bits_of c 8 ++ bits_of e 8 ++ rest) = rest.
Proof. rewrite !app_assoc. apply drop_app_exact. by rewrite !length_app, !length_bits_of. Qed.

(** A stored block of [d] written after [X] on a byte boundary decodes
    to [d], whatever follows it. *)
Lemma stored_decode_block X f pad d rest :
  ((length X + 3 + pad) mod 8 = 0)%nat -> (pad < 8)%nat -> Z.of_nat (length d) < 65536 -> Forall is_byte d ->
  stored_decode (X ++ [f; false; false] ++ replicate pad false ++
                   bytes_bits (stored_header (Z.of_nat (length d)) ++ d) ++ rest) (length X)
  = Some (f, d, length X + 3 + pad + 32 + 8 * length d)%nat.
Proof.
  intros Hal Hpad Hd Hb. set (n := Z.of_nat (length d)).
  assert (Hq : byte_align (length X + 3) = (length X + 3 + pad)%nat).
  { unfold byte_align. pose proof (Nat.div_mod (length X + 3 + 7) 8 ltac:(lia)).
    pose proof (Nat.mod_upper_bound (length X + 3 + 7) 8 ltac:(lia)).
    pose proof (Nat.div_mod (length X + 3 + pad) 8 ltac:(lia)). lia. }
  set (P := X ++ [f; false; false] ++ replicate pad false).
  assert (HP : length P = (length X + 3 + pad)%nat) by (unfold P; rewrite !length_app, length_replicate; simpl; lia).
  unfold stored_decode. rewrite drop_app_exact by done. cbn [app]. rewrite Hq.
  replace (X ++ f :: false :: false :: replicate pad false ++ _) with
    (P ++ bytes_bits (stored_header n ++ d) ++ rest) by (unfold P; by rewrite <- ?app_assoc).
  unfold stored_header. rewrite bytes_bits_app.
  change (bytes_bits [?a; ?b; ?c; ?e]) with (bits_of a 8 ++ bits_of b 8 ++ bits_of c 8 ++ bits_of e 8 ++ []).
  rewrite app_nil_r, <- ?app_assoc. set (q := (length X + 3 + pad)%nat).
  rewrite <- !drop_drop, !(drop_app_exact P _ q) by (by rewrite HP).
  rewrite drop_bytes2, drop_bytes4, !read_le16 by (unfold is_byte; zlia).
  replace (n mod 256 + 256 * (n / 256)) with n by zlia.
  replace (255 - n mod 256 + 256 * (255 - n / 256)) with (65535 - n) by zlia.
  rewrite Z.eqb_refl, bool_decide_eq_true_2.
  - unfold n. rewrite Nat2Z.id, read_bytes_bytes_bits by done. done.
  - rewrite !length_app, !length_bits_of, length_bytes_bits, HP. unfold n. rewrite Nat2Z.id. lia.
Qed.

(** ** The fallback writes stored blocks *)

(** The four header writes and the [memcpy] of one sub-block lay LEN,
    NLEN and the bytes after the prefix that ends at [off]. *)
Lemma take_stored_write o off n in_data src :
  0 <= off -> 0 <= n < 65536 -> off + 4 + n <= Z.of_nat (length o) ->
  take (Z.to_nat (off + 4 + n))
    (memcpy ((((o.[off := Z.land n 0xff]).[off + 1 := Z.land (Z.shiftr n 8) 0xff])
               .[off + 2 := Z.lxor (Z.land n 0xff) 0xff]).[off + 3 := Z.lxor (Z.land (Z.shiftr n 8) 0xff) 0xff])
       (off + 4) in_data src n)
  = take (Z.to_nat off) o ++ stored_header n ++ map (aget in_data) (zseq src (Z.to_nat n)).
Proof.
  intros Hoff Hn Hl. rewrite take_memcpy by (rewrite ?length_aset; lia).
  rewrite <- header_bytes by lia.
  replace (off + 4) with (off + 3 + 1) by lia. rewrite take_aset_end by (rewrite ?length_aset; lia).
  replace (off + 3) with (off + 2 + 1) by lia. rewrite take_aset_end by (rewrite ?length_aset; lia).
  replace (off + 2) with (off + 1 + 1) by lia. rewrite take_aset_end by (rewrite ?length_aset; lia).
  rewrite take_aset_end by lia. by rewrite <- !app_assoc.
Qed.

(** Run a status test that passed: rewrite the call, reduce its [let] and
    the [if] on the status. *)
Ltac status_ok E := rewrite E; cbv beta iota; rewrite ?Z.ltb_irrefl; cbv beta iota.

Lemma bits_of_flag fin : 0 <= fin <= 1 -> bits_of fin 1 = [fin =? 1].
Proof. intros H. by destruct (Z.eq_dec fin 0) as [-> | Hf]; [| replace fin with 1 by lia]. Qed.

(** One sub-block with room for it: the writer ends byte-aligned after
    the header bits, the padding, LEN, NLEN and the bytes. *)
Lemma stored_sub_block_ok M in_data src n fin bw :
  bw_inv bw -> nMaxOutDataOffset bw = out_limit M -> out_limit M <= Z.of_nat (length (pOutData bw)) ->
  0 <= fin <= 1 -> 0 <= n < 65536 ->
  nOutOffset bw + (nEncBitCount bw + 10) / 8 + 4 + n <= out_limit M ->
  exists bw' pad, stored_sub_block M in_data src n fin bw = (ZULTRA_OK, bw') /\
    bw_inv bw' /\ nEncBitCount bw' = 0 /\ nMaxOutDataOffset bw' = nMaxOutDataOffset bw /\
    length (pOutData bw') = length (pOutData bw) /\
    nOutOffset bw' = nOutOffset bw + (nEncBitCount bw + 10) / 8 + 4 + n /\
    (pad < 8)%nat /\ ((length (bw_stream bw) + 3 + pad) mod 8 = 0)%nat /\
    bw_stream bw' = bw_stream bw ++ [fin =? 1; false; false] ++ replicate pad false ++
                    bytes_bits (stored_header n ++ map (aget in_data) (zseq src (Z.to_nat n))).
Proof.
  intros I0 Hmx Hlen Hfin Hn Hroom. pose proof (length_bw_stream bw I0) as N0. pose proof I0 as (C0 & _).
  destruct (put_bits_ok bw fin 1) as (bw1 & E1 & I1 & S1 & M1 & L1); [done | lia | simpl; lia | zlia |].
  pose proof (length_bw_stream bw1 I1) as N1. pose proof I1 as (C1 & _).
  rewrite S1, length_app, length_bits_of in N1.
  destruct (put_bits_ok bw1 0 2) as (bw2 & E2 & I2 & S2 & M2 & L2); [done | lia | simpl; lia | zlia |].
  pose proof (length_bw_stream bw2 I2) as N2. pose proof I2 as (C2 & _).
  rewrite S2, S1, !length_app, !length_bits_of in N2.
  destruct (flush_bits_ok bw2) as (bw3 & E3 & I3 & C3 & S3); [done | zlia |].
  pose proof (length_bw_stream bw3 I3) as N3. pose proof I3 as (_ & D3 & O3 & X3).
  rewrite S3, S2, S1, !length_app, !length_bits_of, length_replicate in N3.
  assert (Hoff : nOutOffset bw3 = nOutOffset bw + (nEncBitCount bw + 10) / 8) by zlia.
  unfold stored_sub_block. status_ok E1. status_ok E2. status_ok E3.
  rewrite get_offset_inv by done.
  replace ((nOutOffset bw3 <? 0) || (out_limit M <? nOutOffset bw3 + 4 + n)) with false
    by (symmetry; apply orb_false_iff; split; apply Z.ltb_ge; lia).
  assert (Hl3 : length (pOutData bw3) = length (pOutData bw)).
  { destruct bw2, bw3. unfold flush_bits in E3. simpl in *.
    repeat case_match; simplify_eq; rewrite ?length_aset; lia. }
  assert (Hm3 : nMaxOutDataOffset bw3 = nMaxOutDataOffset bw).
  { destruct bw2, bw3. unfold flush_bits in E3. simpl in *. repeat case_match; simplify_eq; lia. }
  assert (Hal : ((length (bw_stream bw) + 3 + Z.to_nat ((8 - nEncBitCount bw2) mod 8)) mod 8 = 0)%nat).
  { apply Nat.Lcm0.mod_divide. exists (Z.to_nat (nOutOffset bw3)). lia. }
  eexists _, (Z.to_nat ((8 - nEncBitCount bw2) mod 8)). split; [reflexivity |].
  split; [| split; [done | split; [| split; [| split; [| split; [zlia | split; [exact Hal |]]]]]]].
  5: unfold bw_stream at 1.
  all: unfold bw_inv, set_offset, with_out; cbn [nEncBitCount nEncBitsData pOutData nOutOffset nMaxOutDataOffset];
    rewrite ?length_memcpy, ?length_aset; try lia.
  rewrite take_stored_write by (rewrite ?Hl3; lia).
  rewrite C3. change (bits_of _ (Z.to_nat 0)) with (@nil bool). rewrite app_nil_r, bytes_bits_app.
  replace (bytes_bits (take (Z.to_nat (nOutOffset bw3)) (pOutData bw3))) with (bw_stream bw3)
    by (unfold bw_stream; rewrite C3; apply app_nil_r).
  rewrite S3, S2, S1. change (Z.to_nat 1) with 1%nat. rewrite bits_of_flag by done. by rewrite <- !app_assoc.
Qed.

Lemma aget_byte a i : Forall is_byte a -> is_byte a.[i].
Proof.
  intros Ha. unfold aget. destruct (a !! Z.to_nat i) eqn:E; [| unfold is_byte; lia].
  rewrite Forall_lookup in Ha. by apply (Ha (Z.to_nat i)).
Qed.

Lemma stored_loop_S f M in_data src fin bw o r :
  stored_loop (S f) M in_data src fin bw o r =
    if r =? 0 then (ZULTRA_OK, bw)
    else
      let nSub := if 65535 <? r then 65535 else r in
      let nFin := if 65535 <? r then 0 else fin in
      let '(err, bw') := stored_sub_block M in_data (src + o) nSub nFin bw in
      if decide (err = ZULTRA_OK) then stored_loop f M in_data src fin bw' (o + nSub) (r - nSub)
      else (err, bw').
Proof. reflexivity. Qed.

Lemma stored_decode_n_cons k bs p f d p' r e :
  stored_decode bs p = Some (f, d, p') -> stored_decode_n k bs p' = Some (r, e) ->
  stored_decode_n (S k) bs p = Some ((f, d) :: r, e).
Proof. intros H1 H2. simpl. by rewrite H1, H2. Qed.

Section StoredLoop.

Context (M : Z) (in_data : list Z) (src fin : Z).
Hypothesis Hbytes : Forall is_byte in_data.
Hypothesis Hfin : 0 <= fin <= 1.

(** The sub-block written at the front of a stream decodes, whatever the
    stream holds after it. *)
Lemma stored_decode_front X pad f n o T :
  ((length X + 3 + pad) mod 8 = 0)%nat -> (pad < 8)%nat -> 0 <= n < 65536 ->
  stored_decode ((X ++ [f; false; false] ++ replicate pad false ++
                   bytes_bits (stored_header n ++ map (aget in_data) (zseq (src + o) (Z.to_nat n)))) ++ T) (length X)
  = Some (f, map (aget in_data) (zseq (src + o) (Z.to_nat n)),
          length (X ++ [f; false; false] ++ replicate pad false ++
                   bytes_bits (stored_header n ++ map (aget in_data) (zseq (src + o) (Z.to_nat n))))).
Proof.
  intros Hal Hpad Hn. set (d := map (aget in_data) (zseq (src + o) (Z.to_nat n))).
  assert (Hd : Z.of_nat (length d) = n) by (unfold d, zseq; rewrite !length_map, length_seq; lia).
  rewrite <- !app_assoc, <- Hd, stored_decode_block by (try lia; apply Forall_forall; intros x Hx;
    unfold d in Hx; apply list_elem_of_fmap in Hx as (i & -> & _); by apply aget_byte).
  rewrite !length_app, length_replicate, length_bytes_bits, length_app. simpl. unfold stored_header. simpl.
  do 2 f_equal. lia.
Qed.

Lemma stored_count_one r : 0 < r <= 65535 -> stored_count r = 1.
Proof. unfold stored_count. zlia. Qed.

Lemma stored_count_step r : 65535 < r -> stored_count r = 1 + stored_count (r - 65535).
Proof. unfold stored_count. zlia. Qed.

Lemma stored_count_pos r : 0 < r -> 1 <= stored_count r.
Proof. unfold stored_count. zlia. Qed.

(** The loop from a writer with room for every sub-block: it succeeds,
    ends byte-aligned at the offset its sub-blocks add up to, and what it
    appends decodes as [stored_count r] stored blocks holding the bytes. *)
Lemma stored_loop_ok fuel : forall bw o r,
  bw_inv bw -> nMaxOutDataOffset bw = out_limit M -> out_limit M <= Z.of_nat (length (pOutData bw)) ->
  0 < r -> stored_count r <= Z.of_nat fuel ->
  nOutOffset bw + (nEncBitCount bw + 2) / 8 + 5 * stored_count r + r <= out_limit M ->
  exists bw' blocks, stored_loop fuel M in_data src fin bw o r = (ZULTRA_OK, bw') /\
    bw_inv bw' /\ nEncBitCount bw' = 0 /\ nMaxOutDataOffset bw' = nMaxOutDataOffset bw /\
    length (pOutData bw') = length (pOutData bw) /\
    nOutOffset bw' = nOutOffset bw + (nEncBitCount bw + 2) / 8 + 5 * stored_count r + r /\
    Z.of_nat (length blocks) = stored_count r /\
    (exists T, bw_stream bw' = bw_stream bw ++ T) /\
    stored_decode_n (length blocks) (bw_stream bw') (length (bw_stream bw)) = Some (blocks, length (bw_stream bw')) /\
    mjoin (map snd blocks) = map (aget in_data) (zseq (src + o) (Z.to_nat r)) /\
    map fst blocks = replicate (length blocks - 1) false ++ [fin =? 1] /\
    Forall (fun b => Z.of_nat (length (snd b)) <= 65535) blocks.
Proof.
  induction fuel as [|f IH]; intros bw o r I0 Hmx Hlen Hr Hf Hroom;
    pose proof (stored_count_pos r Hr); [lia |].
  pose proof I0 as (C0 & _). rewrite stored_loop_S.
  replace (r =? 0) with false by (symmetry; apply Z.eqb_neq; lia). cbv zeta.
  destruct (65535 <? r) eqn:Er; bool_to_prop.
  - pose proof (stored_count_pos (r - 65535) ltac:(lia)). rewrite stored_count_step in Hf, Hroom |- * by done.
    destruct (stored_sub_block_ok M in_data (src + o) 65535 0 bw) as (bw1 & pad & E1 & I1 & C1 & M1 & L1 & O1 & P1 & A1 & S1);
      [done | done | done | lia | lia | zlia |].
    rewrite E1. cbv iota. destruct (decide (ZULTRA_OK = ZULTRA_OK)) as [_ | []]; [| done].
    destruct (IH bw1 (o + 65535) (r - 65535)) as (bw2 & bl & E2 & I2 & C2 & M2 & L2 & O2 & N2 & (T & S2) & D2 & J2 & F2 & B2);
      [done | lia | lia | lia | lia | rewrite C1, O1; zlia |].
    set (d1 := map (aget in_data) (zseq (src + o) (Z.to_nat 65535))).
    assert (D1 : stored_decode (bw_stream bw2) (length (bw_stream bw)) = Some (false, d1, length (bw_stream bw1))).
    { rewrite S2, S1. apply (stored_decode_front _ pad (0 =? 1) 65535 o T); [done | done | lia]. }
    exists bw2, ((false, d1) :: bl).
    split; [done |]. split; [done |]. split; [done |]. split; [lia |]. split; [lia |].
    split; [rewrite O2, C1, O1; zlia |]. split; [simpl length; lia |].
    split; [exists (drop (length (bw_stream bw)) (bw_stream bw1 ++ T)) |].
    { rewrite S2, S1, <- app_assoc, drop_app_length. done. }
    split; [exact (stored_decode_n_cons _ _ _ _ _ _ _ _ D1 D2) |].
    split; [| split].
    + change (mjoin (map snd ((false, d1) :: bl))) with (d1 ++ mjoin (map snd bl)). rewrite J2. unfold d1.
      replace (Z.to_nat r) with (Z.to_nat 65535 + Z.to_nat (r - 65535))%nat by lia.
      rewrite zseq_app, map_app. do 3 f_equal. lia.
    + destruct bl as [| b bl']; [simpl in N2; lia |].
      change (map fst ((false, d1) :: b :: bl')) with (false :: map fst (b :: bl')). rewrite F2.
      cbn [length]. replace (S (S (length bl')) - 1)%nat with (S (S (length bl') - 1)) by lia. done.
    + constructor; [| done]. unfold d1, zseq. cbn [snd]. rewrite !length_map, length_seq. lia.
  - rewrite stored_count_one in Hf, Hroom |- * by lia.
    destruct (stored_sub_block_ok M in_data (src + o) r fin bw) as (bw1 & pad & E1 & I1 & C1 & M1 & L1 & O1 & P1 & A1 & S1);
      [done | done | done | lia | lia | zlia |].
    rewrite E1. cbv iota. destruct (decide (ZULTRA_OK = ZULTRA_OK)) as [_ | []]; [| done].
    set (d := map (aget in_data) (zseq (src + o) (Z.to_nat r))).
    assert (D1 : stored_decode (bw_stream bw1) (length (bw_stream bw)) = Some (fin =? 1, d, length (bw_stream bw1))).
    { pose proof (stored_decode_front (bw_stream bw) pad (fin =? 1) r o [] A1 P1 ltac:(lia)) as HD.
      rewrite app_nil_r in HD. by rewrite S1. }
    exists bw1, [(fin =? 1, d)].
    replace (stored_loop f M in_data src fin bw1 (o + r) (r - r)) with (ZULTRA_OK, bw1)
      by (destruct f; [done | rewrite stored_loop_S, Z.sub_diag; done]).
    split; [done |]. split; [done |]. split; [done |]. split; [lia |]. split; [lia |].
    split; [rewrite O1; zlia |]. split; [done |].
    split; [by rewrite S1; eexists |].
    split; [apply (stored_decode_n_cons 0 _ _ _ _ _ [] _ D1); reflexivity |].
    split; [| split].
    + simpl. by rewrite app_nil_r.
    + done.
    + constructor; [| done]. unfold d, zseq. cbn [snd]. rewrite !length_map, length_seq. lia.
Qed.

End StoredLoop.

(** [flush_bits] fails on a partial byte at the limit. *)
Lemma flush_bits_fail bw :
  bw_inv bw -> 0 < nEncBitCount bw -> nMaxOutDataOffset bw <= nOutOffset bw -> fst (flush_bits bw) = -1.
Proof.
  intros (C & _) Hc Hm. unfold flush_bits.
  destruct (8 <? nEncBitCount bw) eqn:E1; [done |]. destruct (0 <? nEncBitCount bw) eqn:E2; bool_to_prop; [| lia].
  by destruct (nMaxOutDataOffset bw <=? nOutOffset bw) eqn:E3; bool_to_prop; [| lia].
Qed.

(** A status test that failed: the sub-block reports [ZULTRA_ERROR_DST]. *)
Ltac status_fail lem :=
  rewrite (surjective_pairing (_ : Z * bitwriter)) at 1; rewrite lem by (done || lia); reflexivity.

(** One sub-block without room for it fails with [ZULTRA_ERROR_DST],
    whichever of its writes or its check notices first. *)
Lemma stored_sub_block_no_room M in_data src n fin bw :
  bw_inv bw -> nMaxOutDataOffset bw = out_limit M -> 0 <= fin <= 1 -> 0 <= n ->
  out_limit M < nOutOffset bw + (nEncBitCount bw + 10) / 8 + 4 + n ->
  fst (stored_sub_block M in_data src n fin bw) = ZULTRA_ERROR_DST.
Proof.
  intros I0 Hmx Hfin Hn Hno. pose proof (length_bw_stream bw I0) as N0. pose proof I0 as (C0 & _).
  unfold stored_sub_block.
  destruct (Z.le_gt_cases (nOutOffset bw + (nEncBitCount bw + 1) / 8) (nMaxOutDataOffset bw)) as [R1 | R1];
    [| status_fail put_bits_fail].
  destruct (put_bits_ok bw fin 1) as (bw1 & E1 & I1 & S1 & M1 & L1); [done | lia | simpl; lia | done |].
  pose proof (length_bw_stream bw1 I1) as N1. pose proof I1 as (C1 & _).
  rewrite S1, length_app, length_bits_of in N1. status_ok E1.
  destruct (Z.le_gt_cases (nOutOffset bw1 + (nEncBitCount bw1 + 2) / 8) (nMaxOutDataOffset bw1)) as [R2 | R2];
    [| status_fail put_bits_fail].
  destruct (put_bits_ok bw1 0 2) as (bw2 & E2 & I2 & S2 & M2 & L2); [done | lia | simpl; lia | done |].
  pose proof (length_bw_stream bw2 I2) as N2. pose proof I2 as (C2 & _).
  rewrite S2, S1, !length_app, !length_bits_of in N2. status_ok E2.
  destruct (decide (nEncBitCount bw2 = 0 \/ nOutOffset bw2 < nMaxOutDataOffset bw2)) as [R3 | R3];
    [| status_fail flush_bits_fail].
  destruct (flush_bits_ok bw2) as (bw3 & E3 & I3 & C3 & S3); [done | done |].
  pose proof (length_bw_stream bw3 I3) as N3.
  rewrite S3, S2, S1, !length_app, !length_bits_of, length_replicate in N3. status_ok E3.
  rewrite get_offset_inv by done.
  replace ((nOutOffset bw3 <? 0) || (out_limit M <? nOutOffset bw3 + 4 + n)) with true by
    (symmetry; apply orb_true_iff; right; apply Z.ltb_lt; zlia).
  done.
Qed.

(** The loop from a writer without room for all its sub-blocks fails
    with [ZULTRA_ERROR_DST]. *)
Lemma stored_loop_no_room M in_data src fin fuel : 0 <= fin <= 1 -> forall bw o r,
  bw_inv bw -> nMaxOutDataOffset bw = out_limit M -> out_limit M <= Z.of_nat (length (pOutData bw)) ->
  0 < r -> stored_count r <= Z.of_nat fuel ->
  out_limit M < nOutOffset bw + (nEncBitCount bw + 2) / 8 + 5 * stored_count r + r ->
  fst (stored_loop fuel M in_data src fin bw o r) = ZULTRA_ERROR_DST.
Proof.
  intros Hfin. induction fuel as [|f IH]; intros bw o r I0 Hmx Hlen Hr Hf Hno;
    pose proof (stored_count_pos r Hr); [lia |].
  pose proof I0 as (C0 & _). rewrite stored_loop_S.
  replace (r =? 0) with false by (symmetry; apply Z.eqb_neq; lia). cbv zeta.
  set (nSub := if 65535 <? r then 65535 else r). set (nFin := if 65535 <? r then 0 else fin).
  assert (Hsub : 0 < nSub <= 65535 /\ 0 <= nFin <= 1) by (unfold nSub, nFin; destruct (65535 <? r) eqn:E; bool_to_prop; lia).
  destruct (Z.le_gt_cases (nOutOffset bw + (nEncBitCount bw + 10) / 8 + 4 + nSub) (out_limit M)) as [R | R].
  - destruct (stored_sub_block_ok M in_data (src + o) nSub nFin bw) as (bw1 & pad & E1 & I1 & C1 & M1 & L1 & O1 & _);
      [done | done | done | lia | lia | done |].
    rewrite E1. cbv iota. destruct (decide (ZULTRA_OK = ZULTRA_OK)) as [_ | []]; [| done].
    unfold nSub in *. destruct (65535 <? r) eqn:Er; bool_to_prop.
    + pose proof (stored_count_pos (r - 65535) ltac:(lia)). rewrite stored_count_step in Hf, Hno by done.
      apply IH; [done | lia | lia | lia | lia | rewrite C1, O1; zlia].
    + rewrite stored_count_one in Hno by lia. zlia.
  - pose proof (stored_sub_block_no_room M in_data (src + o) nSub nFin bw I0 Hmx ltac:(lia) ltac:(lia) R) as E.
    destruct (stored_sub_block _ _ _ _ _ _) as [err bw1]. simpl in E. subst err. done.
Qed.

(** ** The fallback's contract *)

(** C14. The stored-block fallback of [zultra_stream_compress] (lines
    335-380), run from the rewound writer on a block of [n > 0] bytes with
    room in [out_buffer], succeeds and appends to the bit stream exactly
    [stored_count n] stored blocks of RFC 1951, 3.2.4: decoded from the bit
    where the writer stood, they hold the block's bytes in order, each at
    most 65535 of them, all but the last marked non-final and the last
    carrying the block's final flag; the writer is left byte-aligned. *)
Theorem stored_fallback_decodes M in_data src fin bw n :
  Forall is_byte in_data -> 0 <= fin <= 1 ->
  bw_inv bw -> nMaxOutDataOffset bw = out_limit M -> out_limit M <= Z.of_nat (length (pOutData bw)) ->
  0 < n -> nOutOffset bw + (nEncBitCount bw + 2) / 8 + 5 * stored_count n + n <= out_limit M ->
  exists bw' blocks,
    stored_loop (stored_fuel n) M in_data src fin bw 0 n = (ZULTRA_OK, bw') /\
    nEncBitCount bw' = 0 /\ Z.of_nat (length blocks) = stored_count n /\
    (exists T, bw_stream bw' = bw_stream bw ++ T) /\
    stored_decode_n (length blocks) (bw_stream bw') (length (bw_stream bw)) = Some (blocks, length (bw_stream bw')) /\
    mjoin (map snd blocks) = map (aget in_data) (zseq src (Z.to_nat n)) /\
    map fst blocks = replicate (length blocks - 1) false ++ [fin =? 1] /\
    Forall (fun b => Z.of_nat (length (snd b)) <= 65535) blocks.
Proof.
  intros Hb Hf I0 Hmx Hlen Hn Hroom.
  destruct (stored_loop_ok M in_data src fin Hb Hf (stored_fuel n) bw 0 n)
    as (bw' & bl & E & _ & C & _ & _ & _ & N & T & D & J & F & B);
    [done | done | done | done | unfold stored_fuel; pose proof (stored_count_pos n Hn); lia | done |].
  exists bw', bl. rewrite Z.add_0_r in J. done.
Qed.

(** C34. The stored-block fallback fails with [ZULTRA_ERROR_DST] exactly
    when [out_buffer] lacks room for its sub-blocks: with [c] pending bits
    at offset [off], a block of [n > 0] bytes needs
    [off + (c + 2) / 8 + 5 * stored_count n + n] bytes of the
    [out_limit] the stream was opened with (the theorem
    above gives success within that bound). *)
Theorem stored_fallback_no_room M in_data src fin bw n :
  0 <= fin <= 1 ->
  bw_inv bw -> nMaxOutDataOffset bw = out_limit M -> out_limit M <= Z.of_nat (length (pOutData bw)) ->
  0 < n -> out_limit M < nOutOffset bw + (nEncBitCount bw + 2) / 8 + 5 * stored_count n + n ->
  fst (stored_loop (stored_fuel n) M in_data src fin bw 0 n) = ZULTRA_ERROR_DST.
Proof.
  intros Hf I0 Hmx Hlen Hn Hno. apply stored_loop_no_room; try done.
  unfold stored_fuel. pose proof (stored_count_pos n Hn). lia.
Qed.

(** C33. Copying [out_buffer] out (lines 424-444) hands the caller the
    next [min avail_out pending_out_bytes] bytes of the buffer, in order,
    from [cur_out_index], and moves the index, the pending count, the
    room left and [total_out] by that much; with room in [next_out] the
    pending count strictly falls, so repeated calls empty the buffer. *)
Theorem drain_out_delivers M buf d :
  0 < pending_out_bytes d -> 0 <= avail_out d -> cur_out_index d <= out_limit M ->
  let m := Z.min (avail_out d) (pending_out_bytes d) in
  drain_out_buffer M 0 ZULTRA_OK buf d =
    (ZULTRA_OK, mk_drain (cur_out_index d + m) (pending_out_bytes d - m)
                  (delivered d ++ map (aget buf) (zseq (cur_out_index d) (Z.to_nat m)))
                  (avail_out d - m) (total_out d + m)) /\
  (0 < avail_out d -> pending_out_bytes d - m < pending_out_bytes d).
Proof.
  intros Hp Ha Hc m. split; [| intros; unfold m; lia]. unfold drain_out_buffer. rewrite bool_decide_eq_true_2 by done.
  rewrite (proj2 (Z.eqb_neq (pending_out_bytes d) 0)) by lia. simpl. rewrite Z.add_0_r.
  replace (out_limit M <? cur_out_index d) with false by (symmetry; apply Z.ltb_ge; lia).
  destruct (Z.eqb_spec (avail_out d) 0) as [H0 | H0].
  - unfold m. rewrite H0, Z.min_l by lia. simpl. rewrite !Z.add_0_r, !Z.sub_0_r, app_nil_r, <- H0. by destruct d.
  - simpl. replace (if pending_out_bytes d <? avail_out d then pending_out_bytes d else avail_out d) with m; [done |].
    unfold m. destruct (Z.ltb_spec (pending_out_bytes d) (avail_out d)); lia.
Qed.

(** The size check of line 426 adds [pending_frame_bytes], which the
    guard of line 424 has just required to be 0, instead of
    [pending_out_bytes]: it cannot fire.  A pending count larger than
    [out_buffer] passes it, and the copy reads past the buffer's end. *)
Example drain_out_check_vacuous :
  let d := mk_drain 0 (out_limit 0 + 5) [] 100 0 in
  let buf := replicate (Z.to_nat (out_limit 0)) 7 in
  out_limit 0 < cur_out_index d + pending_out_bytes d /\
  fst (drain_out_buffer 0 0 ZULTRA_OK buf d) = ZULTRA_OK /\
  length (delivered (snd (drain_out_buffer 0 0 ZULTRA_OK buf d))) = (length buf + 5)%nat.
Proof. vm_compute. repeat split; reflexivity. Qed.

(** ** Witnesses *)

(** A writer with 5 pending bits in a buffer of [out_limit 10] bytes, and
    a block of 10 bytes. *)
Definition stored_ex_writer : bitwriter := mk_bitwriter 5 3 (replicate (Z.to_nat (out_limit 10)) 0) 0 (out_limit 10).
Definition stored_ex_data : list Z := [120; 1; 2; 3; 250; 251; 252; 253; 254; 255].

Lemma stored_fallback_decodes_witness :
  exists bw' blocks,
    stored_loop (stored_fuel 10) 10 stored_ex_data 0 1 stored_ex_writer 0 10 = (ZULTRA_OK, bw') /\
    nEncBitCount bw' = 0 /\ Z.of_nat (length blocks) = stored_count 10 /\
    (exists T, bw_stream bw' = bw_stream stored_ex_writer ++ T) /\
    stored_decode_n (length blocks) (bw_stream bw') (length (bw_stream stored_ex_writer)) = Some (blocks, length (bw_stream bw')) /\
    mjoin (map snd blocks) = map (aget stored_ex_data) (zseq 0 (Z.to_nat 10)) /\
    map fst blocks = replicate (length blocks - 1) false ++ [1 =? 1] /\
    Forall (fun b => Z.of_nat (length (snd b)) <= 65535) blocks.
Proof.
  apply stored_fallback_decodes; [decide_by_eval | lia | unfold bw_inv; decide_by_eval | reflexivity |
    decide_by_eval | lia | decide_by_eval].
Defined.

Lemma stored_fallback_no_room_witness :
  fst (stored_loop (stored_fuel 12) 10 stored_ex_data 0 1 stored_ex_writer 0 12) = ZULTRA_ERROR_DST.
Proof.
  apply stored_fallback_no_room; [lia | unfold bw_inv; decide_by_eval | reflexivity | decide_by_eval | lia | decide_by_eval].
Defined.

Lemma drain_out_delivers_witness :
  let d := mk_drain 2 5 [9] 3 1 in
  let m := Z.min (avail_out d) (pending_out_bytes d) in
  drain_out_buffer 10 0 ZULTRA_OK [1; 2; 3; 4; 5; 6; 7] d =
    (ZULTRA_OK, mk_drain (cur_out_index d + m) (pending_out_bytes d - m)
                  (delivered d ++ map (aget [1; 2; 3; 4; 5; 6; 7]) (zseq (cur_out_index d) (Z.to_nat m)))
                  (avail_out d - m) (total_out d + m)) /\
  (0 < avail_out d -> pending_out_bytes d - m < pending_out_bytes d).
Proof. apply drain_out_delivers; simpl; [lia | lia | vm_compute; discriminate]. Defined.

End Stream.
