(* ===== verification/Driver.v ===== *)
(** * The block driver of [zultra_stream_compress] ([src/libzultra.c] lines 284-386)

    Once a chunk of input has been collected and its matches found,
    [zultra_stream_compress] splits it with [zultra_block_split] and
    writes one DEFLATE block per split: it costs the block with the greedy
    parse, chooses the static code when it is no dearer than the dynamic
    one, writes the 3 header bits and calls [zultra_block_deflate]; when
    that fails or produces more bytes than the block holds, it rewinds the
    writer to the block's start and writes the block as stored blocks.

    The chunk is [in_data] from [HISTORY_SIZE]; the window the block
    functions see starts [previous_block_size] bytes before it, so that a
    block at [nInStart] of the chunk is at [previous_block_size + nInStart]
    of the window.  The window is [drop (HISTORY_SIZE - prev) in_data].

    Theorems: the cost evaluation never fails; with room in [out_buffer]
    for the stored form of a block, a block step never fails and writes
    either a compressed block no longer than the block's bytes after its
    header, or stored blocks that decode to the block's bytes; a chunk
    split by [zultra_block_split] is consumed to its end when every step
    succeeds. *)

From S2P Require Import Prelude BitWriter Format Tables Huffman CodeLengths Block Lz77 Deflate Split Stream.
Import BitWriter Format Tables Huffman CodeLengths Block Lz77 Deflate Split Stream.

Local Open Scope zultra_scope.

Module Driver.

(** The value of a [zultra_status_t] as an [int]: the driver stores
    [ZULTRA_ERROR_DST] in [nCompressionResult], which otherwise holds the
    -1/0 of [zultra_block_deflate]. *)
Definition status_code (s : zultra_status) : Z :=
  match s with
  | ZULTRA_OK => 0
  | ZULTRA_ERROR_SRC => 1
  | ZULTRA_ERROR_DST => 2
  | ZULTRA_ERROR_DICTIONARY => 3
  | ZULTRA_ERROR_MEMORY => 4
  | ZULTRA_ERROR_COMPRESSION => 5
  end.

(** The cost evaluation of lines 302-309, with the short circuit of its
    [||]: the status, the compressor (whose encoders the calls
    overwrite), [nStaticCost] and [nDynamicCost] (0 where not reached). *)
Definition block_costs (c : compressor) (w : list Z) (s nBlockSize : Z) : zultra_status * compressor * Z * Z :=
  let '(r0, c0) := zultra_block_prepare_cost_evaluation c w s nBlockSize in
  if r0 <? 0 then (ZULTRA_ERROR_COMPRESSION, c0, 0, 0) else
  let '(r1, nStaticCost) := zultra_block_evaluate_static_cost (literalsEncoder c0) (offsetEncoder c0) in
  if r1 <? 0 then (ZULTRA_ERROR_COMPRESSION, c0, 0, 0) else
  let '(r2, le) := zultra_huffman_encoder_estimate_dynamic_codelens (literalsEncoder c0) in
  let c1 := set_literals c0 le in
  if r2 <? 0 then (ZULTRA_ERROR_COMPRESSION, c1, nStaticCost, 0) else
  let '(r3, oe) := zultra_huffman_encoder_estimate_dynamic_codelens (offsetEncoder c1) in
  let c2 := set_offsets c1 oe in
  if r3 <? 0 then (ZULTRA_ERROR_COMPRESSION, c2, nStaticCost, 0) else
  let '(r4, nDynamicCost) := zultra_block_evaluate_dynamic_cost (literalsEncoder c2) (offsetEncoder c2) in
  if r4 <? 0 then (ZULTRA_ERROR_COMPRESSION, c2, nStaticCost, 0) else
  (ZULTRA_OK, c2, nStaticCost, nDynamicCost).

(** [nIsFinal] (line 312): the block ends the chunk of a finalising call
    with no input left. *)
Definition is_final (nDoFinalize avail_in_empty : bool) (nInDataSize nInStart nBlockSize : Z) : Z :=
  if nDoFinalize && (nInDataSize <=? nInStart + nBlockSize) && avail_in_empty then 1 else 0.

(** The fixed part of a step's input: the compressor's buffers and the
    chunk. *)
Record chunk := mk_chunk {
  in_data : list Z;               (** [pCompressor->in_data] *)
  previous_block_size : Z;
  nInDataSize : Z;
  nMaxBlockSize : Z;
  nDoFinalize : bool;
  avail_in_empty : bool           (** [!pStream->avail_in] *)
}.

Definition window (k : chunk) : list Z := drop (Z.to_nat (HISTORY_SIZE - previous_block_size k)) (in_data k).

Section Driver.

(** [zultra_huffman_encoder_optimize_for_rle], as in [Deflate]. *)
Context (zultra_huffman_encoder_optimize_for_rle : Z -> list Z -> list Z).

(** One turn of [while (nInStart < nInDataSize && !nError)] (lines
    295-386): the status, the compressor, the writer, [nInStart] and
    [nNumSplits] after it. *)
Definition block_step (k : chunk) (splits : list Z) (c : compressor) (bw : bitwriter) (nInStart nNumSplits : Z)
    : zultra_status * compressor * bitwriter * Z * Z :=
  let prev := previous_block_size k in
  let w := window k in
  let nBlockSize := splits.[nNumSplits] - (nInStart + prev) in
  let nNumSplits' := nNumSplits + 1 in
  let '(err0, c1, nStaticCost, nDynamicCost) := block_costs c w (prev + nInStart) nBlockSize in
  let nIsDynamic := negb (nStaticCost <=? nDynamicCost) in
  let blockBitWriter := bitwriter_copy bw in
  let nIsFinal := is_final (nDoFinalize k) (avail_in_empty k) (nInDataSize k) nInStart nBlockSize in
  let '(r1, bw1) := put_bits bw nIsFinal 1 in
  let '(err1, bw2) :=
    if r1 <? 0 then (ZULTRA_ERROR_DST, bw1)
    else
      let '(r2, bw2) := put_bits bw1 (1 + (if nIsDynamic then 1 else 0)) 2 in
      (if r2 <? 0 then ZULTRA_ERROR_DST else err0, bw2) in
  if decide (err1 <> ZULTRA_OK) then (err1, c1, bw2, nInStart, nNumSplits')
  else
    let nPrevOffset := get_offset bw2 in
    let '(nCompressionResult, c2, bw3) :=
      if nPrevOffset <? 0 then (status_code ZULTRA_ERROR_DST, c1, bw2)
      else zultra_block_deflate zultra_huffman_encoder_optimize_for_rle c1 bw2 w (prev + nInStart) nBlockSize nIsDynamic in
    if (nCompressionResult <? 0) || (get_offset bw3 <? 0) || (nBlockSize <? get_offset bw3 - nPrevOffset) then
      (* [zultra_bitwriter_copy(&pCompressor->bitwriter, &blockBitWriter)]
         restores the saved fields; [pOutData] is a pointer, so the
         rewound writer sees [out_buffer] as the abandoned block left it. *)
      let rewound := with_out (bitwriter_copy blockBitWriter) (pOutData bw3) in
      let '(err2, bw4) := stored_loop (stored_fuel nBlockSize) (nMaxBlockSize k) (in_data k) (HISTORY_SIZE + nInStart)
                            nIsFinal rewound 0 nBlockSize in
      (err2, c2, bw4, nInStart + nBlockSize, nNumSplits')
    else (ZULTRA_OK, c2, bw3, nInStart + nBlockSize, nNumSplits').

(** The loop itself; [fuel] bounds the number of blocks. *)
Fixpoint block_loop (fuel : nat) (k : chunk) (splits : list Z) (c : compressor) (bw : bitwriter) (nInStart nNumSplits : Z)
    : zultra_status * compressor * bitwriter * Z :=
  match fuel with
  | O => (ZULTRA_OK, c, bw, nInStart)
  | S f =>
      if nInStart <? nInDataSize k then
        let '(err, c', bw', nInStart', nNumSplits') := block_step k splits c bw nInStart nNumSplits in
        if decide (err = ZULTRA_OK) then block_loop f k splits c' bw' nInStart' nNumSplits'
        else (err, c', bw', nInStart')
      else (ZULTRA_OK, c, bw, nInStart)
  end.

(** Lines 284-386 after the matches are found: split the chunk, then
    write its blocks.  The loop runs once per split. *)
Definition compress_chunk (k : chunk) (c : compressor) (bw : bitwriter) : zultra_status * compressor * bitwriter * Z :=
  let '(nSplitArraySize, c1, splits) :=
    zultra_block_split c (window k) (previous_block_size k) (nInDataSize k) MAX_SPLITS in
  if nSplitArraySize <? 0 then (ZULTRA_ERROR_COMPRESSION, c1, bw, 0)
  else block_loop (Z.to_nat nSplitArraySize) k splits c1 bw 0 0.

End Driver.

(** ** Every writer only appends *)

(** Prove [F .. = (r, bw') -> bw_extends bw bw'] by walking [F]'s body. *)
Ltac ext_proof :=
  let E := fresh "E" in
  intros ? ? E;
  match type of E with ?X = (?r, ?b') =>
    change b' with (snd (r, b')); rewrite <- E; clear E end;
  lazymatch goal with |- bw_extends ?b _ =>
    let Hcur := fresh "Hcur" in assert (Hcur : bw_extends b b) by reflexivity end;
  ext_walk.

Lemma write_codeword_ext e s bw : forall r bw',
  zultra_huffman_encoder_write_codeword e s bw = (r, bw') -> bw_extends bw bw'.
Proof. unfold zultra_huffman_encoder_write_codeword. ext_proof. Qed.
#[export] Hint Resolve write_codeword_ext : zultra.

Lemma write_literal_ext c bw x : forall r bw', zultra_write_literal c bw x = (r, bw') -> bw_extends bw bw'.
Proof. unfold zultra_write_literal. ext_proof. Qed.

Lemma write_offset_ext c bw x : forall r bw', zultra_write_offset c bw x = (r, bw') -> bw_extends bw bw'.
Proof. unfold zultra_write_offset. ext_proof. Qed.

Lemma write_varlen_ext c bw x : forall r bw', zultra_write_varlen c bw x = (r, bw') -> bw_extends bw bw'.
Proof. unfold zultra_write_varlen. ext_proof. Qed.
#[export] Hint Resolve write_literal_ext write_offset_ext write_varlen_ext : zultra.

Lemma write_block_loop_ext c w e fuel : forall i bw r bw',
  write_block_loop c w e fuel i bw = (r, bw') -> bw_extends bw bw'.
Proof.
  induction fuel as [|f IH]; intros i bw; cbn [write_block_loop]; [ext_proof |].
  pose proof (IH : forall i bw r bw', write_block_loop c w e f i bw = (r, bw') -> bw_extends bw bw').
  ext_proof.
Qed.
#[export] Hint Resolve write_block_loop_ext : zultra.

Lemma write_block_lwd_ext c bw w s e : forall r bw', zultra_write_block_lwd c bw w s e = (r, bw') -> bw_extends bw bw'.
Proof. unfold zultra_write_block_lwd. ext_proof. Qed.
#[export] Hint Resolve write_block_lwd_ext : zultra.

(** The write sink moves the writer on by [put_bits] and
    [write_codeword] only. *)
Lemma write_sink_event_ext te st ev : bw_extends (snd st) (snd (run_event (write_sink te) st ev)).
Proof.
  assert (Hw : forall s bw, bw_extends bw (snd (zultra_huffman_encoder_write_codeword te s bw)))
    by (intros; apply (write_codeword_ext _ _ _ _ _ (surjective_pairing _))).
  destruct st as [[] bw], ev; cbn [run_event write_sink sink_lit sink_sym sink_extra sink_check snd fst];
    try reflexivity; try destruct (15 <? _); cbn [snd]; try reflexivity; try apply Hw.
  apply (put_bits_ext _ _ _ _ _ (surjective_pairing _)).
Qed.

Lemma write_sink_events_ext te t : forall st, bw_extends (snd st) (snd (foldl (run_event (write_sink te)) st t)).
Proof.
  induction t as [|ev t IH]; intros st; simpl; [done |].
  etransitivity; [apply write_sink_event_ext | apply IH].
Qed.

Lemma write_var_lengths_ext te n a mask bw : forall r bw',
  zultra_huffman_encoder_write_var_lengths te n a mask bw = (r, bw') -> bw_extends bw bw'.
Proof.
  unfold zultra_huffman_encoder_write_var_lengths. rewrite var_lengths_loop_replay. unfold replay.
  pose proof (write_sink_events_ext te (cl_trace mask a n) (false, bw)) as Hx.
  destruct (foldl _ _ _) as [fl bw1]. ext_proof.
Qed.

Lemma raw_table_loop_ext fuel e nLenBits nWrite : forall i bw r bw',
  raw_table_loop fuel e nLenBits nWrite i bw = (r, bw') -> bw_extends bw bw'.
Proof.
  induction fuel as [|f IH]; intros i bw r bw'; cbn [raw_table_loop]; [by intros [= _ <-] |].
  destruct (i <? nWrite); [| by intros [= _ <-]]. cbv zeta.
  pose proof (put_bits_ext bw (nCodeLength e).[zultra_huffman_encoder_codelen_sym_idx.[i]] nLenBits _ _ (surjective_pairing _)) as H1.
  destruct (get_offset _ <? 0); [by intros [= _ <-] |].
  intros E. etransitivity; [exact H1 | exact (IH _ _ _ _ E)].
Qed.
#[export] Hint Resolve raw_table_loop_ext : zultra.

Lemma write_raw_table_ext e nLenBits nWrite bw : forall r bw',
  zultra_huffman_encoder_write_raw_table e nLenBits nWrite bw = (r, bw') -> bw_extends bw bw'.
Proof. unfold zultra_huffman_encoder_write_raw_table. ext_proof. Qed.
#[export] Hint Resolve write_var_lengths_ext write_raw_table_ext : zultra.

Lemma write_dynamic_tables_ext le oe bw : forall r bw',
  write_dynamic_tables le oe bw = (r, bw') -> bw_extends bw bw'.
Proof. unfold write_dynamic_tables. ext_proof. Qed.
#[export] Hint Resolve write_dynamic_tables_ext : zultra.

Lemma block_deflate_ext opt c bw w s n dyn : forall r c' bw',
  zultra_block_deflate opt c bw w s n dyn = (r, c', bw') -> bw_extends bw bw'.
Proof. intros r. unfold zultra_block_deflate. ext_proof. Qed.

(** ** The cost evaluation never fails *)

Lemma estimate_codelens_ok e :
  0 <= nSymbols e <= MAX_SYMBOLS ->
  fst (zultra_huffman_encoder_estimate_dynamic_codelens e) = 0 /\
  nSymbols (snd (zultra_huffman_encoder_estimate_dynamic_codelens e)) = nSymbols e.
Proof.
  intros He. unfold zultra_huffman_encoder_estimate_dynamic_codelens.
  replace ((nSymbols e <? 0) || (MAX_SYMBOLS <? nSymbols e)) with false
    by (symmetry; apply orb_false_iff; split; apply Z.ltb_ge; lia).
  cbv zeta. by destruct (1 <? _).
Qed.

Lemma build_entropy_syms get c w s e :
  nSymbols (literalsEncoder (build_entropy_lwd get c w s e)) = nSymbols (literalsEncoder c) /\
  nSymbols (offsetEncoder (build_entropy_lwd get c w s e)) = nSymbols (offsetEncoder c).
Proof. unfold build_entropy_lwd. by destruct (entropy_loop _ _ _ _ _ _ _). Qed.

Lemma prepare_cost_ok c w s n :
  fst (zultra_block_prepare_cost_evaluation c w s n) = 0 /\
  nSymbols (literalsEncoder (snd (zultra_block_prepare_cost_evaluation c w s n))) = NLITERALSYMS /\
  nSymbols (offsetEncoder (snd (zultra_block_prepare_cost_evaluation c w s n))) = NOFFSETSYMS.
Proof.
  unfold zultra_block_prepare_cost_evaluation, init_encoders.
  change (zultra_huffman_encoder_init (literalsEncoder c) NLITERALSYMS 15 0) with
    (0, mk_encoder NLITERALSYMS 15 (replicate (Z.to_nat MAX_SYMBOLS) 0) (replicate (Z.to_nat MAX_SYMBOLS) 0)
          (replicate (Z.to_nat NLITERALSYMS) 0 ++ replicate (Z.to_nat (MAX_SYMBOLS - NLITERALSYMS)) 0)).
  change (zultra_huffman_encoder_init (offsetEncoder _) NOFFSETSYMS 15 0) with
    (0, mk_encoder NOFFSETSYMS 15 (replicate (Z.to_nat MAX_SYMBOLS) 0) (replicate (Z.to_nat MAX_SYMBOLS) 0)
          (replicate (Z.to_nat NOFFSETSYMS) 0 ++ replicate (Z.to_nat (MAX_SYMBOLS - NOFFSETSYMS)) 0)).
  cbv iota beta. rewrite !Z.ltb_irrefl. cbv iota. unfold zultra_build_initial_entropy_lwd. cbn [fst snd].
  split; [done |]. rewrite (proj1 (build_entropy_syms _ _ _ _ _)), (proj2 (build_entropy_syms _ _ _ _ _)). done.
Qed.

(** The chain of lines 302-306 always reaches its end: the encoders it
    initialises have legal sizes, and the cost functions cannot fail. *)
Lemma block_costs_ok c w s n : let '(err, _, _, _) := block_costs c w s n in err = ZULTRA_OK.
Proof.
  unfold block_costs. destruct (prepare_cost_ok c w s n) as (P1 & P2 & P3).
  destruct (zultra_block_prepare_cost_evaluation c w s n) as [r0 c0]. cbn [fst snd] in *. subst r0.
  rewrite Z.ltb_irrefl. cbv iota.
  destruct (zultra_block_evaluate_static_cost _ _) as [r1 sc] eqn:E1.
  assert (r1 = 0) as -> by (unfold zultra_block_evaluate_static_cost in E1; congruence).
  rewrite Z.ltb_irrefl. cbv iota.
  destruct (estimate_codelens_ok (literalsEncoder c0)) as [Q1 _]; [rewrite P2; unfold NLITERALSYMS, MAX_SYMBOLS; lia |].
  destruct (zultra_huffman_encoder_estimate_dynamic_codelens (literalsEncoder c0)) as [r2 le].
  cbn [fst] in Q1. subst r2. rewrite Z.ltb_irrefl. cbv iota. cbn [offsetEncoder set_literals].
  destruct (estimate_codelens_ok (offsetEncoder c0)) as [Q3 _]; [rewrite P3; unfold NOFFSETSYMS, MAX_SYMBOLS; lia |].
  destruct (zultra_huffman_encoder_estimate_dynamic_codelens (offsetEncoder c0)) as [r3 oe].
  cbn [fst] in Q3. subst r3. rewrite Z.ltb_irrefl. cbv iota.
  destruct (zultra_block_evaluate_dynamic_cost _ _) as [r4 dc] eqn:E4.
  assert (r4 = 0) as -> by (unfold zultra_block_evaluate_dynamic_cost in E4; congruence).
  done.
Qed.

(** ** A block step with room for its stored form *)

Lemma bitwriter_copy_id b : bitwriter_copy b = b.
Proof. by destruct b. Qed.

Lemma is_final_range a b n i m : 0 <= is_final a b n i m <= 1.
Proof. unfold is_final. case_match; lia. Qed.

Lemma get_offset_nonneg bw : 0 <= get_offset bw -> get_offset bw = nOutOffset bw /\ nOutOffset bw <= nMaxOutDataOffset bw.
Proof. unfold get_offset. case_match; bool_to_prop; lia. Qed.

(** The writer rewound over the shared buffer reads as the writer it was
    saved from. *)
Lemma rewound_writer bw bw3 :
  bw_inv bw -> bw_extends bw bw3 ->
  bw_inv (with_out (bitwriter_copy bw) (pOutData bw3)) /\
  bw_stream (with_out (bitwriter_copy bw) (pOutData bw3)) = bw_stream bw.
Proof.
  intros (C & D & O & L) (_ & _ & L3 & T3). unfold bw_inv, bw_stream, with_out, bitwriter_copy; simpl.
  rewrite L3, T3. done.
Qed.

Section Step.

Context (opt : Z -> list Z -> list Z) (k : chunk) (splits : list Z) (c : compressor) (bw : bitwriter)
  (nInStart nNumSplits : Z).

Let nBlockSize := splits.[nNumSplits] - (nInStart + previous_block_size k).
Let nIsFinal := is_final (nDoFinalize k) (avail_in_empty k) (nInDataSize k) nInStart nBlockSize.
Let L := out_limit (nMaxBlockSize k).

Hypothesis Hbytes : Forall is_byte (in_data k).
Hypothesis I0 : bw_inv bw.
Hypothesis Hmx : nMaxOutDataOffset bw = L.
Hypothesis Hlen : L <= Z.of_nat (length (pOutData bw)).
Hypothesis Hn : 0 < nBlockSize.
Hypothesis Hroom : nOutOffset bw + (nEncBitCount bw + 2) / 8 + 5 * stored_count nBlockSize + nBlockSize <= L.

(** The two header bits fit and leave the writer [(c + 3) / 8] bytes on. *)
Lemma step_header dyn :
  0 <= dyn <= 1 ->
  exists bw1 bw2, put_bits bw nIsFinal 1 = (0, bw1) /\ put_bits bw1 (1 + dyn) 2 = (0, bw2) /\
    bw_inv bw2 /\ bw_extends bw bw2 /\ nOutOffset bw2 = nOutOffset bw + (nEncBitCount bw + 3) / 8.
Proof.
  intros Hd. pose proof (stored_count_pos _ Hn). pose proof (is_final_range (nDoFinalize k) (avail_in_empty k)
    (nInDataSize k) nInStart nBlockSize). pose proof (length_bw_stream bw I0) as N0. pose proof I0 as (C0 & _).
  destruct (put_bits_ok bw nIsFinal 1) as (bw1 & E1 & I1 & S1 & M1 & L1); [done | lia | simpl; lia | zlia |].
  pose proof (length_bw_stream bw1 I1) as N1. pose proof I1 as (C1 & _).
  rewrite S1, length_app, length_bits_of in N1.
  destruct (put_bits_ok bw1 (1 + dyn) 2) as (bw2 & E2 & I2 & S2 & M2 & L2); [done | lia | simpl; lia | zlia |].
  pose proof (length_bw_stream bw2 I2) as N2. pose proof I2 as (C2 & _).
  rewrite S2, S1, !length_app, !length_bits_of in N2.
  exists bw1, bw2. split; [done |]. split; [done |]. split; [done |]. split; [| zlia].
  etransitivity; [exact (put_bits_ext _ _ _ _ _ E1) | exact (put_bits_ext _ _ _ _ _ E2)].
Qed.

(** C19. A turn of the block loop of [zultra_stream_compress] (lines
    295-386), from a byte-aligned or partly filled writer with room in
    [out_buffer] for the block's stored form, never fails: it writes the
    3 header bits and either keeps the compressed block, which then takes
    at most [nBlockSize] bytes after the header and leaves every byte
    written before it unchanged, or rewinds and writes stored blocks that
    decode, from the bit where the writer stood, to the block's bytes
    with the block's final flag on the last one.  Either way the writer
    ends no further than the stored form would take it, and the loop
    moves on by one split. *)
Theorem block_step_bounded :
  let '(err, c', bw', nInStart', nNumSplits') := block_step opt k splits c bw nInStart nNumSplits in
  err = ZULTRA_OK /\ nInStart' = nInStart + nBlockSize /\ nNumSplits' = nNumSplits + 1 /\
  nOutOffset bw' <= nOutOffset bw + (nEncBitCount bw + 2) / 8 + 5 * stored_count nBlockSize + nBlockSize /\
  ((bw_extends bw bw' /\ nOutOffset bw' <= nOutOffset bw + (nEncBitCount bw + 3) / 8 + nBlockSize) \/
   exists blocks, bw_inv bw' /\ nEncBitCount bw' = 0 /\
     stored_decode_n (length blocks) (bw_stream bw') (length (bw_stream bw)) = Some (blocks, length (bw_stream bw')) /\
     mjoin (map snd blocks) = map (aget (in_data k)) (zseq (HISTORY_SIZE + nInStart) (Z.to_nat nBlockSize)) /\
     map fst blocks = replicate (length blocks - 1) false ++ [nIsFinal =? 1]).
Proof.
  pose proof (stored_count_pos _ Hn). pose proof I0 as (C0 & _).
  unfold block_step. fold nBlockSize. fold nIsFinal.
  pose proof (block_costs_ok c (window k) (previous_block_size k + nInStart) nBlockSize) as HC.
  destruct (block_costs _ _ _ _) as [[[err0 c1] sc] dc]. subst err0.
  destruct (step_header (if negb (sc <=? dc) then 1 else 0)) as (bw1 & bw2 & E1 & E2 & I2 & X2 & O2);
    [by case_match; lia |].
  rewrite E1. cbv iota. rewrite Z.ltb_irrefl. cbv iota. rewrite E2. cbv iota. rewrite Z.ltb_irrefl.
  rewrite bitwriter_copy_id. destruct (decide (ZULTRA_OK <> ZULTRA_OK)) as [[] |]; [done |].
  rewrite (get_offset_inv bw2 I2). replace (nOutOffset bw2 <? 0) with false by (symmetry; apply Z.ltb_ge; destruct I2 as (_ & _ & ? & _); lia).
  destruct (zultra_block_deflate _ _ _ _ _ _ _) as [[ncr c2] bw3] eqn:ED.
  pose proof (block_deflate_ext _ _ _ _ _ _ _ _ _ _ ED) as X3.
  destruct ((ncr <? 0) || (get_offset bw3 <? 0) || (nBlockSize <? get_offset bw3 - nOutOffset bw2)) eqn:EF.
  - assert (X03 : bw_extends bw bw3) by (etransitivity; eassumption).
    destruct (rewound_writer bw bw3 I0 X03) as [IR SR].
    destruct (stored_loop_ok (nMaxBlockSize k) (in_data k) (HISTORY_SIZE + nInStart) nIsFinal Hbytes
      (is_final_range _ _ _ _ _) (stored_fuel nBlockSize) (with_out (bitwriter_copy bw) (pOutData bw3)) 0 nBlockSize)
      as (bw4 & bl & E4 & I4 & C4 & _ & _ & O4 & _ & _ & D4 & J4 & F4 & _);
      [done | done | unfold with_out, bitwriter_copy; simpl; destruct X03 as (_ & _ & -> & _); done | done |
       unfold stored_fuel; lia | done |].
    rewrite E4. cbv iota. rewrite SR in D4. rewrite Z.add_0_r in J4.
    split; [done |]. split; [done |]. split; [done |]. split; [rewrite O4; simpl; lia |].
    right. exists bl. done.
  - apply orb_false_iff in EF as [EF EF3]. apply orb_false_iff in EF as [_ EF2]. bool_to_prop.
    destruct (get_offset_nonneg bw3) as [G3 _]; [lia |]. rewrite G3 in EF3.
    split; [done |]. split; [done |]. split; [done |]. split; [zlia |].
    left. split; [etransitivity; eassumption | lia].
Qed.

End Step.

(** ** A split chunk is consumed to its end *)

Lemma block_step_advance opt k sp c bw i j :
  let '(err, _, _, i', j') := block_step opt k sp c bw i j in
  err = ZULTRA_OK -> i' = sp.[j] - previous_block_size k /\ j' = j + 1.
Proof.
  unfold block_step. repeat case_match; simplify_eq; intros; try done; split; lia.
Qed.

Lemma block_loop_S opt f k sp c bw i j :
  block_loop opt (S f) k sp c bw i j =
    if i <? nInDataSize k then
      let '(err, c', bw', i', j') := block_step opt k sp c bw i j in
      if decide (err = ZULTRA_OK) then block_loop opt f k sp c' bw' i' j' else (err, c', bw', i')
    else (ZULTRA_OK, c, bw, i).
Proof. reflexivity. Qed.

(** Every split but the last lies strictly before the end of the chunk. *)
Lemma split_before_end sp x j :
  StronglySorted Z.lt sp -> last sp = Some x -> (j < length sp - 1)%nat -> sp.[Z.of_nat j] < x.
Proof.
  intros HS HL Hj. apply last_Some in HL as [l ->]. rewrite length_app in Hj. cbn [length] in Hj.
  apply StronglySorted_before in HS. rewrite Forall_lookup in HS.
  assert (Hl : (l ++ [x]) !! j = l !! j) by (apply lookup_app_l; lia).
  destruct (l !! j) as [y |] eqn:Ey; [| apply lookup_ge_None in Ey; lia].
  assert (Hy : (l ++ [x]).[Z.of_nat j] = y) by (unfold aget; rewrite Nat2Z.id, Hl; done).
  rewrite Hy. exact (HS j y Ey).
Qed.

Section Consume.

Context (opt : Z -> list Z -> list Z) (k : chunk) (sp : list Z).
Let prev := previous_block_size k.
Let n := nInDataSize k.
Hypothesis Hn : 0 < n.
Hypothesis Hsorted : StronglySorted Z.lt sp.
Hypothesis Hin : Forall (fun x => prev < x <= prev + n) sp.
Hypothesis Hlast : last sp = Some (prev + n).

(** [nInStart] after [j] blocks: the chunk offset of the [j]th split. *)
Definition start_after (j : nat) : Z := match j with O => 0 | S j' => sp.[Z.of_nat j'] - prev end.

Lemma start_after_bound j : (j <= length sp)%nat -> 0 <= start_after j <= n /\ (start_after j = n <-> j = length sp).
Proof.
  intros Hj. pose proof Hlast as HL. apply last_Some in HL as [l Hl].
  assert (Hlen : length sp = S (length l)) by (rewrite Hl, length_app; simpl; lia).
  destruct j as [| j]; simpl.
  - split; [lia |]. split; intros; lia.
  - assert (Hj' : 0 <= Z.of_nat j < Z.of_nat (length sp)) by lia.
    pose proof (aget_lookup sp (Z.of_nat j) Hj') as Hlk. rewrite Nat2Z.id in Hlk.
    rewrite Forall_lookup in Hin. pose proof (Hin _ _ Hlk).
    destruct (decide (S j = length sp)) as [Heq | Hne].
    + assert (sp.[Z.of_nat j] = prev + n).
      { rewrite Hl in Hlk. rewrite lookup_app_r in Hlk by lia.
        replace (j - length l)%nat with 0%nat in Hlk by lia. simpl in Hlk. congruence. }
      lia.
    + pose proof (split_before_end sp (prev + n) j Hsorted Hlast ltac:(lia)). lia.
Qed.

Lemma block_loop_consumes fuel : forall c bw j,
  (j <= length sp)%nat -> (length sp - j <= fuel)%nat ->
  let '(err, _, _, i') := block_loop opt fuel k sp c bw (start_after j) (Z.of_nat j) in
  err = ZULTRA_OK -> i' = n.
Proof.
  induction fuel as [| f IH]; intros c bw j Hj Hf.
  - simpl. intros _. apply start_after_bound; lia.
  - rewrite block_loop_S. fold n. destruct (start_after_bound j Hj) as [B1 B2].
    destruct (start_after j <? n) eqn:Elt; bool_to_prop; [| intros _; lia].
    assert (Hj' : (j < length sp)%nat) by (destruct (decide (j = length sp)); [apply B2 in e; lia | lia]).
    pose proof (block_step_advance opt k sp c bw (start_after j) (Z.of_nat j)) as HA.
    destruct (block_step _ _ _ _ _ _ _) as [[[[err c'] bw'] i'] j'].
    destruct (decide (err = ZULTRA_OK)) as [-> | Hne]; [| by intros].
    destruct (HA eq_refl) as [-> ->].
    replace (sp.[Z.of_nat j] - previous_block_size k) with (start_after (S j)) by done.
    replace (Z.of_nat j + 1) with (Z.of_nat (S j)) by lia.
    apply IH; lia.
Qed.

End Consume.

(** ** Claims *)

(** [zultra_block_deflate] never rewrites a byte committed before it
    was called: whatever it returns, success or failure, its writer's
    offset has not moved back, its limit and buffer size are unchanged,
    and every byte before the old offset is intact.  The stream layer's
    rewind relies on it, since the rewound writer reads the buffer the
    abandoned block wrote into. *)
Theorem block_deflate_appends opt c bw w s n dyn :
  bw_extends bw (snd (zultra_block_deflate opt c bw w s n dyn)).
Proof.
  destruct (zultra_block_deflate opt c bw w s n dyn) as [[r c'] bw'] eqn:E. exact (block_deflate_ext _ _ _ _ _ _ _ _ _ _ E).
Qed.

(** C20. A chunk that [zultra_stream_compress] has split with
    [zultra_block_split] is written to its end: when the block loop
    (lines 295-386) finishes without an error, [nInStart] has reached
    [nInDataSize], so no input byte is left unwritten; the loop reads
    the split array only at indices below the count [zultra_block_split]
    returned. *)
Theorem compress_chunk_consumes opt k c bw :
  0 < nInDataSize k ->
  let '(err, _, _, nInStart) := compress_chunk opt k c bw in
  err = ZULTRA_OK -> nInStart = nInDataSize k.
Proof.
  intros Hn. unfold compress_chunk.
  pose proof (block_split_spec c (window k) (previous_block_size k) (nInDataSize k) MAX_SPLITS
    ltac:(unfold MAX_SPLITS; lia) Hn) as HS.
  destruct (zultra_block_split _ _ _ _ _) as [[ns c1] sp].
  destruct HS as (-> & Hk & Hsort & Hin & Hlast).
  replace (Z.of_nat (length sp) <? 0) with false by (symmetry; apply Z.ltb_ge; lia).
  rewrite Nat2Z.id. apply (block_loop_consumes opt k sp Hn Hsort Hin Hlast (length sp) c1 bw 0); lia.
Qed.

(** ** Witnesses *)

(** A chunk of 10 bytes after an empty history, in one block. *)
Definition step_ex_chunk : chunk :=
  mk_chunk (replicate (Z.to_nat HISTORY_SIZE) 0 ++ [120; 1; 2; 3; 250; 251; 252; 253; 254; 255]) 0 10 10 true true.

Lemma compress_chunk_consumes_witness :
  let '(err, _, _, nInStart) := compress_chunk (fun _ a => a) step_ex_chunk lz_ex_compressor stored_ex_writer in
  err = ZULTRA_OK -> nInStart = nInDataSize step_ex_chunk.
Proof. apply compress_chunk_consumes. simpl. lia. Defined.

Lemma block_step_bounded_witness :
  let '(err, c', bw', nInStart', nNumSplits') :=
    block_step (fun _ a => a) step_ex_chunk [10] lz_ex_compressor stored_ex_writer 0 0 in
  err = ZULTRA_OK /\ nInStart' = 0 + 10 /\ nNumSplits' = 0 + 1 /\
  nOutOffset bw' <= nOutOffset stored_ex_writer + (nEncBitCount stored_ex_writer + 2) / 8 + 5 * stored_count 10 + 10 /\
  ((bw_extends stored_ex_writer bw' /\ nOutOffset bw' <= nOutOffset stored_ex_writer + (nEncBitCount stored_ex_writer + 3) / 8 + 10) \/
   exists blocks, bw_inv bw' /\ nEncBitCount bw' = 0 /\
     stored_decode_n (length blocks) (bw_stream bw') (length (bw_stream stored_ex_writer)) = Some (blocks, length (bw_stream bw')) /\
     mjoin (map snd blocks) = map (aget (in_data step_ex_chunk)) (zseq (HISTORY_SIZE + 0) (Z.to_nat 10)) /\
     map fst blocks = replicate (length blocks - 1) false ++ [1 =? 1]).
Proof.
  exact (block_step_bounded (fun _ a => a) step_ex_chunk [10] lz_ex_compressor stored_ex_writer 0 0
    ltac:(decide_by_eval) ltac:(unfold bw_inv; decide_by_eval) eq_refl ltac:(decide_by_eval) ltac:(decide_by_eval)
    ltac:(decide_by_eval)).
Defined.

End Driver.
