(* ===== verification/Compress.v ===== *)
(** * The streaming compressor ([src/libzultra.c], [zultra_stream_compress])

    One call of [zultra_stream_compress] (lines 199-481) repeats, while no
    error occurred and the caller still has input and output room, a turn
    that: emits the frame header once; copies pending frame bytes to the
    caller; loads the dictionary into the history; buffers input into
    [in_data]; when the buffer is full (or the call finalises) finds the
    matches of the chunk ([MatchFinder]), writes its blocks ([Driver]),
    keeps its last 32 KiB as history, pads the last byte when the stream
    ends, and hands the written bytes to the copy-out; copies pending
    output ([Stream.drain_out_buffer]); emits the frame footer once the
    compression is finalised.

    The frame functions ([zultra_frame_encode_header], [_footer],
    [_init_checksum], [_update_checksum]) live in [frame.c], which is not
    part of [src/], and [LAST_MATCH_OFFSET] is defined nowhere in the
    repository.  They are the
    variables of section [Stream], with the suffix sorter and
    [zultra_huffman_encoder_optimize_for_rle].

    Also here: [zultra_stream_init] (lines 81-165) when its allocations
    succeed, [zultra_stream_set_dictionary], [zultra_memory_bound] and
    [zultra_memory_compress].

    Theorems: each step of a turn only appends to the caller's output, so
    every buffer [zultra_memory_compress] fills starts with the frame
    header; a finalising call on an empty input delivers the frame header
    and nothing else (no DEFLATE block and no footer), against the spec's
    example of an empty gzip member. *)

From S2P Require Import Prelude BitWriter Format Suffixes MatchFinder Tables Huffman.
From S2P Require Import CodeLengths Block Lz77 Deflate Split Stream Driver.
Import BitWriter Format Suffixes MatchFinder Tables Huffman CodeLengths Block Lz77 Deflate Split Stream Driver.

Local Open Scope zultra_scope.

Module Compress.

(** The fields of [zultra_stream_t] the call reads and writes.  The
    input not yet consumed is [next_in] ([avail_in] is its length); the
    bytes written through [next_out] so far are [out]. *)
Record zstream := mk_zstream {
  next_in : list Z;
  total_in : Z;
  out : list Z;
  avail_out : Z;
  total_out : Z;
  adler : Z
}.

(** The stream state of [zultra_compressor_t] ([src/private.h], lines
    66-86), with the block state: [intervals], and the match arrays,
    [pos_data] and the encoders in [comp]. *)
Record zstate := mk_zstate {
  flags : Z;
  max_block_size : Z;
  dictionary_data : list Z;
  dictionary_size : Z;
  in_data : list Z;
  cur_in_bytes : Z;
  previous_block_size : Z;
  cur_out_index : Z;
  pending_out_bytes : Z;
  bitwriter : BitWriter.bitwriter;      (** writes [out_buffer] *)
  compression_state : Z;
  cur_frame_index : Z;
  pending_frame_bytes : Z;
  frame_buffer : list Z;
  intervals : list Z;
  comp : compressor
}.

(** Lines 545-551 and 86-91: the block size, defaulted and clamped. *)
Definition ZULTRA_DEFAULT_MAX_BLOCK_SIZE : Z := 1048576.

Definition clamp_block_size (nMaxBlockSize : Z) : Z :=
  let b := if nMaxBlockSize =? 0 then ZULTRA_DEFAULT_MAX_BLOCK_SIZE else nMaxBlockSize in
  let b := if b <? 32768 then 32768 else b in
  if 2097152 <? b then 2097152 else b.

(** An encoder as [memset(pCompressor, 0, ...)] leaves it. *)
Definition zero_encoder : huffman_encoder :=
  mk_encoder 0 0 (replicate (Z.to_nat MAX_SYMBOLS) 0) (replicate (Z.to_nat MAX_SYMBOLS) 0)
    (replicate (Z.to_nat MAX_SYMBOLS) 0).

(** Lines 81-165, when every allocation succeeds: the cleared context, the
    zeroed buffers of their sizes, the bit writer over [out_buffer]. *)
Definition zultra_stream_init (nFlags nMaxBlockSize : Z) : zstate :=
  let b := clamp_block_size nMaxBlockSize in
  let nMaxWindowSize := HISTORY_SIZE + b in
  mk_zstate nFlags b [] 0 (replicate (Z.to_nat (HISTORY_SIZE + b)) 0) 0 0 0 0
    (bitwriter_init (replicate (Z.to_nat (out_limit b)) 0) 0 (out_limit b))
    0 0 0 (replicate 16 0) (replicate (Z.to_nat nMaxWindowSize) 0)
    (mk_compressor (replicate (Z.to_nat (nMaxWindowSize * NMATCHES_PER_OFFSET)) no_match)
       (replicate (Z.to_nat nMaxWindowSize) no_match) (replicate (Z.to_nat nMaxWindowSize) 0)
       zero_encoder zero_encoder).

(** Lines 44-47: the bits of [compression_state]. *)
Definition CSTATE_HAS_DICTIONARY : Z := 1.
Definition CSTATE_HEADER_EMITTED : Z := 2.
Definition CSTATE_FINALIZED_COMPRESSION : Z := 4.
Definition CSTATE_FOOTER_EMITTED : Z := 8.

(** Lines 176-189. *)
Definition zultra_stream_set_dictionary (st : zstate) (pDictionaryData : list Z) (nDictionaryDataSize : Z)
    : zultra_status * zstate :=
  if compression_state st =? 0 then
    (ZULTRA_OK, {| st with dictionary_data := pDictionaryData; dictionary_size := nDictionaryDataSize;
                           compression_state := Z.lor (compression_state st) CSTATE_HAS_DICTIONARY |})
  else (ZULTRA_ERROR_COMPRESSION, st).

(** Lines 543-554, with [zultra_frame_get_header_size(nFlags, NULL, 0)]
    and [zultra_frame_get_footer_size] of [frame.c] as arguments: one
    byte per input byte, six bytes per possible split of every block, the
    padding byte and the frame.  The arithmetic is on [size_t]. *)
Definition zultra_memory_bound (zultra_frame_get_header_size zultra_frame_get_footer_size : Z -> Z)
    (nInputSize nFlags nMaxBlockSize : Z) : Z :=
  let b := clamp_block_size nMaxBlockSize in
  wrap 64 (zultra_frame_get_header_size nFlags + (wrap 64 (nInputSize + (b - 1)) / b) * (1 + 4 + 1) * MAX_SPLITS
           + nInputSize + 1 + zultra_frame_get_footer_size nFlags).

Section Stream.
(** The functions of [frame.c]: [zultra_frame_encode_header(frame_buffer,
    16, flags, dictionary_data, dictionary_size)] and
    [zultra_frame_encode_footer(frame_buffer, 16, adler, total_in, flags)]
    return the header or footer size, or a negative value, with the
    frame buffer they fill. *)
Variable zultra_frame_encode_header : list Z -> Z -> Z -> list Z -> Z -> Z * list Z.
Variable zultra_frame_encode_footer : list Z -> Z -> Z -> Z -> Z -> Z * list Z.
Variable zultra_frame_init_checksum : Z -> Z.
Variable zultra_frame_update_checksum : Z -> list Z -> Z -> Z.
Variable LAST_MATCH_OFFSET : Z.
Variable zultra_huffman_encoder_optimize_for_rle : Z -> list Z -> list Z.
Context `{SuffixSorter}.

(** Lines 205-217: the frame header, once. *)
Definition emit_header (st : zstate) (s : zstream) : zultra_status * zstate * zstream :=
  if Z.land (compression_state st) CSTATE_HEADER_EMITTED =? 0 then
    let st := {| st with compression_state := Z.lor (compression_state st) CSTATE_HEADER_EMITTED |} in
    let '(nHeaderSize, fb) :=
      zultra_frame_encode_header (frame_buffer st) 16 (flags st) (dictionary_data st) (dictionary_size st) in
    let st := {| st with frame_buffer := fb |} in
    let '(nError, st) :=
      if nHeaderSize <? 0 then (ZULTRA_ERROR_COMPRESSION, st)
      else (ZULTRA_OK, {| st with cur_frame_index := 0; pending_frame_bytes := nHeaderSize |}) in
    (nError, st, {| s with adler := zultra_frame_init_checksum (flags st) |})
  else (ZULTRA_OK, st, s).

(** Lines 219-240 and 460-477: pending frame bytes to the caller. *)
Definition frame_out (nError : zultra_status) (st : zstate) (s : zstream) : zultra_status * zstate * zstream :=
  if bool_decide (nError = ZULTRA_OK) && negb (pending_frame_bytes st =? 0) then
    if 16 <? cur_frame_index st + pending_frame_bytes st then (ZULTRA_ERROR_COMPRESSION, st, s)
    else if negb (avail_out s =? 0) then
      let n := Z.min (avail_out s) (pending_frame_bytes st) in
      (nError,
       {| st with cur_frame_index := cur_frame_index st + n; pending_frame_bytes := pending_frame_bytes st - n |},
       {| s with out := out s ++ map (aget (frame_buffer st)) (zseq (cur_frame_index st) (Z.to_nat n));
                 avail_out := avail_out s - n; total_out := total_out s + n |})
    else (nError, st, s)
  else (nError, st, s).

(** Lines 242-245: the dictionary becomes the history of the first chunk. *)
Definition load_dictionary (nError : zultra_status) (st : zstate) : zstate :=
  if bool_decide (nError = ZULTRA_OK) && (previous_block_size st =? 0) && negb (dictionary_size st =? 0)
     && negb (bool_decide (dictionary_data st = [])) then
    {| st with in_data := memcpy (in_data st) (HISTORY_SIZE - dictionary_size st) (dictionary_data st) 0
                            (dictionary_size st);
               previous_block_size := dictionary_size st |}
  else st.

(** Lines 275-282: the suffix array of the window (history and chunk),
    the history positions primed, the matches of the chunk found. *)
Definition find_chunk_matches (st : zstate) (nInDataSize : Z) : zultra_status * zstate :=
  let prev := previous_block_size st in
  let w := take (Z.to_nat (prev + nInDataSize)) (drop (Z.to_nat (HISTORY_SIZE - prev)) (in_data st)) in
  let c := comp st in
  let '(r, iv, pd) := zultra_build_suffix_array w (intervals st) (pos_data c) (prev + nInDataSize) in
  if negb (r =? 0) then
    (ZULTRA_ERROR_COMPRESSION, {| st with intervals := iv; comp := set_pos_data c pd |})
  else
    let '(iv, pd) := if negb (prev =? 0) then zultra_skip_matches iv pd 0 prev else (iv, pd) in
    let '(iv, pd, mt) := zultra_find_all_matches LAST_MATCH_OFFSET iv pd (cmatch c) prev (prev + nInDataSize) in
    (ZULTRA_OK, {| st with intervals := iv;
                           comp := mk_compressor mt (best_match c) pd (literalsEncoder c) (offsetEncoder c) |}).

(** Lines 262-420: a chunk of [nInDataSize > 0] bytes is in [in_data]
    after the history: checksum, matches, blocks, history for the next
    chunk, padding at the end of the stream, and the written bytes handed
    to the copy-out. *)
Definition compress_buffered (nDoFinalize : bool) (st : zstate) (s : zstream) (nInDataSize : Z)
    : zultra_status * zstate * zstream :=
  let nMaxBlockSize := max_block_size st in
  let s := {| s with adler := zultra_frame_update_checksum (adler s)
                        (map (aget (in_data st)) (zseq HISTORY_SIZE (Z.to_nat nInDataSize))) (flags st) |} in
  let st := {| st with dictionary_size := 0; cur_in_bytes := 0 |} in
  let '(nError, st) := find_chunk_matches st nInDataSize in
  let '(nError, st) :=
    if bool_decide (nError = ZULTRA_OK) then
      let k := mk_chunk (in_data st) (previous_block_size st) nInDataSize nMaxBlockSize nDoFinalize
                 (bool_decide (next_in s = [])) in
      let '(err, c, bw, _) := compress_chunk zultra_huffman_encoder_optimize_for_rle k (comp st) (bitwriter st) in
      (err, {| st with comp := c; bitwriter := bw |})
    else (nError, st) in
  let prev := Z.min nInDataSize HISTORY_SIZE in
  let st := {| st with previous_block_size := prev |} in
  let st := if negb (prev =? 0) then
              {| st with in_data := memcpy (in_data st) (HISTORY_SIZE - prev) (in_data st)
                                      (HISTORY_SIZE + (nMaxBlockSize - prev)) prev |}
            else st in
  let '(nError, st) :=
    if bool_decide (nError = ZULTRA_OK) && nDoFinalize && bool_decide (next_in s = []) then
      let '(r, bw) := flush_bits (bitwriter st) in
      if r <? 0 then (ZULTRA_ERROR_DST, {| st with bitwriter := bw |})
      else (nError, {| st with bitwriter := bw;
                               compression_state := Z.lor (compression_state st) CSTATE_FINALIZED_COMPRESSION |})
    else (nError, st) in
  if bool_decide (nError = ZULTRA_OK) then
    let nCurWriteOffset := get_offset (bitwriter st) in
    if nCurWriteOffset <? 0 then (ZULTRA_ERROR_DST, st, s)
    else (nError, {| st with cur_out_index := 0; pending_out_bytes := nCurWriteOffset;
                             bitwriter := set_offset (bitwriter st) 0 |}, s)
  else (nError, st, s).

(** Lines 247-423: buffer input; compress the chunk when the buffer is
    full and more input waits, or when the call finalises. *)
Definition buffer_input (nDoFinalize : bool) (nError : zultra_status) (st : zstate) (s : zstream)
    : zultra_status * zstate * zstream :=
  if bool_decide (nError = ZULTRA_OK) && (pending_frame_bytes st =? 0) && (pending_out_bytes st =? 0) then
    let nMaxBlockSize := max_block_size st in
    let nMaxInBytes := Z.min (Z.of_nat (length (next_in s))) (nMaxBlockSize - cur_in_bytes st) in
    let st := {| st with in_data := memcpy (in_data st) (HISTORY_SIZE + cur_in_bytes st) (next_in s) 0 nMaxInBytes;
                         cur_in_bytes := cur_in_bytes st + nMaxInBytes |} in
    let s := {| s with next_in := drop (Z.to_nat nMaxInBytes) (next_in s); total_in := total_in s + nMaxInBytes |} in
    if ((nMaxBlockSize <=? cur_in_bytes st) && negb (bool_decide (next_in s = []))) || nDoFinalize then
      let nInDataSize := cur_in_bytes st in
      if 0 <? nInDataSize then compress_buffered nDoFinalize st s nInDataSize
      else (nError, st, s)
    else (nError, st, s)
  else (nError, st, s).

(** Lines 424-444: [Stream.drain_out_buffer] on these records. *)
Definition copy_out (nError : zultra_status) (st : zstate) (s : zstream) : zultra_status * zstate * zstream :=
  let d := mk_drain (cur_out_index st) (pending_out_bytes st) (out s) (avail_out s) (total_out s) in
  let '(nError, d) := drain_out_buffer (max_block_size st) (pending_frame_bytes st) nError
                        (pOutData (bitwriter st)) d in
  (nError, {| st with cur_out_index := Stream.cur_out_index d; pending_out_bytes := Stream.pending_out_bytes d |},
   {| s with out := delivered d; avail_out := Stream.avail_out d; total_out := Stream.total_out d |}).

(** Lines 446-458: the frame footer, once the compression is finalised. *)
Definition emit_footer (nError : zultra_status) (st : zstate) (s : zstream) : zultra_status * zstate :=
  if bool_decide (nError = ZULTRA_OK) && (pending_frame_bytes st =? 0) && (pending_out_bytes st =? 0)
     && negb (Z.land (compression_state st) CSTATE_FINALIZED_COMPRESSION =? 0)
     && (Z.land (compression_state st) CSTATE_FOOTER_EMITTED =? 0) then
    let '(nFooterSize, fb) :=
      zultra_frame_encode_footer (frame_buffer st) 16 (adler s) (total_in s) (flags st) in
    let st := {| st with frame_buffer := fb |} in
    if nFooterSize <? 0 then (ZULTRA_ERROR_COMPRESSION, st)
    else (nError, {| st with compression_state :=
                               Z.land (Z.lor (compression_state st) CSTATE_FOOTER_EMITTED)
                                      (Z.lnot CSTATE_FINALIZED_COMPRESSION);
                             cur_frame_index := 0; pending_frame_bytes := nFooterSize |})
  else (nError, st).

(** Lines 203-478: one turn of the [do] loop. *)
Definition compress_turn (nDoFinalize : bool) (st : zstate) (s : zstream) : zultra_status * zstate * zstream :=
  let '(nError, st, s) := emit_header st s in
  let '(nError, st, s) := frame_out nError st s in
  let st := load_dictionary nError st in
  let '(nError, st, s) := buffer_input nDoFinalize nError st s in
  let '(nError, st, s) := copy_out nError st s in
  let '(nError, st) := emit_footer nError st s in
  frame_out nError st s.

(** Lines 199-481: [do { ... } while (!nError && avail_in && avail_out)]. *)
Fixpoint compress_loop (fuel : nat) (nDoFinalize : bool) (st : zstate) (s : zstream)
    : zultra_status * zstate * zstream :=
  match fuel with
  | O => (ZULTRA_OK, st, s)
  | S f =>
      let '(nError, st, s) := compress_turn nDoFinalize st s in
      if bool_decide (nError = ZULTRA_OK) && negb (bool_decide (next_in s = [])) && negb (avail_out s =? 0)
      then compress_loop f nDoFinalize st s
      else (nError, st, s)
  end.

(** The turns [zultra_memory_compress] allows its single call: two per
    byte of input or of output room, and one more. *)
Definition memory_fuel (nInputSize nMaxOutBufferSize : Z) : nat :=
  Z.to_nat (2 * (nInputSize + nMaxOutBufferSize) + 1).

(** Lines 568-586: init, one finalising call, end.  The result is the
    compressed size or -1, with the bytes written to [pOutBuffer]. *)
Definition zultra_memory_compress (pInputData : list Z) (nMaxOutBufferSize nFlags nMaxBlockSize : Z) : Z * list Z :=
  let st := zultra_stream_init nFlags nMaxBlockSize in
  let s := mk_zstream pInputData 0 [] nMaxOutBufferSize 0 0 in
  let '(nStatus, _, s) :=
    compress_loop (memory_fuel (Z.of_nat (length pInputData)) nMaxOutBufferSize) true st s in
  if bool_decide (nStatus = ZULTRA_OK) then (nMaxOutBufferSize - avail_out s, out s) else (-1, out s).

(** ** The caller's output only grows

    Every part of a turn either leaves [next_out] alone or copies bytes
    after the ones already there: what has been delivered is never
    overwritten. *)

Lemma emit_header_out st s : out (emit_header st s).2 = out s.
Proof. unfold emit_header. by repeat case_match; simplify_eq. Qed.

Lemma frame_out_prefix e st s : out s `prefix_of` out (frame_out e st s).2.
Proof. unfold frame_out. repeat case_match; cbn; by eauto using prefix_app_r. Qed.

Lemma compress_buffered_out b st s k : out (compress_buffered b st s k).2 = out s.
Proof. unfold compress_buffered. by repeat case_match; simplify_eq. Qed.

Lemma buffer_input_out b e st s : out (buffer_input b e st s).2 = out s.
Proof.
  unfold buffer_input. repeat case_match; try done. by rewrite compress_buffered_out.
Qed.

Lemma copy_out_prefix e st s : out s `prefix_of` out (copy_out e st s).2.
Proof.
  unfold copy_out, drain_out_buffer. repeat case_match; simplify_eq; cbn; by eauto using prefix_app_r.
Qed.

(** What the first [frame_out] of a turn has delivered stays in front. *)
Lemma compress_turn_after_frame b st s :
  let '(e1, st1, s1) := emit_header st s in
  out (frame_out e1 st1 s1).2 `prefix_of` out (compress_turn b st s).2.
Proof.
  unfold compress_turn.
  destruct (emit_header st s) as [[e1 st1] s1].
  destruct (frame_out e1 st1 s1) as [[e2 st2] s2].
  destruct (buffer_input b e2 (load_dictionary e2 st2) s2) as [[e3 st3] s3] eqn:E3.
  destruct (copy_out e3 st3 s3) as [[e4 st4] s4] eqn:E4.
  destruct (emit_footer e4 st4 s4) as [e5 st5].
  pose proof (buffer_input_out b e2 (load_dictionary e2 st2) s2) as H3.
  pose proof (copy_out_prefix e3 st3 s3) as H4. pose proof (frame_out_prefix e5 st5 s4) as H5.
  rewrite E3 in H3. rewrite E4 in H4. cbn in *.
  rewrite <- H3. etrans; [exact H4|exact H5].
Qed.

Lemma compress_turn_prefix b st s : out s `prefix_of` out (compress_turn b st s).2.
Proof.
  pose proof (compress_turn_after_frame b st s) as Ht. pose proof (emit_header_out st s) as H1.
  destruct (emit_header st s) as [[e1 st1] s1]. cbn in H1.
  rewrite <- H1. etrans; [apply frame_out_prefix|exact Ht].
Qed.

Lemma compress_loop_prefix fuel b st s : out s `prefix_of` out (compress_loop fuel b st s).2.
Proof.
  revert st s. induction fuel as [|fuel IH]; intros st s; [done|]. cbn [compress_loop].
  pose proof (compress_turn_prefix b st s) as Ht.
  destruct (compress_turn b st s) as [[e st'] s']. cbn in Ht.
  case_match; [etrans; [exact Ht|apply IH]|exact Ht].
Qed.

Lemma memory_fuel_S n o : 0 <= n -> 0 <= o -> exists f, memory_fuel n o = S f.
Proof. intros. exists (Z.to_nat (2 * (n + o))). unfold memory_fuel. lia. Qed.

(** C21. Whatever the input, the buffer [zultra_memory_compress] fills
    starts with the frame header, when the header fits both the 16-byte
    frame buffer and the output buffer: the first turn emits the header
    (lines 205-217) and copies it out at once (lines 219-240), and every
    later step, blocks, copy-out and footer included, only appends after
    it.  This holds whether the call succeeds or fails. *)
Theorem memory_compress_header_first pInputData nMaxOutBufferSize nFlags nMaxBlockSize n fb :
  zultra_frame_encode_header (replicate 16 0) 16 nFlags [] 0 = (n, fb) ->
  0 <= n <= 16 -> n <= nMaxOutBufferSize ->
  map (aget fb) (zseq 0 (Z.to_nat n)) `prefix_of`
    (zultra_memory_compress pInputData nMaxOutBufferSize nFlags nMaxBlockSize).2.
Proof.
  intros Hh Hn Hroom. unfold zultra_memory_compress.
  set (st := zultra_stream_init nFlags nMaxBlockSize).
  set (s := mk_zstream pInputData 0 [] nMaxOutBufferSize 0 0).
  destruct (memory_fuel_S (Z.of_nat (length pInputData)) nMaxOutBufferSize) as [f ->]; [lia..|].
  assert (Hfirst : map (aget fb) (zseq 0 (Z.to_nat n)) `prefix_of` out (compress_turn true st s).2).
  { pose proof (compress_turn_after_frame true st s) as Ht.
    unfold emit_header in Ht. cbn [st zultra_stream_init compression_state frame_buffer flags
      dictionary_data dictionary_size] in Ht. rewrite Z.land_0_l, Z.eqb_refl, Hh in Ht.
    cbn -[aget zseq] in Ht. rewrite (proj2 (Z.ltb_ge n 0)) in Ht by lia.
    unfold frame_out in Ht. cbn -[aget zseq] in Ht.
    destruct (Z.eqb_spec n 0) as [->|Hn0]; [apply prefix_nil|]. cbn -[aget zseq] in Ht.
    rewrite (proj2 (Z.ltb_ge 16 (0 + n))), (proj2 (Z.eqb_neq nMaxOutBufferSize 0)),
      (Z.min_r nMaxOutBufferSize n) in Ht by lia. exact Ht. }
  cbn [compress_loop]. destruct (compress_turn true st s) as [[e st'] s']. cbn in Hfirst.
  match goal with |- context [if ?c then compress_loop f true st' s' else ?r] =>
    assert (Hs : map (aget fb) (zseq 0 (Z.to_nat n)) `prefix_of`
                 out (if c then compress_loop f true st' s' else r).2)
      by (destruct c; [etrans; [exact Hfirst|apply compress_loop_prefix]|exact Hfirst]);
    destruct (if c then compress_loop f true st' s' else r) as [[e2 st2] s2] end.
  cbn in Hs. by case_match.
Qed.

(** ** A finalising call on an empty input *)

Section Empty.
Variable fb : list Z.
Variable n : Z.
Variables (st : zstate) (s : zstream).
(** A context as [zultra_stream_init] leaves it, with no dictionary. *)
Hypothesis Hfresh : compression_state st = 0 /\ pending_frame_bytes st = 0 /\ pending_out_bytes st = 0 /\
  cur_in_bytes st = 0 /\ previous_block_size st = 0 /\ dictionary_size st = 0 /\ 0 <= max_block_size st.
(** The header fits the frame buffer and the caller's buffer. *)
Hypothesis Hheader : zultra_frame_encode_header (frame_buffer st) 16 (flags st) (dictionary_data st) 0 = (n, fb).
Hypothesis Hn : 0 <= n <= 16.
Hypothesis Hroom : n <= avail_out s.
Hypothesis Hin : next_in s = [].

Lemma empty_turn :
  let '(err, st', s') := compress_turn true st s in
  err = ZULTRA_OK /\ out s' = out s ++ map (aget fb) (zseq 0 (Z.to_nat n)) /\ next_in s' = [] /\
  avail_out s' = avail_out s - n /\ Z.land (compression_state st') CSTATE_FINALIZED_COMPRESSION = 0.
Proof.
  destruct Hfresh as (Hcs & Hpf & Hpo & Hcur & Hprev & Hdict & Hmax).
  assert (Hok : bool_decide (ZULTRA_OK = ZULTRA_OK) = true) by (apply bool_decide_eq_true; done).
  unfold compress_turn, emit_header, frame_out, load_dictionary, buffer_input, copy_out,
    drain_out_buffer, emit_footer.
  rewrite Hcs, Z.land_0_l, Z.eqb_refl. cbn -[compress_buffered memcpy aget zseq Z.min].
  rewrite Hdict, Hheader. cbn -[compress_buffered memcpy aget zseq Z.min].
  rewrite (proj2 (Z.ltb_ge n 0)) by lia. cbn -[compress_buffered memcpy aget zseq Z.min].
  rewrite (Z.min_r (avail_out s) n), (proj2 (Z.ltb_ge 16 (0 + n))) by lia.
  replace (n - n) with 0 by lia. replace (0 + n) with n by lia.
  rewrite Hprev, Hpo, Hcur, Hin, Hok. cbn -[compress_buffered memcpy aget zseq Z.min].
  destruct (Z.eqb_spec n 0) as [->|Hn0]; cbn -[compress_buffered memcpy aget zseq Z.min];
    [|rewrite (proj2 (Z.eqb_neq (avail_out s) 0)) by lia].
  all: repeat progress (cbn -[compress_buffered memcpy aget zseq Z.min]; rewrite ?Hok).
  all: change (Z.of_nat 0) with 0; rewrite ?Z.sub_0_r, ?(Z.min_l 0 (max_block_size st)) by lia.
  all: repeat progress (cbn -[compress_buffered aget zseq];
    rewrite ?Hok, ?Z.add_0_l, ?Z.add_0_r, ?Z.ltb_irrefl, ?orb_true_r, ?Z.lor_0_l;
    try change (Z.to_nat 0) with 0%nat).
  all: split_and!; try (done || lia). cbn. by rewrite app_nil_r.
Qed.

End Empty.

(** C36. [zultra_memory_compress] on an empty input writes the frame header
    and nothing else, for every frame format: the call to
    [zultra_stream_compress] finds no buffered byte (line 264), so no
    DEFLATE block is written, the final-block padding and
    [CSTATE_FINALIZED_COMPRESSION] are skipped, and the footer (line 446)
    is never emitted.  The spec's example [compress("", gzip)] expects the
    empty final block [03 00] and the 8-byte gzip footer after the
    header; a raw DEFLATE stream (header size 0) comes out empty. *)
Theorem memory_compress_empty_header_only nFlags nMaxBlockSize nMaxOutBufferSize n fb :
  zultra_frame_encode_header (replicate 16 0) 16 nFlags [] 0 = (n, fb) ->
  0 <= n <= 16 -> n <= nMaxOutBufferSize ->
  zultra_memory_compress [] nMaxOutBufferSize nFlags nMaxBlockSize = (n, map (aget fb) (zseq 0 (Z.to_nat n))).
Proof.
  intros Hh Hn Hroom. unfold zultra_memory_compress.
  set (st := zultra_stream_init nFlags nMaxBlockSize).
  set (s := mk_zstream [] 0 [] nMaxOutBufferSize 0 0).
  assert (Hfresh : compression_state st = 0 /\ pending_frame_bytes st = 0 /\ pending_out_bytes st = 0 /\
    cur_in_bytes st = 0 /\ previous_block_size st = 0 /\ dictionary_size st = 0 /\ 0 <= max_block_size st).
  { cbn. split_and!; try done. unfold clamp_block_size. repeat case_match; lia. }
  pose proof (empty_turn fb n st s Hfresh Hh Hn Hroom eq_refl) as Ht.
  replace (memory_fuel _ _) with (S (Z.to_nat (2 * nMaxOutBufferSize))) by (unfold memory_fuel; cbn; lia).
  cbn [compress_loop]. destruct (compress_turn true st s) as [[e st'] s'].
  destruct Ht as (He & Hout & Hin' & Hav & _).
  subst e. rewrite Hin', (bool_decide_eq_true_2 ([] = @nil Z)) by done.
  rewrite (bool_decide_eq_true_2 (ZULTRA_OK = ZULTRA_OK)) by done.
  cbn [andb negb]. rewrite Hav, Hout. cbn. f_equal. lia.
Qed.

End Stream.

(** A zlib-style frame (2-byte header [78 01]). *)
Lemma memory_compress_empty_header_only_witness :
  zultra_memory_compress (fun _ _ _ _ _ => (2, [120; 1])) (fun _ _ _ _ _ => (0, [])) (fun _ => 1)
    (fun c _ _ => c) 0 (fun _ l => l) [] 100 0 0 = (2, [120; 1]).
Proof.
  exact (memory_compress_empty_header_only (fun _ _ _ _ _ => (2, [120; 1])) (fun _ _ _ _ _ => (0, []))
    (fun _ => 1) (fun c _ _ => c) 0 (fun _ l => l) 0 0 100 2 [120; 1]
    eq_refl ltac:(decide_by_eval) ltac:(decide_by_eval)).
Defined.

(** The same frame, on the input [a]. *)
Lemma memory_compress_header_first_witness :
  [120; 1] `prefix_of`
    (zultra_memory_compress (fun _ _ _ _ _ => (2, [120; 1])) (fun _ _ _ _ _ => (0, [])) (fun _ => 1)
       (fun c _ _ => c) 0 (fun _ l => l) [97] 100 0 0).2.
Proof.
  exact (memory_compress_header_first (fun _ _ _ _ _ => (2, [120; 1])) (fun _ _ _ _ _ => (0, []))
    (fun _ => 1) (fun c _ _ => c) 0 (fun _ l => l) [97] 100 0 0 2 [120; 1]
    eq_refl ltac:(decide_by_eval) ltac:(decide_by_eval)).
Defined.

End Compress.
